(** * gen_video: a shallow embedding of the deterministic pipeline stages

    The development follows the services of the backend, one module per
    source class.  JavaScript numbers that only ever hold millisecond counts
    are integers ([Z]); the audio timing model multiplies by 0.8, 1.15 and
    0.15 and is carried out over the rationals ([Q]), so a double is read as
    the exact number it stands for, and [Math.round] is [floor (x + 1/2)].
    Where the result of a computation depends on how a product, a quotient
    or a sum is rounded to a double (the draw of a clip duration, the number
    of samples of a WAV file, the scaled size of a frame), the rounding is
    written out with [Double.round].
    Strings are [string]s of 8-bit characters and the text is taken to be
    ASCII: the case mapping and the classes \s, \w and \d are the ASCII
    ones.

    Part I holds the definitions, Part II the lemmas and theorems. *)

From Stdlib Require Import ZArith QArith Qround Qpower Lia Lqa List Bool Ascii String Sorted.
From stdpp Require Import base option list strings gmap.

Import ListNotations.
Local Open Scope string_scope.
Local Open Scope list_scope.
Local Open Scope Z_scope.

(** * Part I: the program *)

(** ** The JavaScript string and number primitives the services use *)

Module JS.

Definition isSpace (c : ascii) : bool :=
  let n := nat_of_ascii c in
  Nat.eqb n 32 || (Nat.leb 9 n && Nat.leb n 13).

Definition isDigit (c : ascii) : bool :=
  let n := nat_of_ascii c in Nat.leb 48 n && Nat.leb n 57.

Definition isUpper (c : ascii) : bool :=
  let n := nat_of_ascii c in Nat.leb 65 n && Nat.leb n 90.

Definition isLower (c : ascii) : bool :=
  let n := nat_of_ascii c in Nat.leb 97 n && Nat.leb n 122.

(** The class \w: letters, digits and the underscore. *)
Definition isWordChar (c : ascii) : bool :=
  isDigit c || isUpper c || isLower c || Nat.eqb (nat_of_ascii c) 95.

(** The characters [.] does not match: \n and \r. *)
Definition isLineTerminator (c : ascii) : bool :=
  let n := nat_of_ascii c in Nat.eqb n 10 || Nat.eqb n 13.

Definition lowerChar (c : ascii) : ascii :=
  if isUpper c then ascii_of_nat (nat_of_ascii c + 32) else c.

Fixpoint toLowerCase (s : string) : string :=
  match s with
  | EmptyString => EmptyString
  | String c s' => String (lowerChar c) (toLowerCase s')
  end.

(** [s.replace(/[^\w]/g, '')] is [keep isWordChar s]. *)
Fixpoint keep (p : ascii -> bool) (s : string) : string :=
  match s with
  | EmptyString => EmptyString
  | String c s' => if p c then String c (keep p s') else keep p s'
  end.

Fixpoint any (p : ascii -> bool) (s : string) : bool :=
  match s with
  | EmptyString => false
  | String c s' => p c || any p s'
  end.

(** [s.split(/\s+/)]: the pieces between maximal runs of white space; a
    leading or trailing run leaves an empty first or last piece, and the
    empty string splits into one empty piece.  [skipping] is set while a run
    of white space is being consumed, [cur] is the piece collected so far. *)
Fixpoint split_go (skipping : bool) (cur : string) (s : string) : list string :=
  match s with
  | EmptyString => [cur]
  | String c s' =>
      if isSpace c
      then (if skipping then split_go true cur s'
            else cur :: split_go true EmptyString s')
      else split_go false (cur ++ String c EmptyString)%string s'
  end.

Definition split_ws (s : string) : list string := split_go false EmptyString s.

(** [s.includes(sub)] *)
Fixpoint includes (s sub : string) : bool :=
  String.prefix sub s ||
  match s with
  | EmptyString => false
  | String _ s' => includes s' sub
  end.

Fixpoint dropWhile (p : ascii -> bool) (s : string) : string :=
  match s with
  | EmptyString => EmptyString
  | String c s' => if p c then dropWhile p s' else s
  end.

(** [s.trim() === ''] holds exactly when white space is all there is. *)
Definition trim_is_empty (s : string) : bool :=
  match dropWhile isSpace s with
  | EmptyString => true
  | _ => false
  end.

(** [Math.round], [Math.max] and [Math.min] on exact numbers. *)
Definition Math_round (x : Q) : Z := Qfloor (x + (1 # 2)).

Definition Math_max (a b : Q) : Q := if Qle_bool a b then b else a.

Definition Math_min (a b : Q) : Q := if Qle_bool a b then a else b.

(** [Math.ceil(a / b)] for integers [a] and a positive integer [b]. *)
Definition ceil_div (a b : Z) : Z := - ((- a) / b).

(** Values held by the properties of the objects that are passed between
    the services, and objects as lists of properties. *)
#[warnings="-register-all"]
Inductive Value :=
| Undefined
| Num (z : Z)
| Rat (q : Q)
| Str (s : string)
| Obj (fields : list (string * Value)).

Definition Object : Type := list (string * Value).

(** [obj.key]: [undefined] when the object has no such property. *)
Fixpoint get (obj : Object) (key : string) : Value :=
  match obj with
  | [] => Undefined
  | (k, v) :: rest => if String.eqb k key then v else get rest key
  end.

(** Values that arrive in a request body or are stored on a job:
    undefined (a missing property), null, booleans, numbers, strings, and
    arrays and objects.  A number is the double that was parsed, read as the
    exact rational it stands for; an array or object is given by the string
    that it converts to as a primitive. *)
Inductive Json :=
| JUndefined
| JNull
| JBool (b : bool)
| JNum (q : Q)
| JStr (s : string)
| JObject (prim : string).

(** [!!v] *)
Definition truthy (v : Json) : bool :=
  match v with
  | JUndefined | JNull => false
  | JBool b => b
  | JNum q => negb (Qeq_bool q 0)
  | JStr s => match s with EmptyString => false | _ => true end
  | JObject _ => true
  end.

(** [a || b] *)
Definition or (a b : Json) : Json := if truthy a then a else b.

(** [v !== null] *)
Definition notNull (v : Json) : bool :=
  match v with JNull => false | _ => true end.

(** A parameter with the default [= null]: undefined becomes null. *)
Definition orNull (v : Json) : Json :=
  match v with JUndefined => JNull | _ => v end.

End JS.

(** ** Doubles

    The binary64 numbers are the rationals with 53 significant bits; the
    result of an arithmetic operation on doubles is the double nearest to
    the exact result. *)

Module Double.

(** [exponent x]: the [e] with [2^e <= x < 2^(e+1)], for a positive [x]. *)
Definition exponent (x : Q) : Z :=
  let e := Z.log2 (Qnum x) - Z.log2 (Zpos (Qden x)) in
  if Qle_bool (2 ^ e) x then e else e - 1.

(** The integer nearest to [y]; of two that are as near, the even one. *)
Definition nearest_even (y : Q) : Z :=
  let f := Qfloor y in
  let d := (y - inject_Z f)%Q in
  if Qle_bool d (1 # 2)
  then (if Qeq_bool d (1 # 2) then (if Z.even f then f else f + 1) else f)
  else f + 1.

(** The spacing of the doubles around a positive [x]: 53 significant bits,
    and no finer than [2^-1074]. *)
Definition quantum (x : Q) : Q := (2 ^ (Z.max (exponent x) (-1022) - 52))%Q.

Definition round_pos (x : Q) : Q :=
  (inject_Z (nearest_even (x / quantum x)) * quantum x)%Q.

(** The double nearest to the real [x] (round to nearest, ties to even),
    for a magnitude below [2^1024]. *)
Definition round (x : Q) : Q :=
  match Qnum x with
  | Z0 => 0%Q
  | Zpos _ => round_pos x
  | Zneg _ => (- round_pos (- x))%Q
  end.

End Double.


(** ** Data shared by the services *)

(** A word-level timestamp, as pushed by [AudioService.generateVoiceover]. *)
Module Word.
Record t := mk {
  word : string;
  start_ms : Z;
  end_ms : Z;
  emphasis : bool
}.
End Word.

(** ** captionService.js: CaptionService *)

Module Caption.

Record Style := mkStyle {
  font_size : Z;
  color : string;
  emphasis_color : string;
  shadow : string
}.

Record t := mk {
  text : string;
  start_ms : Z;
  end_ms : Z;
  emphasis_indices : list nat;
  style : Style
}.

Definition default_style : Style :=
  {| font_size := 48;
     color := "#FFFFFF";
     emphasis_color := "#FCD34D";
     shadow := "2px 2px 4px rgba(0,0,0,0.5)" |}.

(** [currentGroup.map((w, i) => w.emphasis ? i : null).filter(idx => idx !== null)] *)
Fixpoint emphasis_positions (i : nat) (g : list Word.t) : list nat :=
  match g with
  | [] => []
  | w :: g' =>
      if Word.emphasis w then i :: emphasis_positions (S i) g'
      else emphasis_positions (S i) g'
  end.

(** [_pushGroup]: reading [currentGroup[0].start_ms] of an empty group is a
    TypeError, which is the [None] here. *)
Definition _pushGroup (groups : list t) (currentGroup : list Word.t)
  : option (list t) :=
  match currentGroup with
  | [] => None
  | first :: _ =>
      Some (groups ++
        [ {| text := String.concat " " (map Word.word currentGroup);
             start_ms := Word.start_ms first;
             end_ms := Word.end_ms (List.last currentGroup first);
             emphasis_indices := emphasis_positions 0 currentGroup;
             style := default_style |} ])
  end.

(** The body of the [forEach] callback.  The state is the pair of [groups]
    and [currentGroup]; [index] is the position of [item] and [len] is
    [timestamps.length]. *)
Definition step (len : nat) (st : list t * list Word.t) (index : nat)
    (item : Word.t) : option (list t * list Word.t) :=
  let '(groups, currentGroup) := st in
  let isFirstInGroup := Nat.eqb (length currentGroup) 0 in
  let potentialStart :=
    match currentGroup with
    | [] => Word.start_ms item
    | first :: _ => Word.start_ms first
    end in
  let potentialDuration := Word.end_ms item - potentialStart in
  let wouldExceedDuration := negb isFirstInGroup && (800 <? potentialDuration) in
  let reachedMaxWords := (3 <=? length currentGroup)%nat in
  st1 ← (if wouldExceedDuration || reachedMaxWords
         then groups' ← _pushGroup groups currentGroup; Some (groups', [item])
         else Some (groups, currentGroup ++ [item]));
  let '(groups1, currentGroup1) := st1 in
  let isLastWord := Nat.eqb (S index) len in
  if isLastWord && (0 <? length currentGroup1)%nat
  then groups2 ← _pushGroup groups1 currentGroup1; Some (groups2, currentGroup1)
  else Some (groups1, currentGroup1).

Fixpoint loop (len : nat) (st : list t * list Word.t) (index : nat)
    (items : list Word.t) : option (list t * list Word.t) :=
  match items with
  | [] => Some st
  | item :: rest =>
      st' ← step len st index item; loop len st' (S index) rest
  end.

Definition generateTimeline (timestamps : list Word.t) : option (list t) :=
  fst <$> loop (length timestamps) ([], []) 0%nat timestamps.

(** The part of a caption that the scenarios of the specification list:
    text, start and end. *)
Definition summary (c : t) : string * Z * Z := (text c, start_ms c, end_ms c).

(** The word list of scenario S5. *)
Definition s5_words : list Word.t :=
  [ Word.mk "a" 0 300 false; Word.mk "b" 300 600 false;
    Word.mk "c" 600 900 false; Word.mk "d" 900 1200 false ].

End Caption.

(** ** audioService.js: AudioService (the timing model) *)

Module Audio.

(** The argument of [generateVoiceover]: a plain string, or an object with
    the optional fields [hook], [body] and [ending]. *)
Inductive ScriptData :=
| Text (s : string)
| Obj (hook : option string) (body : option (list string)) (ending : option string).

(** What [_buildResult] returns, without the path of the audio file, which
    depends on the clock and on the synthesis back end and plays no part in
    the timing. *)
Record Result := mkResult {
  timestamps : list Word.t;
  duration_ms : Z;
  word_count : nat
}.

(** [[v].filter(Boolean)] for a field that is a string or undefined. *)
Definition truthy (o : option string) : list string :=
  match o with
  | Some (String c s) => [String c s]
  | _ => []
  end.

Definition nonEmpty (s : string) : bool :=
  match s with EmptyString => false | _ => true end.

(** [[scriptData.hook, ...(scriptData.body || []), scriptData.ending].filter(Boolean)] *)
Definition allText (scriptData : ScriptData) : list string :=
  match scriptData with
  | Text s => [s]
  | Obj hook body ending =>
      truthy hook ++ List.filter nonEmpty (default [] body) ++ truthy ending
  end.

Definition catalysts : list string :=
  [ "but"; "however"; "instead"; "secret"; "hidden"; "mastery";
    "always"; "never"; "must"; "only"; "stop"; "start"; "limit" ].

Definition _checkEmphasis (word : string) : bool :=
  let clean := JS.keep JS.isWordChar (JS.toLowerCase word) in
  if JS.any JS.isDigit clean then true
  else existsb (String.eqb clean) catalysts.

(** The state of the loops: the running cursor [currentTimeMs], the
    duration of the section so far and the timestamps pushed so far. *)
Record State := mkState {
  currentTimeMs : Q;
  sectionDurationMs : Q;
  pushed : list Word.t
}.

(** The callback of [words.forEach]. *)
Definition wordStep (duration_multiplier : Q) (st : State) (word : string) : State :=
  let isEmphasis := _checkEmphasis word in
  let wordDuration := (300 * duration_multiplier)%Q in
  let wordDuration := if isEmphasis then (wordDuration * 1.15)%Q else wordDuration in
  let cleanWord := JS.keep JS.isWordChar word in
  {| currentTimeMs := (currentTimeMs st + wordDuration)%Q;
     sectionDurationMs := (sectionDurationMs st + wordDuration)%Q;
     pushed := pushed st ++
       [ {| Word.word := cleanWord;
            Word.start_ms := JS.Math_round (currentTimeMs st);
            Word.end_ms := JS.Math_round (currentTimeMs st + wordDuration)%Q;
            Word.emphasis := isEmphasis |} ] |}.

(** The callback of [allText.forEach]; [len] is [allText.length]. *)
Definition sectionStep (len : nat) (st : State) (sectionIdx : nat)
    (section : string) : State :=
  let words := JS.split_ws section in
  let isHook := Nat.eqb sectionIdx 0 in
  let isEnding := Nat.eqb (S sectionIdx) len in
  let duration_multiplier := 1.0%Q in
  let duration_multiplier := if isHook then 0.8%Q else duration_multiplier in
  let duration_multiplier := if isEnding then 1.2%Q else duration_multiplier in
  let st1 :=
    fold_left (wordStep duration_multiplier) words
      {| currentTimeMs := currentTimeMs st;
         sectionDurationMs := 0;
         pushed := pushed st |} in
  if Nat.ltb (S sectionIdx) len
  then
    let pause :=
      JS.Math_min (JS.Math_max (sectionDurationMs st1 * 0.15)%Q 150%Q) 450%Q in
    {| currentTimeMs := (currentTimeMs st1 + pause)%Q;
       sectionDurationMs := sectionDurationMs st1;
       pushed := pushed st1 |}
  else st1.

Fixpoint sections (len : nat) (st : State) (sectionIdx : nat)
    (rest : list string) : State :=
  match rest with
  | [] => st
  | section :: rest' =>
      sections len (sectionStep len st sectionIdx section) (S sectionIdx) rest'
  end.

Definition generateVoiceover (scriptData : ScriptData) : Result :=
  let texts := allText scriptData in
  let final :=
    sections (length texts)
      {| currentTimeMs := 0; sectionDurationMs := 0; pushed := [] |}
      0%nat texts in
  let totalDurationMs := currentTimeMs final in
  {| timestamps := pushed final;
     duration_ms := JS.Math_round totalDurationMs;
     word_count := length (pushed final) |}.

(** *** The timing model in the words of the specification

    A section is the hook, a body sentence or the ending; the duration of a
    word is 300 ms times the multiplier of its section, stretched by 1.15
    when the word is an emphasis trigger; a pause follows every section but
    the last. *)

Inductive Position := Hook | Body | Ending.

Definition multiplier (p : Position) : Q :=
  match p with Hook => 0.8 | Body => 1.0 | Ending => 1.2 end%Q.


Definition spec_word_duration (p : Position) (token : string) : Q :=
  (300 * multiplier p * (if _checkEmphasis token then 1.15 else 1))%Q.




(** The timestamps of the words of one section that starts at [cursor]. *)
Fixpoint spec_stamps (p : Position) (cursor : Q) (tokens : list string)
  : list Word.t :=
  match tokens with
  | [] => []
  | token :: rest =>
      let d := spec_word_duration p token in
      {| Word.word := JS.keep JS.isWordChar token;
         Word.start_ms := JS.Math_round cursor;
         Word.end_ms := JS.Math_round (cursor + d)%Q;
         Word.emphasis := _checkEmphasis token |}
      :: spec_stamps p (cursor + d)%Q rest
  end.



(** The six durations a word can have. *)
Definition whole_duration (p : Position) (emphasis : bool) : Z :=
  match p, emphasis with
  | Hook, false => 240
  | Hook, true => 276
  | Body, false => 300
  | Body, true => 345
  | Ending, false => 360
  | Ending, true => 414
  end.

(** The largest [end_ms] of a list of timestamps (0 for the empty list:
    times are counted from 0). *)
Definition max_end_ms (ts : list Word.t) : Z :=
  fold_right Z.max 0 (map Word.end_ms ts).


(** Each timestamp ends no earlier than the next one starts. *)
Definition consecutive (ts : list Word.t) : Prop :=
  forall i t u, ts !! i = Some t -> ts !! S i = Some u ->
    Word.end_ms t <= Word.start_ms u.

(** The timestamps are well formed and all end by [bound]. *)
Definition well_timed (ts : list Word.t) (bound : Z) : Prop :=
  Forall (fun t => Word.start_ms t < Word.end_ms t) ts
  /\ consecutive ts
  /\ Forall (fun t => Word.end_ms t <= bound) ts.

(** The loop invariant: the timestamps pushed so far are well timed up to
    the rounded cursor, which is not negative. *)
Definition inv (st : State) : Prop :=
  well_timed (pushed st) (JS.Math_round (currentTimeMs st))
  /\ 0 <= JS.Math_round (currentTimeMs st).

(** Right after a word, the last timestamp ends exactly at the rounded
    cursor. *)
Definition tight (st : State) : Prop :=
  exists l t, pushed st = l ++ [t]
    /\ Word.end_ms t = JS.Math_round (currentTimeMs st).

End Audio.

(** ** Regular expressions, as far as the hook patterns need them *)

Module Regex.

(** The patterns are built from literal text, [.+], concatenation and
    alternation; all of them carry the flag [i]. *)
Inductive t :=
| Lit (s : string)
| AnyPlus
| Seq (r1 r2 : t)
| Alt (r1 r2 : t).

(** Two characters are the same up to case. *)
Definition ci_eqb (a b : ascii) : bool :=
  Ascii.eqb (JS.lowerChar a) (JS.lowerChar b).

(** Consume the literal [p] at the front of [s], ignoring case. *)
Fixpoint lit_prefix (p s : string) : option string :=
  match p with
  | EmptyString => Some s
  | String a p' =>
      match s with
      | EmptyString => None
      | String b s' => if ci_eqb a b then lit_prefix p' s' else None
      end
  end.

(** [.+] followed by the continuation [k]: one or more characters other
    than line terminators, the longest run first. *)
Fixpoint any_plus (k : string -> bool) (s : string) : bool :=
  match s with
  | EmptyString => false
  | String c s' => negb (JS.isLineTerminator c) && (any_plus k s' || k s')
  end.

(** Backtracking matcher: [run r k s] holds when a prefix of [s] matches
    [r] and the continuation [k] accepts what follows. *)
Fixpoint run (r : t) (k : string -> bool) (s : string) : bool :=
  match r with
  | Lit p => match lit_prefix p s with Some rest => k rest | None => false end
  | AnyPlus => any_plus k s
  | Seq r1 r2 => run r1 (run r2 k) s
  | Alt r1 r2 => run r1 k s || run r2 k s
  end.

(** [pattern.test(s)]: a match may start anywhere. *)
Fixpoint test (r : t) (s : string) : bool :=
  run r (fun _ => true) s ||
  match s with
  | EmptyString => false
  | String _ s' => test r s'
  end.

(** The language of a pattern, ignoring case. *)
Inductive matches : t -> string -> Prop :=
| M_Lit p s :
    JS.toLowerCase p = JS.toLowerCase s -> matches (Lit p) s
| M_Any s :
    s <> EmptyString -> JS.any JS.isLineTerminator s = false -> matches AnyPlus s
| M_Seq r1 r2 s1 s2 :
    matches r1 s1 -> matches r2 s2 -> matches (Seq r1 r2) (s1 ++ s2)%string
| M_AltL r1 r2 s : matches r1 s -> matches (Alt r1 r2) s
| M_AltR r1 r2 s : matches r2 s -> matches (Alt r1 r2) s.

(** A match somewhere inside [s]. *)
Definition found (r : t) (s : string) : Prop :=
  exists pre mid post, s = (pre ++ mid ++ post)%string /\ matches r mid.

Fixpoint seq (rs : list t) : t :=
  match rs with
  | [] => Lit EmptyString
  | [r] => r
  | r :: rs' => Seq r (seq rs')
  end.

Definition alt3 (a b c : string) : t := Alt (Lit a) (Alt (Lit b) (Lit c)).

End Regex.

(** ** qualityControlService.js: QualityControlService *)

Module QC.

Record Scene := mkScene {
  type : string;
  text : string;
  keywords : list string
}.

(** A script object: the legacy fields [hook] and [ending] and the array
    [scenes], each of which may be missing. *)
Record Script := mkScript {
  hook : option string;
  ending : option string;
  scenes : option (list Scene)
}.

(** The messages pushed on [errors], by kind; the numbers and phrases are
    the ones interpolated in the message. *)
Inductive Error :=
| NoHookFound
| HookTooLong (words : nat)
| BannedPhrase (phrase : string)
| NoCuriosityStructure
| EndingTooLong (words : nat)
| ClipTooLong (idx : nat) (durationMs : Z)
| ClipTooShort (idx : nat) (durationMs : Z)
| VisualEnergyTooLow.

Record Verdict := mkVerdict {
  isValid : bool;
  errors : list Error
}.

Definition BANNED_HOOK_PHRASES : list string :=
  [ "did you know"; "in this video"; "let's talk about"; "you won't believe" ].

(** /(most|many|some) (people|thinkers|experts) think .+, but .+/i *)
Definition P1 : Regex.t :=
  Regex.seq [ Regex.alt3 "most" "many" "some"; Regex.Lit " ";
              Regex.alt3 "people" "thinkers" "experts"; Regex.Lit " think ";
              Regex.AnyPlus; Regex.Lit ", but "; Regex.AnyPlus ].

(** /nobody (tells|told|is telling) you this about .+/i *)
Definition P2 : Regex.t :=
  Regex.seq [ Regex.Lit "nobody "; Regex.alt3 "tells" "told" "is telling";
              Regex.Lit " you this about "; Regex.AnyPlus ].

(** /this sounds wrong, but .+/i *)
Definition P3 : Regex.t :=
  Regex.seq [ Regex.Lit "this sounds wrong, but "; Regex.AnyPlus ].

(** /.+ (isn't|is not) the problem\. .+ is\./i *)
Definition P4 : Regex.t :=
  Regex.seq [ Regex.AnyPlus; Regex.Lit " ";
              Regex.Alt (Regex.Lit "isn't") (Regex.Lit "is not");
              Regex.Lit " the problem. "; Regex.AnyPlus; Regex.Lit " is." ].

Definition HOOK_PATTERNS : list Regex.t := [P1; P2; P3; P4].

(** A string value is truthy when it is defined and not empty. *)
Definition truthy (v : option string) : bool :=
  match v with
  | Some (String _ _) => true
  | _ => false
  end.

(** [a || b] on values that are strings or undefined. *)
Definition js_or (a b : option string) : option string :=
  if truthy a then a else b.

(** [script.scenes && script.scenes[i]?.text] *)
Definition scene_text (script : Script) (pick : list Scene -> option Scene)
  : option string :=
  match scenes script with
  | None => None
  | Some scs => text <$> pick scs
  end.

Definition first_scene (scs : list Scene) : option Scene := head scs.

(** [scenes[scenes.length - 1]] *)
Definition last_scene (scs : list Scene) : option Scene := last scs.

Definition validateScript (script : Script) : Verdict :=
  let hook := js_or (hook script) (scene_text script first_scene) in
  if negb (truthy hook) then {| isValid := false; errors := [NoHookFound] |}
  else
    let hook := default EmptyString hook in
    let errors := [] in
    let hookLower := JS.toLowerCase hook in
    let hookWords := length (JS.split_ws hook) in
    (* 1. hook length *)
    let errors :=
      if Nat.ltb 12 hookWords then errors ++ [HookTooLong hookWords] else errors in
    (* 2. banned phrases *)
    let errors :=
      fold_left
        (fun errs phrase =>
           if JS.includes hookLower phrase then errs ++ [BannedPhrase phrase]
           else errs)
        BANNED_HOOK_PHRASES errors in
    (* 3. pattern match *)
    let matchesPattern := existsb (fun pattern => Regex.test pattern hook) HOOK_PATTERNS in
    let errors :=
      if negb matchesPattern then errors ++ [NoCuriosityStructure] else errors in
    (* 4. ending length *)
    let ending := js_or (ending script) (scene_text script last_scene) in
    let errors :=
      if truthy ending
      then
        let endingWords := length (JS.split_ws (default EmptyString ending)) in
        if Nat.ltb 8 endingWords then errors ++ [EndingTooLong endingWords]
        else errors
      else errors in
    {| isValid := Nat.eqb (length errors) 0; errors := errors |}.

(** [s] contains [phrase] when case is ignored; the phrases of the banned
    list are in lower case already. *)
Definition contains_ci (s phrase : string) : Prop :=
  exists pre post, JS.toLowerCase s = (pre ++ phrase ++ post)%string.

(** The number that the gate compares with 12 and with 8:
    [s.split(/\s+/).length]. *)
Definition pieces (s : string) : nat := length (JS.split_ws s).

(** A script of two scenes whose hook has twelve words and ends with a
    space. *)
Definition padded_hook : string :=
  "Most people think coffee wakes you, but it really only blocks adenosine ".

Definition padded_script : Script :=
  {| hook := None; ending := None;
     scenes := Some [mkScene "hook" padded_hook []; mkScene "ending" "Stop." []] |}.

(** A script in the shape the language model is asked for, with the hook of
    scenario S4. *)
Definition s4_hook : Scene :=
  mkScene "hook" "Most people think coffee wakes you, but it blocks adenosine"
    ["coffee"; "cup"].

Definition s4_ending : Scene := mkScene "ending" "Sleep on it." ["bed"; "night"].

Definition s4_scenes : list Scene :=
  [ s4_hook; mkScene "body_1" "Adenosine builds all day." ["clock"]; s4_ending ].

(** *** validateVisuals *)

(** A property that holds a whole number of milliseconds; [None] stands for
    a property the object does not have, which reads as [undefined]. *)
Definition number_at (clip : JS.Object) (key : string) : option Z :=
  match JS.get clip key with
  | JS.Num z => Some z
  | _ => None
  end.

(** [v > n] and [v < n] for a property that is a number or undefined:
    [undefined] converts to NaN and every comparison with NaN is false. *)
Definition gt (v : option Z) (n : Z) : bool :=
  match v with Some x => n <? x | None => false end.

Definition lt (v : option Z) (n : Z) : bool :=
  match v with Some x => x <? n | None => false end.

(** The callback of [visualTimeline.forEach]. *)
Definition visualStep (errors : list Error) (idx : nat) (clip : JS.Object)
  : list Error :=
  let durationMs := number_at clip "durationMs" in
  let errors :=
    if gt durationMs 2500
    then errors ++ [ClipTooLong (idx + 1) (default 0 durationMs)]
    else errors in
  if lt durationMs 800
  then errors ++ [ClipTooShort (idx + 1) (default 0 durationMs)]
  else errors.

Fixpoint visualLoop (errors : list Error) (idx : nat) (clips : list JS.Object)
  : list Error :=
  match clips with
  | [] => errors
  | clip :: rest => visualLoop (visualStep errors idx clip) (S idx) rest
  end.

(** [avgFreq > 3000], where [avgFreq] is [last.endTimeMs / length] for a
    non-empty timeline and 0 otherwise; the quotient of an undefined
    property is NaN. *)
Definition avgFreq_too_high (visualTimeline : list JS.Object) : bool :=
  match last visualTimeline with
  | None => false
  | Some lastClip =>
      match number_at lastClip "endTimeMs" with
      | None => false
      | Some e =>
          negb (Qle_bool (inject_Z e / inject_Z (Z.of_nat (length visualTimeline)))
                         3000)
      end
  end.

Definition validateVisuals (visualTimeline : list JS.Object) : Verdict :=
  let errors := visualLoop [] 0%nat visualTimeline in
  let errors :=
    if avgFreq_too_high visualTimeline then errors ++ [VisualEnergyTooLow]
    else errors in
  {| isValid := Nat.eqb (length errors) 0; errors := errors |}.

End QC.

(** ** The words of a text *)

Module Words.

(** The number of words of [s], a word being a maximal run of characters
    that are not white space; [inWord] is set when the character before
    belongs to a word. *)
Fixpoint count_from (inWord : bool) (s : string) : nat :=
  match s with
  | EmptyString => 0
  | String c s' =>
      if JS.isSpace c then count_from false s'
      else ((if inWord then 0 else 1) + count_from true s')%nat
  end.

Definition count (s : string) : nat := count_from false s.

(** [s] starts with white space. *)
Definition leading (s : string) : bool :=
  match s with
  | EmptyString => false
  | String c _ => JS.isSpace c
  end.

(** [s] ends with white space. *)
Fixpoint trailing (s : string) : bool :=
  match s with
  | EmptyString => false
  | String c EmptyString => JS.isSpace c
  | String _ s' => trailing s'
  end.

Definition isEmpty (s : string) : bool :=
  match s with EmptyString => true | _ => false end.

(** The pieces that [split(/\s+/)] gives beyond the words: one for a text
    that is empty or starts with white space, one for a text that ends with
    white space. *)
Definition margins (s : string) : nat :=
  ((if isEmpty s || leading s then 1 else 0) + (if trailing s then 1 else 0))%nat.

End Words.

(** ** stockProvider.js and assetCache.js *)

Module Stock.

Record Asset := mkAsset {
  id : string;
  tags : list string;
  url : string;
  provider : string
}.

Definition mock (id : string) (tags : list string) (url : string) : Asset :=
  {| id := id; tags := tags; url := url; provider := "MockStock" |}.

Definition MOCK_DB : list Asset :=
  [ mock "mock_fin_1" ["finance"; "money"; "growth"; "chart"] "http://mock.com/fin1.mp4";
    mock "mock_fin_2" ["finance"; "business"; "office"; "meeting"] "http://mock.com/fin2.mp4";
    mock "mock_fin_3" ["money"; "cash"; "wealth"] "http://mock.com/fin3.mp4";
    mock "mock_fin_4" ["finance"; "market"; "stock"] "http://mock.com/fin4.mp4";
    mock "mock_fin_5" ["business"; "handshake"; "deal"] "http://mock.com/fin5.mp4";
    mock "mock_tech_1" ["technology"; "computer"; "code"; "hacker"] "http://mock.com/tech1.mp4";
    mock "mock_tech_2" ["future"; "robot"; "ai"; "cyber"] "http://mock.com/tech2.mp4";
    mock "mock_tech_3" ["code"; "screen"; "software"] "http://mock.com/tech3.mp4";
    mock "mock_tech_4" ["server"; "data"; "cloud"] "http://mock.com/tech4.mp4";
    mock "mock_tech_5" ["mobile"; "app"; "phone"] "http://mock.com/tech5.mp4";
    mock "mock_nat_1" ["nature"; "forest"; "calm"; "green"] "http://mock.com/nat1.mp4";
    mock "mock_nat_2" ["water"; "ocean"; "blue"; "relax"] "http://mock.com/nat2.mp4";
    mock "mock_nat_3" ["mountain"; "sky"; "clouds"] "http://mock.com/nat3.mp4";
    mock "mock_nat_4" ["flowers"; "spring"; "bloom"] "http://mock.com/nat4.mp4";
    mock "mock_nat_5" ["sunset"; "sun"; "evening"] "http://mock.com/nat5.mp4";
    mock "mock_broll_1" ["people"; "walking"; "city"] "http://mock.com/gen1.mp4";
    mock "mock_broll_2" ["street"; "traffic"; "night"] "http://mock.com/gen2.mp4";
    mock "mock_broll_3" ["abstract"; "lights"; "blur"] "http://mock.com/gen3.mp4" ].

(** [s.split(' ')]: the pieces between single spaces. *)
Fixpoint split_space (cur : string) (s : string) : list string :=
  match s with
  | EmptyString => [cur]
  | String c s' =>
      if Ascii.eqb c " "%char then cur :: split_space EmptyString s'
      else split_space (cur ++ String c EmptyString)%string s'
  end.

(** [_mockSearch]; a missing or empty query finds nothing. *)
Definition _mockSearch (query : option string) : list Asset :=
  match query with
  | None | Some EmptyString => []
  | Some q =>
      let terms := split_space EmptyString (JS.toLowerCase q) in
      List.filter
        (fun asset =>
           existsb (fun tag =>
             existsb (fun term => JS.includes tag term || JS.includes term tag) terms)
             (tags asset))
        MOCK_DB
  end.

(** [search]: [remote] is what the request to the remote provider came back
    with, already mapped to assets; it is [None] when no API key is
    configured or the request failed.  An empty answer falls back to the
    mock data as well. *)
Definition search (remote : option (list Asset)) (query : option string)
  : list Asset :=
  match remote with
  | Some (v :: vs) => v :: vs
  | _ => _mockSearch query
  end.

Definition getFallbacks : list Asset := MOCK_DB.

Definition getAllUnusedAssets (usedIds : gset string) : list Asset :=
  List.filter (fun asset => negb (bool_decide (id asset ∈ usedIds))) MOCK_DB.

End Stock.

Module AssetCache.

(** [get]: a missing or empty keyword reads as null, an unknown keyword as
    undefined; both are [None]. *)
Definition get (cache : gmap string (list Stock.Asset)) (keyword : option string)
  : option (list Stock.Asset) :=
  match keyword with
  | None | Some EmptyString => None
  | Some k => cache !! JS.toLowerCase k
  end.

Definition set (cache : gmap string (list Stock.Asset)) (keyword : option string)
    (assets : list Stock.Asset) : gmap string (list Stock.Asset) :=
  match keyword with
  | None | Some EmptyString => cache
  | Some k => <[JS.toLowerCase k := assets]> cache
  end.

End AssetCache.

(** ** visualService.js: VisualService *)

(** An outcome of [Math.random()]: a double that is at least 0 and less
    than 1.  It is given by a rational [num / (num + gap + 1)]: the outcome
    is the double nearest to it, and the largest double below 1,
    [1 - 2^-53], where that double is 1.  Every double of the range is the
    outcome of the rational that it is. *)
Module Random.

Record t := mk { num : N; gap : N }.

Definition top : Q := (1 - 2 ^ (-53))%Q.

Definition value (r : t) : Q :=
  let v := Double.round (Z.of_N (num r) # N.succ_pos (num r + gap r)) in
  if Qle_bool v top then v else top.

(** [Math.floor(Math.random() * n + m)] for integers [n] and [m]: the
    product is rounded to a double, and so is the sum. *)
Definition scaled (r : t) (n m : Z) : Z :=
  Qfloor (Double.round (Double.round (value r * inject_Z n) + inject_Z m)).

(** [Math.floor(Math.random() * n)] for an integer [n]. *)
Definition index (r : t) (n : Z) : Z :=
  Qfloor (Double.round (value r * inject_Z n)).

End Random.

Module Visual.

Record Transform := mkTransform {
  zoom : Q;
  pan : string
}.

(** The object literal pushed on the timeline. *)
Record Clip := mkClip {
  clip_id : string;
  source : string;
  file_path : string;
  start_ms : Z;
  end_ms : Z;
  keyword : option string;
  transform : Transform
}.

Inductive Error :=
| NoAssetsInDatabase
| RanOutOfUniqueAssets (currentTimeMs : Z)
| DownloadFailed (assetId : string).

(** How a call ends: it returns, it throws, or the bound on the number of
    loop iterations of this model was reached. *)
Inductive outcome (A : Type) :=
| Returned (a : A)
| Thrown (e : Error)
| OutOfFuel.
Arguments Returned {A} a.
Arguments Thrown {A} e.
Arguments OutOfFuel {A}.

(** The state outside the call: the shared asset cache, and how many times
    each external source has been consulted. *)
Record World := mkWorld {
  cache : gmap string (list Stock.Asset);
  randoms : nat;
  searches : nat;
  downloads : nat
}.

Definition M (A : Type) : Type := World -> outcome (A * World).

Definition ret {A} (a : A) : M A := fun w => Returned (a, w).

Definition throw {A} (e : Error) : M A := fun _ => Thrown e.

Definition bind {A B} (c : M A) (k : A -> M B) : M B :=
  fun w =>
    match c w with
    | Returned (a, w') => k a w'
    | Thrown e => Thrown e
    | OutOfFuel => OutOfFuel
    end.

Notation "x <- c ;; k" := (bind c (fun x => k))
  (at level 100, c at next level, right associativity).

Definition MAX_CLIP_MS : Z := 3000.

Definition transforms : list string := ["none"; "left"; "right"; "up"; "down"].

Definition zooms : list Q := [1.0; 1.05; 1.1]%Q.

(** [[...new Set(keywords)]]: the distinct keywords, in order of first
    occurrence. *)
Fixpoint unique (seen : list string) (keywords : list string) : list string :=
  match keywords with
  | [] => []
  | k :: rest =>
      if existsb (String.eqb k) seen then unique seen rest
      else k :: unique (k :: seen) rest
  end.

Section Environment.

(** The external sources: the outcomes of [Math.random()], the answers of
    the remote stock provider, and the local path that
    [_ensureLocalAsset] resolves to ([None] when the download stream
    fails and the promise is rejected); each is indexed by the number of
    earlier calls. *)
Variable random : nat -> Random.t.
Variable remote : nat -> option string -> option (list Stock.Asset).
Variable ensureLocal : nat -> Stock.Asset -> option string.

Definition Math_random : M Random.t :=
  fun w =>
    Returned (random (randoms w),
              {| cache := cache w; randoms := S (randoms w);
                 searches := searches w; downloads := downloads w |}).

Definition stock_search (query : option string) : M (list Stock.Asset) :=
  fun w =>
    Returned (Stock.search (remote (searches w) query) query,
              {| cache := cache w; randoms := randoms w;
                 searches := S (searches w); downloads := downloads w |}).

Definition cache_get (keyword : option string) : M (option (list Stock.Asset)) :=
  fun w => Returned (AssetCache.get (cache w) keyword, w).

Definition cache_set (keyword : option string) (assets : list Stock.Asset) : M unit :=
  fun w =>
    Returned (tt,
              {| cache := AssetCache.set (cache w) keyword assets;
                 randoms := randoms w; searches := searches w;
                 downloads := downloads w |}).

Definition _ensureLocalAsset (asset : Stock.Asset) : M string :=
  fun w =>
    match ensureLocal (downloads w) asset with
    | Some localFile =>
        Returned (localFile,
                  {| cache := cache w; randoms := randoms w;
                     searches := searches w; downloads := S (downloads w) |})
    | None => Thrown (DownloadFailed (Stock.id asset))
    end.

Definition unused (usedIds : gset string) (a : Stock.Asset) : bool :=
  negb (bool_decide (Stock.id a ∈ usedIds)).

(** [_selectUniqueAsset]; [None] is the [null] of the source.  The flag
    [reused] that the last-resort branch sets on the asset is not
    modelled. *)
Definition _selectUniqueAsset (keyword : option string) (usedIds : gset string)
    (allowReuse : bool) (lastId : option string) : M (option Stock.Asset) :=
  (* layer 1 *)
  cached <- cache_get keyword ;;
  assets <- match cached with
            | Some assets => ret assets
            | None =>
                found <- stock_search keyword ;;
                _ <- cache_set keyword found ;;
                ret found
            end ;;
  match List.find (unused usedIds) assets with
  | Some candidate => ret (Some candidate)
  | None =>
      (* layer 2 *)
      match List.find (unused usedIds) Stock.getFallbacks with
      | Some candidate => ret (Some candidate)
      | None =>
          (* layer 3 *)
          let allAssets := Stock.getAllUnusedAssets usedIds in
          if (0 <? length allAssets)%nat
          then
            r <- Math_random ;;
            ret (allAssets !! Z.to_nat (Random.index r (Z.of_nat (length allAssets))))
          else if allowReuse
          then
            let all := Stock.getAllUnusedAssets ∅ in
            match List.find
                    (fun a => negb (bool_decide (Some (Stock.id a) = lastId))) all with
            | Some reuseCandidate => ret (Some reuseCandidate)
            | None => ret (head all)
            end
          else ret None
      end
  end.

(** [_generateTransform]; the index drawn for [zooms] and [transforms] is
    within range. *)
Definition _generateTransform : M Transform :=
  r1 <- Math_random ;;
  z <- (if Qle_bool (Random.value r1) 0.5 then ret 1.0%Q
        else r2 <- Math_random ;;
             ret (nth (Z.to_nat (Random.index r2 (Z.of_nat (length zooms))))
                      zooms 1.0%Q)) ;;
  r3 <- Math_random ;;
  p <- (if Qle_bool (Random.value r3) 0.5 then ret "none"
        else r4 <- Math_random ;;
             ret (nth (Z.to_nat (Random.index r4 (Z.of_nat (length transforms))))
                      transforms "none")) ;;
  ret {| zoom := z; pan := p |}.

(** The parallel pre-fetch: every callback reads the cache before any of
    them writes to it; the searches are then answered, and stored, in the
    order of the keywords. *)
Fixpoint prefetchMissing (missing : list string) : M unit :=
  match missing with
  | [] => ret tt
  | kw :: rest =>
      results <- stock_search (Some kw) ;;
      _ <- cache_set (Some kw) results ;;
      prefetchMissing rest
  end.

Definition prefetch (uniqueKeywords : list string) : M unit :=
  fun w =>
    let missing :=
      List.filter
        (fun kw => match AssetCache.get (cache w) (Some kw) with
                   | Some _ => false
                   | None => true
                   end)
        uniqueKeywords in
    prefetchMissing missing w.

(** The secondary recovery: the first unique keyword for which an asset is
    found. *)
Fixpoint recover (uniqueKeywords : list string) (usedIds : gset string)
    (allowReuse : bool) (lastId : option string) : M (option Stock.Asset) :=
  match uniqueKeywords with
  | [] => ret None
  | kw :: rest =>
      asset <- _selectUniqueAsset (Some kw) usedIds allowReuse lastId ;;
      match asset with
      | Some a => ret (Some a)
      | None => recover rest usedIds allowReuse lastId
      end
  end.

(** [keywords[keywordIdx % keywords.length]]: undefined for an empty list. *)
Definition keywordAt (keywords : list string) (keywordIdx : nat) : option string :=
  match keywords with
  | [] => None
  | _ => keywords !! (keywordIdx mod length keywords)%nat
  end.

(** The clip duration chosen in one iteration, from the random draw [r],
    the lower bound [minClipMs] and the time that remains. *)
Definition chooseDuration (r : Random.t) (minClipMs remainingTime : Z) : Z :=
  let clipDuration := Random.scaled r (MAX_CLIP_MS - minClipMs + 1) minClipMs in
  let clipDuration :=
    if remainingTime <? clipDuration then remainingTime else clipDuration in
  let nextRemaining := remainingTime - clipDuration in
  if (0 <? nextRemaining) && (nextRemaining <? 800)
  then (if remainingTime <=? MAX_CLIP_MS then remainingTime
        else remainingTime - 800)
  else clipDuration.

(** The local variables of the generation loop. *)
Record Loop := mkLoop {
  timeline : list Clip;
  currentTimeMs : Z;
  usedIds : gset string;
  keywordIdx : nat
}.

(** One iteration of [while (currentTimeMs < totalDurationMs)]. *)
Definition iteration (keywords uniqueKeywords : list string)
    (totalDurationMs minClipMs : Z) (allowReuseIfNeeded : bool) (st : Loop)
  : M Loop :=
  r <- Math_random ;;
  let remainingTime := totalDurationMs - currentTimeMs st in
  let clipDuration := chooseDuration r minClipMs remainingTime in
  let currentKeyword := keywordAt keywords (keywordIdx st) in
  let lastId := clip_id <$> last (timeline st) in
  asset <- _selectUniqueAsset currentKeyword (usedIds st) allowReuseIfNeeded lastId ;;
  asset <- match asset with
           | Some a => ret (Some a)
           | None => recover uniqueKeywords (usedIds st) allowReuseIfNeeded lastId
           end ;;
  match asset with
  | None => throw (RanOutOfUniqueAssets (currentTimeMs st))
  | Some asset =>
      transform <- _generateTransform ;;
      localPath <- _ensureLocalAsset asset ;;
      ret {| timeline := timeline st ++
               [ {| clip_id := Stock.id asset;
                    source := Stock.provider asset;
                    file_path := localPath;
                    start_ms := currentTimeMs st;
                    end_ms := currentTimeMs st + clipDuration;
                    keyword := currentKeyword;
                    transform := transform |} ];
             currentTimeMs := currentTimeMs st + clipDuration;
             usedIds := {[ Stock.id asset ]} ∪ usedIds st;
             keywordIdx := S (keywordIdx st) |}
  end.

Fixpoint loop (fuel : nat) (keywords uniqueKeywords : list string)
    (totalDurationMs minClipMs : Z) (allowReuseIfNeeded : bool) (st : Loop)
  : M (list Clip) :=
  if currentTimeMs st <? totalDurationMs
  then
    match fuel with
    | O => fun _ => OutOfFuel
    | S fuel' =>
        st' <- iteration keywords uniqueKeywords totalDurationMs minClipMs
                 allowReuseIfNeeded st ;;
        loop fuel' keywords uniqueKeywords totalDurationMs minClipMs
          allowReuseIfNeeded st'
    end
  else ret (timeline st).

(** [allowReuseIfNeeded]: the unique assets, at 3000 ms each, cannot cover
    the duration. *)
Definition reuseEnabled (totalDurationMs : Z) : bool :=
  Z.of_nat (length (Stock.getAllUnusedAssets ∅)) * MAX_CLIP_MS <? totalDurationMs.

(** [generateTimeline]; [totalDurationMs] is a whole number of
    milliseconds (the rounded duration of the audio), on which
    [Math.round] is the identity.  The loop is given as many iterations as
    there are milliseconds to cover. *)
Definition generateTimeline (keywords : list string) (totalDurationMs : Z)
  : M (list Clip) :=
  let uniqueKeywords := unique [] keywords in
  _ <- prefetch uniqueKeywords ;;
  let allAvailable := Stock.getAllUnusedAssets ∅ in
  let totalUniqueAvailable := Z.of_nat (length allAvailable) in
  if totalUniqueAvailable =? 0 then throw NoAssetsInDatabase
  else
    let allowReuseIfNeeded := reuseEnabled totalDurationMs in
    let desiredMinClipDuration :=
      JS.ceil_div totalDurationMs (Z.max 1 totalUniqueAvailable) in
    let minClipMs := Z.max 800 (Z.min desiredMinClipDuration MAX_CLIP_MS) in
    loop (Z.to_nat totalDurationMs) keywords uniqueKeywords totalDurationMs
      minClipMs allowReuseIfNeeded
      {| timeline := []; currentTimeMs := 0; usedIds := ∅; keywordIdx := 0 |}.

End Environment.

(** [safe c P]: from every world the computation [c] stays within the
    iteration bound and, when it returns, its result satisfies [P]. *)
Definition safe {A} (c : M A) (P : A -> Prop) : Prop :=
  forall w,
    match c w with
    | Returned (a, _) => P a
    | Thrown _ => True
    | OutOfFuel => False
    end.

(** An asset that is selected while reuse is off has an id that was not
    used before. *)
Definition fresh (usedIds : gset string) (allowReuse : bool)
    (o : option Stock.Asset) : Prop :=
  forall a, o = Some a -> allowReuse = false -> Stock.id a ∉ usedIds.

(** The clips follow one another from [from] to [to] without gap or
    overlap. *)
Fixpoint contiguous (from : Z) (clips : list Clip) (to : Z) : Prop :=
  match clips with
  | [] => from = to
  | c :: rest => start_ms c = from /\ contiguous (end_ms c) rest to
  end.

(** The duration that the specification asks of a clip. *)
Definition duration_ok (c : Clip) : Prop :=
  800 <= end_ms c - start_ms c <= 3000.

(** The duration that the generation loop gives a clip: the draw of
    [clipDuration] can round up to one more than [MAX_CLIP_MS]. *)
Definition duration_drawn (c : Clip) : Prop :=
  800 <= end_ms c - start_ms c <= MAX_CLIP_MS + 1.

(** The invariant of the generation loop: the cursor is within the target
    and what remains is nothing or at least one clip of minimal length; the
    clips cover the time up to the cursor; and, unless reuse is allowed, the
    clip ids are distinct and recorded in [usedIds]. *)
Definition loop_inv (totalDurationMs : Z) (allowReuse : bool) (st : Loop) : Prop :=
  0 <= currentTimeMs st <= totalDurationMs
  /\ (currentTimeMs st = totalDurationMs \/ 800 <= totalDurationMs - currentTimeMs st)
  /\ contiguous 0 (timeline st) (currentTimeMs st)
  /\ Forall duration_drawn (timeline st)
  /\ (allowReuse = false ->
      NoDup (map clip_id (timeline st))
      /\ forall c, In c (timeline st) -> clip_id c ∈ usedIds st).

(** What the specification asks of a returned timeline. *)
Definition timeline_ok (totalDurationMs : Z) (tl : list Clip) : Prop :=
  start_ms <$> head tl = Some 0
  /\ (forall i c d, tl !! i = Some c -> tl !! S i = Some d -> start_ms d = end_ms c)
  /\ end_ms <$> last tl = Some totalDurationMs
  /\ Forall duration_ok tl
  /\ (reuseEnabled totalDurationMs = false -> NoDup (map clip_id tl)).

(** What a returned timeline satisfies: what the specification asks,
    with the duration that the loop gives a clip. *)
Definition timeline_drawn (totalDurationMs : Z) (tl : list Clip) : Prop :=
  start_ms <$> head tl = Some 0
  /\ (forall i c d, tl !! i = Some c -> tl !! S i = Some d -> start_ms d = end_ms c)
  /\ end_ms <$> last tl = Some totalDurationMs
  /\ Forall duration_drawn tl
  /\ (reuseEnabled totalDurationMs = false -> NoDup (map clip_id tl)).

(** A clip as the object that is pushed on the timeline and handed to the
    gates. *)
Definition toObject (c : Clip) : JS.Object :=
  [ ("clip_id", JS.Str (clip_id c));
    ("source", JS.Str (source c));
    ("file_path", JS.Str (file_path c));
    ("start_ms", JS.Num (start_ms c));
    ("end_ms", JS.Num (end_ms c));
    ("keyword", match keyword c with Some k => JS.Str k | None => JS.Undefined end);
    ("transform",
     JS.Obj [ ("zoom", JS.Rat (zoom (transform c)));
              ("pan", JS.Str (pan (transform c))) ]) ].

(** The external sources used in the examples: two keys' worth of random
    draws, no remote provider, and downloads that succeed. *)
Definition demo_random (n : nat) : Random.t := Random.mk 1 (N.of_nat (n mod 3)).

(** A generator whose every outcome is [1 - 2^-52], the double with all
    52 bits of the fraction set. *)
Definition top_random (n : nat) : Random.t :=
  Random.mk 4503599627370495 0.

Definition demo_remote (n : nat) (query : option string)
  : option (list Stock.Asset) := None.

Definition demo_ensureLocal (n : nat) (asset : Stock.Asset) : option string :=
  Some ("assets/clips/" ++ Stock.id asset ++ ".mp4")%string.

Definition demo_world : World :=
  {| cache := ∅; randoms := 0; searches := 0; downloads := 0 |}.

(** A timeline of one clip that lasts 500 ms. *)
Definition short_clip : Clip :=
  {| clip_id := "mock_fin_1"; source := "MockStock";
     file_path := "assets/clips/mock_fin_1.mp4";
     start_ms := 0; end_ms := 500; keyword := Some "money";
     transform := {| zoom := 1.0; pan := "none" |} |}.

End Visual.

(** ** editingService.js: EditingService *)

Module Editing.

(** [caption_id]: "cap_i" for the i-th caption, "silence_k" and
    "silence_tail_k" for the fillers. *)
Inductive CaptionId :=
| Cap (i : nat)
| Silence (k : nat)
| SilenceTail (k : nat).

Inductive Reason := Cut | Emphasis | PatternInterrupt.

Definition reason_eqb (a b : Reason) : bool :=
  match a, b with
  | Cut, Cut | Emphasis, Emphasis | PatternInterrupt, PatternInterrupt => true
  | _, _ => false
  end.

(** A segment while the plan is being built. *)
Record Segment := mkSegment {
  start_ms : Z;
  end_ms : Z;
  caption_id : CaptionId;
  caption : option Caption.t;
  words : list Word.t
}.

(** An entry of [planEntries]; dropping [_words] and [_caption] gives the
    entry of the final plan. *)
Record Entry := mkEntry {
  e_start_ms : Z;
  e_end_ms : Z;
  clip_id : string;
  zoom : Q;
  pan : string;
  e_caption_id : CaptionId;
  reason : Reason;
  _words : list Word.t;
  _caption : option Caption.t
}.

(** An entry of the plan that is returned. *)
Record Planned := mkPlanned {
  p_start_ms : Z;
  p_end_ms : Z;
  p_clip_id : string;
  p_zoom : Q;
  p_pan : string;
  p_caption_id : CaptionId;
  p_reason : Reason
}.

Inductive Error :=
| MissingAudioTimestamps
| MissingCaptionsTimeline
| MissingVisualsTimeline
| CannotSplit (cursor end_ms : Z)
| NoVisualForGap (at_ms : Z)
| NoVisualForTrailingSilence (at_ms : Z)
| OverlapDetected (at_ms expected : Z)
| NoVisualCovers (at_ms : Z)
| PatternInterruptMissing (windowStart windowEnd : Z)
| SegmentTooLong (clip : string) (start_ms end_ms : Z)
| InvalidZoom (clip : string)
| GapOrOverlap (at_ms expected : Z)
| TimelineEndMismatch (expected got : Z)
| ZoomWithoutEmphasis (at_ms : Z).

(** How a call ends: it returns, it throws, or the bound on the number of
    loop iterations of this model was reached. *)
Inductive outcome (A : Type) :=
| Returned (a : A)
| Thrown (e : Error)
| OutOfFuel.
Arguments Returned {A} a.
Arguments Thrown {A} e.
Arguments OutOfFuel {A}.

Definition bind {A B} (c : outcome A) (k : A -> outcome B) : outcome B :=
  match c with
  | Returned a => k a
  | Thrown e => Thrown e
  | OutOfFuel => OutOfFuel
  end.

Notation "x <-- c ;; k" := (bind c (fun x => k))
  (at level 100, c at next level, right associativity).

(** What [generateEditPlan] returns: [{isValid: false, errors}] or
    [{isValid: true, plan}]. *)
Inductive Result :=
| Invalid (errors : list Error)
| Valid (plan : list Planned).

Record AudioIn := mkAudio {
  timestamps : list Word.t;
  duration_ms : Z
}.

(** The argument of [generateEditPlan]; [None] stands for a part that is
    missing or whose timeline is not an array. *)
Record Inputs := mkInputs {
  audio : option AudioIn;
  captions : option (list Caption.t);
  visuals : option (list Visual.Clip)
}.

Definition MAX_SEGMENT_MS : Z := 3000.
Definition PATTERN_INTERVAL_MS : Z := 2500.
Definition BASE_ZOOM : Q := 1.0.
Definition EMPHASIS_ZOOM : Q := 1.05.
Definition PANS : list string := ["none"; "left"; "right"; "up"; "down"].

(** [words.filter(w => w.start_ms >= start && w.end_ms <= end)] *)
Definition _wordsInRange (words : list Word.t) (start stop : Z) : list Word.t :=
  List.filter (fun w => (start <=? Word.start_ms w) && (Word.end_ms w <=? stop)) words.

(** [visuals.find(v => v.start_ms <= t && v.end_ms > t)] *)
Definition _findVisualForTime (visuals : list Visual.Clip) (t : Z)
  : option Visual.Clip :=
  List.find (fun v => (Visual.start_ms v <=? t) && (t <? Visual.end_ms v)) visuals.

Fixpoint charCodeSum (s : string) : nat :=
  match s with
  | EmptyString => 0
  | String c s' => nat_of_ascii c + charCodeSum s'
  end.

(** [_deterministicPan]: the index is one of 1..4. *)
Definition _deterministicPan (clipId : string) : string :=
  let idx := (charCodeSum clipId mod (length PANS - 1) + 1)%nat in
  nth idx PANS "none".

(** [captions.timeline.map((c, i) => ...)], starting at index [i]; the
    property [words] is set by the next step. *)
Fixpoint baseSegments (i : nat) (timeline : list Caption.t) : list Segment :=
  match timeline with
  | [] => []
  | c :: rest =>
      {| start_ms := Caption.start_ms c; end_ms := Caption.end_ms c;
         caption_id := Cap i; caption := Some c; words := [] |}
      :: baseSegments (S i) rest
  end.

(** The inner loop of [_splitAtWordBoundaries] on a segment that is too
    long: [while (cursor < s.end_ms)]. *)
Fixpoint splitLoop (fuel : nat) (s : Segment) (words : list Word.t) (cursor : Z)
  : outcome (list Segment) :=
  if cursor <? end_ms s
  then
    match fuel with
    | O => OutOfFuel
    | S fuel' =>
        let target := Z.min (cursor + MAX_SEGMENT_MS) (end_ms s) in
        let candidate := _wordsInRange words cursor (target + 1) in
        let sliceEnd :=
          match last candidate with
          | Some w => Z.min (Word.end_ms w) (end_ms s)
          | None => target
          end in
        if sliceEnd <=? cursor then Thrown (CannotSplit cursor (end_ms s))
        else
          let seg :=
            {| start_ms := cursor; end_ms := sliceEnd;
               caption_id := caption_id s; caption := caption s;
               words := _wordsInRange words cursor sliceEnd |} in
          rest <-- splitLoop fuel' s words sliceEnd ;;
          Returned (seg :: rest)
    end
  else Returned [].

Fixpoint _splitAtWordBoundaries (segments : list Segment) (words : list Word.t)
  : outcome (list Segment) :=
  match segments with
  | [] => Returned []
  | s :: rest =>
      let dur := end_ms s - start_ms s in
      pieces <--
        (if dur <=? MAX_SEGMENT_MS
         then Returned
                [ {| start_ms := start_ms s; end_ms := end_ms s;
                     caption_id := caption_id s; caption := caption s;
                     words := _wordsInRange words (start_ms s) (end_ms s) |} ]
         else splitLoop (Z.to_nat dur) s words (start_ms s)) ;;
      out <-- _splitAtWordBoundaries rest words ;;
      Returned (pieces ++ out)
  end.

(** The loop [for (const w of s.words)] of [_isolateEmphasis]; returns the
    segments pushed and the final cursor. *)
Fixpoint isolateWords (s : Segment) (words : list Word.t) (cursor : Z)
    (ws : list Word.t) : list Segment * Z :=
  match ws with
  | [] => ([], cursor)
  | w :: ws' =>
      if Word.emphasis w
      then
        let before :=
          if cursor <? Word.start_ms w
          then [ {| start_ms := cursor; end_ms := Word.start_ms w;
                    caption_id := caption_id s; caption := caption s;
                    words := _wordsInRange words cursor (Word.start_ms w) |} ]
          else [] in
        let own :=
          {| start_ms := Word.start_ms w; end_ms := Word.end_ms w;
             caption_id := caption_id s; caption := caption s;
             words := [w] |} in
        let '(rest, final) := isolateWords s words (Word.end_ms w) ws' in
        (before ++ own :: rest, final)
      else isolateWords s words cursor ws'
  end.

Definition isolateOne (s : Segment) (words : list Word.t) : list Segment :=
  let emphasisWords := List.filter Word.emphasis (Editing.words s) in
  match emphasisWords with
  | [] => [s]
  | _ =>
      let '(out, cursor) := isolateWords s words (start_ms s) (Editing.words s) in
      if cursor <? end_ms s
      then out ++
           [ {| start_ms := cursor; end_ms := end_ms s;
                caption_id := caption_id s; caption := caption s;
                words := _wordsInRange words cursor (end_ms s) |} ]
      else out
  end.

Definition _isolateEmphasis (segments : list Segment) (words : list Word.t)
  : list Segment :=
  concat (map (fun s => isolateOne s words) segments).

(** [array.sort((a, b) => a.start_ms - b.start_ms)]: a stable sort by
    start. *)
Fixpoint insert_by {A} (key : A -> Z) (x : A) (sorted : list A) : list A :=
  match sorted with
  | [] => [x]
  | y :: rest =>
      if key x <? key y then x :: y :: rest
      else y :: insert_by key x rest
  end.

Definition sort_by {A} (key : A -> Z) (l : list A) : list A :=
  fold_left (fun sorted x => insert_by key x sorted) l [].

(** The filler chunks for the gap from [gapStart] to [gapEnd]:
    [while (gapStart < gapEnd)], numbering the fillers from [idx]. *)
Fixpoint fillGap (fuel : nat) (visualsTimeline : list Visual.Clip)
    (mkId : nat -> CaptionId) (missing : Z -> Error)
    (gapStart gapEnd : Z) (idx : nat) : outcome (list Segment * nat) :=
  if gapStart <? gapEnd
  then
    match fuel with
    | O => OutOfFuel
    | S fuel' =>
        let chunkEnd := Z.min (gapStart + MAX_SEGMENT_MS) gapEnd in
        match _findVisualForTime visualsTimeline gapStart with
        | None => Thrown (missing gapStart)
        | Some _ =>
            let filler :=
              {| start_ms := gapStart; end_ms := chunkEnd;
                 caption_id := mkId idx; caption := None; words := [] |} in
            r <-- fillGap fuel' visualsTimeline mkId missing chunkEnd gapEnd (S idx) ;;
            Returned (filler :: fst r, snd r)
        end
    end
  else Returned ([], idx).

(** The loop [for (const s of segments)] of [_fillGapsDeterministically];
    the state is [expected] and [silenceIdx]. *)
Fixpoint fillLoop (visualsTimeline : list Visual.Clip) (segments : list Segment)
    (expected : Z) (silenceIdx : nat) : outcome (list Segment * Z) :=
  match segments with
  | [] => Returned ([], expected)
  | s :: rest =>
      fillers <--
        (if expected + 20 <? start_ms s
         then fillGap (Z.to_nat (start_ms s - expected)) visualsTimeline
                Silence NoVisualForGap expected (start_ms s) silenceIdx
         else if start_ms s <? expected - 20
         then Thrown (OverlapDetected (start_ms s) expected)
         else Returned ([], silenceIdx)) ;;
      r <-- fillLoop visualsTimeline rest (end_ms s) (snd fillers) ;;
      Returned (fst fillers ++ s :: fst r, snd r)
  end.

Definition _fillGapsDeterministically (segments : list Segment)
    (visualsTimeline : list Visual.Clip) (totalDuration : Z)
  : outcome (list Segment) :=
  let segments := sort_by start_ms segments in
  r <-- fillLoop visualsTimeline segments 0 0%nat ;;
  let '(out, expected) := r in
  if expected <? totalDuration - 20
  then
    tail <-- fillGap (Z.to_nat (totalDuration - expected)) visualsTimeline
               SilenceTail NoVisualForTrailingSilence expected totalDuration 0%nat ;;
    Returned (out ++ fst tail)
  else Returned out.

(** [segments.map(s => ...)] with the throw for a segment no clip covers. *)
Fixpoint attachVisuals (visualsTimeline : list Visual.Clip) (segments : list Segment)
  : outcome (list Entry) :=
  match segments with
  | [] => Returned []
  | s :: rest =>
      match _findVisualForTime visualsTimeline (start_ms s) with
      | None => Thrown (NoVisualCovers (start_ms s))
      | Some clip =>
          entries <-- attachVisuals visualsTimeline rest ;;
          Returned
            ({| e_start_ms := start_ms s; e_end_ms := end_ms s;
                clip_id := Visual.clip_id clip;
                zoom := BASE_ZOOM; pan := "none";
                e_caption_id := caption_id s; reason := Cut;
                _words := words s; _caption := caption s |} :: entries)
      end
  end.

Definition setEmphasis (e : Entry) : Entry :=
  {| e_start_ms := e_start_ms e; e_end_ms := e_end_ms e; clip_id := clip_id e;
     zoom := EMPHASIS_ZOOM; pan := pan e; e_caption_id := e_caption_id e;
     reason := Emphasis; _words := _words e; _caption := _caption e |}.

(** The body of the loop that applies the emphasis zooms. *)
Definition applyEmphasis (e : Entry) : Entry :=
  let e :=
    match _words e with
    | [w] => if Word.emphasis w then setEmphasis e else e
    | _ => e
    end in
  match _caption e with
  | Some c =>
      if (0 <? length (Caption.emphasis_indices c))%nat
      then (if Qeq_bool (zoom e) BASE_ZOOM then setEmphasis e else e)
      else e
  | None => e
  end.

Definition setInterrupt (e : Entry) : Entry :=
  {| e_start_ms := e_start_ms e; e_end_ms := e_end_ms e; clip_id := clip_id e;
     zoom := zoom e; pan := _deterministicPan (clip_id e);
     e_caption_id := e_caption_id e; reason := PatternInterrupt;
     _words := _words e; _caption := _caption e |}.

(** The candidate test of the pattern-interrupt loop. *)
Definition isCandidate (windowStart windowEnd : Z) (p : Entry) : bool :=
  (e_start_ms p <? windowEnd) && (windowStart <? e_end_ms p)
  && negb (reason_eqb (reason p) Emphasis).

(** [planEntries.find(test)] followed by the update of the entry found, in
    place; [None] when no entry passes the test. *)
Fixpoint updateFirst (test : Entry -> bool) (f : Entry -> Entry)
    (entries : list Entry) : option (list Entry) :=
  match entries with
  | [] => None
  | p :: rest =>
      if test p then Some (f p :: rest)
      else cons p <$> updateFirst test f rest
  end.

(** The pattern-interrupt loop,
    [for (windowStart = 0; windowStart < totalDuration; windowStart += 2500)];
    [inl] is the early return with the error. *)
Fixpoint patternLoop (fuel : nat) (totalDuration windowStart : Z)
    (planEntries : list Entry) : outcome (Error + list Entry) :=
  if windowStart <? totalDuration
  then
    match fuel with
    | O => OutOfFuel
    | S fuel' =>
        let windowEnd := Z.min (windowStart + PATTERN_INTERVAL_MS) totalDuration in
        match updateFirst (isCandidate windowStart windowEnd) setInterrupt
                planEntries with
        | None => Returned (inl (PatternInterruptMissing windowStart windowEnd))
        | Some planEntries' =>
            patternLoop fuel' totalDuration (windowStart + PATTERN_INTERVAL_MS)
              planEntries'
        end
    end
  else Returned (inr planEntries).

(** The three passes of [_validate]. *)
Definition lengthErrors (p : Entry) : list Error :=
  (if MAX_SEGMENT_MS <? e_end_ms p - e_start_ms p
   then [SegmentTooLong (clip_id p) (e_start_ms p) (e_end_ms p)] else [])
  ++ (if negb (Qeq_bool (zoom p) BASE_ZOOM || Qeq_bool (zoom p) EMPHASIS_ZOOM)
      then [InvalidZoom (clip_id p)] else []).

Fixpoint gapErrors (expected : Z) (plan : list Entry) : list Error * Z :=
  match plan with
  | [] => ([], expected)
  | p :: rest =>
      let here :=
        if 20 <? Z.abs (e_start_ms p - expected)
        then [GapOrOverlap (e_start_ms p) expected] else [] in
      let '(errs, final) := gapErrors (e_end_ms p) rest in
      (here ++ errs, final)
  end.

Definition zoomErrors (p : Entry) : list Error :=
  if negb (Qeq_bool (zoom p) BASE_ZOOM) && negb (reason_eqb (reason p) Emphasis)
  then [ZoomWithoutEmphasis (e_start_ms p)] else [].

(** [_validate] sorts [plan] in place; the sorted array is returned along
    with the errors. *)
Definition _validate (plan : list Entry) (totalDuration : Z)
  : list Error * list Entry :=
  let errors := concat (map lengthErrors plan) in
  let plan := sort_by e_start_ms plan in
  let '(gaps, expected) := gapErrors 0 plan in
  let errors := errors ++ gaps in
  let errors :=
    if 200 <? Z.abs (expected - totalDuration)
    then errors ++ [TimelineEndMismatch totalDuration expected] else errors in
  let errors := errors ++ concat (map zoomErrors plan) in
  (errors, plan).

Definition finalize (p : Entry) : Planned :=
  {| p_start_ms := e_start_ms p; p_end_ms := e_end_ms p; p_clip_id := clip_id p;
     p_zoom := zoom p; p_pan := pan p; p_caption_id := e_caption_id p;
     p_reason := reason p |}.

Definition generateEditPlan (inputs : Inputs) : outcome Result :=
  match audio inputs with
  | None => Returned (Invalid [MissingAudioTimestamps])
  | Some audio =>
  match captions inputs with
  | None => Returned (Invalid [MissingCaptionsTimeline])
  | Some captions =>
  match visuals inputs with
  | None => Returned (Invalid [MissingVisualsTimeline])
  | Some visuals =>
      let totalDuration := duration_ms audio in
      let segments := baseSegments 0 captions in
      segments <-- _splitAtWordBoundaries segments (timestamps audio) ;;
      let segments := _isolateEmphasis segments (timestamps audio) in
      segments <-- _fillGapsDeterministically segments visuals totalDuration ;;
      planEntries <-- attachVisuals visuals segments ;;
      let planEntries := map applyEmphasis planEntries in
      interrupted <--
        patternLoop (Z.to_nat totalDuration) totalDuration 0 planEntries ;;
      match interrupted with
      | inl e => Returned (Invalid [e])
      | inr planEntries =>
          let '(errors, planEntries) := _validate planEntries totalDuration in
          match errors with
          | _ :: _ => Returned (Invalid errors)
          | [] => Returned (Valid (map finalize planEntries))
          end
      end
  end end end.

(** *** The invariant I4, on a plan and the total duration *)

(** From [expected] on, every segment starts within 20 ms of the end of
    the one before, and the last one ends within 200 ms of the total. *)
Fixpoint covers (expected : Z) (plan : list Planned) (totalDuration : Z) : Prop :=
  match plan with
  | [] => Z.abs (expected - totalDuration) <= 200
  | p :: rest =>
      Z.abs (p_start_ms p - expected) <= 20
      /\ covers (p_end_ms p) rest totalDuration
  end.

(** The [k]-th window, cut at the total duration, meets a segment whose
    reason is a pattern interrupt. *)
Definition window_interrupted (plan : list Planned) (totalDuration : Z) (k : Z)
  : Prop :=
  exists p, In p plan /\ p_reason p = PatternInterrupt
    /\ p_start_ms p < Z.min ((k + 1) * 2500) totalDuration
    /\ k * 2500 < p_end_ms p.

(** The same on the entries the plan is made from. *)
Definition entry_interrupted (entries : list Entry) (totalDuration : Z) (k : Z)
  : Prop :=
  exists p, In p entries /\ reason p = PatternInterrupt
    /\ e_start_ms p < Z.min ((k + 1) * 2500) totalDuration
    /\ k * 2500 < e_end_ms p.

(** [l'] has the entries of [l] at the same times, and those that were
    pattern interrupts still are. *)
Definition keeps_interrupts (l l' : list Entry) : Prop :=
  forall q, In q l ->
    exists q', In q' l' /\ e_start_ms q' = e_start_ms q
      /\ e_end_ms q' = e_end_ms q
      /\ (reason q = PatternInterrupt -> reason q' = PatternInterrupt).

Definition I4 (plan : list Planned) (totalDuration : Z) : Prop :=
  Sorted (fun a b => p_start_ms a <= p_start_ms b) plan
  /\ covers 0 plan totalDuration
  /\ Forall (fun p => p_end_ms p - p_start_ms p <= 3000) plan
  /\ Forall (fun p => ~ (p_zoom p == 1.0)%Q -> p_reason p = Emphasis) plan
  /\ (forall k, 0 <= k -> k * 2500 < totalDuration ->
        window_interrupted plan totalDuration k).

(** An audio result of three words, the second one emphasised, with its
    captions and one clip that covers it, for the examples. *)
Definition demo_audio : AudioIn :=
  {| timestamps := [ Word.mk "a" 0 300 false; Word.mk "7" 300 645 true;
                     Word.mk "c" 645 945 false ];
     duration_ms := 945 |}.

Definition demo_inputs : Inputs :=
  {| audio := Some demo_audio;
     captions := Caption.generateTimeline (timestamps demo_audio);
     visuals :=
       Some [ {| Visual.clip_id := "mock_fin_1"; Visual.source := "MockStock";
                 Visual.file_path := "assets/clips/mock_fin_1.mp4";
                 Visual.start_ms := 0; Visual.end_ms := 945;
                 Visual.keyword := Some "money";
                 Visual.transform :=
                   {| Visual.zoom := 1.0; Visual.pan := "none" |} |} ] |}.

End Editing.

(** ** inMemoryQueue.js: InMemoryQueue *)

Module Queue.

Record Job := mkJob {
  id : string;
  topic : JS.Json;
  duration_seconds : JS.Json;
  tone : JS.Json;
  dry_run : bool;
  status : JS.Json;
  progress : JS.Json;
  eta_seconds : JS.Json;
  created_at : Z;
  result : JS.Json;
  message : JS.Json
}.

(** The two collections of the queue: the map from id to job and the FIFO
    of pending ids.  The jobs are objects shared through the map, so an
    update of a job is an update of the map at its id. *)
Record t := mk {
  jobs : gmap string Job;
  queue : list string
}.

(** The argument of [createJob]. *)
Record JobData := mkJobData {
  d_topic : JS.Json;
  d_prompt : JS.Json;
  d_duration_seconds : JS.Json;
  d_tone : JS.Json;
  d_dry_run : JS.Json
}.

Definition enqueue (q : t) (jobId : string) : t :=
  match jobs q !! jobId with
  | Some job =>
      {| jobs :=
           <[jobId :=
              {| id := id job; topic := topic job;
                 duration_seconds := duration_seconds job; tone := tone job;
                 dry_run := dry_run job; status := JS.JStr "QUEUED";
                 progress := progress job; eta_seconds := eta_seconds job;
                 created_at := created_at job; result := result job;
                 message := message job |}]> (jobs q);
         queue := queue q ++ [jobId] |}
  | None => q
  end.

(** [createJob]; [jobId] is the identifier that [uuidv4()] draws and [now]
    the time of the call. *)
Definition createJob (jobId : string) (now : Z) (q : t) (data : JobData) : Job * t :=
  let job :=
    {| id := jobId;
       topic := JS.or (d_topic data) (d_prompt data);
       duration_seconds := d_duration_seconds data;
       tone := d_tone data;
       dry_run := match d_dry_run data with JS.JBool true => true | _ => false end;
       status := JS.JStr "QUEUED";
       progress := JS.JNum 0;
       eta_seconds := JS.JNum 0;
       created_at := now;
       result := JS.JUndefined;
       message := JS.JUndefined |} in
  let q := {| jobs := <[jobId := job]> (jobs q); queue := queue q |} in
  (job, enqueue q jobId).

(** [getNextJob]; an empty identifier is falsy, like an empty queue. *)
Definition getNextJob (q : t) : option Job * t :=
  match queue q with
  | [] => (None, q)
  | jobId :: rest =>
      let q' := {| jobs := jobs q; queue := rest |} in
      match jobId with
      | EmptyString => (None, q')
      | _ => (jobs q !! jobId, q')
      end
  end.

(** [updateJobStatus(jobId, status, result = null, progress = null,
    eta = null, message = null)] *)
Definition updateJobStatus (q : t) (jobId : string) (status : JS.Json)
    (result progress eta message : JS.Json) : t :=
  let result := JS.orNull result in
  let progress := JS.orNull progress in
  let eta := JS.orNull eta in
  let message := JS.orNull message in
  match jobs q !! jobId with
  | Some job =>
      {| jobs :=
           <[jobId :=
              {| id := id job; topic := topic job;
                 duration_seconds := duration_seconds job; tone := tone job;
                 dry_run := dry_run job;
                 status := status;
                 progress := if JS.notNull progress then progress else Queue.progress job;
                 eta_seconds := if JS.notNull eta then eta else eta_seconds job;
                 created_at := created_at job;
                 result := if JS.truthy result then result else Queue.result job;
                 message := if JS.notNull message then message else Queue.message job |}]>
             (jobs q);
         queue := queue q |}
  | None => q
  end.

Definition getJob (q : t) (jobId : string) : option Job := jobs q !! jobId.

(** An argument counts as supplied when it is neither undefined nor null. *)
Definition supplied (v : JS.Json) : Prop := v <> JS.JUndefined /\ v <> JS.JNull.

(** The fields no update touches. *)
Definition same_identity (a b : Job) : Prop :=
  id a = id b /\ topic a = topic b /\ duration_seconds a = duration_seconds b
  /\ tone a = tone b /\ dry_run a = dry_run b /\ created_at a = created_at b.

(** A queue with one finished job, for the examples. *)
Definition demo_job : Job :=
  {| id := "job-1"; topic := JS.JStr "The Science of Caffeine";
     duration_seconds := JS.JNum 30; tone := JS.JStr "informative";
     dry_run := false; status := JS.JStr "PROCESSING";
     progress := JS.JNum 40; eta_seconds := JS.JNum 12; created_at := 1700000000000;
     result := JS.JObject "[object Object]"; message := JS.JStr "Rendering" |}.

Definition demo_queue : t := {| jobs := {[ "job-1" := demo_job ]}; queue := [] |}.

End Queue.

(** ** The router: POST /generate *)

Module Routes.

(** The fields that the handler reads from [req.body]; a missing field is
    [JUndefined]. *)
Record Body := mkBody {
  topic : JS.Json;
  duration_seconds : JS.Json;
  tone : JS.Json;
  dry_run : JS.Json
}.

Inductive Payload :=
| ErrorBody (error : string)
| Accepted (job_id : string) (status : JS.Json).

Record Response := mkResponse {
  code : nat;
  payload : Payload
}.

Definition validTones : list string :=
  ["informative"; "dramatic"; "motivational"; "neutral"].

(** [typeof v !== 'string'] *)
Definition notString (v : JS.Json) : bool :=
  match v with JS.JStr _ => false | _ => true end.

(** [v.trim() === ''] for a string [v]. *)
Definition blank (v : JS.Json) : bool :=
  match v with JS.JStr s => JS.trim_is_empty s | _ => false end.

(** [validTones.includes(v)]: only a string equal to one of the tones. *)
Definition isValidTone (v : JS.Json) : bool :=
  match v with
  | JS.JStr s => existsb (String.eqb s) validTones
  | _ => false
  end.

Section Conversions.

(** The conversion of a string to a number is left open; [None] is NaN. *)
Variable stringToNumber : string -> option Q.

Definition ToNumber (v : JS.Json) : option Q :=
  match v with
  | JS.JUndefined => None
  | JS.JNull => Some 0%Q
  | JS.JBool b => Some (if b then 1%Q else 0%Q)
  | JS.JNum q => Some q
  | JS.JStr s => stringToNumber s
  | JS.JObject prim => stringToNumber prim
  end.

(** [v < n] and [v > n] against a number; a comparison with NaN is
    false. *)
Definition lessThan (v : JS.Json) (n : Q) : bool :=
  match ToNumber v with
  | Some x => negb (Qle_bool n x)
  | None => false
  end.

Definition greaterThan (v : JS.Json) (n : Q) : bool :=
  match ToNumber v with
  | Some x => negb (Qle_bool x n)
  | None => false
  end.

(** The handler of POST /generate; [jobId] and [now] are what [uuidv4()]
    and the clock give to [createJob]. *)
Definition generate (jobId : string) (now : Z) (q : Queue.t) (body : Body)
  : Response * Queue.t :=
  if negb (JS.truthy (topic body)) || notString (topic body) || blank (topic body)
  then ({| code := 400; payload := ErrorBody "Topic is required" |}, q)
  else if negb (JS.truthy (duration_seconds body))
          || lessThan (duration_seconds body) 20
          || greaterThan (duration_seconds body) 60
  then ({| code := 400;
           payload := ErrorBody "Duration must be between 20 and 60 seconds" |}, q)
  else if negb (JS.truthy (tone body)) || negb (isValidTone (tone body))
  then ({| code := 400;
           payload := ErrorBody
             ("Tone must be one of: " ++ String.concat ", " validTones) |}, q)
  else
    let '(job, q') :=
      Queue.createJob jobId now q
        {| Queue.d_topic := topic body; Queue.d_prompt := JS.JUndefined;
           Queue.d_duration_seconds := duration_seconds body;
           Queue.d_tone := tone body; Queue.d_dry_run := dry_run body |} in
    ({| code := 202; payload := Accepted (Queue.id job) (Queue.status job) |}, q').

End Conversions.

(** *** The conditions of the specification and those of the code *)

Definition is_integer (q : Q) : Prop := exists z : Z, (q == inject_Z z)%Q.

(** As the specification has it: the topic is a non-empty string, the
    duration an integer
    between 20 and 60, the tone one of the four. *)
Definition claimed_valid (body : Body) : Prop :=
  (exists s, topic body = JS.JStr s /\ s <> EmptyString)
  /\ (exists d, duration_seconds body = JS.JNum d /\ is_integer d
                /\ (20 <= d)%Q /\ (d <= 60)%Q)
  /\ (exists t, tone body = JS.JStr t /\ In t validTones).

(** As implemented, for a duration that is a number: the topic is a string
    with a character other than white space, the duration a number between
    20 and 60, whole or not, the tone one of the four. *)
Definition accepted (body : Body) : Prop :=
  (exists s, topic body = JS.JStr s /\ JS.trim_is_empty s = false)
  /\ (exists d, duration_seconds body = JS.JNum d /\ (20 <= d)%Q /\ (d <= 60)%Q)
  /\ (exists t, tone body = JS.JStr t /\ In t validTones).

(** The duration is missing, null, a boolean or a number. *)
Definition plain_duration (body : Body) : Prop :=
  match duration_seconds body with
  | JS.JStr _ | JS.JObject _ => False
  | _ => True
  end.

(** No string converts to a number: good enough where no string is
    converted. *)
Definition noConversion (s : string) : option Q := None.

Definition body_25_5 : Body :=
  {| topic := JS.JStr "The Science of Caffeine"; duration_seconds := JS.JNum 25.5;
     tone := JS.JStr "informative"; dry_run := JS.JUndefined |}.

Definition body_blank_topic : Body :=
  {| topic := JS.JStr "   "; duration_seconds := JS.JNum 30;
     tone := JS.JStr "informative"; dry_run := JS.JUndefined |}.

Definition body_s1 : Body :=
  {| topic := JS.JStr "The Science of Caffeine"; duration_seconds := JS.JNum 30;
     tone := JS.JStr "informative"; dry_run := JS.JUndefined |}.

Definition body_s2 : Body :=
  {| topic := JS.JStr "The Science of Caffeine"; duration_seconds := JS.JNum 15;
     tone := JS.JStr "informative"; dry_run := JS.JUndefined |}.

Definition empty_queue : Queue.t := {| Queue.jobs := ∅; Queue.queue := [] |}.

End Routes.

(** ** llmService.js: the retry loop of LLMService._callModel *)

Module LLM.

(** What the handler reads as [status] from an error: nothing, a number
    (an HTTP status), or a string code such as ECONNRESET (one that is not
    the decimal form of a number). *)
Inductive Status :=
| NoStatus
| Http (n : Z)
| Code (s : string).

(** The answer of the model to one call: the text, or an error. *)
Inductive Answer :=
| Text (t : string)
| Failure (status : Status).

(** How [_callModel] ends. *)
Inductive Outcome :=
| Returns (text : string)
| Throws (status : Status).

(** The variables of the loop and of the service: [attempt], the index of
    the current key, the number of calls made to the model so far and the
    number of back-off delays slept. *)
Record State := mkState {
  attempt : Z;
  currentKeyIdx : nat;
  calls : nat;
  backoffs : nat;
  lastError : option Status
}.

(** [_rotateKey]: with at most one key nothing moves and the result is
    false. *)
Definition _rotateKey (nkeys : nat) (currentKeyIdx : nat) : bool * nat :=
  if (nkeys <=? 1)%nat then (false, currentKeyIdx)
  else (true, (currentKeyIdx + 1) mod nkeys)%nat.

(** [status && status >= 400 && status < 500 && status !== 429] *)
Definition nonRetryable (status : Status) : bool :=
  match status with
  | Http n => negb (n =? 0) && (400 <=? n) && (n <? 500) && negb (n =? 429)
  | _ => false
  end.

(** [status === 429 || status === 503 || !status] *)
Definition retryable (status : Status) : bool :=
  match status with
  | NoStatus => true
  | Http n => (n =? 429) || (n =? 503) || (n =? 0)
  | Code s => match s with EmptyString => true | _ => false end
  end.

Definition is429 (status : Status) : bool :=
  match status with Http n => n =? 429 | _ => false end.

Section Loop.

(** The number of configured keys, the bound [retries], and the model as a
    function from the number of earlier calls and the current key to its
    answer. *)
Variable nkeys : nat.
Variable retries : Z.
Variable model : nat -> nat -> Answer.

(** One turn of [for (let attempt = 0; attempt < retries; attempt++)],
    from the test of the condition to the increment; [inr] ends the
    function. *)
Definition turn (st : State) : State + Outcome :=
  if attempt st <? retries
  then
    match model (calls st) (currentKeyIdx st) with
    | Text t => inr (Returns t)
    | Failure status =>
        if nonRetryable status then inr (Throws status)
        else if retryable status
        then
          let '(rotated, idx) :=
            if is429 status then _rotateKey nkeys (currentKeyIdx st)
            else (false, currentKeyIdx st) in
          if rotated
          then
            (* attempt--; continue; and then attempt++ *)
            inl {| attempt := attempt st - 1 + 1; currentKeyIdx := idx;
                   calls := S (calls st); backoffs := backoffs st;
                   lastError := Some status |}
          else
            (* back off, continue; and then attempt++ *)
            inl {| attempt := attempt st + 1; currentKeyIdx := idx;
                   calls := S (calls st); backoffs := S (backoffs st);
                   lastError := Some status |}
        else inr (Throws status)
    end
  else
    inr (Throws (default NoStatus (lastError st))).

(** [n] turns of the loop: where it stands, or how it ended. *)
Fixpoint turns (n : nat) (st : State) : State + Outcome :=
  match n with
  | O => inl st
  | S n' =>
      match turn st with
      | inl st' => turns n' st'
      | inr out => inr out
      end
  end.

Definition start : State :=
  {| attempt := 0; currentKeyIdx := 0; calls := 0; backoffs := 0;
     lastError := None |}.

End Loop.

(** A model that answers every call with HTTP 429. *)
Definition always429 (call key : nat) : Answer := Failure (Http 429).

End LLM.

(** ** captionService.js: AudioValidator *)

Module AudioValidator.

Inductive Error :=
| TooLong (duration_ms : Z)
| MissingTimestamps
| InvalidOrder (i : nat)
| SilenceGap (gap : Z).

Record Verdict := mkVerdict { isValid : bool; errors : list Error }.

(** [for (let i = 1; i < timestamps.length; i++)] with its [break] at the
    first word that starts before the previous one ends; [prev] is
    [timestamps[i - 1]] and [rest] starts at [timestamps[i]]. *)
Fixpoint orderErrors (i : nat) (prev : Word.t) (rest : list Word.t) : list Error :=
  match rest with
  | [] => []
  | t :: rest' =>
      if Word.start_ms t <? Word.end_ms prev then [InvalidOrder i]
      else orderErrors (S i) t rest'
  end.

(** The silence check, with its [break] at the first gap above 600 ms. *)
Fixpoint silenceErrors (prev : Word.t) (rest : list Word.t) : list Error :=
  match rest with
  | [] => []
  | t :: rest' =>
      let gap := Word.start_ms t - Word.end_ms prev in
      if 600 <? gap then [SilenceGap gap] else silenceErrors t rest'
  end.

(** [validate(audioResult, { target_duration })]; [target_duration] is a
    number of seconds. *)
Definition validate (audioResult : Audio.Result) (target_duration : Q) : Verdict :=
  let duration_ms := Audio.duration_ms audioResult in
  let timestamps := Audio.timestamps audioResult in
  let targetMs := (target_duration * 1000)%Q in
  let errors :=
    (if Qle_bool (inject_Z duration_ms) (targetMs * 1.1)%Q then []
     else [TooLong duration_ms])
    ++ match timestamps with
       | [] => [MissingTimestamps]
       | t :: rest => orderErrors 1 t rest
       end
    ++ match timestamps with
       | [] => []
       | t :: rest => silenceErrors t rest
       end in
  {| isValid := match errors with [] => true | _ => false end;
     errors := errors |}.

End AudioValidator.

(** ** captionValidator.js: CaptionValidator *)

Module CaptionValidator.

Inductive Error :=
| EmptyTimeline
| WordLimit (idx : nat) (wordCount : nat)
| TooLong (idx : nat) (duration : Z)
| Overlap (idx : nat)
| EndsAfterAudio (end_ms : Z).

Record Verdict := mkVerdict { isValid : bool; errors : list Error }.

(** The body of the [forEach] callback; [prev] is [timeline[idx - 1]], which
    is there exactly when [idx > 0]. *)
Definition captionErrors (idx : nat) (prev : option Caption.t) (cap : Caption.t)
  : list Error :=
  let wordCount := length (JS.split_ws (Caption.text cap)) in
  let duration := Caption.end_ms cap - Caption.start_ms cap in
  (if (3 <? wordCount)%nat then [WordLimit idx wordCount] else [])
  ++ (if 800 <? duration
      then (if 900 <? duration then [TooLong idx duration] else [])
      else [])
  ++ match prev with
     | Some p =>
         if Caption.start_ms cap <? Caption.end_ms p then [Overlap idx] else []
     | None => []
     end.

Fixpoint forEach (idx : nat) (prev : option Caption.t) (timeline : list Caption.t)
  : list Error :=
  match timeline with
  | [] => []
  | cap :: rest => captionErrors idx prev cap ++ forEach (S idx) (Some cap) rest
  end.

Definition validate (timeline : list Caption.t) (audioDurationMs : Z) : Verdict :=
  match timeline with
  | [] => {| isValid := false; errors := [EmptyTimeline] |}
  | first :: _ =>
      let lastCap := List.last timeline first in
      let errors :=
        forEach 0 None timeline
        ++ (if audioDurationMs + 100 <? Caption.end_ms lastCap
            then [EndsAfterAudio (Caption.end_ms lastCap)] else []) in
      {| isValid := match errors with [] => true | _ => false end;
         errors := errors |}
  end.

End CaptionValidator.

(** ** Shapes of word and caption lists, used to state the properties *)

Module Shape.

(** Neighbours in a list are related by [R]. *)
Definition adjacent {A} (R : A -> A -> Prop) (l : list A) : Prop :=
  forall i x y, l !! i = Some x -> l !! S i = Some y -> R x y.

(** The time from the start of the first word of a group to the end of its
    last word. *)
Definition span (g : list Word.t) : Z :=
  match g with
  | [] => 0
  | first :: _ => Word.end_ms (List.last g first) - Word.start_ms first
  end.

(** A caption group holds one to three words, and one with several words
    spans at most 800 ms. *)
Definition group_ok (g : list Word.t) : Prop :=
  (1 <= length g <= 3)%nat /\ ((2 <= length g)%nat -> span g <= 800).

(** The grouping is greedy: a group is closed only when it is full or the
    next word would stretch it beyond 800 ms. *)
Definition closed_by (g h : list Word.t) : Prop :=
  forall first w, head g = Some first -> head h = Some w ->
    length g = 3%nat \/ 800 < Word.end_ms w - Word.start_ms first.

(** The word at position [i] of the group [g] is emphasised. *)
Definition emphasised_at (g : list Word.t) (i : nat) : bool :=
  match g !! i with
  | Some w => Word.emphasis w
  | None => false
  end.

(** [c] is the caption of the group [g], which is not empty: its text is
    the words of [g] joined by single spaces, it starts with the first word
    and ends with the last, it lists the positions of the emphasised words
    of [g] in increasing order, and it has the default style. *)
Definition caption_of (g : list Word.t) (c : Caption.t) : Prop :=
  exists first,
    head g = Some first
    /\ Caption.text c = String.concat " " (map Word.word g)
    /\ Caption.start_ms c = Word.start_ms first
    /\ Caption.end_ms c = Word.end_ms (List.last g first)
    /\ Caption.emphasis_indices c
       = List.filter (emphasised_at g) (seq 0 (length g))
    /\ Caption.style c = Caption.default_style.

(** What the timing model gives every word: a length between 240 and 414
    ms, a text without white space, and a silence of at most 451 ms before
    the next word. *)
Definition word_ok (t : Word.t) : Prop :=
  240 <= Word.end_ms t - Word.start_ms t <= 414
  /\ JS.any JS.isSpace (Word.word t) = false.

Definition paced (ts : list Word.t) : Prop :=
  Forall word_ok ts
  /\ adjacent (fun t u => 0 <= Word.start_ms u - Word.end_ms t <= 451) ts.

(** The rounded cursor is at most 451 ms past the end of the last word. *)
Definition near (st : Audio.State) : Prop :=
  forall l t, Audio.pushed st = l ++ [t] ->
    0 <= JS.Math_round (Audio.currentTimeMs st) - Word.end_ms t <= 451.

(** The rounded cursor is the end of the last word. *)
Definition at_end (st : Audio.State) : Prop :=
  forall l t, Audio.pushed st = l ++ [t] ->
    Word.end_ms t = JS.Math_round (Audio.currentTimeMs st).

End Shape.

(** ** qualityControlService.js: the gates after the script gate *)

Module QCS.

Inductive Error :=
| AbstractKeywords (rejected : list string)
| HookTooSlow (hookWordsCount : nat)
| DeadAir (gap : Z)
| EmptyPlan
| PlanGap (idx : nat) (lastEnd start_ms : Z).

Record Verdict := mkVerdict { isValid : bool; errors : list Error }.

Definition verdict (errors : list Error) : Verdict :=
  {| isValid := match errors with [] => true | _ => false end; errors := errors |}.

Definition abstractWords : list string :=
  [ "success"; "mindset"; "future"; "discipline"; "fast"; "beautiful";
    "powerful"; "amazing"; "great"; "best" ].

Definition validateKeywords (keywords : list string) : Verdict :=
  let rejected :=
    List.filter
      (fun kw => existsb (String.eqb (JS.toLowerCase kw)) abstractWords) keywords in
  match rejected with
  | [] => {| isValid := true; errors := [] |}
  | _ => {| isValid := false; errors := [AbstractKeywords rejected] |}
  end.

(** The loop over the gaps of [validatePacing]: every gap above 600 ms is
    reported; [prev] is [timestamps[i]]. *)
Fixpoint deadAir (prev : Word.t) (rest : list Word.t) : list Error :=
  match rest with
  | [] => []
  | t :: rest' =>
      let gap := Word.start_ms t - Word.end_ms prev in
      (if 600 <? gap then [DeadAir gap] else []) ++ deadAir t rest'
  end.

Definition hookWordsCount (timestamps : list Word.t) : nat :=
  length (List.filter (fun t => Word.start_ms t <? 4000) timestamps).

Definition validatePacing (audioMetadata : Audio.Result) : Verdict :=
  let timestamps := Audio.timestamps audioMetadata in
  let hookWPS := (inject_Z (Z.of_nat (hookWordsCount timestamps)) / (4000 / 1000))%Q in
  verdict
    ((if Qle_bool 2.8 hookWPS then [] else [HookTooSlow (hookWordsCount timestamps)])
     ++ match timestamps with
        | [] => []
        | t :: rest => deadAir t rest
        end).

(** The callback of [editPlan.forEach]; the state is [lastEnd]. *)
Fixpoint planGaps (idx : nat) (lastEnd : Z) (editPlan : list Editing.Planned)
  : list Error :=
  match editPlan with
  | [] => []
  | seg :: rest =>
      (if 50 <? Z.abs (Editing.p_start_ms seg - lastEnd)
       then [PlanGap idx lastEnd (Editing.p_start_ms seg)] else [])
      ++ planGaps (S idx) (Editing.p_end_ms seg) rest
  end.

Definition validateEditPlan (editPlan : list Editing.Planned) : Verdict :=
  verdict
    (match editPlan with [] => [EmptyPlan] | _ => [] end ++ planGaps 0 0 editPlan).

(** *** auditFinalVideo *)

Inductive Reason := Skippable | UniformPacing | NoStance | FeelsComplete.

Inductive Decision := GO | NO_GO (reason : Reason).

Definition attentionGrabbers : list string :=
  [ "but"; "wrong"; "lie"; "secret"; "nobody"; "stop"; "failed" ].

Definition stanceWords : list string :=
  [ "isnt"; "is not"; "problem"; "truth"; "lies"; "failed"; "shouldnt" ].

Definition completionWords : list string :=
  [ "summary"; "conclude"; "in conclusion"; "thank you"; "follow for more" ].

(** The words per second of a chunk that lasts [duration] seconds; [None]
    is the [Infinity] of a chunk of no duration. *)
Definition wordsPerSecond (duration : Q) : option Q :=
  if Qeq_bool duration 0 then None else Some (5 / duration)%Q.

(** [lastWPS !== -1 && Math.abs(wps - lastWPS) < 0.2]; the absolute value
    is below 0.2 when the difference and its opposite both are, and a
    difference with [Infinity] is infinite or NaN and is not below 0.2. *)
Definition uniformWith (wps lastWPS : option Q) : bool :=
  match wps, lastWPS with
  | Some a, Some b =>
      negb (Qeq_bool b (-1))
      && negb (Qle_bool 0.2 (a - b)) && negb (Qle_bool 0.2 (b - a))
  | None, Some b => false
  | _, None => false
  end.

(** The pacing loop [for (i = 0; i < timestamps.length - 10; i += 5)] on
    the timestamps from index [i] on; [true] when it returns NO-GO. *)
Fixpoint uniformPacing (rest : list Word.t) (uniformDuration : Q)
    (lastWPS : option Q) : bool :=
  match rest with
  | c0 :: c1 :: c2 :: c3 :: c4 :: rest' =>
      if (10 <? length rest)%nat
      then
        let duration :=
          (inject_Z (Word.end_ms c4 - Word.start_ms c0) / 1000)%Q in
        let wps := wordsPerSecond duration in
        let uniformDuration :=
          if uniformWith wps lastWPS then (uniformDuration + duration)%Q else 0%Q in
        if negb (Qle_bool uniformDuration 4) then true
        else uniformPacing rest' uniformDuration wps
      else false
  | _ => false
  end.

(** [auditFinalVideo({ script, audio })]; [None] is the TypeError raised
    when the hook is undefined, or when [script.scenes] is missing or empty
    at the point where it is read. *)
Definition auditFinalVideo (script : QC.Script) (timestamps : list Word.t)
  : option Decision :=
  match QC.js_or (QC.scene_text script QC.first_scene) (QC.hook script) with
  | None => None
  | Some hook =>
      let hookLower := JS.toLowerCase hook in
      let hasAttentionGrabber := existsb (JS.includes hookLower) attentionGrabbers in
      if negb hasAttentionGrabber
         && negb (existsb (fun p => Regex.test p hook) QC.HOOK_PATTERNS)
      then Some (NO_GO Skippable)
      else if uniformPacing timestamps 0 (Some (-1)%Q)
      then Some (NO_GO UniformPacing)
      else
        match QC.scenes script with
        | None => None
        | Some scenes =>
            let scriptText :=
              JS.toLowerCase (String.concat " " (hook :: map QC.text scenes)) in
            if negb (existsb (JS.includes scriptText) stanceWords)
            then Some (NO_GO NoStance)
            else
              match last scenes with
              | None => None
              | Some lastScene =>
                  let ending := JS.toLowerCase (QC.text lastScene) in
                  if existsb (JS.includes ending) completionWords
                  then Some (NO_GO FeelsComplete)
                  else Some GO
              end
        end
  end.

End QCS.

(** ** llmService.js: the fallback script *)

Module Scripts.

(** [_generateScriptFallback]; [duration_seconds] is the text that the
    template literal makes of the number. *)
Definition _generateScriptFallback (topic duration_seconds : string) : QC.Script :=
  {| QC.hook := None;
     QC.ending := None;
     QC.scenes := Some
       [ QC.mkScene "hook" ("Here's " ++ topic ++ " in " ++ duration_seconds ++ "s")%string
           [topic; "fast"];
         QC.mkScene "body_1" ("First, you need to know about " ++ topic ++ ".")%string
           [topic; "knowledge"];
         QC.mkScene "body_2" "This is why it's so important." ["important"; "focus"];
         QC.mkScene "body_3" "Most people miss this secret." ["secret"; "hidden"];
         QC.mkScene "body_4" "But once you see it, everything changes."
           ["change"; "impact"];
         QC.mkScene "body_5" ("That's the power of " ++ topic ++ ".")%string [topic; "power"];
         QC.mkScene "ending" ("Follow for more " ++ topic ++ " secrets!")%string
           ["subscribe"; "more"] ] |}.

(** [extractKeywords] on a script that has scenes:
    [[...new Set(script.scenes.flatMap(s => s.keywords))]]. *)
Definition extractKeywords (scenes : list QC.Scene) : list string :=
  Visual.unique [] (concat (map QC.keywords scenes)).

End Scripts.

(** ** Shapes of an edit plan, used to state the properties *)

Module PlanShape.

(** The pans that move the picture. *)
Definition moving : list string := ["left"; "right"; "up"; "down"].

(** The transform of a segment goes with its reason: a cut is static, an
    emphasis zooms to 1.05 without a pan, and a pattern interrupt pans, in
    the direction drawn from its clip id, without a zoom. *)
Definition transform_ok (p : Editing.Planned) : Prop :=
  match Editing.p_reason p with
  | Editing.Cut =>
      Editing.p_zoom p = Editing.BASE_ZOOM /\ Editing.p_pan p = "none"
  | Editing.Emphasis =>
      Editing.p_zoom p = Editing.EMPHASIS_ZOOM /\ Editing.p_pan p = "none"
  | Editing.PatternInterrupt =>
      Editing.p_zoom p = Editing.BASE_ZOOM
      /\ Editing.p_pan p = Editing._deterministicPan (Editing.p_clip_id p)
      /\ In (Editing.p_pan p) moving
  end.

(** The clip of a segment is the first clip of the visual timeline that is
    on screen when the segment starts. *)
Definition shows (visuals : list Visual.Clip) (p : Editing.Planned) : Prop :=
  exists v,
    Editing._findVisualForTime visuals (Editing.p_start_ms p) = Some v
    /\ Editing.p_clip_id p = Visual.clip_id v.

(** Both, on an entry of the plan under construction. *)
Definition entry_ok (visuals : list Visual.Clip) (e : Editing.Entry) : Prop :=
  transform_ok (Editing.finalize e) /\ shows visuals (Editing.finalize e).

End PlanShape.

(** ** visualService.js (second part): VisualValidator *)

Module VisualValidator.

Inductive Error :=
| EmptyTimeline
| Malformed (idx : nat)
| TooShort (idx : nat) (duration : Z)
| TooLong (idx : nat) (duration : Z)
| GapOverlap (idx : nat) (expected got : Z)
| Reuse (clip_id : string) (idx : nat)
| EndMismatch (total got : Z)
| PacingTooSlow.

Record Verdict := mkVerdict { isValid : bool; errors : list Error }.

(** What the [forEach] callback updates. *)
Record State := mkState {
  found : list Error;
  usedIds : gset string;
  expectedStart : Z
}.

Definition nonEmpty (s : string) : bool :=
  match s with EmptyString => false | _ => true end.

(** The callback of [timeline.forEach]; a clip of the visual service has a
    number for [start_ms], so a clip is malformed when its id or its path is
    empty, and the callback then returns at once. *)
Definition clipStep (st : State) (idx : nat) (clip : Visual.Clip) : State :=
  if negb (nonEmpty (Visual.clip_id clip)) || negb (nonEmpty (Visual.file_path clip))
  then {| found := found st ++ [Malformed idx];
          usedIds := usedIds st; expectedStart := expectedStart st |}
  else
    let duration := Visual.end_ms clip - Visual.start_ms clip in
    let errors := found st in
    let errors :=
      if duration <? 800 then errors ++ [TooShort idx duration] else errors in
    let errors :=
      if 3000 <? duration
      then (if 3001 <? duration then errors ++ [TooLong idx duration] else errors)
      else errors in
    let errors :=
      if 20 <? Z.abs (Visual.start_ms clip - expectedStart st)
      then errors ++ [GapOverlap idx (expectedStart st) (Visual.start_ms clip)]
      else errors in
    let errors :=
      if bool_decide (Visual.clip_id clip ∈ usedIds st)
      then errors ++ [Reuse (Visual.clip_id clip) idx] else errors in
    {| found := errors;
       usedIds := {[ Visual.clip_id clip ]} ∪ usedIds st;
       expectedStart := Visual.end_ms clip |}.

Fixpoint forEach (st : State) (idx : nat) (timeline : list Visual.Clip) : State :=
  match timeline with
  | [] => st
  | clip :: rest => forEach (clipStep st idx clip) (S idx) rest
  end.

Definition validate (timeline : list Visual.Clip) (totalDurationMs : Z) : Verdict :=
  match timeline with
  | [] => {| isValid := false; errors := [EmptyTimeline] |}
  | _ =>
      let st :=
        forEach {| found := []; usedIds := ∅; expectedStart := 0 |} 0%nat timeline in
      let errors := found st in
      let errors :=
        if 200 <? Z.abs (expectedStart st - totalDurationMs)
        then errors ++ [EndMismatch totalDurationMs (expectedStart st)]
        else errors in
      let avgDuration :=
        (inject_Z (expectedStart st) / inject_Z (Z.of_nat (length timeline)))%Q in
      let errors :=
        if Qle_bool avgDuration 4000 then errors else errors ++ [PacingTooSlow] in
      {| isValid := match errors with [] => true | _ => false end;
         errors := errors |}
  end.

End VisualValidator.

(** ** Running the visual service without a shortage of assets *)

Module Supply.

(** [steady c P]: from every world the computation [c] stays within the
    iteration bound, throws nothing but a failed download, and returns a
    result that satisfies [P]. *)
Definition steady {A} (c : Visual.M A) (P : A -> Prop) : Prop :=
  forall w,
    match c w with
    | Visual.Returned (a, _) => P a
    | Visual.Thrown e => exists assetId, e = Visual.DownloadFailed assetId
    | Visual.OutOfFuel => False
    end.

(** The ids of the mock database. *)
Definition mock_ids : list string := map Stock.id Stock.MOCK_DB.

(** An asset can be found: reuse is allowed, or fewer ids are in use than
    the mock database has assets. *)
Definition available (usedIds : gset string) (allowReuse : bool) : Prop :=
  allowReuse = true \/ (size usedIds < length Stock.MOCK_DB)%nat.

(** The invariant of the generation loop that keeps assets available when
    reuse is off; [minClipMs] is the least duration of a clip.  No more ids
    are in use than there are clips, and the clips so far last [minClipMs]
    each at least, unless the timeline is complete or 800 ms are left for
    one last clip. *)
Definition stocked (totalDurationMs minClipMs : Z) (allowReuse : bool)
    (st : Visual.Loop) : Prop :=
  0 <= Visual.currentTimeMs st
  /\ (size (Visual.usedIds st) <= length (Visual.timeline st))%nat
  /\ (allowReuse = true
      \/ totalDurationMs <= Visual.currentTimeMs st
      \/ Z.of_nat (length (Visual.timeline st)) * minClipMs <= Visual.currentTimeMs st
      \/ (totalDurationMs - Visual.currentTimeMs st = 800
          /\ (length (Visual.timeline st) < length Stock.MOCK_DB)%nat)).

(** Clip [i] carries the keyword that the list of keywords holds at
    position [i] modulo its length. *)
Definition keywords_cycle (keywords : list string) (tl : list Visual.Clip) : Prop :=
  forall i c, tl !! i = Some c -> Visual.keyword c = Visual.keywordAt keywords i.

(** The keyword index counts the clips, which carry their keywords. *)
Definition tagged (keywords : list string) (st : Visual.Loop) : Prop :=
  Visual.keywordIdx st = length (Visual.timeline st)
  /\ keywords_cycle keywords (Visual.timeline st).

End Supply.

(** ** The queue and the router together *)

Module Jobs.

(** The job that [createJob] builds; it does not depend on the queue. *)
Definition newJob (jobId : string) (now : Z) (data : Queue.JobData) : Queue.Job :=
  fst (Queue.createJob jobId now {| Queue.jobs := ∅; Queue.queue := [] |} data).

(** A series of calls of [createJob], each with the identifier drawn for
    it and the time of the call. *)
Fixpoint createAll (reqs : list (string * Z * Queue.JobData)) (q : Queue.t)
  : Queue.t :=
  match reqs with
  | [] => q
  | (jobId, now, data) :: rest =>
      createAll rest (snd (Queue.createJob jobId now q data))
  end.

(** [n] calls of [getNextJob]: what each returned, and the queue after. *)
Fixpoint drain (n : nat) (q : Queue.t) : list (option Queue.Job) * Queue.t :=
  match n with
  | O => ([], q)
  | S n' =>
      let '(job, q') := Queue.getNextJob q in
      let '(jobs, q'') := drain n' q' in
      (job :: jobs, q'')
  end.

Inductive StatusBody :=
| NotFound
| Found (job : Queue.Job).

(** The handler of GET /status/:id: the status code and the body. *)
Definition status (q : Queue.t) (jobId : string) : nat * StatusBody :=
  match Queue.getJob q jobId with
  | Some job => (200%nat, Found job)
  | None => (404%nat, NotFound)
  end.

(** Two requests and an empty queue, for the examples. *)
Definition demo_requests : list (string * Z * Queue.JobData) :=
  [ ("job-a", 1700000000000,
     Queue.mkJobData (JS.JStr "Sleep") JS.JUndefined (JS.JNum 30)
       (JS.JStr "neutral") JS.JUndefined);
    ("job-b", 1700000000500,
     Queue.mkJobData (JS.JStr "Coffee") JS.JUndefined (JS.JNum 40)
       (JS.JStr "dramatic") (JS.JBool true)) ].

Definition empty : Queue.t := {| Queue.jobs := ∅; Queue.queue := [] |}.

End Jobs.

(** ** cleanupService.js: CleanupService *)

Module Cleanup.

Definition RETENTION_DAYS : Z := 7.

(** [markedJobs.includes(jobId)] *)
Definition isJobMarked (markedJobs : list string) (jobId : string) : bool :=
  existsb (String.eqb jobId) markedJobs.

(** [markJob]: the result and the array after the call. *)
Definition markJob (markedJobs : list string) (jobId : string)
  : bool * list string :=
  if negb (isJobMarked markedJobs jobId) then (true, markedJobs ++ [jobId])
  else (false, markedJobs).

(** [markedJobs.splice(index, 1)] at the index found by [indexOf]: the
    first occurrence is taken out. *)
Fixpoint removeFirst (jobId : string) (markedJobs : list string) : list string :=
  match markedJobs with
  | [] => []
  | m :: rest => if String.eqb m jobId then rest else m :: removeFirst jobId rest
  end.

(** [unmarkJob] *)
Definition unmarkJob (markedJobs : list string) (jobId : string)
  : bool * list string :=
  if isJobMarked markedJobs jobId then (true, removeFirst jobId markedJobs)
  else (false, markedJobs).

(** [_isMarked]: some marked id occurs in the file name. *)
Definition _isMarked (markedJobs : list string) (filename : string) : bool :=
  existsb (fun jobId => JS.includes filename jobId) markedJobs.

(** An entry of a directory as [readdirSync] and [statSync] show it, and
    whether [unlinkSync] succeeds on it. *)
Record File := mkFile {
  name : string;
  isDirectory : bool;
  mtimeMs : Z;
  unlinkable : bool
}.

(** The callback of [files.forEach]: the state is the entries that remain
    in the directory and [deletedCount]. *)
Definition fileStep (now : Z) (markedJobs : list string) (st : list File * nat)
    (file : File) : list File * nat :=
  let '(remaining, deletedCount) := st in
  let maxAgeMs := RETENTION_DAYS * 24 * 60 * 60 * 1000 in
  if isDirectory file then (remaining ++ [file], deletedCount)
  else
    let ageMs := now - mtimeMs file in
    if maxAgeMs <? ageMs
    then
      if _isMarked markedJobs (name file) then (remaining ++ [file], deletedCount)
      else if unlinkable file then (remaining, S deletedCount)
      else (remaining ++ [file], deletedCount)
    else (remaining ++ [file], deletedCount).

(** [runCleanup] on the directories that exist, each given by its entries:
    what remains of each directory, and the number of files deleted. *)
Fixpoint runCleanup (now : Z) (markedJobs : list string)
    (directories : list (list File)) (deletedCount : nat)
  : list (list File) * nat :=
  match directories with
  | [] => ([], deletedCount)
  | files :: rest =>
      let '(remaining, deletedCount) :=
        fold_left (fileStep now markedJobs) files ([], deletedCount) in
      let '(others, deletedCount) := runCleanup now markedJobs rest deletedCount in
      (remaining :: others, deletedCount)
  end.

(** The retention policy: an entry is kept when it is a directory, when it
    was modified within the last seven days, when its name contains the id
    of a marked job, or when it cannot be unlinked. *)
Definition kept (now : Z) (markedJobs : list string) (file : File) : Prop :=
  isDirectory file = true
  \/ now - mtimeMs file <= 7 * 24 * 60 * 60 * 1000
  \/ (exists jobId pre post,
        In jobId markedJobs /\ name file = (pre ++ jobId ++ post)%string)
  \/ unlinkable file = false.

(** A directory with a fresh file, an old file of a marked job, an old file
    of another job and a sub-directory, for the examples. *)
Definition demo_files : list File :=
  [ mkFile "job_17_voice.wav" false 1700000000000 true;
    mkFile "output_abc.mp4" false 1000000000000 true;
    mkFile "output_xyz.mp4" false 1000000000000 true;
    mkFile "scenes" true 1000000000000 true ].

End Cleanup.


(** ** audioService.js: the silent WAV file *)

Module Wav.

(** A buffer is the list of its bytes, each between 0 and 255. *)
Definition Buffer : Type := list Z.

(** [Buffer.alloc(size)]: [size] zero bytes. *)
Definition alloc (size : Z) : Buffer := repeat 0 (Z.to_nat size).

(** Writing [bytes] at [offset]; [None] is the RangeError for a write that
    does not fit. *)
Definition write_at (bytes : list Z) (offset : nat) (buffer : Buffer)
  : option Buffer :=
  if (offset + length bytes <=? length buffer)%nat
  then Some (take offset buffer ++ bytes ++ drop (offset + length bytes) buffer)
  else None.

(** [buffer.write(string, offset)] for an ASCII string that fits. *)
Definition write (s : string) (offset : nat) (buffer : Buffer) : option Buffer :=
  write_at (map (fun c => Z.of_nat (nat_of_ascii c)) (list_ascii_of_string s))
    offset buffer.

(** The little-endian bytes of a number. *)
Definition le16 (v : Z) : list Z := [v mod 256; (v / 256) mod 256].

Definition le32 (v : Z) : list Z :=
  [v mod 256; (v / 256) mod 256; (v / 65536) mod 256; (v / 16777216) mod 256].

(** [buffer.writeUInt32LE(value, offset)] and [writeUInt16LE]: a value out
    of range is a RangeError. *)
Definition writeUInt32LE (value : Z) (offset : nat) (buffer : Buffer)
  : option Buffer :=
  if (0 <=? value) && (value <? 2 ^ 32) then write_at (le32 value) offset buffer
  else None.

Definition writeUInt16LE (value : Z) (offset : nat) (buffer : Buffer)
  : option Buffer :=
  if (0 <=? value) && (value <? 2 ^ 16) then write_at (le16 value) offset buffer
  else None.

(** [buffer.readUInt32LE(offset)], to state what was written. *)
Definition readUInt32LE (buffer : Buffer) (offset : nat) : option Z :=
  match take 4 (drop offset buffer) with
  | [b0; b1; b2; b3] => Some (b0 + 256 * b1 + 65536 * b2 + 16777216 * b3)
  | _ => None
  end.

(** [Math.max(1, Math.floor((durationMs / 1000) * sampleRate))], for whole
    numbers below [2^53]: the quotient is rounded to a double before it is
    multiplied, and the product is rounded again, so that 4068 ms at
    16000 Hz are 65087 samples and not 65088. *)
Definition numSamples (durationMs sampleRate : Z) : Z :=
  Z.max 1
    (Qfloor
       (Double.round
          (Double.round (inject_Z durationMs / 1000) * inject_Z sampleRate))).

(** [_writeSilentWav(filePath, durationMs, sampleRate)]: the bytes handed
    to [writeFileSync]; the allocation is taken to succeed. *)
Definition _writeSilentWav (durationMs sampleRate : Z) : option Buffer :=
  let numChannels := 1 in
  let bytesPerSample := 2 in
  let numSamples := numSamples durationMs sampleRate in
  let blockAlign := numChannels * bytesPerSample in
  let byteRate := sampleRate * blockAlign in
  let subchunk2Size := numSamples * blockAlign in
  let chunkSize := 36 + subchunk2Size in
  let buffer := alloc (44 + subchunk2Size) in
  buffer ← write "RIFF" 0 buffer;
  buffer ← writeUInt32LE chunkSize 4 buffer;
  buffer ← write "WAVE" 8 buffer;
  buffer ← write "fmt " 12 buffer;
  buffer ← writeUInt32LE 16 16 buffer;
  buffer ← writeUInt16LE 1 20 buffer;
  buffer ← writeUInt16LE numChannels 22 buffer;
  buffer ← writeUInt32LE sampleRate 24 buffer;
  buffer ← writeUInt32LE byteRate 28 buffer;
  buffer ← writeUInt16LE blockAlign 32 buffer;
  buffer ← writeUInt16LE (bytesPerSample * 8) 34 buffer;
  buffer ← write "data" 36 buffer;
  writeUInt32LE subchunk2Size 40 buffer.

(** The 44 bytes of the header for [sampleRate] and [dataSize] bytes of
    samples. *)
Definition header (sampleRate dataSize : Z) : list Z :=
  [82; 73; 70; 70] ++ le32 (36 + dataSize) ++ [87; 65; 86; 69]
  ++ [102; 109; 116; 32] ++ le32 16 ++ le16 1 ++ le16 1
  ++ le32 sampleRate ++ le32 (sampleRate * 2) ++ le16 2 ++ le16 16
  ++ [100; 97; 116; 97] ++ le32 dataSize.

End Wav.

(** ** renderingService.js: the inputs and the crop of the video layer *)

Module Render.

Definition TARGET_WIDTH : Z := 1080.
Definition TARGET_HEIGHT : Z := 1920.

Record Offset := mkOffset { x : Q; y : Q }.

(** [_getPanOffset]; an empty pan is falsy and reads as no pan. *)
Definition _getPanOffset (pan : string) (currentW currentH targetW targetH : Z)
  : Offset :=
  let centerX := (inject_Z (currentW - targetW) / 2)%Q in
  let centerY := (inject_Z (currentH - targetH) / 2)%Q in
  if String.eqb pan "" || String.eqb pan "none" then {| x := centerX; y := centerY |}
  else if String.eqb pan "left" then {| x := 0; y := centerY |}
  else if String.eqb pan "right"
  then {| x := inject_Z (currentW - targetW); y := centerY |}
  else if String.eqb pan "up" then {| x := centerX; y := 0 |}
  else if String.eqb pan "down"
  then {| x := centerX; y := inject_Z (currentH - targetH) |}
  else {| x := centerX; y := centerY |}.

(** The numbers that [_buildNormalizationChain] writes into the filter
    chain of a segment: the input it reads, the size it scales to, and the
    corner of the crop of 1080 by 1920. *)
Record Chain := mkChain {
  input : option nat;
  scaledW : Z;
  scaledH : Z;
  cropX : Z;
  cropY : Z
}.

(** [_buildNormalizationChain]; a zoom of 0 is falsy and reads as 1.0;
    [inputIdx] is [None] when the input map holds no index for the clip.
    [zoom] is the number as it is written, 1.05 say; the product is taken
    with the double that this number is, and rounded to a double.  The
    halves of the pan offsets are doubles as they are. *)
Definition _buildNormalizationChain (inputIdx : option nat) (zoom : Q)
    (pan : string) : Chain :=
  let tw := TARGET_WIDTH in
  let th := TARGET_HEIGHT in
  let z := Double.round (if Qeq_bool zoom 0 then 1.0%Q else zoom) in
  let scaledW := Qfloor (Double.round (inject_Z tw * z)) in
  let scaledH := Qfloor (Double.round (inject_Z th * z)) in
  let offsets := _getPanOffset pan scaledW scaledH tw th in
  {| input := inputIdx; scaledW := scaledW; scaledH := scaledH;
     cropX := Qfloor (x offsets); cropY := Qfloor (y offsets) |}.

(** The state of the first loop of [_buildVideoLayer]. *)
Record Inputs := mkInputs {
  inputIndex : nat;
  inputMap : gmap string nat;
  clipInputs : list Visual.Clip;
  seenClips : gset string
}.

(** The callback of the first [forEach].  [inputMap] is a plain object:
    an assignment of a number to its key [__proto__] is without effect, and
    what is read at a key that was not assigned is not an index. *)
Definition inputStep (visualTimeline : list Visual.Clip) (st : Inputs)
    (entry : Editing.Planned) : Inputs :=
  let clip_id := Editing.p_clip_id entry in
  if bool_decide (clip_id ∈ seenClips st) then st
  else
    match List.find (fun v => String.eqb (Visual.clip_id v) clip_id) visualTimeline with
    | Some clip =>
        {| inputIndex := S (inputIndex st);
           inputMap :=
             if String.eqb clip_id "__proto__" then inputMap st
             else <[clip_id := inputIndex st]> (inputMap st);
           clipInputs := clipInputs st ++ [clip];
           seenClips := {[ clip_id ]} ∪ seenClips st |}
    | None => st
    end.

Definition collectInputs (editPlan : list Editing.Planned)
    (visualTimeline : list Visual.Clip) : Inputs :=
  fold_left (inputStep visualTimeline) editPlan
    {| inputIndex := 0; inputMap := ∅; clipInputs := []; seenClips := ∅ |}.

(** [_buildVideoLayer]: for each entry of the plan, the numbers of its
    normalization chain. *)
Definition _buildVideoLayer (editPlan : list Editing.Planned)
    (visualTimeline : list Visual.Clip) : list Chain :=
  let inputs := collectInputs editPlan visualTimeline in
  map (fun entry =>
         _buildNormalizationChain (inputMap inputs !! Editing.p_clip_id entry)
           (Editing.p_zoom entry) (Editing.p_pan entry))
      editPlan.

(** The visual inputs of [_buildFFmpegCommand], which the chains name by
    their position: [[...new Set(assets.map(a => path.resolve(a.file_path)))]];
    [resolve] is [path.resolve]. *)
Definition uniqueAssetPaths (resolve : string -> string)
    (assets : list Visual.Clip) : list string :=
  Visual.unique [] (map (fun a => resolve (Visual.file_path a)) assets).

(** The chain names one of the [inputs] visual inputs of the command, and
    its crop lies within the scaled frame. *)
Definition chain_ok (inputs : nat) (chain : Chain) : Prop :=
  (exists i, input chain = Some i /\ (i < inputs)%nat)
  /\ 0 <= cropX chain /\ cropX chain + TARGET_WIDTH <= scaledW chain
  /\ 0 <= cropY chain /\ cropY chain + TARGET_HEIGHT <= scaledH chain.

End Render.

(** ** The asset cache as the visual service uses it *)

Module Lookups.

(** The keywords for which [assetCache.get] finds nothing. *)
Definition missing (w : Visual.World) (keywords : list string) : list string :=
  List.filter
    (fun kw => match AssetCache.get (Visual.cache w) (Some kw) with
               | Some _ => false
               | None => true
               end)
    keywords.

(** The cache answers for every keyword of the list. *)
Definition warm (keywords : list string) (w : Visual.World) : Prop :=
  forall kw, In kw keywords ->
    is_Some (AssetCache.get (Visual.cache w) (Some kw)).

(** [quiet keywords c]: run from a world whose cache is warm for
    [keywords], the computation [c] leaves the cache as it is and does not
    search the stock provider. *)
Definition quiet {A} (keywords : list string) (c : Visual.M A) : Prop :=
  forall w, warm keywords w ->
    match c w with
    | Visual.Returned (_, w') =>
        Visual.cache w' = Visual.cache w /\ Visual.searches w' = Visual.searches w
    | _ => True
    end.

End Lookups.

(** ** jobWorker.js: JobWorker *)

Module Worker.

Definition MAX_CONCURRENT_JOBS : Z := 3.

(** The worker and the queue it serves. *)
Record t := mk {
  activeJobs : Z;
  jobs : Queue.t
}.

(** [job.status === 'EDIT_READY'] *)
Definition editReady (job : Queue.Job) : bool :=
  match Queue.status job with
  | JS.JStr s => String.eqb s "EDIT_READY"
  | _ => false
  end.

(** How the script loop is left: with a script that passed the gate, or by
    an error. *)
Inductive Scripted :=
| Accepted (script : QC.Script)
| Threw.

(** [queue.updateJobStatus(job.id, 'FAILED', { error: error.message })] *)
Definition failed (q : Queue.t) (jobId : string) : Queue.t :=
  Queue.updateJobStatus q jobId (JS.JStr "FAILED") (JS.JObject "[object Object]")
    JS.JUndefined JS.JUndefined JS.JUndefined.

Section Pipeline.

(** The parts of the pipeline that lie outside the worker:
    [generateScript n topic duration_seconds tone] is the script that the
    [n]-th call of [llmService.generateScript] resolves to, [None] when
    the call, or the gate that reads its answer, throws;
    [storedScript job] is [job.result.script] where [job.result] is an
    object that has a script;
    [_renderPhase7] is the render of an EDIT_READY job, which catches its
    errors and reports through the queue;
    [processScenes jobId scenes] is the audio timestamps that the scenes
    hand to [onMetadata], [None] when the promise of a scene is rejected;
    [concatSegments jobId] tells whether the final assembly succeeds. *)
Variable generateScript : nat -> JS.Json -> JS.Json -> JS.Json -> option QC.Script.
Variable storedScript : Queue.Job -> option QC.Script.
Variable _renderPhase7 : Queue.Job -> Queue.t -> Queue.t.
Variable processScenes : string -> list QC.Scene -> option (list Word.t).
Variable concatSegments : string -> bool.

(** [job.result?.script] *)
Definition resultScript (job : Queue.Job) : option QC.Script :=
  match Queue.result job with
  | JS.JObject _ => storedScript job
  | _ => None
  end.

(** The loop [while (attempts < 3 && !scriptValid)] with [remaining]
    attempts to go.  The third attempt leaves the loop by [scriptValid] or
    by its throw, so that the loop is not run with no attempt remaining. *)
Fixpoint scriptLoop (job : Queue.Job) (remaining : nat) : Scripted :=
  match remaining with
  | O => Threw
  | S remaining' =>
      let attempts := (3 - remaining')%nat in
      match generateScript attempts (Queue.topic job)
              (JS.or (Queue.duration_seconds job) (JS.JNum 30))
              (JS.or (Queue.tone job) (JS.JStr "neutral")) with
      | None => Threw
      | Some script =>
          if QC.isValid (QC.validateScript script) then Accepted script
          else if (attempts =? 3)%nat then Threw
          else scriptLoop job remaining'
      end
  end.

(** The [try] block from [const scenes = script.scenes] on, with its
    [catch]: the queue when the block is left. *)
Definition assemble (job : Queue.Job) (script : QC.Script) (q : Queue.t) : Queue.t :=
  let jobId := Queue.id job in
  match QC.scenes script with
  | None => failed q jobId
  | Some scenes =>
      match processScenes jobId scenes with
      | None => failed q jobId
      | Some timestamps =>
          let q :=
            Queue.updateJobStatus q jobId (JS.JStr "MERGING")
              (JS.JStr "Assembling final video...") (JS.JNum 90) (JS.JNum 5)
              JS.JUndefined in
          if concatSegments jobId
          then
            let q :=
              Queue.updateJobStatus q jobId (JS.JStr "AUDITING")
                (JS.JStr "Final Attention Audit...") (JS.JNum 98) (JS.JNum 2)
                JS.JUndefined in
            match QCS.auditFinalVideo script timestamps with
            | Some QCS.GO =>
                Queue.updateJobStatus q jobId (JS.JStr "COMPLETED")
                  (JS.JObject "[object Object]") (JS.JNum 100) (JS.JNum 0)
                  JS.JUndefined
            | _ => failed q jobId
            end
          else failed q jobId
      end
  end.

(** [processNext], run from its first line to its last.  The fields of
    [job] that are read after an update of the queue are fields that the
    update leaves as they are. *)
Definition processNext (st : t) : t :=
  if MAX_CONCURRENT_JOBS <=? activeJobs st then st
  else
    match Queue.getNextJob (jobs st) with
    | (None, q) => {| activeJobs := activeJobs st; jobs := q |}
    | (Some job, q) =>
        let active := activeJobs st + 1 in
        if editReady job
        then {| activeJobs := active - 1; jobs := _renderPhase7 job q |}
        else
          let jobId := Queue.id job in
          let q :=
            Queue.updateJobStatus q jobId (JS.JStr "PROCESSING") JS.JNull
              (JS.JNum 5) (JS.JNum 70) JS.JUndefined in
          let q :=
            Queue.updateJobStatus q jobId (JS.JStr "PROCESSING") JS.JNull
              (JS.JNum 10) (JS.JNum 60) JS.JUndefined in
          match resultScript job with
          | Some script =>
              {| activeJobs := active - 1; jobs := assemble job script q |}
          | None =>
              match scriptLoop job 3 with
              | Threw => {| activeJobs := active - 1; jobs := failed q jobId |}
              | Accepted script =>
                  if Queue.dry_run job
                  then
                    (* the branch decrements, and [finally] decrements again *)
                    {| activeJobs := active - 1 - 1;
                       jobs :=
                         Queue.updateJobStatus q jobId (JS.JStr "COMPLETED")
                           (JS.JObject "[object Object]") (JS.JNum 100) (JS.JNum 0)
                           JS.JUndefined |}
                  else {| activeJobs := active - 1; jobs := assemble job script q |}
              end
          end
    end.

(** The [n]-th script is the first that passes the gate. *)
Definition firstAccepted (job : Queue.Job) (n : nat) (script : QC.Script) : Prop :=
  let generate m :=
    generateScript m (Queue.topic job)
      (JS.or (Queue.duration_seconds job) (JS.JNum 30))
      (JS.or (Queue.tone job) (JS.JStr "neutral")) in
  (1 <= n <= 3)%nat
  /\ generate n = Some script
  /\ QC.isValid (QC.validateScript script) = true
  /\ forall m, (1 <= m < n)%nat ->
       exists s, generate m = Some s /\ QC.isValid (QC.validateScript s) = false.

(** The call serves a dry run: it takes a job that is not EDIT_READY, has
    no script yet and asks for a dry run, and one of the three scripts
    generated for it passes the gate. *)
Definition brainstorms (st : t) : Prop :=
  activeJobs st < MAX_CONCURRENT_JOBS
  /\ exists job q n script,
       Queue.getNextJob (jobs st) = (Some job, q)
       /\ editReady job = false
       /\ resultScript job = None
       /\ Queue.dry_run job = true
       /\ firstAccepted job n script.

End Pipeline.

(** The generator of a service that is not enabled: every call resolves
    to the fallback script. *)
Definition falls_back
    (generateScript : nat -> JS.Json -> JS.Json -> JS.Json -> option QC.Script)
  : Prop :=
  forall n topic duration_seconds tone,
    exists t d,
      generateScript n topic duration_seconds tone
      = Some (Scripts._generateScriptFallback t d).

(** Oracles for the examples: a generator whose second script passes the
    gate, and one that falls back; no stored script; scenes and assembly
    that succeed. *)
Definition demo_script : QC.Script :=
  {| QC.hook := None; QC.ending := None; QC.scenes := Some QC.s4_scenes |}.

Definition demo_generateScript (n : nat) (topic duration_seconds tone : JS.Json)
  : option QC.Script :=
  if (n =? 1)%nat then Some (Scripts._generateScriptFallback "Sleep" "30")
  else Some demo_script.

Definition demo_fallback (n : nat) (topic duration_seconds tone : JS.Json)
  : option QC.Script :=
  Some (Scripts._generateScriptFallback "Coffee" "30").

Definition demo_storedScript (job : Queue.Job) : option QC.Script := None.

Definition demo_renderPhase7 (job : Queue.Job) (q : Queue.t) : Queue.t := q.

Definition demo_processScenes (jobId : string) (scenes : list QC.Scene)
  : option (list Word.t) := Some [].

Definition demo_concatSegments (jobId : string) : bool := true.

(** An idle worker in front of the two requests of [Jobs.demo_requests]. *)
Definition demo : t :=
  {| activeJobs := 0; jobs := Jobs.createAll Jobs.demo_requests Jobs.empty |}.

End Worker.

(** ** assetStreamingManager.js: the temporary storage *)

Module Storage.

Definition MAX_TEMP_SIZE_MB : Q := 2000.

(** An entry of the temporary directory with what [fs.statSync] tells of
    it: its size in bytes and the time of its last modification in
    milliseconds; [removable] tells whether [_removeDirectoryRecursive]
    succeeds on it rather than throws. *)
Record Entry := mkEntry {
  name : string;
  size : Z;
  mtime : Z;
  removable : bool
}.

(** [file.startsWith('render_')] *)
Definition isRender (f : Entry) : bool := String.prefix "render_" (name f).

Definition totalSize (files : list Entry) : Z :=
  fold_left (fun total f => total + size f) files 0.

(** [manageTempStorage]: the names of the entries it removes.  [None] is a
    directory that cannot be listed, or an entry of which [fs.statSync]
    throws; the [catch] ends the call then.  In the loop over the sorted
    folders, the statement after the removal, [totalSizeMB -= ...], assigns
    to a binding declared with [const]: it throws a TypeError, which the
    [catch] takes, and the loop is left in its first round. *)
Definition manageTempStorage (dir : option (list Entry)) : list string :=
  match dir with
  | None => []
  | Some files =>
      let renderFolders := List.filter isRender files in
      let totalSizeMB := (inject_Z (totalSize files) / (1024 * 1024))%Q in
      if negb (Qle_bool totalSizeMB MAX_TEMP_SIZE_MB)
      then
        match Editing.sort_by mtime renderFolders with
        | [] => []
        | folder :: _ => if removable folder then [name folder] else []
        end
      else []
  end.

(** A directory of three gigabytes, for the examples. *)
Definition demo_dir : list Entry :=
  [ mkEntry "render_b" 1000000000 1700000200000 true;
    mkEntry "scratch.bin" 1000000000 1700000000000 true;
    mkEntry "render_a" 500000000 1700000100000 true;
    mkEntry "render_c" 500000000 1700000300000 true ].

End Storage.

(** ** renderingService.js: the caption layer *)

Module CaptionLayer.

(** An element of [captionTimings].  [startTime] and [endTime] are the
    times in seconds with three decimals that [toFixed(3)] prints, given as
    the number of milliseconds they stand for. *)
Record Timing := mkTiming {
  text : string;
  startTime : Z;
  endTime : Z;
  emphasis_indices : list nat;
  style : Caption.Style
}.

(** [entry.caption_id && entry.caption_id.startsWith('cap_')] *)
Definition isCaption (entry : Editing.Planned) : bool :=
  match Editing.p_caption_id entry with
  | Editing.Cap _ => true
  | _ => false
  end.

(** The callback of [editPlan.forEach] in [_buildCaptionFilters]: what it
    pushes on [captionTimings], if anything.  The captions are distinct
    objects, so that [captionMap] holds the caption of index [i] at
    [cap_i]. *)
Definition timingOf (captions : list Caption.t) (entry : Editing.Planned)
  : option Timing :=
  match Editing.p_caption_id entry with
  | Editing.Cap i =>
      match captions !! i with
      | Some caption =>
          Some {| text := Caption.text caption;
                  startTime := Editing.p_start_ms entry;
                  endTime := Editing.p_end_ms entry;
                  emphasis_indices := Caption.emphasis_indices caption;
                  style := Caption.style caption |}
      | None => None
      end
  | _ => None
  end.

Definition captionTimings (captions : list Caption.t)
    (editPlan : list Editing.Planned) : list Timing :=
  omap (timingOf captions) editPlan.

(** A segment with the id of a caption lies within the time span of that
    caption. *)
Definition spans (captions : list Caption.t) (id : Editing.CaptionId)
    (from to : Z) : Prop :=
  match id with
  | Editing.Cap i =>
      exists caption,
        captions !! i = Some caption
        /\ Caption.start_ms caption <= from /\ to <= Caption.end_ms caption
  | _ => True
  end.

(** The timing shows the text of the caption of the entry, for the time of
    the entry, which lies within the time span of the caption. *)
Definition drawn (captions : list Caption.t) (entry : Editing.Planned)
    (timing : Timing) : Prop :=
  exists i caption,
    Editing.p_caption_id entry = Editing.Cap i
    /\ captions !! i = Some caption
    /\ text timing = Caption.text caption
    /\ emphasis_indices timing = Caption.emphasis_indices caption
    /\ startTime timing = Editing.p_start_ms entry
    /\ endTime timing = Editing.p_end_ms entry
    /\ Caption.start_ms caption <= startTime timing
    /\ endTime timing <= Caption.end_ms caption.

End CaptionLayer.

(** * Part II: the properties *)

(** String concatenation unfolds on a constructor, as list concatenation
    does. *)
Local Arguments String.append : simpl nomatch.

(** ** Rounding to a double *)

Lemma pow2_pos (e : Z) : (0 < 2 ^ e)%Q.
Proof. apply Qpower_0_lt. reflexivity. Qed.

Lemma pow2_plus (a b : Z) : (2 ^ (a + b) == 2 ^ a * 2 ^ b)%Q.
Proof. apply Qpower_plus. discriminate. Qed.

Lemma pow2_le (a b : Z) : a <= b -> (2 ^ a <= 2 ^ b)%Q.
Proof. intros H. apply Qpower_le_compat_l; [exact H | discriminate]. Qed.

Lemma pow2_lt (a b : Z) : a < b -> (2 ^ a < 2 ^ b)%Q.
Proof. intros H. apply Qpower_lt_compat_l; [exact H | reflexivity]. Qed.

Lemma pow2_lt_inv (a b : Z) : (2 ^ a < 2 ^ b)%Q -> a < b.
Proof.
  intros H. destruct (Z.lt_ge_cases a b) as [|Hge]; [assumption|].
  apply pow2_le in Hge. lra.
Qed.

Lemma pow2_Z (n : Z) : 0 <= n -> (2 ^ n == inject_Z (2 ^ n))%Q.
Proof. intros H. rewrite Zpower_Qpower by exact H. reflexivity. Qed.

Lemma exponent_spec (x : Q) :
  (0 < x)%Q -> (2 ^ Double.exponent x <= x)%Q /\ (x < 2 ^ (Double.exponent x + 1))%Q.
Proof.
  intros Hx. unfold Double.exponent.
  destruct x as [p d]. cbn [Qnum Qden].
  assert (Hp : 0 < p) by (unfold Qlt in Hx; cbn in Hx; lia).
  pose proof (Z.log2_spec p Hp) as [Hp1 Hp2].
  pose proof (Z.log2_spec (Zpos d) ltac:(lia)) as [Hd1 Hd2].
  pose proof (Z.log2_nonneg p) as Hlp. pose proof (Z.log2_nonneg (Zpos d)) as Hld.
  set (lp := Z.log2 p) in *. set (ld := Z.log2 (Zpos d)) in *.
  assert (Hx' : (p # d == inject_Z p / inject_Z (Zpos d))%Q) by apply Qmake_Qdiv.
  assert (Hdpos : (0 < inject_Z (Zpos d))%Q) by reflexivity.
  assert (Hqp1 : (2 ^ lp <= inject_Z p)%Q) by (rewrite pow2_Z, <- Zle_Qle; lia).
  assert (Hqp2 : (inject_Z p < 2 ^ (lp + 1))%Q) by (rewrite pow2_Z, <- Zlt_Qlt; lia).
  assert (Hqd1 : (2 ^ ld <= inject_Z (Zpos d))%Q) by (rewrite pow2_Z, <- Zle_Qle; lia).
  assert (Hqd2 : (inject_Z (Zpos d) < 2 ^ (ld + 1))%Q)
    by (rewrite pow2_Z, <- Zlt_Qlt; lia).
  destruct (Qle_bool (2 ^ (lp - ld)) (p # d)) eqn:E.
  - apply Qle_bool_iff in E. split; [exact E|].
    rewrite Hx'. apply Qlt_shift_div_r; [exact Hdpos|].
    replace (lp - ld + 1) with ((lp + 1) + - ld) by lia.
    rewrite pow2_plus, Qpower_opp.
    pose proof (pow2_pos ld) as Hl. pose proof (pow2_pos (lp + 1)) as Hl1.
    set (a := (2 ^ (lp + 1))%Q) in *. set (b := (2 ^ ld)%Q) in *.
    set (D := inject_Z (Zpos d)) in *.
    assert (H1 : (a == a * / b * b)%Q) by (field; lra).
    assert (H2 : (a * / b * b <= a * / b * D)%Q).
    { apply Qmult_le_l; [|exact Hqd1].
      apply Qmult_lt_0_compat; [exact Hl1 | apply Qinv_lt_0_compat; exact Hl]. }
    lra.
  - assert (E' : ~ (2 ^ (lp - ld) <= p # d)%Q).
    { intros H. apply Qle_bool_iff in H. congruence. }
    apply Qnot_le_lt in E'.
    replace (lp - ld - 1 + 1) with (lp - ld) by lia. split; [|exact E'].
    rewrite Hx'. apply Qle_shift_div_l; [exact Hdpos|].
    replace (lp - ld - 1) with (lp + - (ld + 1)) by lia.
    rewrite pow2_plus, Qpower_opp.
    pose proof (pow2_pos (ld + 1)) as Hl. pose proof (pow2_pos lp) as Hl1.
    set (a := (2 ^ lp)%Q) in *. set (b := (2 ^ (ld + 1))%Q) in *.
    set (D := inject_Z (Zpos d)) in *.
    assert (H1 : (a == a * / b * b)%Q) by (field; lra).
    assert (H2 : (a * / b * D <= a * / b * b)%Q).
    { apply Qmult_le_l; [|lra].
      apply Qmult_lt_0_compat; [exact Hl1 | apply Qinv_lt_0_compat; exact Hl]. }
    lra.
Qed.

Lemma nearest_even_ge (y : Q) (K : Z) :
  (inject_Z K <= y)%Q -> K <= Double.nearest_even y.
Proof.
  intros H. unfold Double.nearest_even.
  assert (Hf : K <= Qfloor y).
  { rewrite <- (Qfloor_Z K). apply Qfloor_resp_le. exact H. }
  destruct (Qle_bool _ _); [|lia].
  destruct (Qeq_bool _ _); [|lia]. destruct (Z.even _); lia.
Qed.

Lemma nearest_even_le (y : Q) (K : Z) :
  (y <= inject_Z K)%Q -> Double.nearest_even y <= K.
Proof.
  intros H. unfold Double.nearest_even.
  pose proof (Qfloor_le y) as Hfl. pose proof (Qlt_floor y) as Hlt.
  assert (Hf : Qfloor y <= K).
  { rewrite <- (Qfloor_Z K). apply Qfloor_resp_le. exact H. }
  assert (Hcase : Qfloor y = K \/ Qfloor y + 1 <= K) by lia.
  destruct Hcase as [Heq | Hlt']; [|destruct (Qle_bool _ _);
    [destruct (Qeq_bool _ _); [destruct (Z.even _)|]|]; lia].
  assert (Hy : (y == inject_Z K)%Q).
  { rewrite Heq in Hfl. lra. }
  rewrite Heq.
  destruct (Qle_bool (y - inject_Z K) (1 # 2)) eqn:E1.
  - destruct (Qeq_bool (y - inject_Z K) (1 # 2)) eqn:E2; [|lia].
    apply Qeq_bool_iff in E2. lra.
  - assert (~ (y - inject_Z K <= 1 # 2)%Q).
    { intros Hc. apply Qle_bool_iff in Hc. congruence. }
    lra.
Qed.

Lemma inject_Z_pred (K : Z) : (inject_Z (K - 1) == inject_Z K - 1)%Q.
Proof. unfold Z.sub. rewrite inject_Z_plus. reflexivity. Qed.

(** Below the middle of [K - 1] and [K] the nearest integer is below
    [K]. *)
Lemma nearest_even_below (y : Q) (K : Z) :
  (y < inject_Z K - (1 # 2))%Q -> Double.nearest_even y <= K - 1.
Proof.
  intros H. unfold Double.nearest_even.
  pose proof (Qfloor_le y) as Hfl. pose proof (Qlt_floor y) as Hlt.
  assert (Hf : Qfloor y <= K - 1).
  { assert (Hz : (inject_Z (Qfloor y) < inject_Z K)%Q) by lra.
    rewrite <- Zlt_Qlt in Hz. lia. }
  assert (Hcase : Qfloor y = K - 1 \/ Qfloor y + 1 <= K - 1) by lia.
  destruct Hcase as [Heq | Hlt']; [|destruct (Qle_bool _ _);
    [destruct (Qeq_bool _ _); [destruct (Z.even _)|]|]; lia].
  rewrite Heq in *.
  pose proof (inject_Z_pred K) as Hi.
  destruct (Qle_bool (y - inject_Z (K - 1)) (1 # 2)) eqn:E1.
  - destruct (Qeq_bool (y - inject_Z (K - 1)) (1 # 2)) eqn:E2; [|lia].
    apply Qeq_bool_iff in E2. lra.
  - assert (~ (y - inject_Z (K - 1) <= 1 # 2)%Q).
    { intros Hc. apply Qle_bool_iff in Hc. congruence. }
    lra.
Qed.

Lemma quantum_pos (x : Q) : (0 < Double.quantum x)%Q.
Proof. apply pow2_pos. Qed.

(** An integer below [2^53] is a multiple of the spacing of the doubles
    around any [x] below [2^53]. *)
Lemma quantum_divides (x : Q) (K : Z) :
  Z.max (Double.exponent x) (-1022) <= 52 ->
  exists N : Z, (inject_Z K == inject_Z N * Double.quantum x)%Q.
Proof.
  intros HE. unfold Double.quantum.
  set (E := Z.max (Double.exponent x) (-1022)) in *.
  exists (K * 2 ^ (52 - E)).
  rewrite inject_Z_mult, <- pow2_Z by lia.
  rewrite <- Qmult_assoc, <- pow2_plus.
  replace (52 - E + (E - 52)) with 0 by lia. cbn. ring.
Qed.

Lemma round_pos_le (x : Q) (K : Z) :
  (0 < x)%Q -> K < 2 ^ 53 -> (x <= inject_Z K)%Q ->
  (Double.round_pos x <= inject_Z K)%Q.
Proof.
  intros Hx HK Hle. unfold Double.round_pos.
  pose proof (quantum_pos x) as Hq.
  destruct (exponent_spec x Hx) as [He1 He2].
  assert (HE : Z.max (Double.exponent x) (-1022) <= 52).
  { apply Z.max_lub; [|lia].
    assert (H53 : (inject_Z K < 2 ^ 53)%Q).
    { rewrite pow2_Z by lia. rewrite <- Zlt_Qlt. exact HK. }
    assert (Hlt : (2 ^ Double.exponent x < 2 ^ 53)%Q) by lra.
    apply pow2_lt_inv in Hlt. lia. }
  destruct (quantum_divides x K HE) as [N HN].
  set (q := Double.quantum x) in *.
  assert (Hn : Double.nearest_even (x / q) <= N).
  { apply nearest_even_le. apply Qle_shift_div_r; [exact Hq|]. lra. }
  rewrite HN. apply Qmult_le_compat_r; [|lra].
  rewrite <- Zle_Qle. exact Hn.
Qed.

Lemma round_pos_ge (x : Q) (K : Z) :
  (0 < x)%Q -> K <= 2 ^ 53 -> (inject_Z K <= x)%Q ->
  (inject_Z K <= Double.round_pos x)%Q.
Proof.
  intros Hx HK Hle. unfold Double.round_pos.
  pose proof (quantum_pos x) as Hq.
  destruct (exponent_spec x Hx) as [He1 He2].
  destruct (Z.le_gt_cases (Z.max (Double.exponent x) (-1022)) 52) as [HE | HE].
  - destruct (quantum_divides x K HE) as [N HN].
    set (q := Double.quantum x) in *.
    assert (Hn : N <= Double.nearest_even (x / q)).
    { apply nearest_even_ge. apply Qle_shift_div_l; [exact Hq|]. lra. }
    rewrite HN. apply Qmult_le_compat_r; [|lra].
    rewrite <- Zle_Qle. exact Hn.
  - assert (Hmax : Z.max (Double.exponent x) (-1022) = Double.exponent x) by lia.
    unfold Double.quantum in *. rewrite Hmax in *.
    set (e := Double.exponent x) in *.
    assert (Hn : 2 ^ 52 <= Double.nearest_even (x / 2 ^ (e - 52))).
    { apply nearest_even_ge. apply Qle_shift_div_l; [exact Hq|].
      rewrite <- pow2_Z, <- pow2_plus by lia.
      replace (52 + (e - 52)) with e by lia. exact He1. }
    assert (H1 : (inject_Z (2 ^ 52) * 2 ^ (e - 52)
                  <= inject_Z (Double.nearest_even (x / 2 ^ (e - 52))) * 2 ^ (e - 52))%Q).
    { apply Qmult_le_compat_r; [|lra]. rewrite <- Zle_Qle. exact Hn. }
    rewrite <- pow2_Z, <- pow2_plus in H1 by lia.
    replace (52 + (e - 52)) with e in H1 by lia.
    assert (H2 : (2 ^ 53 <= 2 ^ e)%Q) by (apply pow2_le; lia).
    assert (H3 : (inject_Z K <= 2 ^ 53)%Q).
    { rewrite pow2_Z by lia. rewrite <- Zle_Qle. exact HK. }
    lra.
Qed.

Lemma round_of_pos (x : Q) : (0 < x)%Q -> Double.round x = Double.round_pos x.
Proof.
  intros Hx. unfold Double.round. destruct x as [[|p|p] d]; try reflexivity;
    unfold Qlt in Hx; cbn in Hx; lia.
Qed.

Lemma round_nonneg (x : Q) : (0 <= x)%Q -> (0 <= Double.round x)%Q.
Proof.
  intros Hx. destruct (Qlt_le_dec 0 x) as [Hpos | Hle].
  - rewrite round_of_pos by exact Hpos.
    apply (round_pos_ge x 0 Hpos); [lia | change (inject_Z 0) with 0%Q; lra].
  - assert (Hz : Qnum x = 0).
    { destruct x as [n d]. unfold Qle in *. cbn in *. lia. }
    unfold Double.round. rewrite Hz. lra.
Qed.

(** Rounding does not cross an integer below [2^53]. *)
Lemma round_le (x : Q) (K : Z) :
  (0 <= x)%Q -> K < 2 ^ 53 -> (x <= inject_Z K)%Q -> (Double.round x <= inject_Z K)%Q.
Proof.
  intros Hx HK Hle. destruct (Qlt_le_dec 0 x) as [Hpos | Hneg].
  - rewrite round_of_pos by exact Hpos. apply round_pos_le; assumption.
  - assert (Hz : Qnum x = 0).
    { destruct x as [n d]. unfold Qle in *. cbn in *. lia. }
    unfold Double.round. rewrite Hz. lra.
Qed.

Lemma round_ge (x : Q) (K : Z) :
  0 <= K <= 2 ^ 53 -> (inject_Z K <= x)%Q -> (inject_Z K <= Double.round x)%Q.
Proof.
  intros HK Hle.
  assert (H0 : (0 <= inject_Z K)%Q) by (change 0%Q with (inject_Z 0); rewrite <- Zle_Qle; lia).
  destruct (Qlt_le_dec 0 x) as [Hpos | Hneg].
  - rewrite round_of_pos by exact Hpos. apply round_pos_ge; [assumption | lia | assumption].
  - assert (Hz : Qnum x = 0).
    { destruct x as [n d]. unfold Qle in *. cbn in *. lia. }
    unfold Double.round. rewrite Hz. lra.
Qed.

(** The product of an integer [n] below [2^53] and a number that is at
    most [1 - 2^-53], the largest double below 1, rounds to less than
    [n]. *)
Lemma round_scaled_lt (v : Q) (n : Z) :
  (0 <= v)%Q -> (v <= 1 - 2 ^ (-53))%Q -> 0 < n < 2 ^ 53 ->
  (Double.round (v * inject_Z n) < inject_Z n)%Q.
Proof.
  intros Hv0 Hv1 Hn.
  assert (Hnq : (0 < inject_Z n)%Q) by (change 0%Q with (inject_Z 0); rewrite <- Zlt_Qlt; lia).
  pose proof (pow2_pos (-53)) as H53.
  set (x := (v * inject_Z n)%Q).
  assert (Hx0 : (0 <= x)%Q) by (apply Qmult_le_0_compat; lra).
  assert (Hxn : (x <= inject_Z n - 2 ^ (-53) * inject_Z n)%Q).
  { unfold x. setoid_replace (inject_Z n - 2 ^ (-53) * inject_Z n)%Q
      with ((1 - 2 ^ (-53)) * inject_Z n)%Q using relation Qeq by ring.
    apply Qmult_le_compat_r; lra. }
  assert (Hp : (0 < 2 ^ (-53) * inject_Z n)%Q) by (apply Qmult_lt_0_compat; lra).
  destruct (Qlt_le_dec 0 x) as [Hpos | Hneg].
  2:{ assert (Hz : Qnum x = 0).
      { destruct x as [a d]. unfold Qle in *. cbn in *. lia. }
      unfold Double.round. rewrite Hz. exact Hnq. }
  rewrite round_of_pos by exact Hpos.
  destruct (exponent_spec x Hpos) as [He1 He2].
  unfold Double.round_pos.
  pose proof (quantum_pos x) as Hq.
  assert (Hn53 : (inject_Z n < 2 ^ 53)%Q).
  { rewrite pow2_Z by lia. rewrite <- Zlt_Qlt. lia. }
  assert (HE : Z.max (Double.exponent x) (-1022) <= 52).
  { apply Z.max_lub; [|lia].
    assert (Hlt : (2 ^ Double.exponent x < 2 ^ 53)%Q) by lra.
    apply pow2_lt_inv in Hlt. lia. }
  destruct (quantum_divides x n HE) as [N HN].
  assert (Hhalf : (Double.quantum x * (1 # 2) < 2 ^ (-53) * inject_Z n)%Q).
  { unfold Double.quantum.
    set (E := Z.max (Double.exponent x) (-1022)) in *.
    assert (HEn : (2 ^ E < inject_Z n)%Q).
    { destruct (Z.max_spec (Double.exponent x) (-1022)) as [[_ Hm] | [_ Hm]];
        fold E in Hm; rewrite Hm.
      - assert (H1 : (2 ^ (-1022) < 2 ^ 0)%Q) by (apply pow2_lt; lia).
        assert (H2 : (1 <= inject_Z n)%Q).
        { change 1%Q with (inject_Z 1). rewrite <- Zle_Qle. lia. }
        change (2 ^ 0)%Q with 1%Q in H1. lra.
      - lra. }
    replace (E - 52) with (E + 1 + (-53)) by lia.
    rewrite pow2_plus, pow2_plus. change (2 ^ 1)%Q with 2%Q.
    setoid_replace (2 ^ E * 2 * 2 ^ (-53) * (1 # 2))%Q with (2 ^ (-53) * 2 ^ E)%Q using relation Qeq by ring.
    apply Qmult_lt_l; [exact H53 | exact HEn]. }
  set (q := Double.quantum x) in *.
  assert (Hnear : Double.nearest_even (x / q) <= N - 1).
  { apply nearest_even_below. apply Qlt_shift_div_r; [exact Hq|].
    setoid_replace ((inject_Z N - (1 # 2)) * q)%Q
      with (inject_Z N * q - q * (1 # 2))%Q using relation Qeq by ring.
    lra. }
  assert (Hi : (inject_Z (Double.nearest_even (x / q)) <= inject_Z N - 1)%Q).
  { rewrite <- inject_Z_pred, <- Zle_Qle. exact Hnear. }
  assert (Hm : (inject_Z (Double.nearest_even (x / q)) * q <= (inject_Z N - 1) * q)%Q).
  { apply Qmult_le_compat_r; lra. }
  assert (Hexp : ((inject_Z N - 1) * q == inject_Z N * q - q)%Q) by ring.
  lra.
Qed.

(** ** The caption grouper *)

(** The grouper never reads an empty group: it returns on every word list. *)
Lemma caption_step_total len groups cur index item :
  is_Some (Caption.step len (groups, cur) index item).
Proof.
  unfold Caption.step, Caption._pushGroup.
  destruct cur as [|first cur'];
    cbn [length Nat.eqb negb andb orb app mbind option_bind];
    repeat (case_match; cbn [mbind option_bind]); simplify_eq; eauto.
Qed.

Lemma caption_generateTimeline_total (timestamps : list Word.t) :
  is_Some (Caption.generateTimeline timestamps).
Proof.
  unfold Caption.generateTimeline.
  generalize (length timestamps) as len.
  generalize 0%nat as index.
  generalize (@nil Caption.t, @nil Word.t) as st.
  induction timestamps as [|item rest IH]; intros [groups cur] index len;
    cbn [Caption.loop].
  - apply fmap_is_Some. eauto.
  - destruct (caption_step_total len groups cur index item) as [st' Hst'].
    rewrite Hst'. cbn [mbind option_bind]. apply IH.
Qed.

(** C1 as stated fails: on the word list of S5 the grouper does not emit
    "a b c" over 0..900 followed by "d" over 900..1200. *)
Lemma C1_s5_not_three_then_one :
  ~ (map Caption.summary <$> Caption.generateTimeline Caption.s5_words
     = Some [("a b c", 0, 900); ("d", 900, 1200)]).
Proof. vm_compute. discriminate. Qed.

(** C1 (amended): on the word list of S5 the grouper emits exactly two
    captions, "a b" over 0..600 and "c d" over 600..1200: the word c would
    stretch the first group to 900 ms, past the 800 ms limit, so it opens the
    second group. *)
Theorem C1_s5_two_pairs :
  map Caption.summary <$> Caption.generateTimeline Caption.s5_words
  = Some [("a b", 0, 600); ("c d", 600, 1200)].
Proof. reflexivity. Qed.

(** ** The audio timing model *)

Section Rounding.


Lemma Math_round_mono (x y : Q) : (x <= y)%Q -> JS.Math_round x <= JS.Math_round y.
Proof. intros H. unfold JS.Math_round. apply Qfloor_resp_le. lra. Qed.

Lemma Math_round_step (x d : Q) :
  (1 <= d)%Q -> JS.Math_round x < JS.Math_round (x + d).
Proof.
  intros Hd. unfold JS.Math_round.
  set (a := (x + (1 # 2))%Q).
  assert (Ha : (inject_Z (Qfloor a + 1) <= x + d + (1 # 2))%Q).
  { rewrite inject_Z_plus. pose proof (Qfloor_le a) as Hfl.
    subst a. change (inject_Z 1) with 1%Q. lra. }
  apply Qfloor_resp_le in Ha. rewrite Qfloor_Z in Ha. lia.
Qed.

Lemma Math_round_0 : JS.Math_round 0 = 0.
Proof. reflexivity. Qed.

Lemma Qle_bool_false (a b : Q) : Qle_bool a b = false -> (b < a)%Q.
Proof.
  intros H. apply Qnot_le_lt. intros Hle.
  apply Qle_bool_iff in Hle. congruence.
Qed.


Lemma pause_nonneg (x : Q) : (0 <= JS.Math_min (JS.Math_max x 150) 450)%Q.
Proof.
  unfold JS.Math_min, JS.Math_max.
  destruct (Qle_bool x 150) eqn:E1.
  - destruct (Qle_bool 150 450); lra.
  - apply Qle_bool_false in E1.
    destruct (Qle_bool x 450); lra.
Qed.

End Rounding.

(** *** Shape of the timestamps (C3) *)

Lemma well_timed_weaken ts b b' :
  b <= b' -> Audio.well_timed ts b -> Audio.well_timed ts b'.
Proof.
  intros Hb (H1 & H2 & H3). repeat split; auto.
  eapply Forall_impl; [exact H3|]. simpl. intros; lia.
Qed.

Lemma well_timed_snoc ts b t :
  Audio.well_timed ts b ->
  b <= Word.start_ms t ->
  Word.start_ms t < Word.end_ms t ->
  Audio.well_timed (ts ++ [t]) (Word.end_ms t).
Proof.
  intros (H1 & H2 & H3) Hb Ht. repeat split.
  - apply Forall_app. split; [exact H1 | repeat constructor; exact Ht].
  - intros i t1 u Hi HSi.
    assert (Hlt : (S i < length (ts ++ [t]))%nat) by (eapply lookup_lt_Some; eauto).
    rewrite length_app in Hlt. simpl in Hlt.
    rewrite lookup_app_l in Hi by lia.
    destruct (decide (S i < length ts)%nat) as [Hin | Hout].
    + rewrite lookup_app_l in HSi by lia. eauto.
    + rewrite lookup_app_r in HSi by lia.
      replace (S i - length ts)%nat with 0%nat in HSi by lia.
      simpl in HSi. inversion HSi; subst u.
      rewrite Forall_forall in H3.
      assert (Word.end_ms t1 <= b).
      { apply H3. eapply list_elem_of_lookup_2; eauto. }
      lia.
  - apply Forall_app. split.
    + eapply Forall_impl; [exact H3|]. simpl. intros; lia.
    + repeat constructor. lia.
Qed.

Lemma wordStep_inv m st word :
  (1 <= 300 * m)%Q ->
  Audio.inv st ->
  Audio.inv (Audio.wordStep m st word) /\ Audio.tight (Audio.wordStep m st word).
Proof.
  intros Hm [Hinv Hpos]. unfold Audio.inv, Audio.tight, Audio.wordStep in *.
  cbn [Audio.pushed Audio.currentTimeMs].
  set (d := (if Audio._checkEmphasis word then (300 * m * 1.15)%Q else (300 * m)%Q)).
  assert (Hd : (1 <= d)%Q) by (subst d; destruct (Audio._checkEmphasis word); lra).
  pose proof (Math_round_step (Audio.currentTimeMs st) d Hd) as Hstep.
  split; [split|].
  - match goal with |- Audio.well_timed (_ ++ [?t]) _ =>
      apply (well_timed_snoc _ _ t Hinv) end; cbn [Word.start_ms Word.end_ms].
    + lia.
    + exact Hstep.
  - lia.
  - eexists _, _. split; reflexivity.
Qed.

Lemma words_inv m words st :
  (1 <= 300 * m)%Q ->
  Audio.inv st ->
  Audio.inv (fold_left (Audio.wordStep m) words st)
  /\ (words <> [] -> Audio.tight (fold_left (Audio.wordStep m) words st)).
Proof.
  intros Hm. revert st.
  induction words as [|w words IH]; intros st Hinv; cbn [fold_left].
  - split; [exact Hinv | congruence].
  - destruct (wordStep_inv m st w Hm Hinv) as [Hinv' Htight'].
    destruct (IH _ Hinv') as [Hinv'' Htight''].
    split; [exact Hinv''|]. intros _.
    destruct words as [|w' words']; [exact Htight' | apply Htight''; congruence].
Qed.

Lemma split_go_nonempty skipping cur s : JS.split_go skipping cur s <> [].
Proof.
  revert skipping cur. induction s as [|c s IH]; intros skipping cur; simpl.
  - congruence.
  - destruct (JS.isSpace c); [destruct skipping|]; auto; congruence.
Qed.

Lemma split_ws_nonempty s : JS.split_ws s <> [].
Proof. apply split_go_nonempty. Qed.

Lemma sectionStep_inv len st idx section :
  Audio.inv st ->
  Audio.inv (Audio.sectionStep len st idx section)
  /\ (S idx = len -> Audio.tight (Audio.sectionStep len st idx section)).
Proof.
  intros Hinv. unfold Audio.sectionStep.
  set (m := if Nat.eqb (S idx) len then 1.2%Q
            else if Nat.eqb idx 0 then 0.8%Q else 1.0%Q).
  assert (Hm : (1 <= 300 * m)%Q).
  { subst m. destruct (Nat.eqb (S idx) len), (Nat.eqb idx 0); lra. }
  set (st0 := {| Audio.currentTimeMs := Audio.currentTimeMs st;
                 Audio.sectionDurationMs := 0;
                 Audio.pushed := Audio.pushed st |}).
  destruct (words_inv m (JS.split_ws section) st0 Hm Hinv) as [[Hinv1 Hpos1] Htight1].
  specialize (Htight1 (split_ws_nonempty section)).
  destruct (Nat.ltb (S idx) len) eqn:Elt.
  - split.
    + unfold Audio.inv in *. cbn [Audio.pushed Audio.currentTimeMs].
      set (st1 := fold_left (Audio.wordStep m) (JS.split_ws section) st0) in *.
      pose proof (pause_nonneg (Audio.sectionDurationMs st1 * 0.15)) as Hp.
      set (pause := JS.Math_min (JS.Math_max (Audio.sectionDurationMs st1 * 0.15) 150) 450) in *.
      assert (Hmono : JS.Math_round (Audio.currentTimeMs st1)
                      <= JS.Math_round (Audio.currentTimeMs st1 + pause)).
      { apply Math_round_mono. lra. }
      split; [|lia].
      eapply well_timed_weaken; [exact Hmono | exact Hinv1].
    + intros Hlast. apply Nat.ltb_lt in Elt. lia.
  - split; [split; [exact Hinv1 | exact Hpos1] | intros _; exact Htight1].
Qed.

Lemma sections_inv len rest st idx :
  (idx + length rest = len)%nat ->
  Audio.inv st ->
  Audio.inv (Audio.sections len st idx rest)
  /\ (rest <> [] -> Audio.tight (Audio.sections len st idx rest)).
Proof.
  revert st idx. induction rest as [|s rest IH]; intros st idx Hlen Hinv;
    cbn [Audio.sections].
  - split; [exact Hinv | congruence].
  - cbn [length] in Hlen.
    destruct (sectionStep_inv len st idx s Hinv) as [Hinv1 Htight1].
    destruct (IH (Audio.sectionStep len st idx s) (S idx) ltac:(lia) Hinv1)
      as [Hinv2 Htight2].
    split; [exact Hinv2|]. intros _.
    destruct rest as [|s' rest'].
    + cbn [Audio.sections]. apply Htight1. cbn [length] in Hlen. lia.
    + apply Htight2. congruence.
Qed.

Lemma max_end_ms_bound ts b :
  0 <= b -> Forall (fun t => Word.end_ms t <= b) ts -> Audio.max_end_ms ts <= b.
Proof.
  intros Hb H. unfold Audio.max_end_ms.
  induction H as [|t ts Ht _ IH]; simpl; lia.
Qed.

Lemma max_end_ms_snoc l t : Word.end_ms t <= Audio.max_end_ms (l ++ [t]).
Proof.
  unfold Audio.max_end_ms. induction l as [|x l IH]; simpl; lia.
Qed.

(** C3: on every input the timestamps returned by [generateVoiceover] are
    well formed: each word starts strictly before it ends, each word ends no
    later than the next one starts, and [duration_ms] is the largest
    [end_ms] of the list (these are the rounded, integer values that the
    function emits). *)
Theorem C3_voiceover_timestamps_ordered (scriptData : Audio.ScriptData) :
  let r := Audio.generateVoiceover scriptData in
  (forall t, In t (Audio.timestamps r) -> Word.start_ms t < Word.end_ms t)
  /\ (forall i t u,
        Audio.timestamps r !! i = Some t ->
        Audio.timestamps r !! S i = Some u ->
        Word.end_ms t <= Word.start_ms u)
  /\ Audio.duration_ms r = Audio.max_end_ms (Audio.timestamps r).
Proof.
  cbn zeta. unfold Audio.generateVoiceover.
  cbn [Audio.timestamps Audio.duration_ms].
  set (texts := Audio.allText scriptData).
  set (st0 := {| Audio.currentTimeMs := 0; Audio.sectionDurationMs := 0;
                 Audio.pushed := [] |}).
  assert (Hinv0 : Audio.inv st0).
  { unfold Audio.inv, Audio.well_timed, Audio.consecutive. cbn.
    repeat split; try constructor; try discriminate. }
  destruct (sections_inv (length texts) texts st0 0%nat eq_refl Hinv0)
    as [[(H1 & H2 & H3) Hpos] Htight].
  set (final := Audio.sections (length texts) st0 0 texts) in *.
  split; [|split].
  - intros t Ht. rewrite Forall_forall in H1. apply H1.
    apply list_elem_of_In. exact Ht.
  - exact H2.
  - destruct texts as [|s texts'].
    + reflexivity.
    + destruct (Htight ltac:(congruence)) as (l & t & Hl & Hend).
      apply Z.le_antisymm.
      * rewrite <- Hend, Hl. apply max_end_ms_snoc.
      * apply max_end_ms_bound; [exact Hpos | exact H3].
Qed.

(** *** The code computes the timing model of the specification (C2) *)








(** *** Word durations are whole numbers of milliseconds *)

Lemma Qfloor_unique (x : Q) (z : Z) :
  (inject_Z z <= x)%Q -> (x < inject_Z (z + 1))%Q -> Qfloor x = z.
Proof.
  intros Hlo Hhi.
  apply Qfloor_resp_le in Hlo. rewrite Qfloor_Z in Hlo.
  assert (Hlt : (inject_Z (Qfloor x) < inject_Z (z + 1))%Q).
  { eapply Qle_lt_trans; [apply Qfloor_le | exact Hhi]. }
  rewrite <- Zlt_Qlt in Hlt. lia.
Qed.

Lemma Math_round_plus_Z (x d : Q) (n : Z) :
  (d == inject_Z n)%Q -> JS.Math_round (x + d) = JS.Math_round x + n.
Proof.
  intros Hd. unfold JS.Math_round. apply Qfloor_unique.
  - rewrite inject_Z_plus. pose proof (Qfloor_le (x + (1 # 2))). lra.
  - rewrite !inject_Z_plus. pose proof (Qlt_floor (x + (1 # 2))) as H.
    rewrite inject_Z_plus in H. lra.
Qed.

Lemma spec_word_duration_whole p token :
  (Audio.spec_word_duration p token
   == inject_Z (Audio.whole_duration p (Audio._checkEmphasis token)))%Q.
Proof.
  unfold Audio.spec_word_duration.
  destruct p, (Audio._checkEmphasis token); reflexivity.
Qed.

(** In the timing model every timestamp lasts exactly the duration of its
    word: rounding the cursor does not change the length of a word. *)
Lemma spec_stamps_exact p tokens : forall cursor,
  Forall2
    (fun t token =>
       Word.end_ms t - Word.start_ms t
       = Audio.whole_duration p (Audio._checkEmphasis token))
    (Audio.spec_stamps p cursor tokens) tokens.
Proof.
  induction tokens as [|token tokens IH]; intros cursor; cbn [Audio.spec_stamps].
  - constructor.
  - constructor; [|apply IH]. cbn [Word.start_ms Word.end_ms].
    rewrite (Math_round_plus_Z cursor _ _ (spec_word_duration_whole p token)).
    lia.
Qed.

(** A hook with a number in it, one body sentence with two triggers, and an
    ending that starts with a trigger. *)
Example voiceover_example :
  map (fun t => (Word.word t, Word.start_ms t, Word.end_ms t, Word.emphasis t))
      (Audio.timestamps
         (Audio.generateVoiceover
            (Audio.Obj (Some "Most people think 7 cats") (Some ["but never dogs"])
                       (Some "stop now"))))
  = [ ("Most", 0, 240, false); ("people", 240, 480, false);
      ("think", 480, 720, false); ("7", 720, 996, true);
      ("cats", 996, 1236, false);
      ("but", 1421, 1766, true); ("never", 1766, 2111, true);
      ("dogs", 2111, 2411, false);
      ("stop", 2561, 2975, true); ("now", 2975, 3335, false) ].
Proof. reflexivity. Qed.

Example split_ws_example :
  JS.split_ws " a  b " = [""; "a"; "b"; ""] /\ JS.split_ws "" = [""].
Proof. split; reflexivity. Qed.

(** ** Strings and patterns *)

Lemma string_app_assoc (a b c : string) :
  ((a ++ b) ++ c = a ++ (b ++ c))%string.
Proof. induction a as [|x a IH]; simpl; [reflexivity | now rewrite IH]. Qed.

Lemma string_app_nil_r (a : string) : (a ++ EmptyString)%string = a.
Proof. induction a as [|x a IH]; simpl; [reflexivity | now rewrite IH]. Qed.

Lemma prefix_spec (p s : string) :
  String.prefix p s = true <-> exists post, s = (p ++ post)%string.
Proof.
  revert p. induction s as [|b s IH]; intros [|a p]; simpl.
  - split; [intros _; exists EmptyString; reflexivity | reflexivity].
  - split; [discriminate | intros [post H]; discriminate].
  - split; [intros _; exists (String b s); reflexivity | reflexivity].
  - destruct (ascii_dec a b) as [-> | Hne].
    + rewrite IH. split; intros [post H]; exists post; congruence.
    + split; [discriminate | intros [post H]; congruence].
Qed.

Lemma includes_spec (s sub : string) :
  JS.includes s sub = true <->
  exists pre post, s = (pre ++ sub ++ post)%string.
Proof.
  induction s as [|c s IH]; cbn [JS.includes]; rewrite orb_true_iff, prefix_spec.
  - split.
    + intros [[post H] | H]; [exists EmptyString, post; exact H | discriminate].
    + intros (pre & post & H). left.
      destruct pre; [exists post; exact H | discriminate].
  - rewrite IH. split.
    + intros [[post H] | (pre & post & H)].
      * exists EmptyString, post. exact H.
      * exists (String c pre), post. simpl. congruence.
    + intros (pre & post & H). destruct pre as [|c' pre]; simpl in H.
      * left. eauto.
      * right. exists pre, post. congruence.
Qed.

Lemma toLowerCase_nil (s : string) :
  EmptyString = JS.toLowerCase s -> s = EmptyString.
Proof. destruct s; [reflexivity | discriminate]. Qed.

Lemma lit_prefix_spec (p : string) : forall s rest,
  Regex.lit_prefix p s = Some rest <->
  exists m, s = (m ++ rest)%string /\ JS.toLowerCase p = JS.toLowerCase m.
Proof.
  induction p as [|a p IH]; intros s rest; simpl.
  - split.
    + intros [= ->]. exists EmptyString. auto.
    + intros (m & -> & Hm). apply toLowerCase_nil in Hm. now subst m.
  - destruct s as [|b s].
    + split; [discriminate|].
      intros (m & Hs & Hm). destruct m; discriminate.
    + unfold Regex.ci_eqb. destruct (Ascii.eqb_spec (JS.lowerChar a) (JS.lowerChar b)) as [Hab | Hab].
      * rewrite IH. split.
        -- intros (m & -> & Hm). exists (String b m). simpl. split; congruence.
        -- intros (m & Hs & Hm). destruct m as [|b' m]; [discriminate|].
           simpl in Hs, Hm. inversion Hs; subst. exists m. split; congruence.
      * split; [discriminate|].
        intros (m & Hs & Hm). destruct m as [|b' m]; [discriminate|].
        simpl in Hs, Hm. inversion Hs; subst. congruence.
Qed.

Lemma any_plus_spec (k : string -> bool) (s : string) :
  Regex.any_plus k s = true <->
  exists m rest, s = (m ++ rest)%string /\ m <> EmptyString
    /\ JS.any JS.isLineTerminator m = false /\ k rest = true.
Proof.
  induction s as [|c s IH]; simpl.
  - split; [discriminate|].
    intros (m & rest & H & Hm & _). destruct m; [congruence | discriminate].
  - rewrite andb_true_iff, negb_true_iff, orb_true_iff, IH. split.
    + intros [Hc [(m & rest & -> & Hm & Hany & Hk) | Hk]].
      * exists (String c m), rest. simpl. rewrite Hc, Hany. repeat split; congruence.
      * exists (String c EmptyString), s. simpl. rewrite Hc. repeat split; congruence.
    + intros (m & rest & H & Hm & Hany & Hk).
      destruct m as [|c' m]; [congruence|].
      simpl in H, Hany. inversion H; subst.
      apply orb_false_iff in Hany as [Hc Hany]. split; [exact Hc|].
      destruct m as [|c'' m].
      * right. exact Hk.
      * left. exists (String c'' m), rest. repeat split; congruence.
Qed.

(** The backtracking matcher decides the language of the pattern. *)
Lemma run_spec (r : Regex.t) : forall k s,
  Regex.run r k s = true <->
  exists m rest, s = (m ++ rest)%string /\ Regex.matches r m /\ k rest = true.
Proof.
  induction r as [p | | r1 IH1 r2 IH2 | r1 IH1 r2 IH2]; intros k s; simpl.
  - destruct (Regex.lit_prefix p s) as [rest|] eqn:E.
    + apply lit_prefix_spec in E as (m & -> & Hm). split.
      * intros Hk. exists m, rest. repeat split; auto. now constructor.
      * intros (m' & rest' & Hs & Hmat & Hk). inversion Hmat; subst.
        assert (Hr : Regex.lit_prefix p (m ++ rest)%string = Some rest').
        { apply lit_prefix_spec. eauto. }
        assert (Hr' : Regex.lit_prefix p (m ++ rest)%string = Some rest).
        { apply lit_prefix_spec. eauto. }
        congruence.
    + split; [discriminate|].
      intros (m & rest & -> & Hmat & Hk). inversion Hmat; subst.
      assert (Hr : Regex.lit_prefix p (m ++ rest)%string = Some rest).
      { apply lit_prefix_spec. eauto. }
      congruence.
  - rewrite any_plus_spec. split.
    + intros (m & rest & -> & Hm & Hany & Hk). exists m, rest.
      repeat split; auto. now constructor.
    + intros (m & rest & -> & Hmat & Hk). inversion Hmat; subst. eauto 8.
  - rewrite IH1. split.
    + intros (m1 & rest1 & -> & Hm1 & Hrun). apply IH2 in Hrun
        as (m2 & rest & -> & Hm2 & Hk).
      exists (m1 ++ m2)%string, rest. rewrite string_app_assoc.
      repeat split; auto. now constructor.
    + intros (m & rest & -> & Hmat & Hk). inversion Hmat; subst.
      exists s1, (s2 ++ rest)%string. rewrite string_app_assoc.
      repeat split; auto. apply IH2. eauto.
  - rewrite orb_true_iff, IH1, IH2. split.
    + intros [(m & rest & -> & Hm & Hk) | (m & rest & -> & Hm & Hk)];
        exists m, rest; repeat split; auto; [now apply Regex.M_AltL | now apply Regex.M_AltR].
    + intros (m & rest & -> & Hmat & Hk). inversion Hmat; subst; eauto 8.
Qed.

Lemma test_spec (r : Regex.t) (s : string) :
  Regex.test r s = true <-> Regex.found r s.
Proof.
  unfold Regex.found. induction s as [|c s IH]; simpl;
    rewrite orb_true_iff, run_spec.
  - split.
    + intros [(m & rest & H & Hm & _) | H]; [|discriminate].
      exists EmptyString, m, rest. auto.
    + intros (pre & mid & post & H & Hm). left.
      destruct pre; [|discriminate]. exists mid, post. auto.
  - rewrite IH. split.
    + intros [(m & rest & H & Hm & _) | (pre & mid & post & -> & Hm)].
      * exists EmptyString, m, rest. auto.
      * exists (String c pre), mid, post. auto.
    + intros (pre & mid & post & H & Hm). destruct pre as [|c' pre]; simpl in H.
      * left. exists mid, post. auto.
      * right. inversion H; subst. eauto.
Qed.

(** ** The script quality gate (C4) *)

Lemma contains_ci_includes (s phrase : string) :
  QC.contains_ci s phrase <-> JS.includes (JS.toLowerCase s) phrase = true.
Proof. unfold QC.contains_ci. symmetry. apply includes_spec. Qed.

Lemma hook_pattern_found (h : string) :
  (exists r, In r QC.HOOK_PATTERNS /\ Regex.found r h) <->
  existsb (fun pattern => Regex.test pattern h) QC.HOOK_PATTERNS = true.
Proof.
  rewrite existsb_exists. split; intros (r & Hin & Hr); exists r;
    (split; [exact Hin | apply test_spec; exact Hr]).
Qed.

Lemma banned_free (h : string) :
  (forall p, In p QC.BANNED_HOOK_PHRASES -> ~ QC.contains_ci h p) <->
  forallb (fun p => negb (JS.includes (JS.toLowerCase h) p)) QC.BANNED_HOOK_PHRASES = true.
Proof.
  rewrite forallb_forall. split; intros H p Hin.
  - apply negb_true_iff. destruct (JS.includes _ p) eqn:E; [|reflexivity].
    exfalso. apply (H p Hin). apply contains_ci_includes. exact E.
  - intros Hc. apply contains_ci_includes in Hc.
    specialize (H p Hin). rewrite Hc in H. discriminate.
Qed.

(** The verdict on a script that has scenes and no legacy fields, as a
    boolean formula over the hook [h] and the ending [e]. *)
Lemma validateScript_scenes (scs : list QC.Scene) (s0 sl : QC.Scene) :
  head scs = Some s0 -> last scs = Some sl ->
  let h := QC.text s0 in
  let e := QC.text sl in
  QC.isValid (QC.validateScript
                {| QC.hook := None; QC.ending := None; QC.scenes := Some scs |})
  = QC.truthy (Some h)
    && negb (Nat.ltb 12 (QC.pieces h))
    && forallb (fun p => negb (JS.includes (JS.toLowerCase h) p)) QC.BANNED_HOOK_PHRASES
    && existsb (fun pattern => Regex.test pattern h) QC.HOOK_PATTERNS
    && (negb (QC.truthy (Some e)) || negb (Nat.ltb 8 (QC.pieces e))).
Proof.
  intros Hhead Hlast. cbn zeta.
  unfold QC.validateScript, QC.js_or, QC.scene_text, QC.first_scene, QC.last_scene.
  cbn [QC.hook QC.ending QC.scenes QC.truthy].
  rewrite Hhead, Hlast. cbn [fmap option_fmap option_map default from_option id].
  destruct (QC.text s0) as [|c h'] eqn:Eh; [reflexivity|].
  cbn [QC.truthy negb andb].
  unfold QC.pieces. cbn [QC.BANNED_HOOK_PHRASES fold_left forallb].
  set (h := String c h').
  destruct (Nat.ltb 12 (length (JS.split_ws h)));
  destruct (JS.includes (JS.toLowerCase h) "did you know");
  destruct (JS.includes (JS.toLowerCase h) "in this video");
  destruct (JS.includes (JS.toLowerCase h) "let's talk about");
  destruct (JS.includes (JS.toLowerCase h) "you won't believe");
  destruct (existsb (fun pattern => Regex.test pattern h) QC.HOOK_PATTERNS);
  destruct (QC.text sl) as [|ce e']; cbn [QC.truthy negb andb orb app length Nat.eqb QC.isValid default from_option id];
  try reflexivity; case_match; reflexivity.
Qed.

(** Scenarios S3 and S4, and a hook in the fourth pattern with an ending of
    ten words. *)
Example validateScript_examples :
  let script h e :=
    {| QC.hook := None; QC.ending := None;
       QC.scenes := Some [QC.mkScene "hook" h []; QC.mkScene "ending" e []] |} in
  QC.validateScript (script "In this video we explain coffee" "Stop.")
  = {| QC.isValid := false;
       QC.errors := [QC.BannedPhrase "in this video"; QC.NoCuriosityStructure] |}
  /\ QC.validateScript
       (script "Most people think coffee wakes you, but it blocks adenosine" "Stop.")
     = {| QC.isValid := true; QC.errors := [] |}
  /\ QC.validateScript
       (script "Coffee ISN'T the problem. Sleep is."
               "Stop now or never do it again my dear friends")
     = {| QC.isValid := false; QC.errors := [QC.EndingTooLong 10] |}.
Proof. cbn zeta. repeat split; reflexivity. Qed.

(** *** Words and the pieces of [split(/\s+/)] *)

Lemma split_go_words (s : string) : forall cur,
  length (JS.split_go false cur s)
  = (1 + Words.count_from true s + (if Words.trailing s then 1 else 0))%nat
  /\ length (JS.split_go true cur s)
     = (Words.count_from false s
        + (if Words.isEmpty s || Words.trailing s then 1 else 0))%nat.
Proof.
  induction s as [|c s' IH]; intros cur; [split; reflexivity|].
  cbn [JS.split_go Words.count_from Words.isEmpty orb].
  assert (Htr : Words.trailing (String c s')
                = if Words.isEmpty s' then JS.isSpace c else Words.trailing s').
  { destruct s'; reflexivity. }
  rewrite Htr. destruct (JS.isSpace c) eqn:Ec.
  - cbn [length]. rewrite !(proj2 (IH _)).
    destruct s' as [|d s'']; cbn [Words.isEmpty orb]; split; lia.
  - rewrite !(proj1 (IH _)).
    destruct s' as [|d s'']; cbn [Words.isEmpty Words.trailing]; split; lia.
Qed.

(** [split(/\s+/)] gives one piece for each word, one more for a text that
    is empty or starts with white space, and one more for a text that ends
    with white space. *)
Lemma pieces_words (s : string) :
  QC.pieces s = (Words.count s + Words.margins s)%nat.
Proof.
  unfold QC.pieces, JS.split_ws, Words.count, Words.margins.
  rewrite (proj1 (split_go_words s EmptyString)).
  destruct s as [|c s']; [reflexivity|].
  cbn [Words.count_from Words.isEmpty Words.leading orb].
  destruct (JS.isSpace c); lia.
Qed.

Lemma pieces_trimmed (s : string) :
  s <> EmptyString -> Words.leading s = false -> Words.trailing s = false ->
  QC.pieces s = Words.count s.
Proof.
  intros Hne Hl Ht. rewrite pieces_words. unfold Words.margins.
  rewrite Hl, Ht. destruct s; [congruence|]. cbn [Words.isEmpty orb]. lia.
Qed.

(** The gate in terms of what it counts: the pieces of the hook and of the
    ending. *)
Lemma validateScript_iff_pieces (scs : list QC.Scene) (s0 sl : QC.Scene) :
  head scs = Some s0 -> last scs = Some sl ->
  let h := QC.text s0 in
  let e := QC.text sl in
  QC.isValid (QC.validateScript
                {| QC.hook := None; QC.ending := None; QC.scenes := Some scs |})
  = true
  <->
  ((QC.pieces h <= 12)%nat
   /\ (forall p, In p QC.BANNED_HOOK_PHRASES -> ~ QC.contains_ci h p)
   /\ (exists r, In r QC.HOOK_PATTERNS /\ Regex.found r h)
   /\ (e = EmptyString \/ (QC.pieces e <= 8)%nat)).
Proof.
  intros Hhead Hlast. cbn zeta.
  rewrite (validateScript_scenes scs s0 sl Hhead Hlast). cbn zeta.
  rewrite banned_free, hook_pattern_found.
  rewrite !andb_true_iff, orb_true_iff, !negb_true_iff, !Nat.ltb_ge.
  split.
  - intros ((((_ & H1) & H2) & H3) & H4). repeat split; auto.
    destruct H4 as [H4 | H4]; [|right; exact H4].
    destruct (QC.text sl); [left; reflexivity | discriminate].
  - intros (H1 & H2 & H3 & H4). repeat split; auto.
    + destruct (QC.text s0) as [|c h'] eqn:Eh; [|reflexivity].
      exfalso. vm_compute in H3. discriminate.
    + destruct H4 as [-> | H4]; [left; reflexivity | right; exact H4].
Qed.

(** When neither the hook nor the ending starts or ends with white space,
    the gate accepts exactly the scripts whose hook has at most 12 words, no
    banned phrase and a curiosity pattern, and whose ending has at most 8
    words. *)
Lemma validateScript_iff_words (scs : list QC.Scene) (s0 sl : QC.Scene) :
  head scs = Some s0 -> last scs = Some sl ->
  let h := QC.text s0 in
  let e := QC.text sl in
  Words.leading h = false -> Words.trailing h = false ->
  Words.leading e = false -> Words.trailing e = false ->
  QC.isValid (QC.validateScript
                {| QC.hook := None; QC.ending := None; QC.scenes := Some scs |})
  = true
  <->
  ((Words.count h <= 12)%nat
   /\ (forall p, In p QC.BANNED_HOOK_PHRASES -> ~ QC.contains_ci h p)
   /\ (exists r, In r QC.HOOK_PATTERNS /\ Regex.found r h)
   /\ (Words.count e <= 8)%nat).
Proof.
  intros Hhead Hlast. cbn zeta.
  rewrite (validateScript_iff_pieces scs s0 sl Hhead Hlast). cbn zeta.
  generalize (QC.text s0) (QC.text sl). intros h e Hlh Hth Hle Hte.
  assert (He : e = EmptyString \/ (QC.pieces e <= 8)%nat
               <-> (Words.count e <= 8)%nat).
  { destruct e as [|c e'] eqn:Ee; [split; [cbn; lia | auto]|].
    rewrite pieces_trimmed by (congruence || assumption).
    split; [intros [H | H]; [discriminate | exact H] | auto]. }
  rewrite He.
  split; intros (H1 & H2 & H3 & H4); split_and!; auto.
  - destruct h as [|c h'] eqn:Eh; [cbn; lia|].
    rewrite <- pieces_trimmed; (congruence || assumption).
  - destruct h as [|c h'] eqn:Eh; [exfalso; apply hook_pattern_found in H3; vm_compute in H3; discriminate|].
    rewrite pieces_trimmed; (congruence || assumption).
Qed.

(** An ending of eight words that a line feed follows is refused as one of
    nine. *)
Example validateScript_padded_ending :
  let ending := String.append "Stop now or never do it again, friend."
                  (String (ascii_of_nat 10) EmptyString) in
  Words.count ending = 8%nat
  /\ QC.validateScript
       {| QC.hook := None; QC.ending := None;
          QC.scenes :=
            Some [QC.mkScene "hook" "Coffee ISN'T the problem. Sleep is." [];
                  QC.mkScene "ending" ending []] |}
     = {| QC.isValid := false; QC.errors := [QC.EndingTooLong 9] |}.
Proof. cbn zeta. split; reflexivity. Qed.

(** C4: the gate refuses a script that meets the four conditions: the hook
    of [padded_script] has twelve words, no banned phrase and a curiosity
    pattern, and the ending has one word, and [validateScript] returns
    [isValid = false] with the one error that the hook is too long, of 13
    words; the space after the last word of the hook is counted as a
    word. *)
Theorem C4_hook_of_12_words_refused :
  QC.scenes QC.padded_script
  = Some [QC.mkScene "hook" QC.padded_hook []; QC.mkScene "ending" "Stop." []]
  /\ Words.count QC.padded_hook = 12%nat
  /\ (forall p, In p QC.BANNED_HOOK_PHRASES -> ~ QC.contains_ci QC.padded_hook p)
  /\ (exists r, In r QC.HOOK_PATTERNS /\ Regex.found r QC.padded_hook)
  /\ Words.count "Stop." = 1%nat
  /\ QC.validateScript QC.padded_script
     = {| QC.isValid := false; QC.errors := [QC.HookTooLong 13] |}.
Proof.
  split_and!; try reflexivity.
  - apply banned_free. vm_compute. reflexivity.
  - apply hook_pattern_found. vm_compute. reflexivity.
Qed.

(** ** The visual timeline builder (C5) *)

Lemma random_value_bounds (r : Random.t) :
  (0 <= Random.value r)%Q /\ (Random.value r <= 1 - 2 ^ (-53))%Q.
Proof.
  unfold Random.value. cbv zeta.
  set (v := Double.round _).
  assert (Hv : (0 <= v)%Q).
  { apply round_nonneg. unfold Qle. cbn. lia. }
  assert (Htop : (0 <= Random.top)%Q) by (vm_compute; discriminate).
  destruct (Qle_bool v Random.top) eqn:E.
  - apply Qle_bool_iff in E. split; [exact Hv | exact E].
  - split; [exact Htop | apply Qle_refl].
Qed.

Lemma random_value_lt_1 (r : Random.t) : (Random.value r < 1)%Q.
Proof.
  destruct (random_value_bounds r) as [_ H]. pose proof (pow2_pos (-53)). lra.
Qed.

(** The draw of a whole number: the sum can round up to [m + n], which
    the exact sum stays below. *)
Lemma random_scaled_bounds (r : Random.t) (n m : Z) :
  0 < n -> 0 <= m -> m + n < 2 ^ 53 ->
  m <= Random.scaled r n m <= m + n.
Proof.
  intros Hn Hm Hmn. unfold Random.scaled.
  destruct (random_value_bounds r) as [H0 _]. pose proof (random_value_lt_1 r) as H1.
  set (v := Random.value r) in *.
  assert (Hn' : (0 < inject_Z n)%Q) by (unfold Qlt; simpl; lia).
  assert (Hm' : (0 <= inject_Z m)%Q) by (unfold Qle; simpl; lia).
  assert (Hlo : (0 <= v * inject_Z n)%Q).
  { apply Qmult_le_0_compat; [exact H0 | apply Qlt_le_weak; exact Hn']. }
  assert (Hhi : (v * inject_Z n <= inject_Z n)%Q).
  { rewrite <- (Qmult_1_l (inject_Z n)) at 2.
    apply Qmult_le_compat_r; lra. }
  pose proof (round_nonneg _ Hlo) as Hp0.
  pose proof (round_le _ n Hlo ltac:(lia) Hhi) as Hpn.
  set (p := Double.round (v * inject_Z n)) in *.
  assert (Hs0 : (inject_Z m <= p + inject_Z m)%Q) by lra.
  assert (Hs1 : (p + inject_Z m <= inject_Z (m + n))%Q).
  { rewrite inject_Z_plus. lra. }
  split.
  - rewrite <- (Qfloor_Z m) at 1. apply Qfloor_resp_le.
    apply round_ge; [lia | exact Hs0].
  - rewrite <- (Qfloor_Z (m + n)). apply Qfloor_resp_le.
    apply round_le; [lra | lia | exact Hs1].
Qed.

(** The draw of an index is below [n]: the product of [n] and the largest
    double below 1 rounds to less than [n]. *)
Lemma random_index_bounds (r : Random.t) (n : Z) :
  0 < n < 2 ^ 53 -> 0 <= Random.index r n < n.
Proof.
  intros Hn. unfold Random.index.
  destruct (random_value_bounds r) as [H0 H1].
  set (v := Random.value r) in *.
  assert (Hn' : (0 < inject_Z n)%Q) by (unfold Qlt; simpl; lia).
  assert (Hlo : (0 <= v * inject_Z n)%Q).
  { apply Qmult_le_0_compat; [exact H0 | apply Qlt_le_weak; exact Hn']. }
  pose proof (round_nonneg _ Hlo) as Hp0.
  pose proof (round_scaled_lt v n H0 H1 Hn) as Hlt.
  set (p := Double.round (v * inject_Z n)) in *.
  split.
  - change 0 with (Qfloor 0). apply Qfloor_resp_le. exact Hp0.
  - assert (Hf : (inject_Z (Qfloor p) < inject_Z n)%Q).
    { eapply Qle_lt_trans; [apply Qfloor_le | exact Hlt]. }
    rewrite <- Zlt_Qlt in Hf. exact Hf.
Qed.

(** The duration drawn for a clip; 3001 ms is reached when the sum of the
    draw rounds up. *)
Lemma chooseDuration_bounds (r : Random.t) (minClipMs remainingTime : Z) :
  800 <= minClipMs <= 3000 -> 800 <= remainingTime ->
  let d := Visual.chooseDuration r minClipMs remainingTime in
  800 <= d <= 3001 /\ d <= remainingTime
  /\ (remainingTime - d = 0 \/ 800 <= remainingTime - d).
Proof.
  intros Hmin Hrem. cbn zeta. unfold Visual.chooseDuration, Visual.MAX_CLIP_MS.
  pose proof (random_scaled_bounds r (3000 - minClipMs + 1) minClipMs
                ltac:(lia) ltac:(lia) ltac:(lia)) as Hs.
  set (c := Random.scaled r (3000 - minClipMs + 1) minClipMs) in *.
  destruct (Z.ltb_spec remainingTime c);
    repeat match goal with
           | |- context [?a <? ?b] => destruct (Z.ltb_spec a b)
           | |- context [?a <=? ?b] => destruct (Z.leb_spec a b)
           end; cbn [andb]; lia.
Qed.

(** *** Reasoning about computations *)

Lemma safe_ret {A} (a : A) (P : A -> Prop) : P a -> Visual.safe (Visual.ret a) P.
Proof. intros H w. exact H. Qed.

Lemma safe_throw {A} (e : Visual.Error) (P : A -> Prop) :
  Visual.safe (Visual.throw e) P.
Proof. intros w. exact I. Qed.

Lemma safe_bind {A B} (c : Visual.M A) (k : A -> Visual.M B)
    (P : A -> Prop) (Q : B -> Prop) :
  Visual.safe c P -> (forall a, P a -> Visual.safe (k a) Q) ->
  Visual.safe (Visual.bind c k) Q.
Proof.
  intros Hc Hk w. unfold Visual.bind. specialize (Hc w).
  destruct (c w) as [[a w'] | e |]; [apply Hk; exact Hc | exact I | exact Hc].
Qed.

Lemma safe_weaken {A} (c : Visual.M A) (P Q : A -> Prop) :
  Visual.safe c P -> (forall a, P a -> Q a) -> Visual.safe c Q.
Proof.
  intros Hc HPQ w. specialize (Hc w).
  destruct (c w) as [[a w'] | e |]; auto.
Qed.

Section VisualEnvironment.

Variable random : nat -> Random.t.
Variable remote : nat -> option string -> option (list Stock.Asset).
Variable ensureLocal : nat -> Stock.Asset -> option string.

Lemma safe_Math_random : Visual.safe (Visual.Math_random random) (fun _ => True).
Proof. intros w. exact I. Qed.

Lemma safe_stock_search query :
  Visual.safe (Visual.stock_search remote query) (fun _ => True).
Proof. intros w. exact I. Qed.

Lemma safe_cache_get keyword : Visual.safe (Visual.cache_get keyword) (fun _ => True).
Proof. intros w. exact I. Qed.

Lemma safe_cache_set keyword assets :
  Visual.safe (Visual.cache_set keyword assets) (fun _ => True).
Proof. intros w. exact I. Qed.

Lemma safe_ensureLocalAsset asset :
  Visual.safe (Visual._ensureLocalAsset ensureLocal asset) (fun _ => True).
Proof.
  intros w. unfold Visual._ensureLocalAsset.
  destruct (ensureLocal _ asset); exact I.
Qed.

Lemma safe_generateTransform :
  Visual.safe (Visual._generateTransform random) (fun _ => True).
Proof.
  unfold Visual._generateTransform.
  eapply safe_bind; [apply safe_Math_random|]. intros r1 _.
  eapply safe_bind with (P := fun _ => True).
  { destruct (Qle_bool _ _); [apply safe_ret; exact I|].
    eapply safe_bind; [apply safe_Math_random|].
    intros; apply safe_ret; exact I. }
  intros z _.
  eapply safe_bind; [apply safe_Math_random|]. intros r3 _.
  eapply safe_bind with (P := fun _ => True).
  { destruct (Qle_bool _ _); [apply safe_ret; exact I|].
    eapply safe_bind; [apply safe_Math_random|].
    intros; apply safe_ret; exact I. }
  intros p _. apply safe_ret. exact I.
Qed.

Lemma unused_fresh usedIds a :
  Visual.unused usedIds a = true -> Stock.id a ∉ usedIds.
Proof.
  unfold Visual.unused. rewrite negb_true_iff, bool_decide_eq_false. auto.
Qed.

Lemma find_unused_fresh usedIds allowReuse l a :
  List.find (Visual.unused usedIds) l = Some a ->
  Visual.fresh usedIds allowReuse (Some a).
Proof.
  intros Hf b [= <-] _. apply find_some in Hf as [_ Hu].
  apply unused_fresh. exact Hu.
Qed.

Lemma safe_selectUniqueAsset keyword usedIds allowReuse lastId :
  Visual.safe
    (Visual._selectUniqueAsset random remote keyword usedIds allowReuse lastId)
    (Visual.fresh usedIds allowReuse).
Proof.
  unfold Visual._selectUniqueAsset.
  eapply safe_bind; [apply safe_cache_get|]. intros cached _.
  eapply safe_bind with (P := fun _ => True).
  { destruct cached; [apply safe_ret; exact I|].
    eapply safe_bind; [apply safe_stock_search|]. intros found _.
    eapply safe_bind; [apply safe_cache_set|]. intros _ _.
    apply safe_ret; exact I. }
  intros assets _.
  destruct (List.find (Visual.unused usedIds) assets) as [c|] eqn:E1.
  { apply safe_ret. eapply find_unused_fresh; eauto. }
  destruct (List.find (Visual.unused usedIds) Stock.getFallbacks) as [c|] eqn:E2.
  { apply safe_ret. eapply find_unused_fresh; eauto. }
  destruct (0 <? length (Stock.getAllUnusedAssets usedIds))%nat.
  - eapply safe_bind; [apply safe_Math_random|]. intros r _.
    apply safe_ret. intros a Ha _.
    apply list_elem_of_lookup_2, list_elem_of_In in Ha.
    unfold Stock.getAllUnusedAssets in Ha. apply filter_In in Ha as [_ Hu].
    apply unused_fresh. exact Hu.
  - destruct allowReuse.
    + destruct (List.find (fun a => negb _) _); apply safe_ret;
        intros x _ Hf; discriminate.
    + apply safe_ret. intros x Hx; discriminate.
Qed.

Lemma safe_recover uniqueKeywords usedIds allowReuse lastId :
  Visual.safe
    (Visual.recover random remote uniqueKeywords usedIds allowReuse lastId)
    (Visual.fresh usedIds allowReuse).
Proof.
  induction uniqueKeywords as [|kw rest IH]; cbn [Visual.recover].
  - apply safe_ret. intros a Ha; discriminate.
  - eapply safe_bind; [apply safe_selectUniqueAsset|]. intros [a|] Ha.
    + apply safe_ret. exact Ha.
    + exact IH.
Qed.

Lemma safe_prefetchMissing missing :
  Visual.safe (Visual.prefetchMissing remote missing) (fun _ => True).
Proof.
  induction missing as [|kw rest IH]; cbn [Visual.prefetchMissing].
  - apply safe_ret; exact I.
  - eapply safe_bind; [apply safe_stock_search|]. intros l _.
    eapply safe_bind; [apply safe_cache_set|]. intros _ _. exact IH.
Qed.

Lemma safe_prefetch uniqueKeywords :
  Visual.safe (Visual.prefetch remote uniqueKeywords) (fun _ => True).
Proof. intros w. unfold Visual.prefetch. apply safe_prefetchMissing. Qed.

End VisualEnvironment.

(** *** Contiguous clips *)

Lemma contiguous_snoc from tl mid c :
  Visual.contiguous from tl mid -> Visual.start_ms c = mid ->
  Visual.contiguous from (tl ++ [c]) (Visual.end_ms c).
Proof.
  revert from. induction tl as [|x tl IH]; intros from H Hc; cbn in *.
  - subst. auto.
  - destruct H as [Hx H]. split; [exact Hx | apply IH; assumption].
Qed.

Lemma contiguous_head from tl to :
  Visual.contiguous from tl to -> tl <> [] ->
  Visual.start_ms <$> head tl = Some from.
Proof.
  destruct tl as [|x tl]; [congruence|]. cbn. intros [-> _] _. reflexivity.
Qed.

Lemma contiguous_last from tl to :
  Visual.contiguous from tl to -> tl <> [] ->
  Visual.end_ms <$> last tl = Some to.
Proof.
  revert from. induction tl as [|x tl IH]; intros from H Hne; [congruence|].
  destruct H as [_ H]. destruct tl as [|y tl].
  - cbn in *. congruence.
  - change (last (x :: y :: tl)) with (last (y :: tl)).
    eapply IH; [exact H | congruence].
Qed.

Lemma contiguous_consecutive from tl to :
  Visual.contiguous from tl to ->
  forall i c d, tl !! i = Some c -> tl !! S i = Some d ->
    Visual.start_ms d = Visual.end_ms c.
Proof.
  revert from. induction tl as [|x tl IH]; intros from H i c d Hc Hd.
  - discriminate.
  - destruct H as [_ H]. destruct i as [|i]; cbn in Hc, Hd.
    + inversion Hc; subst. destruct tl as [|y tl]; [discriminate|].
      cbn in Hd. inversion Hd; subst. destruct H as [H _]. exact H.
    + eapply IH; eauto.
Qed.

Section VisualLoop.

Variable random : nat -> Random.t.
Variable remote : nat -> option string -> option (list Stock.Asset).
Variable ensureLocal : nat -> Stock.Asset -> option string.
Variables keywords uniqueKeywords : list string.
Variables totalDurationMs minClipMs : Z.
Variable allowReuse : bool.
Hypothesis minClip_bounds : 800 <= minClipMs <= 3000.

Lemma safe_iteration (st : Visual.Loop) :
  Visual.loop_inv totalDurationMs allowReuse st ->
  Visual.currentTimeMs st < totalDurationMs ->
  Visual.safe
    (Visual.iteration random remote ensureLocal keywords uniqueKeywords
       totalDurationMs minClipMs allowReuse st)
    (fun st' => Visual.loop_inv totalDurationMs allowReuse st'
                /\ Visual.currentTimeMs st + 800 <= Visual.currentTimeMs st').
Proof.
  intros (Hcur & Hrem & Hcont & Hdur & Huniq) Hlt. unfold Visual.iteration.
  eapply safe_bind; [apply safe_Math_random|]. intros r _.
  destruct (chooseDuration_bounds r minClipMs
              (totalDurationMs - Visual.currentTimeMs st) minClip_bounds
              ltac:(lia)) as (Hd & Hdle & Hnext).
  set (d := Visual.chooseDuration r minClipMs
              (totalDurationMs - Visual.currentTimeMs st)) in *.
  eapply safe_bind; [apply safe_selectUniqueAsset|]. intros o Ho.
  eapply safe_bind with (P := Visual.fresh (Visual.usedIds st) allowReuse).
  { destruct o; [apply safe_ret; exact Ho | apply safe_recover]. }
  intros [asset|] Hfresh; [|apply safe_throw].
  eapply safe_bind; [apply safe_generateTransform|]. intros tr _.
  eapply safe_bind; [apply safe_ensureLocalAsset|]. intros localPath _.
  apply safe_ret. cbn [Visual.currentTimeMs]. split; [|lia].
  unfold Visual.loop_inv.
  cbn [Visual.currentTimeMs Visual.timeline Visual.usedIds].
  split; [lia|]. split; [lia|]. split; [|split].
  - match goal with |- Visual.contiguous 0 (_ ++ [?c]) _ =>
      apply (contiguous_snoc 0 _ (Visual.currentTimeMs st) c Hcont) end.
    reflexivity.
  - apply Forall_app. split; [exact Hdur|]. constructor; [|constructor].
    unfold Visual.duration_drawn, Visual.MAX_CLIP_MS.
    cbn [Visual.start_ms Visual.end_ms]. lia.
  - intros Hno. destruct (Huniq Hno) as [Hnd Hused].
    specialize (Hfresh asset eq_refl Hno). split.
    + rewrite map_app. cbn [map Visual.clip_id]. apply NoDup_app.
      split; [exact Hnd|]. split; [|apply NoDup_singleton].
      intros x Hx Hx'. apply list_elem_of_singleton in Hx'. subst x.
      apply list_elem_of_In, in_map_iff in Hx as (c & Hc & Hin).
      apply Hfresh. rewrite <- Hc. apply Hused. exact Hin.
    + intros c Hin. apply in_app_or in Hin as [Hin | [<- | []]].
      * apply elem_of_union_r. apply Hused. exact Hin.
      * apply elem_of_union_l, elem_of_singleton. reflexivity.
Qed.

Lemma safe_loop (fuel : nat) : forall st,
  Visual.loop_inv totalDurationMs allowReuse st ->
  totalDurationMs - Visual.currentTimeMs st <= Z.of_nat fuel ->
  Visual.safe
    (Visual.loop random remote ensureLocal fuel keywords uniqueKeywords
       totalDurationMs minClipMs allowReuse st)
    (fun tl => Visual.contiguous 0 tl totalDurationMs
               /\ Forall Visual.duration_drawn tl
               /\ (allowReuse = false -> NoDup (map Visual.clip_id tl))).
Proof.
  induction fuel as [|fuel IH]; intros st Hinv Hfuel; cbn [Visual.loop];
    destruct (Z.ltb_spec (Visual.currentTimeMs st) totalDurationMs) as [Hlt | Hge].
  - lia.
  - apply safe_ret. destruct Hinv as (Hcur & _ & Hcont & Hdur & Huniq).
    replace totalDurationMs with (Visual.currentTimeMs st) at 1 by lia.
    repeat split; auto. intros Hno. apply Huniq. exact Hno.
  - eapply safe_bind; [apply safe_iteration; assumption|].
    intros st' [Hinv' Hadv]. apply IH; [exact Hinv' | lia].
  - apply safe_ret. destruct Hinv as (Hcur & _ & Hcont & Hdur & Huniq).
    replace totalDurationMs with (Visual.currentTimeMs st) at 1 by lia.
    repeat split; auto. intros Hno. apply Huniq. exact Hno.
Qed.

End VisualLoop.

(** Every timeline that [generateTimeline] returns for a whole target
    duration of at least 800 ms is contiguous from 0 to the duration, has
    clips of 800 to 3001 ms and, unless reuse was enabled, distinct clip
    ids; and the iteration bound of the model is never reached. *)
Lemma generateTimeline_drawn
    (random : nat -> Random.t)
    (remote : nat -> option string -> option (list Stock.Asset))
    (ensureLocal : nat -> Stock.Asset -> option string)
    (keywords : list string) (totalDurationMs : Z) (w : Visual.World) :
  800 <= totalDurationMs ->
  match Visual.generateTimeline random remote ensureLocal keywords totalDurationMs w with
  | Visual.Returned (tl, _) => Visual.timeline_drawn totalDurationMs tl
  | Visual.Thrown _ => True
  | Visual.OutOfFuel => False
  end.
Proof.
  intros Htotal. revert w.
  change (Visual.safe
            (Visual.generateTimeline random remote ensureLocal keywords totalDurationMs)
            (Visual.timeline_drawn totalDurationMs)).
  unfold Visual.generateTimeline.
  eapply safe_bind; [apply safe_prefetch|]. intros _ _.
  destruct (Z.eqb_spec (Z.of_nat (length (Stock.getAllUnusedAssets ∅))) 0);
    [apply safe_throw|].
  eapply safe_weaken.
  - apply safe_loop.
    + unfold Visual.MAX_CLIP_MS. lia.
    + unfold Visual.loop_inv. cbn. repeat split; try lia; try constructor;
        try (intros c []).
    + cbn [Visual.currentTimeMs]. lia.
  - intros tl (Hcont & Hdur & Huniq).
    assert (Hne : tl <> []).
    { intros ->. cbn in Hcont. lia. }
    unfold Visual.timeline_drawn. repeat split.
    + eapply contiguous_head; eauto.
    + eapply contiguous_consecutive; eauto.
    + eapply contiguous_last; eauto.
    + exact Hdur.
    + exact Huniq.
Qed.

(** C5: the timeline generated for a duration of 40000 ms, which the 18
    unique assets cover without reuse, when [Math.random()] returns
    [1 - 2^-52]: the minimal clip duration is 2223 ms, the draw
    [Math.random() * 778 + 2223] rounds to 3001, and the first clip lasts
    from 0 to 3001 ms, which is more than the 3000 ms that the
    specification and [MAX_CLIP_MS] allow. *)
Theorem C5_clip_of_3001_ms :
  exists tl w' clip,
    Visual.generateTimeline Visual.top_random Visual.demo_remote
      Visual.demo_ensureLocal ["money"] 40000 Visual.demo_world
    = Visual.Returned (tl, w')
    /\ Visual.reuseEnabled 40000 = false
    /\ head tl = Some clip
    /\ Visual.start_ms clip = 0 /\ Visual.end_ms clip = 3001
    /\ ~ Visual.timeline_ok 40000 tl.
Proof.
  destruct (Visual.generateTimeline Visual.top_random Visual.demo_remote
              Visual.demo_ensureLocal ["money"] 40000 Visual.demo_world)
    as [[tl w'] | |] eqn:E; try (vm_compute in E; discriminate).
  destruct (head tl) as [clip|] eqn:Eh;
    [|vm_compute in E; inversion E; subst; discriminate].
  assert (Hclip : Visual.start_ms clip = 0 /\ Visual.end_ms clip = 3001).
  { vm_compute in E. inversion E; subst. inversion Eh; subst. split; reflexivity. }
  exists tl, w', clip. split_and!; [reflexivity | reflexivity | exact Eh
                                    | apply Hclip | apply Hclip |].
  intros (_ & _ & _ & Hdur & _).
  destruct tl as [|c tl']; [discriminate|]. inversion Eh; subst c.
  inversion Hdur as [|? ? Hc _]; subst. unfold Visual.duration_ok in Hc.
  destruct Hclip as [H0 H1]. lia.
Qed.

(** ** The visual gate of the quality control service (C6) *)

Lemma clip_has_no_durationMs (c : Visual.Clip) :
  QC.number_at (Visual.toObject c) "durationMs" = None
  /\ QC.number_at (Visual.toObject c) "endTimeMs" = None.
Proof. split; reflexivity. Qed.

Lemma visualLoop_clips (tl : list Visual.Clip) :
  forall errors idx,
    QC.visualLoop errors idx (map Visual.toObject tl) = errors.
Proof.
  induction tl as [|c tl IH]; intros errors idx; cbn [map QC.visualLoop].
  - reflexivity.
  - unfold QC.visualStep.
    rewrite (proj1 (clip_has_no_durationMs c)). cbn [QC.gt QC.lt]. apply IH.
Qed.

Lemma last_map {A B} (f : A -> B) (l : list A) :
  last (map f l) = f <$> last l.
Proof.
  induction l as [|x l IH]; [reflexivity|].
  destruct l as [|y l]; [reflexivity|].
  change (last (map f (x :: y :: l))) with (last (map f (y :: l))).
  rewrite IH. reflexivity.
Qed.

(** Whatever the clips of a visual timeline last, [validateVisuals] finds
    nothing wrong: it reads [durationMs] and [endTimeMs], which the clips do
    not have. *)
Lemma validateVisuals_accepts_every_timeline (tl : list Visual.Clip) :
  QC.validateVisuals (map Visual.toObject tl)
  = {| QC.isValid := true; QC.errors := [] |}.
Proof.
  unfold QC.validateVisuals. rewrite visualLoop_clips.
  assert (Hfreq : QC.avgFreq_too_high (map Visual.toObject tl) = false).
  { unfold QC.avgFreq_too_high.
    destruct (last (map Visual.toObject tl)) as [o|] eqn:E; [|reflexivity].
    rewrite last_map in E.
    destruct (last tl) as [c|]; [|discriminate]. cbn in E. inversion E; subst.
    now rewrite (proj2 (clip_has_no_durationMs c)). }
  rewrite Hfreq. reflexivity.
Qed.

(** C6 fails on the code: a timeline whose only clip lasts 500 ms, below the
    800 ms of I3, passes the visual gate of the quality control service. *)
Theorem C6_validateVisuals_accepts_short_clip :
  Visual.end_ms Visual.short_clip - Visual.start_ms Visual.short_clip < 800
  /\ QC.isValid (QC.validateVisuals [Visual.toObject Visual.short_clip]) = true.
Proof. split; reflexivity. Qed.

(** ** The edit plan builder (C7) *)

(** *** The stable sort *)

Section SortBy.

Context {A : Type} (key : A -> Z).

Lemma insert_by_perm (x : A) (l : list A) :
  Permutation (Editing.insert_by key x l) (x :: l).
Proof.
  induction l as [|y l IH]; cbn [Editing.insert_by].
  - reflexivity.
  - destruct (key x <? key y); [reflexivity|].
    rewrite IH. apply perm_swap.
Qed.

Lemma insert_by_hdrel (x y : A) (l : list A) :
  HdRel (fun a b => key a <= key b) y l -> key y <= key x ->
  HdRel (fun a b => key a <= key b) y (Editing.insert_by key x l).
Proof.
  intros Hl Hxy. destruct l as [|z l]; cbn [Editing.insert_by].
  - constructor. exact Hxy.
  - destruct (key x <? key z); constructor; [exact Hxy|].
    inversion Hl; assumption.
Qed.

Lemma insert_by_sorted (x : A) (l : list A) :
  Sorted (fun a b => key a <= key b) l -> Sorted (fun a b => key a <= key b) (Editing.insert_by key x l).
Proof.
  induction 1 as [|y l Hs IH Hhd]; cbn [Editing.insert_by].
  - repeat constructor.
  - destruct (Z.ltb_spec (key x) (key y)).
    + constructor; [constructor; assumption|]. constructor. lia.
    + constructor; [exact IH|]. apply insert_by_hdrel; [exact Hhd | lia].
Qed.

Lemma sort_fold_perm (l acc : list A) :
  Permutation (fold_left (fun sorted x => Editing.insert_by key x sorted) l acc)
              (acc ++ l).
Proof.
  revert acc. induction l as [|x l IH]; intros acc; cbn [fold_left].
  - rewrite app_nil_r. reflexivity.
  - rewrite IH, insert_by_perm. apply Permutation_middle.
Qed.

Lemma sort_fold_sorted (l acc : list A) :
  Sorted (fun a b => key a <= key b) acc ->
  Sorted (fun a b => key a <= key b) (fold_left (fun sorted x => Editing.insert_by key x sorted) l acc).
Proof.
  revert acc. induction l as [|x l IH]; intros acc Hacc; cbn [fold_left].
  - exact Hacc.
  - apply IH, insert_by_sorted, Hacc.
Qed.

Lemma sort_by_perm (l : list A) : Permutation (Editing.sort_by key l) l.
Proof. unfold Editing.sort_by. apply (sort_fold_perm l []). Qed.

Lemma sort_by_sorted (l : list A) :
  Sorted (fun a b => key a <= key b) (Editing.sort_by key l).
Proof. unfold Editing.sort_by. apply sort_fold_sorted. constructor. Qed.

End SortBy.

(** *** The pattern-interrupt loop *)

Lemma updateFirst_spec test f entries entries' :
  Editing.updateFirst test f entries = Some entries' ->
  exists l1 p l2, entries = l1 ++ p :: l2 /\ test p = true
    /\ entries' = l1 ++ f p :: l2.
Proof.
  revert entries'. induction entries as [|q rest IH]; intros entries' H;
    cbn [Editing.updateFirst] in H.
  - discriminate.
  - destruct (test q) eqn:Eq.
    + inversion H; subst. exists [], q, rest. auto.
    + destruct (Editing.updateFirst test f rest) as [rest'|]; [|discriminate].
      cbn in H. inversion H; subst.
      destruct (IH rest' eq_refl) as (l1 & p & l2 & -> & Hp & ->).
      exists (q :: l1), p, l2. auto.
Qed.

Lemma keeps_interrupts_refl l : Editing.keeps_interrupts l l.
Proof. intros q Hq. exists q. auto. Qed.

Lemma keeps_interrupts_interrupted l l' total k :
  Editing.keeps_interrupts l l' ->
  Editing.entry_interrupted l total k -> Editing.entry_interrupted l' total k.
Proof.
  intros Hk (p & Hin & Hr & Hs & He).
  destruct (Hk p Hin) as (p' & Hin' & Hs' & He' & Hr').
  exists p'. rewrite Hs', He'. auto.
Qed.

Lemma setInterrupt_keeps l1 p l2 :
  Editing.keeps_interrupts (l1 ++ p :: l2) (l1 ++ Editing.setInterrupt p :: l2).
Proof.
  intros q Hq. apply in_app_or in Hq as [Hq | [<- | Hq]].
  - exists q. split; [apply in_or_app; left; exact Hq | auto].
  - exists (Editing.setInterrupt p).
    split; [apply in_or_app; right; left; reflexivity | auto].
  - exists q. split; [apply in_or_app; right; right; exact Hq | auto].
Qed.

Lemma patternLoop_spec total (fuel : nat) : forall k entries result,
  0 <= k ->
  (forall j, 0 <= j < k -> Editing.entry_interrupted entries total j) ->
  Editing.patternLoop fuel total (k * 2500) entries = Editing.Returned (inr result) ->
  forall j, 0 <= j -> j * 2500 < total -> Editing.entry_interrupted result total j.
Proof.
  induction fuel as [|fuel IH]; intros k entries result Hk Hdone Hrun j Hj Hjt;
    cbn [Editing.patternLoop] in Hrun;
    destruct (Z.ltb_spec (k * 2500) total) as [Hlt | Hge];
    try discriminate.
  - inversion Hrun; subst. apply Hdone. lia.
  - destruct (Editing.updateFirst _ _ entries) as [entries'|] eqn:Eu;
      [|discriminate].
    apply updateFirst_spec in Eu as (l1 & p & l2 & -> & Hp & ->).
    unfold Editing.PATTERN_INTERVAL_MS in *.
    replace (k * 2500 + 2500) with ((k + 1) * 2500) in * by lia.
    eapply (IH (k + 1)); eauto; [lia|].
    intros i Hi. destruct (Z.eq_dec i k) as [-> | Hne].
    + exists (Editing.setInterrupt p).
      split; [apply in_or_app; right; left; reflexivity|].
      unfold Editing.isCandidate in Hp.
      apply andb_true_iff in Hp as [Hp _]. apply andb_true_iff in Hp as [H1 H2].
      apply Z.ltb_lt in H1, H2. cbn. repeat split; [exact H1 | exact H2].
    + eapply keeps_interrupts_interrupted; [apply setInterrupt_keeps|].
      apply Hdone. lia.
  - inversion Hrun; subst. apply Hdone. lia.
Qed.

Lemma patternLoop_fuel total (fuel : nat) : forall windowStart entries,
  total - windowStart <= Z.of_nat fuel ->
  Editing.patternLoop fuel total windowStart entries <> Editing.OutOfFuel.
Proof.
  induction fuel as [|fuel IH]; intros windowStart entries Hfuel;
    cbn [Editing.patternLoop];
    destruct (Z.ltb_spec windowStart total); try discriminate; [lia|].
  destruct (Editing.updateFirst _ _ entries); [|discriminate].
  apply IH. unfold Editing.PATTERN_INTERVAL_MS. lia.
Qed.

(** *** No loop of the builder exceeds its bound *)

Lemma bind_fuel {A B} (c : Editing.outcome A) (k : A -> Editing.outcome B) :
  c <> Editing.OutOfFuel ->
  (forall a, c = Editing.Returned a -> k a <> Editing.OutOfFuel) ->
  Editing.bind c k <> Editing.OutOfFuel.
Proof.
  intros Hc Hk. destruct c as [a | e |]; cbn [Editing.bind].
  - apply Hk. reflexivity.
  - discriminate.
  - congruence.
Qed.

Lemma splitLoop_fuel s words (fuel : nat) : forall cursor,
  Editing.end_ms s - cursor <= Z.of_nat fuel ->
  Editing.splitLoop fuel s words cursor <> Editing.OutOfFuel.
Proof.
  induction fuel as [|fuel IH]; intros cursor Hfuel; cbn [Editing.splitLoop];
    destruct (Z.ltb_spec cursor (Editing.end_ms s)); try discriminate; [lia|].
  cbn zeta.
  match goal with |- context [?a <=? cursor] => destruct (Z.leb_spec a cursor) end;
    [discriminate|].
  apply bind_fuel; [apply IH; lia | discriminate].
Qed.

Lemma splitAtWordBoundaries_fuel segments words :
  Editing._splitAtWordBoundaries segments words <> Editing.OutOfFuel.
Proof.
  induction segments as [|s rest IH]; cbn [Editing._splitAtWordBoundaries].
  - discriminate.
  - apply bind_fuel.
    + destruct (_ <=? Editing.MAX_SEGMENT_MS); [discriminate|].
      apply splitLoop_fuel. lia.
    + intros pieces _. apply bind_fuel; [exact IH | discriminate].
Qed.

Lemma fillGap_fuel visuals mkId missing gapEnd (fuel : nat) : forall gapStart idx,
  gapEnd - gapStart <= Z.of_nat fuel ->
  Editing.fillGap fuel visuals mkId missing gapStart gapEnd idx <> Editing.OutOfFuel.
Proof.
  induction fuel as [|fuel IH]; intros gapStart idx Hfuel; cbn [Editing.fillGap];
    destruct (Z.ltb_spec gapStart gapEnd); try discriminate; [lia|].
  destruct (Editing._findVisualForTime visuals gapStart); [|discriminate].
  apply bind_fuel; [|discriminate].
  apply IH. unfold Editing.MAX_SEGMENT_MS. lia.
Qed.

Lemma fillLoop_fuel visuals segments : forall expected idx,
  Editing.fillLoop visuals segments expected idx <> Editing.OutOfFuel.
Proof.
  induction segments as [|s rest IH]; intros expected idx; cbn [Editing.fillLoop].
  - discriminate.
  - apply bind_fuel.
    + destruct (expected + 20 <? Editing.start_ms s); [apply fillGap_fuel; lia|].
      destruct (Editing.start_ms s <? expected - 20); discriminate.
    + intros fillers _. apply bind_fuel; [apply IH | discriminate].
Qed.

Lemma fillGaps_fuel segments visuals total :
  Editing._fillGapsDeterministically segments visuals total <> Editing.OutOfFuel.
Proof.
  unfold Editing._fillGapsDeterministically.
  apply bind_fuel; [apply fillLoop_fuel|]. intros [out expected] _.
  destruct (expected <? total - 20); [|discriminate].
  apply bind_fuel; [apply fillGap_fuel; lia | discriminate].
Qed.

Lemma attachVisuals_fuel visuals segments :
  Editing.attachVisuals visuals segments <> Editing.OutOfFuel.
Proof.
  induction segments as [|s rest IH]; cbn [Editing.attachVisuals].
  - discriminate.
  - destruct (Editing._findVisualForTime visuals (Editing.start_ms s));
      [|discriminate].
    apply bind_fuel; [exact IH | discriminate].
Qed.

Lemma generateEditPlan_fuel inputs :
  Editing.generateEditPlan inputs <> Editing.OutOfFuel.
Proof.
  unfold Editing.generateEditPlan.
  destruct (Editing.audio inputs) as [a|]; [|discriminate].
  destruct (Editing.captions inputs) as [c|]; [|discriminate].
  destruct (Editing.visuals inputs) as [v|]; [|discriminate].
  apply bind_fuel; [apply splitAtWordBoundaries_fuel|]. intros segs _.
  apply bind_fuel; [apply fillGaps_fuel|]. intros segs' _.
  apply bind_fuel; [apply attachVisuals_fuel|]. intros entries _.
  apply bind_fuel; [apply patternLoop_fuel; lia|]. intros [e | entries'] _.
  - discriminate.
  - destruct (Editing._validate entries' (Editing.duration_ms a)) as [[|e errs] plan];
      discriminate.
Qed.

(** *** What the final validation guarantees *)

Lemma concat_map_nil {A B} (f : A -> list B) (l : list A) :
  concat (map f l) = [] -> forall x, In x l -> f x = [].
Proof.
  induction l as [|y l IH]; cbn [map concat]; intros H x Hx; [destruct Hx|].
  apply app_eq_nil in H as [Hy Hl]. destruct Hx as [<- | Hx]; auto.
Qed.

Lemma lengthErrors_nil p :
  Editing.lengthErrors p = [] -> Editing.e_end_ms p - Editing.e_start_ms p <= 3000.
Proof.
  unfold Editing.lengthErrors, Editing.MAX_SEGMENT_MS.
  destruct (Z.ltb_spec 3000 (Editing.e_end_ms p - Editing.e_start_ms p));
    [discriminate | auto].
Qed.

Lemma zoomErrors_nil p :
  Editing.zoomErrors p = [] ->
  ~ (Editing.zoom p == 1.0)%Q -> Editing.reason p = Editing.Emphasis.
Proof.
  unfold Editing.zoomErrors, Editing.BASE_ZOOM. intros H Hz.
  destruct (Qeq_bool (Editing.zoom p) 1.0) eqn:Ez.
  - apply Qeq_bool_iff in Ez. contradiction.
  - destruct (Editing.reason p); cbn in H; [discriminate | reflexivity | discriminate].
Qed.

Lemma gapErrors_nil total plan : forall expected final,
  Editing.gapErrors expected plan = ([], final) ->
  Z.abs (final - total) <= 200 ->
  Editing.covers expected (map Editing.finalize plan) total.
Proof.
  induction plan as [|p rest IH]; intros expected final H Hfinal;
    cbn [Editing.gapErrors map Editing.covers] in *.
  - inversion H; subst. exact Hfinal.
  - destruct (Editing.gapErrors (Editing.e_end_ms p) rest) as [errs fin] eqn:E.
    inversion H as [[Herrs Hfin]]. subst fin.
    apply app_eq_nil in Herrs as [Hhere ->].
    split.
    + cbn [Editing.finalize Editing.p_start_ms].
      destruct (Z.ltb_spec 20 (Z.abs (Editing.e_start_ms p - expected)));
        [discriminate | assumption].
    + apply (IH _ final); auto.
Qed.

Lemma validate_nil entries total sorted :
  Editing._validate entries total = ([], sorted) ->
  sorted = Editing.sort_by Editing.e_start_ms entries
  /\ Editing.covers 0 (map Editing.finalize sorted) total
  /\ (forall p, In p sorted ->
        Editing.e_end_ms p - Editing.e_start_ms p <= 3000
        /\ (~ (Editing.zoom p == 1.0)%Q -> Editing.reason p = Editing.Emphasis)).
Proof.
  unfold Editing._validate.
  set (s := Editing.sort_by Editing.e_start_ms entries).
  destruct (Editing.gapErrors 0 s) as [gaps expected] eqn:Eg.
  intros H. inversion H as [[Herr Hs]]. clear H.
  apply app_eq_nil in Herr as [Herr Hzoom].
  assert (Hparts : concat (map Editing.lengthErrors entries) = []
                   /\ gaps = [] /\ Z.abs (expected - total) <= 200).
  { destruct (Z.ltb_spec 200 (Z.abs (expected - total))).
    - apply app_eq_nil in Herr as [_ Hbad]. discriminate.
    - apply app_eq_nil in Herr as [H1 H2]. auto. }
  destruct Hparts as (Hlen & -> & Hend).
  split; [reflexivity|]. split.
  - eapply gapErrors_nil; eauto.
  - intros p Hp. split.
    + apply lengthErrors_nil. apply (concat_map_nil _ _ Hlen).
      eapply Permutation_in; [apply sort_by_perm | exact Hp].
    + apply zoomErrors_nil. apply (concat_map_nil _ _ Hzoom). exact Hp.
Qed.

Lemma sorted_map_finalize sorted :
  Sorted (fun a b => Editing.e_start_ms a <= Editing.e_start_ms b) sorted ->
  Sorted (fun a b => Editing.p_start_ms a <= Editing.p_start_ms b)
         (map Editing.finalize sorted).
Proof.
  induction 1 as [|p l Hs IH Hhd]; cbn [map]; constructor; [exact IH|].
  destruct Hhd; cbn [map]; constructor. assumption.
Qed.

(** C7: whatever the audio result, the caption timeline and the visual
    timeline, no loop of [generateEditPlan] exceeds its bound, and whenever
    it returns [isValid = true] the plan satisfies I4 for the duration of
    the audio: the plan is sorted by start, it starts within 20 ms of 0,
    every segment starts within 20 ms of the end of the one before and the
    last one ends within 200 ms of the duration; no segment lasts more than
    3000 ms; a zoom other than 1.0 comes with the reason emphasis; and every
    window of 2500 ms, cut at the duration, meets a segment whose reason is
    a pattern interrupt. *)
Theorem C7_edit_plan_satisfies_I4 (inputs : Editing.Inputs) :
  Editing.generateEditPlan inputs <> Editing.OutOfFuel
  /\ forall plan,
       Editing.generateEditPlan inputs = Editing.Returned (Editing.Valid plan) ->
       exists a, Editing.audio inputs = Some a
         /\ Editing.I4 plan (Editing.duration_ms a).
Proof.
  split; [apply generateEditPlan_fuel|].
  intros plan. unfold Editing.generateEditPlan.
  destruct (Editing.audio inputs) as [a|]; [|discriminate].
  destruct (Editing.captions inputs) as [c|]; [|discriminate].
  destruct (Editing.visuals inputs) as [v|]; [|discriminate].
  set (total := Editing.duration_ms a).
  destruct (Editing._splitAtWordBoundaries _ _) as [segs | |];
    cbn [Editing.bind]; try discriminate.
  destruct (Editing._fillGapsDeterministically _ _ _) as [segs' | |];
    cbn [Editing.bind]; try discriminate.
  destruct (Editing.attachVisuals _ _) as [entries | |];
    cbn [Editing.bind]; try discriminate.
  destruct (Editing.patternLoop _ _ _ _) as [[e | entries'] | |] eqn:Eloop;
    cbn [Editing.bind]; try discriminate.
  destruct (Editing._validate entries' total) as [[|e errs] sorted] eqn:Ev;
    [|discriminate].
  intros [= <-]. exists a. split; [reflexivity|].
  apply validate_nil in Ev as (Hsorted & Hcov & Hall).
  pose proof (patternLoop_spec total _ 0 _ _ ltac:(lia)
                ltac:(intros j Hj; lia) Eloop) as Hwin.
  unfold Editing.I4. repeat split.
  - apply sorted_map_finalize. rewrite Hsorted. apply sort_by_sorted.
  - exact Hcov.
  - apply Forall_forall. intros p Hp.
    apply list_elem_of_In, in_map_iff in Hp as (q & <- & Hq).
    apply (Hall q Hq).
  - apply Forall_forall. intros p Hp.
    apply list_elem_of_In, in_map_iff in Hp as (q & <- & Hq).
    apply (Hall q Hq).
  - intros k Hk Hkt. destruct (Hwin k Hk Hkt) as (q & Hq & Hr & Hs & He).
    exists (Editing.finalize q). split; [|auto].
    apply in_map. subst sorted.
    eapply Permutation_in; [symmetry; apply sort_by_perm | exact Hq].
Qed.

(** C7 at work: three words, the second one emphasised, give a valid plan
    of three segments whose last one carries the pattern interrupt. *)
Lemma C7_edit_plan_satisfies_I4_witness :
  exists plan,
    Editing.generateEditPlan Editing.demo_inputs
      = Editing.Returned (Editing.Valid plan)
    /\ length plan = 3%nat
    /\ Editing.I4 plan 945.
Proof.
  eexists. split; [vm_compute; reflexivity|]. split; [reflexivity|].
  destruct (proj2 (C7_edit_plan_satisfies_I4 Editing.demo_inputs) _ eq_refl)
    as (a & Ha & HI4).
  inversion Ha; subst a. exact HI4.
Defined.

(** ** The job store (C10) *)

Lemma orNull_supplied (v : JS.Json) :
  JS.notNull (JS.orNull v) = true -> Queue.supplied v.
Proof. destruct v; cbn; intros H; try discriminate; split; discriminate. Qed.

Lemma truthy_supplied (v : JS.Json) :
  JS.truthy (JS.orNull v) = true -> Queue.supplied v.
Proof. destruct v; cbn; intros H; try discriminate; split; discriminate. Qed.

(** C10: an update of an existing job leaves [id], [topic],
    [duration_seconds], [tone], [dry_run] and [created_at] as they were;
    [result], [progress], [eta_seconds] and [message] change only when the
    corresponding argument is supplied (neither undefined nor null), so an
    update whose [result] is null keeps the stored result; the FIFO and the
    other jobs are untouched. *)
Theorem C10_updateJobStatus_frame (q : Queue.t) (jobId : string) (job : Queue.Job)
    (status result progress eta message : JS.Json) :
  Queue.jobs q !! jobId = Some job ->
  let q' := Queue.updateJobStatus q jobId status result progress eta message in
  exists job',
    Queue.jobs q' !! jobId = Some job'
    /\ Queue.same_identity job' job
    /\ Queue.status job' = status
    /\ (Queue.result job' <> Queue.result job -> Queue.supplied result)
    /\ (Queue.progress job' <> Queue.progress job -> Queue.supplied progress)
    /\ (Queue.eta_seconds job' <> Queue.eta_seconds job -> Queue.supplied eta)
    /\ (Queue.message job' <> Queue.message job -> Queue.supplied message)
    /\ (result = JS.JNull -> Queue.result job' = Queue.result job)
    /\ Queue.queue q' = Queue.queue q
    /\ (forall other, other <> jobId ->
          Queue.jobs q' !! other = Queue.jobs q !! other).
Proof.
  intros Hjob. cbn zeta. unfold Queue.updateJobStatus. rewrite Hjob.
  cbn [Queue.jobs Queue.queue]. eexists. split; [apply lookup_insert_eq|].
  cbn [Queue.id Queue.topic Queue.duration_seconds Queue.tone Queue.dry_run
       Queue.created_at Queue.status Queue.result Queue.progress
       Queue.eta_seconds Queue.message Queue.same_identity].
  unfold Queue.same_identity. cbn.
  split_and!; try reflexivity.
  - destruct (JS.truthy (JS.orNull result)) eqn:E; [|congruence].
    intros _. apply truthy_supplied. exact E.
  - destruct (JS.notNull (JS.orNull progress)) eqn:E; [|congruence].
    intros _. apply orNull_supplied. exact E.
  - destruct (JS.notNull (JS.orNull eta)) eqn:E; [|congruence].
    intros _. apply orNull_supplied. exact E.
  - destruct (JS.notNull (JS.orNull message)) eqn:E; [|congruence].
    intros _. apply orNull_supplied. exact E.
  - intros ->. reflexivity.
  - intros other Hne. apply lookup_insert_ne. congruence.
Qed.

(** A progress-only update of a job that has a result. *)
Lemma C10_updateJobStatus_frame_witness :
  Queue.jobs Queue.demo_queue !! "job-1" = Some Queue.demo_job
  /\ exists job',
       Queue.jobs (Queue.updateJobStatus Queue.demo_queue "job-1"
                     (JS.JStr "EDITING") JS.JNull (JS.JNum 55) JS.JUndefined
                     JS.JUndefined) !! "job-1" = Some job'
       /\ Queue.result job' = Queue.result Queue.demo_job
       /\ Queue.same_identity job' Queue.demo_job.
Proof.
  split; [reflexivity|].
  destruct (C10_updateJobStatus_frame Queue.demo_queue "job-1" Queue.demo_job
              (JS.JStr "EDITING") JS.JNull (JS.JNum 55) JS.JUndefined
              JS.JUndefined eq_refl)
    as (job' & Hl & Hid & _ & _ & _ & _ & _ & Hres & _).
  exists job'. split; [exact Hl|]. split; [apply Hres; reflexivity | exact Hid].
Defined.

(** ** The retry loop of the language model adapter (C9) *)

Section RetryLoop.

Variable nkeys : nat.
Variable retries : Z.

(** With two keys or more and a model that always answers 429, a turn of
    the loop rotates the key, makes one more call and leaves [attempt]
    where it was. *)
Lemma turn_rotates (st : LLM.State) :
  (2 <= nkeys)%nat -> LLM.attempt st < retries ->
  exists st', LLM.turn nkeys retries LLM.always429 st = inl st'
    /\ LLM.attempt st' = LLM.attempt st
    /\ LLM.calls st' = S (LLM.calls st)
    /\ LLM.backoffs st' = LLM.backoffs st.
Proof.
  intros Hkeys Hlt. unfold LLM.turn, LLM.always429.
  destruct (Z.ltb_spec (LLM.attempt st) retries); [|lia].
  cbn [LLM.nonRetryable LLM.retryable LLM.is429 Z.eqb Z.leb Z.ltb Z.compare
       Pos.compare Pos.compare_cont negb andb orb Pos.eqb].
  unfold LLM._rotateKey. destruct (Nat.leb_spec nkeys 1); [lia|].
  eexists. split; [reflexivity|]. cbn. repeat split. lia.
Qed.

Lemma turns_rotate (n : nat) : forall st,
  (2 <= nkeys)%nat -> LLM.attempt st < retries ->
  exists st', LLM.turns nkeys retries LLM.always429 n st = inl st'
    /\ LLM.attempt st' = LLM.attempt st
    /\ LLM.calls st' = (LLM.calls st + n)%nat
    /\ LLM.backoffs st' = LLM.backoffs st.
Proof.
  induction n as [|n IH]; intros st Hkeys Hlt; cbn [LLM.turns].
  - exists st. repeat split. lia.
  - destruct (turn_rotates st Hkeys Hlt) as (st1 & -> & Ha & Hc & Hb).
    destruct (IH st1 Hkeys ltac:(lia)) as (st' & Hrun & Ha' & Hc' & Hb').
    exists st'. split; [exact Hrun|]. repeat split; lia.
Qed.

(** With one key at most, every turn that does not end the call moves
    [attempt] up by one, so the loop ends within [retries] turns and one
    more for the final test. *)
Lemma turn_single_key model (st : LLM.State) :
  (nkeys <= 1)%nat ->
  match LLM.turn nkeys retries model st with
  | inl st' => LLM.attempt st' = LLM.attempt st + 1
               /\ LLM.attempt st < retries
               /\ LLM.calls st' = S (LLM.calls st)
  | inr _ => True
  end.
Proof.
  intros Hkeys. unfold LLM.turn.
  destruct (Z.ltb_spec (LLM.attempt st) retries); [|exact I].
  destruct (model _ _) as [t | status]; [exact I|].
  destruct (LLM.nonRetryable status); [exact I|].
  destruct (LLM.retryable status); [|exact I].
  unfold LLM._rotateKey. destruct (Nat.leb_spec nkeys 1); [|lia].
  destruct (LLM.is429 status); cbn; repeat split; lia.
Qed.

Lemma turns_single_key model (n : nat) : forall st,
  (nkeys <= 1)%nat -> retries - LLM.attempt st <= Z.of_nat n ->
  exists out, LLM.turns nkeys retries model (S n) st = inr out.
Proof.
  induction n as [|n IH]; intros st Hkeys Hn; cbn [LLM.turns];
    pose proof (turn_single_key model st Hkeys) as H;
    destruct (LLM.turn nkeys retries model st) as [st' | out]; eauto.
  - lia.
  - destruct H as (Ha & Hlt & _). apply IH; [exact Hkeys | lia].
Qed.

End RetryLoop.

(** C9 fails on the code: with two keys, the default bound of three
    retries and a model that answers HTTP 429 to every call, the loop is
    still running after any number [n] of turns, with [n] calls made, no
    back-off slept and [attempt] still at 0. *)
Theorem C9_rotation_on_429_never_ends (n : nat) :
  exists st, LLM.turns 2 3 LLM.always429 n LLM.start = inl st
    /\ LLM.attempt st = 0
    /\ LLM.calls st = n
    /\ LLM.backoffs st = 0%nat.
Proof.
  destruct (turns_rotate 2 3 n LLM.start ltac:(lia) ltac:(cbn; lia))
    as (st & Hrun & Ha & Hc & Hb).
  exists st. repeat split; assumption.
Qed.

(** ** POST /generate (C8) *)

Lemma valid_tone_in (t : string) :
  existsb (String.eqb t) Routes.validTones = true <-> In t Routes.validTones.
Proof.
  rewrite existsb_exists. split.
  - intros (x & Hin & Hx). apply String.eqb_eq in Hx. now subst.
  - intros Hin. exists t. split; [exact Hin | apply String.eqb_refl].
Qed.

Section Generate.

Variable stringToNumber : string -> option Q.
Variables (jobId : string) (now : Z) (q : Queue.t).

(** The handler answers 202 with the new job when the body is acceptable
    and 400 with an error otherwise. *)
Lemma generate_cases (body : Routes.Body) :
  Routes.plain_duration body ->
  let resp := fst (Routes.generate stringToNumber jobId now q body) in
  (Routes.accepted body
   /\ resp = {| Routes.code := 202;
                Routes.payload := Routes.Accepted jobId (JS.JStr "QUEUED") |})
  \/ (~ Routes.accepted body
      /\ Routes.code resp = 400%nat
      /\ exists msg, Routes.payload resp = Routes.ErrorBody msg).
Proof.
  intros Hplain. cbn zeta. unfold Routes.generate, Routes.accepted.
  destruct body as [topic duration tone dry]. unfold Routes.plain_duration in Hplain.
  cbn [Routes.topic Routes.duration_seconds Routes.tone Routes.dry_run] in *.
  destruct (negb (JS.truthy topic) || Routes.notString topic || Routes.blank topic)
    eqn:Etopic.
  { right. split; [|cbn; eauto]. intros ((s & -> & Hs) & _).
    cbn in Etopic. rewrite Hs in Etopic. destruct s; discriminate. }
  destruct topic as [| |flag| |s|];
    try (cbn in Etopic; rewrite ?orb_true_r in Etopic; discriminate).
  cbn in Etopic. apply orb_false_iff in Etopic as [_ Hblank].
  destruct (negb (JS.truthy duration) || Routes.lessThan stringToNumber duration 20
            || Routes.greaterThan stringToNumber duration 60) eqn:Edur.
  { right. split; [|cbn; eauto]. intros (_ & (d & -> & Hlo & Hhi) & _).
    unfold Routes.lessThan, Routes.greaterThan in Edur. cbn in Edur.
    pose proof Hlo as Hlo'. apply Qle_bool_iff in Hlo, Hhi.
    rewrite Hlo, Hhi in Edur.
    destruct (Qeq_bool d 0) eqn:E0; [|discriminate].
    apply Qeq_bool_iff in E0. lra. }
  assert (Hd : exists d, duration = JS.JNum d /\ (20 <= d)%Q /\ (d <= 60)%Q).
  { destruct duration as [| |flag|d| |]; try discriminate; try contradiction.
    - destruct flag; discriminate.
    - exists d. unfold Routes.lessThan, Routes.greaterThan in Edur. cbn in Edur.
      apply orb_false_iff in Edur as [Edur Hhi].
      apply orb_false_iff in Edur as [_ Hlo].
      apply negb_false_iff in Hlo, Hhi. apply Qle_bool_iff in Hlo, Hhi. auto. }
  destruct (negb (JS.truthy tone) || negb (Routes.isValidTone tone)) eqn:Etone.
  { right. split; [|cbn; eauto]. intros (_ & _ & (t & -> & Ht)).
    pose proof Ht as Hb. apply valid_tone_in in Hb.
    unfold Routes.isValidTone in Etone. rewrite Hb in Etone.
    destruct t; [|discriminate]. cbn in Ht. intuition discriminate. }
  left. split; [|reflexivity].
  split; [exists s; split; [reflexivity | exact Hblank]|]. split; [exact Hd|].
  apply orb_false_iff in Etone as [_ Ht]. apply negb_false_iff in Ht.
  destruct tone as [| | | |t|]; try (cbn in Ht; discriminate).
  unfold Routes.isValidTone in Ht.
  exists t. split; [reflexivity | apply valid_tone_in; exact Ht].
Qed.

End Generate.

(** C8 as stated fails: a duration of 25.5 seconds, which is not an
    integer, is answered with 202. *)
Lemma C8_fractional_duration_accepted :
  ~ (Routes.code (fst (Routes.generate Routes.noConversion "job-1" 0
                         Routes.empty_queue Routes.body_25_5)) = 202%nat
     <-> Routes.claimed_valid Routes.body_25_5).
Proof.
  intros [H _]. destruct (H eq_refl) as (_ & (d & Hd & (z & Hz) & _) & _).
  cbn in Hd. inversion Hd; subst d.
  unfold Qeq in Hz. cbn in Hz. lia.
Qed.

(** C8 (amended): for a request body whose [duration_seconds] is missing,
    null, a boolean or a number, POST /generate answers 202 with the id and
    the status QUEUED of the new job if and only if the topic is a string
    with a character other than white space, the duration is a number
    between 20 and 60, whole or not, and the tone is one of informative,
    dramatic, motivational and neutral; otherwise it answers 400 with an
    error body; and with such a topic a duration of 15 is answered with 400
    and "Duration must be between 20 and 60 seconds". *)
Theorem C8_generate_accepts_iff (stringToNumber : string -> option Q)
    (jobId : string) (now : Z) (q : Queue.t) (body : Routes.Body) :
  Routes.plain_duration body ->
  let resp := fst (Routes.generate stringToNumber jobId now q body) in
  (resp = {| Routes.code := 202;
             Routes.payload := Routes.Accepted jobId (JS.JStr "QUEUED") |}
   <-> Routes.accepted body)
  /\ (~ Routes.accepted body ->
      Routes.code resp = 400%nat
      /\ exists msg, Routes.payload resp = Routes.ErrorBody msg)
  /\ ((exists s, Routes.topic body = JS.JStr s /\ JS.trim_is_empty s = false) ->
      Routes.duration_seconds body = JS.JNum 15 ->
      resp = {| Routes.code := 400;
                Routes.payload :=
                  Routes.ErrorBody "Duration must be between 20 and 60 seconds" |}).
Proof.
  intros Hplain. cbn zeta.
  destruct (generate_cases stringToNumber jobId now q body Hplain)
    as [[Hacc Hresp] | (Hrej & Hcode & Hmsg)].
  - split; [tauto|]. split; [tauto|].
    intros _ H15. destruct Hacc as (_ & (d & Hd & Hlo & _) & _).
    rewrite H15 in Hd. inversion Hd; subst d. unfold Qle in Hlo. cbn in Hlo. lia.
  - split; [|split; [auto|]].
    + split; [|tauto]. intros Hresp. rewrite Hresp in Hcode. discriminate.
    + intros (s & Hs & Hblank) H15. unfold Routes.generate.
      rewrite Hs, H15. cbn. rewrite Hblank.
      destruct s; [discriminate | reflexivity].
Qed.

(** Scenarios S1 and S2: a duration of 30 is accepted, one of 15 is not. *)
Lemma C8_generate_accepts_iff_witness :
  Routes.plain_duration Routes.body_s1 /\ Routes.plain_duration Routes.body_s2
  /\ Routes.accepted Routes.body_s1
  /\ fst (Routes.generate Routes.noConversion "job-1" 0 Routes.empty_queue
            Routes.body_s2)
     = {| Routes.code := 400;
          Routes.payload :=
            Routes.ErrorBody "Duration must be between 20 and 60 seconds" |}.
Proof.
  split; [exact I | split; [exact I|]]. split.
  - apply (proj1 (C8_generate_accepts_iff Routes.noConversion "job-1" 0
                    Routes.empty_queue Routes.body_s1 I)).
    reflexivity.
  - apply (C8_generate_accepts_iff Routes.noConversion "job-1" 0
             Routes.empty_queue Routes.body_s2 I).
    + exists "The Science of Caffeine". split; reflexivity.
    + reflexivity.
Defined.

(** ** The caption grouper: the groups partition the words *)

Section Adjacent.

Context {A : Type} (R : A -> A -> Prop).

Lemma adjacent_nil : Shape.adjacent R [].
Proof. intros i x y Hx. discriminate. Qed.

Lemma adjacent_snoc (l : list A) (y : A) :
  Shape.adjacent R l -> (forall x, last l = Some x -> R x y) ->
  Shape.adjacent R (l ++ [y]).
Proof.
  intros H Hl i a b Hi HSi.
  assert (Hlt : (S i < length (l ++ [y]))%nat) by (eapply lookup_lt_Some; eauto).
  rewrite length_app in Hlt. cbn [length] in Hlt.
  rewrite lookup_app_l in Hi by lia.
  destruct (decide (S i < length l)%nat) as [Hin | Hout].
  - rewrite lookup_app_l in HSi by lia. eauto.
  - rewrite lookup_app_r in HSi by lia.
    replace (S i - length l)%nat with 0%nat in HSi by lia.
    cbn in HSi. inversion HSi; subst b. apply Hl.
    rewrite last_lookup. replace (pred (length l)) with i by lia. exact Hi.
Qed.

Lemma adjacent_snoc_inv (l : list A) (y : A) :
  Shape.adjacent R (l ++ [y]) ->
  Shape.adjacent R l /\ (forall x, last l = Some x -> R x y).
Proof.
  intros H. split.
  - intros i a b Hi HSi. apply (H i a b).
    + rewrite lookup_app_l; [exact Hi | eapply lookup_lt_Some; eauto].
    + rewrite lookup_app_l; [exact HSi | eapply lookup_lt_Some; eauto].
  - intros x Hx. rewrite last_lookup in Hx.
    assert (Hlen : (0 < length l)%nat).
    { destruct l; [discriminate | cbn; lia]. }
    apply (H (pred (length l)) x y).
    + rewrite lookup_app_l; [exact Hx | lia].
    + rewrite lookup_app_r by lia.
      replace (S (pred (length l)) - length l)%nat with 0%nat by lia.
      reflexivity.
Qed.

Lemma adjacent_cons (x y : A) (l : list A) :
  Shape.adjacent R (x :: y :: l) <-> R x y /\ Shape.adjacent R (y :: l).
Proof.
  split.
  - intros H. split.
    + apply (H 0%nat); reflexivity.
    + intros i a b Hi HSi. apply (H (S i)); assumption.
  - intros [Hxy H] i a b Hi HSi. destruct i as [|i].
    + cbn in Hi, HSi. congruence.
    + apply (H i); assumption.
Qed.

Lemma adjacent_singleton (x : A) : Shape.adjacent R [x].
Proof. intros i a b Hi HSi. destruct i; discriminate. Qed.

End Adjacent.

(** The positions that [_pushGroup] collects, counted from [k], are those
    of the emphasised words. *)
Lemma emphasis_positions_spec (g : list Word.t) : forall k,
  Caption.emphasis_positions k g
  = List.filter (fun i => Shape.emphasised_at g (i - k)) (seq k (length g)).
Proof.
  induction g as [|w g IH]; intros k; [reflexivity|].
  cbn [Caption.emphasis_positions length seq List.filter].
  rewrite Nat.sub_diag. unfold Shape.emphasised_at at 1. cbn [lookup list_lookup].
  assert (Hrest : List.filter (fun i => Shape.emphasised_at (w :: g) (i - k))
                    (seq (S k) (length g))
                  = List.filter (fun i => Shape.emphasised_at g (i - S k))
                      (seq (S k) (length g))).
  { apply filter_ext_in. intros i Hi. apply in_seq in Hi.
    replace (i - k)%nat with (S (i - S k)) by lia. reflexivity. }
  rewrite Hrest, <- IH. destruct (Word.emphasis w); reflexivity.
Qed.

Lemma emphasis_positions_0 (g : list Word.t) :
  Caption.emphasis_positions 0 g
  = List.filter (Shape.emphasised_at g) (seq 0 (length g)).
Proof.
  rewrite emphasis_positions_spec. apply filter_ext. intros i.
  rewrite Nat.sub_0_r. reflexivity.
Qed.

Lemma pushGroup_spec (caps caps' : list Caption.t) (g : list Word.t) :
  Caption._pushGroup caps g = Some caps' <->
  exists c, Shape.caption_of g c /\ caps' = caps ++ [c].
Proof.
  unfold Shape.caption_of, Caption._pushGroup. destruct g as [|first g'].
  - split; [discriminate | intros (c & (f & Hf & _) & _); discriminate].
  - rewrite (emphasis_positions_0 (first :: g')).
    generalize (List.filter (Shape.emphasised_at (first :: g'))
                  (seq 0 (length (first :: g')))).
    intros positions. split.
    + intros H. eexists. split; [|inversion H; reflexivity].
      exists first. do 5 (split; [reflexivity|]). reflexivity.
    + intros (c & (f & Hf & Htext & Hstart & Hend & Hemph & Hstyle) & ->).
      cbn [head] in Hf. inversion Hf; subst f.
      destruct c as [t s e idx st].
      cbn [Caption.text Caption.start_ms Caption.end_ms
           Caption.emphasis_indices Caption.style] in *.
      subst t s e idx st. reflexivity.
Qed.

Lemma caption_of_fields (g : list Word.t) (c : Caption.t) :
  Shape.caption_of g c ->
  exists first, head g = Some first
    /\ Caption.text c = String.concat " " (map Word.word g)
    /\ Caption.start_ms c = Word.start_ms first
    /\ Caption.end_ms c = Word.end_ms (List.last g first).
Proof.
  intros (first & Hf & Htext & Hstart & Hend & _). exists first. auto.
Qed.

Lemma span_snoc (first item : Word.t) (g : list Word.t) :
  Shape.span ((first :: g) ++ [item]) = Word.end_ms item - Word.start_ms first.
Proof.
  unfold Shape.span. cbn [app].
  change (first :: g ++ [item]) with ((first :: g) ++ [item]).
  rewrite last_last. reflexivity.
Qed.

(** The state of the grouper after some words: [gs] are the groups closed so
    far, [caps] their captions and [cur] the group being filled. *)
Lemma caption_step_spec len gs caps cur index item :
  Forall2 Shape.caption_of gs caps ->
  Forall Shape.group_ok gs ->
  (length cur <= 3)%nat ->
  ((2 <= length cur)%nat -> Shape.span cur <= 800) ->
  Shape.adjacent Shape.closed_by (gs ++ [cur]) ->
  (cur = [] -> gs = []) ->
  exists gs1 caps1 cur1 caps',
    Caption.step len (caps, cur) index item = Some (caps', cur1)
    /\ Forall2 Shape.caption_of gs1 caps1
    /\ Forall Shape.group_ok gs1
    /\ Shape.group_ok cur1
    /\ Shape.adjacent Shape.closed_by (gs1 ++ [cur1])
    /\ concat gs1 ++ cur1 = concat gs ++ cur ++ [item]
    /\ (if Nat.eqb (S index) len
        then Caption._pushGroup caps1 cur1 = Some caps'
        else caps' = caps1).
Proof.
  intros Hcaps Hgs Hlen Hspan Hadj Hnil.
  assert (Hlast : forall caps1 (cur1 : list Word.t), cur1 <> [] ->
    exists caps',
      (if Nat.eqb (S index) len && (0 <? length cur1)%nat
       then groups2 ← Caption._pushGroup caps1 cur1; Some (groups2, cur1)
       else Some (caps1, cur1)) = Some (caps', cur1)
      /\ (if Nat.eqb (S index) len
          then Caption._pushGroup caps1 cur1 = Some caps'
          else caps' = caps1)).
  { intros caps1 cur1 Hne. destruct cur1 as [|w cur1']; [congruence|].
    destruct (Nat.eqb (S index) len); cbn; eauto. }
  unfold Caption.step. destruct cur as [|first cur'].
  - (* the first word of the list *)
    rewrite (Hnil eq_refl) in *. inversion Hcaps; subst.
    cbn [length Nat.eqb negb andb orb Nat.leb mbind option_bind].
    destruct (Hlast [] [item] ltac:(congruence)) as (caps' & E & Hpush).
    exists [], [], [item], caps'. split_and!; auto.
    + split; cbn; [lia | intros; lia].
    + apply adjacent_singleton.
  - cbn [length Nat.eqb negb andb].
    set (exceeds := 800 <? Word.end_ms item - Word.start_ms first).
    set (full := (3 <=? S (length cur'))%nat).
    destruct (exceeds || full) eqn:Ebreak.
    + (* the group is closed and the word opens the next one *)
      cbn [Caption._pushGroup mbind option_bind].
      match goal with |- context [caps ++ [?c]] => set (cap := c) end.
      destruct (Hlast (caps ++ [cap]) [item] ltac:(congruence)) as (caps' & E & Hpush).
      exists (gs ++ [first :: cur']), (caps ++ [cap]), [item], caps'.
      split_and!; auto.
      * apply Forall2_app; [exact Hcaps|]. constructor; [|constructor].
        destruct (proj1 (pushGroup_spec [] [cap] (first :: cur')) eq_refl)
          as (c & Hc & Heq).
        injection Heq as Heq. rewrite Heq. exact Hc.
      * apply Forall_app. split; [exact Hgs|]. constructor; [|constructor].
        split; [cbn [length] in *; lia | exact Hspan].
      * split; cbn; [lia | intros; lia].
      * apply adjacent_snoc; [exact Hadj|]. intros g Hg.
        rewrite last_snoc in Hg. inversion Hg; subst g.
        intros f w Hf Hw. cbn in Hf, Hw. inversion Hf; inversion Hw; subst.
        apply orb_true_iff in Ebreak. destruct Ebreak as [E1 | E2].
        -- right. subst exceeds. lia.
        -- left. subst full. apply Nat.leb_le in E2. cbn [length] in *. lia.
      * rewrite concat_app. cbn [concat]. rewrite app_nil_r, <- app_assoc.
        reflexivity.
    + (* the word joins the group *)
      apply orb_false_iff in Ebreak. destruct Ebreak as [E1 E2].
      subst exceeds full. apply Z.ltb_ge in E1. apply Nat.leb_gt in E2.
      cbn [mbind option_bind].
      destruct (Hlast caps ((first :: cur') ++ [item]) ltac:(discriminate))
        as (caps' & E & Hpush).
      exists gs, caps, ((first :: cur') ++ [item]), caps'.
      split_and!; auto.
      * split.
        -- rewrite length_app. cbn [length] in *. lia.
        -- intros _. rewrite span_snoc. exact E1.
      * apply adjacent_snoc_inv in Hadj. destruct Hadj as [Hadj Hprev].
        apply adjacent_snoc; [exact Hadj|]. intros g Hg f w Hf Hw.
        apply (Hprev g Hg f w Hf). cbn in Hw |- *. exact Hw.
Qed.

Lemma caption_loop_spec (items : list Word.t) : forall len index gs caps cur,
  (index + length items = len)%nat ->
  items <> [] ->
  Forall2 Shape.caption_of gs caps ->
  Forall Shape.group_ok gs ->
  (length cur <= 3)%nat ->
  ((2 <= length cur)%nat -> Shape.span cur <= 800) ->
  Shape.adjacent Shape.closed_by (gs ++ [cur]) ->
  (cur = [] -> gs = []) ->
  exists gs' caps' cur',
    Caption.loop len (caps, cur) index items = Some (caps', cur')
    /\ Forall2 Shape.caption_of gs' caps'
    /\ Forall Shape.group_ok gs'
    /\ Shape.adjacent Shape.closed_by gs'
    /\ concat gs' = concat gs ++ cur ++ items.
Proof.
  induction items as [|item rest IH];
    intros len index gs caps cur Hlen Hne Hcaps Hgs Hcur Hspan Hadj Hnil;
    [congruence|].
  cbn [Caption.loop]. cbn [length] in Hlen.
  destruct (caption_step_spec len gs caps cur index item Hcaps Hgs Hcur Hspan Hadj Hnil)
    as (gs1 & caps1 & cur1 & caps' & Estep & Hcaps1 & Hgs1 & Hok1 & Hadj1 & Hcat & Hpush).
  rewrite Estep. cbn [mbind option_bind].
  destruct rest as [|item' rest'].
  - (* the last word: its group is closed *)
    cbn [Caption.loop].
    replace (Nat.eqb (S index) len) with true in Hpush
      by (symmetry; apply Nat.eqb_eq; cbn [length] in Hlen; lia).
    apply pushGroup_spec in Hpush. destruct Hpush as (c & Hc & ->).
    exists (gs1 ++ [cur1]), (caps1 ++ [c]), cur1. split_and!; auto.
    + apply Forall2_app; [exact Hcaps1 | repeat constructor; exact Hc].
    + apply Forall_app. split; [exact Hgs1 | constructor; [exact Hok1 | constructor]].
    + rewrite concat_app. cbn [concat]. rewrite app_nil_r. exact Hcat.
  - replace (Nat.eqb (S index) len) with false in Hpush
      by (symmetry; apply Nat.eqb_neq; cbn [length] in Hlen; lia).
    subst caps'. destruct Hok1 as [Hlen1 Hspan1].
    destruct (IH len (S index) gs1 caps1 cur1) as (gs' & caps' & cur' & E & H1 & H2 & H3 & H4);
      auto; try lia; try discriminate.
    { intros ->. cbn in Hlen1. lia. }
    exists gs', caps', cur'. split_and!; auto.
    rewrite H4, app_assoc, Hcat, <- !app_assoc. reflexivity.
Qed.

(** X1: on every word list the caption grouper returns, and its captions
    are those of consecutive groups of the words, in order: the groups
    concatenate to the word list, each group holds one to three words, a
    group of several words spans at most 800 ms, and a group is closed only
    when it is full or the next word would stretch it beyond 800 ms.  The
    caption of a group carries its words joined by single spaces, the start
    of its first word, the end of its last word, the positions of its
    emphasised words and the default style. *)
Theorem caption_groups_partition (timestamps : list Word.t) :
  exists groups caps,
    Caption.generateTimeline timestamps = Some caps
    /\ concat groups = timestamps
    /\ Forall Shape.group_ok groups
    /\ Shape.adjacent Shape.closed_by groups
    /\ Forall2 Shape.caption_of groups caps.
Proof.
  unfold Caption.generateTimeline. destruct timestamps as [|item rest].
  - exists [], []. split_and!; [reflexivity | reflexivity | constructor
      | apply adjacent_nil | constructor].
  - destruct (caption_loop_spec (item :: rest) (length (item :: rest)) 0 [] [] []
                eq_refl ltac:(discriminate) ltac:(constructor) ltac:(constructor)
                ltac:(cbn; lia) ltac:(cbn; lia) (adjacent_singleton _ _)
                ltac:(reflexivity))
      as (gs' & caps' & cur' & E & H1 & H2 & H3 & H4).
    rewrite E. exists gs', caps'. split_and!; auto.
Qed.

(** Five words, the second and the fifth emphasised: two captions. *)
Lemma caption_groups_partition_witness :
  let words :=
    [ Word.mk "Stop" 0 300 false; Word.mk "scrolling" 300 700 true;
      Word.mk "at" 1000 1200 false; Word.mk "night" 1200 1500 false;
      Word.mk "now" 1500 1750 true ] in
  exists groups,
    Caption.generateTimeline words
    = Some [ Caption.mk "Stop scrolling" 0 700 [1%nat] Caption.default_style;
             Caption.mk "at night now" 1000 1750 [2%nat] Caption.default_style ]
    /\ concat groups = words
    /\ Forall2 Shape.caption_of groups
         [ Caption.mk "Stop scrolling" 0 700 [1%nat] Caption.default_style;
           Caption.mk "at night now" 1000 1750 [2%nat] Caption.default_style ].
Proof.
  intros words.
  destruct (caption_groups_partition words)
    as (groups & caps & E & Hcat & _ & _ & Hcaps).
  vm_compute in E. injection E as <-. exists groups. split_and!;
    [reflexivity | exact Hcat | exact Hcaps].
Defined.

(** ** The words of a voice-over: lengths and silences *)

Lemma wordChar_not_space (c : ascii) :
  JS.isWordChar c = true -> JS.isSpace c = false.
Proof.
  destruct c as [[] [] [] [] [] [] [] []]; vm_compute; congruence.
Qed.

Lemma any_keep (p q : ascii -> bool) (s : string) :
  (forall c, p c = true -> q c = false) -> JS.any q (JS.keep p s) = false.
Proof.
  intros Hpq. induction s as [|c s IH]; cbn [JS.keep JS.any]; [reflexivity|].
  destruct (p c) eqn:E; [|exact IH].
  cbn [JS.any]. rewrite (Hpq c E), IH. reflexivity.
Qed.

Lemma pause_le (x : Q) : (JS.Math_min (JS.Math_max x 150) 450 <= 450)%Q.
Proof.
  unfold JS.Math_min, JS.Math_max.
  destruct (Qle_bool x 150) eqn:E1.
  - destruct (Qle_bool 150 450) eqn:E2; [lra | discriminate].
  - destruct (Qle_bool x 450) eqn:E2; [apply Qle_bool_iff in E2|]; lra.
Qed.

Lemma Math_round_pause (x p : Q) :
  (0 <= p)%Q -> (p <= 450)%Q ->
  0 <= JS.Math_round (x + p) - JS.Math_round x <= 451.
Proof.
  intros H0 H1. split.
  - assert (JS.Math_round x <= JS.Math_round (x + p))
      by (apply Math_round_mono; lra). lia.
  - assert (H : JS.Math_round (x + p) <= JS.Math_round (x + 450))
      by (apply Math_round_mono; lra).
    rewrite (Math_round_plus_Z x 450 450) in H by reflexivity. lia.
Qed.

(** The three multipliers give words of a whole number of milliseconds. *)
Lemma word_duration_whole (m : Q) (e : bool) :
  m = 0.8%Q \/ m = 1.0%Q \/ m = 1.2%Q ->
  exists n : Z,
    ((if e then 300 * m * 1.15 else 300 * m) == inject_Z n)%Q /\ 240 <= n <= 414.
Proof.
  intros [-> | [-> | ->]]; destruct e;
    [exists 276 | exists 240 | exists 345 | exists 300 | exists 414 | exists 360];
    (split; [reflexivity | lia]).
Qed.

Lemma at_end_near (st : Audio.State) : Shape.at_end st -> Shape.near st.
Proof. intros H l t Hl. rewrite (H l t Hl). lia. Qed.

Lemma wordStep_paced m st word :
  m = 0.8%Q \/ m = 1.0%Q \/ m = 1.2%Q ->
  Shape.paced (Audio.pushed st) -> Shape.near st ->
  Shape.paced (Audio.pushed (Audio.wordStep m st word))
  /\ Shape.at_end (Audio.wordStep m st word).
Proof.
  intros Hm [Hwords Hgaps] Hnear.
  destruct (word_duration_whole m (Audio._checkEmphasis word) Hm) as (n & Hn & Hrange).
  unfold Audio.wordStep. cbn [Audio.pushed Audio.currentTimeMs].
  rewrite (Math_round_plus_Z _ _ n Hn).
  split; [split|].
  - apply Forall_app. split; [exact Hwords|]. constructor; [|constructor].
    split; cbn [Word.start_ms Word.end_ms Word.word]; [lia|].
    apply any_keep, wordChar_not_space.
  - apply adjacent_snoc; [exact Hgaps|]. intros t Ht.
    cbn [Word.start_ms]. apply last_Some in Ht. destruct Ht as [l Hl].
    apply (Hnear l t Hl).
  - intros l t Hl. cbn [Audio.pushed Audio.currentTimeMs] in *.
    apply app_inj_tail in Hl. destruct Hl as [_ <-].
    cbn [Word.end_ms]. rewrite (Math_round_plus_Z _ _ n Hn). reflexivity.
Qed.

Lemma words_paced m words : forall st,
  m = 0.8%Q \/ m = 1.0%Q \/ m = 1.2%Q ->
  Shape.paced (Audio.pushed st) -> Shape.near st ->
  Shape.paced (Audio.pushed (fold_left (Audio.wordStep m) words st))
  /\ Shape.near (fold_left (Audio.wordStep m) words st)
  /\ (words <> [] -> Shape.at_end (fold_left (Audio.wordStep m) words st)).
Proof.
  induction words as [|w words IH]; intros st Hm Hp Hn; cbn [fold_left].
  - split_and!; [exact Hp | exact Hn | congruence].
  - destruct (wordStep_paced m st w Hm Hp Hn) as [Hp' He'].
    destruct (IH _ Hm Hp' (at_end_near _ He')) as (Hp'' & Hn'' & He'').
    split_and!; [exact Hp'' | exact Hn'' |]. intros _.
    destruct words as [|w' words']; [exact He' | apply He''; congruence].
Qed.

Lemma sectionStep_paced len st idx section :
  Shape.paced (Audio.pushed st) -> Shape.near st ->
  Shape.paced (Audio.pushed (Audio.sectionStep len st idx section))
  /\ Shape.near (Audio.sectionStep len st idx section).
Proof.
  intros Hp Hn. unfold Audio.sectionStep.
  set (m := if Nat.eqb (S idx) len then 1.2%Q
            else if Nat.eqb idx 0 then 0.8%Q else 1.0%Q).
  assert (Hm : m = 0.8%Q \/ m = 1.0%Q \/ m = 1.2%Q).
  { subst m. destruct (Nat.eqb (S idx) len), (Nat.eqb idx 0); auto. }
  set (st0 := {| Audio.currentTimeMs := Audio.currentTimeMs st;
                 Audio.sectionDurationMs := 0;
                 Audio.pushed := Audio.pushed st |}).
  destruct (words_paced m (JS.split_ws section) st0 Hm Hp Hn) as (Hp1 & Hn1 & He1).
  specialize (He1 (split_ws_nonempty section)).
  set (st1 := fold_left (Audio.wordStep m) (JS.split_ws section) st0) in *.
  destruct (Nat.ltb (S idx) len); [|split; assumption].
  cbn [Audio.pushed]. split; [exact Hp1|].
  intros l t Hl. cbn [Audio.pushed Audio.currentTimeMs] in *.
  rewrite (He1 l t Hl).
  apply Math_round_pause; [apply pause_nonneg | apply pause_le].
Qed.

Lemma sections_paced len rest : forall st idx,
  Shape.paced (Audio.pushed st) -> Shape.near st ->
  Shape.paced (Audio.pushed (Audio.sections len st idx rest)).
Proof.
  induction rest as [|s rest IH]; intros st idx Hp Hn; cbn [Audio.sections].
  - exact Hp.
  - destruct (sectionStep_paced len st idx s Hp Hn) as [Hp1 Hn1].
    apply IH; assumption.
Qed.

Lemma voiceover_paced (scriptData : Audio.ScriptData) :
  Shape.paced (Audio.timestamps (Audio.generateVoiceover scriptData)).
Proof.
  unfold Audio.generateVoiceover. cbn [Audio.timestamps].
  apply sections_paced.
  - split; [constructor | apply adjacent_nil].
  - intros l t Hl. cbn in Hl. destruct l; discriminate.
Qed.

(** The timestamps of a voice-over are well timed up to its duration. *)
Lemma voiceover_well_timed (scriptData : Audio.ScriptData) :
  Audio.well_timed (Audio.timestamps (Audio.generateVoiceover scriptData))
                   (Audio.duration_ms (Audio.generateVoiceover scriptData)).
Proof.
  unfold Audio.generateVoiceover. cbn [Audio.timestamps Audio.duration_ms].
  set (st0 := {| Audio.currentTimeMs := 0; Audio.sectionDurationMs := 0;
                 Audio.pushed := [] |}).
  assert (Hinv0 : Audio.inv st0).
  { unfold Audio.inv, Audio.well_timed, Audio.consecutive. cbn.
    repeat split; try constructor; try discriminate. }
  destruct (sections_inv (length (Audio.allText scriptData))
              (Audio.allText scriptData) st0 0%nat eq_refl Hinv0) as [[H _] _].
  exact H.
Qed.

Lemma voiceover_timestamps_nil (scriptData : Audio.ScriptData) :
  Audio.timestamps (Audio.generateVoiceover scriptData) = [] <->
  Audio.allText scriptData = [].
Proof.
  unfold Audio.generateVoiceover. cbn [Audio.timestamps].
  set (st0 := {| Audio.currentTimeMs := 0; Audio.sectionDurationMs := 0;
                 Audio.pushed := [] |}).
  assert (Hinv0 : Audio.inv st0).
  { unfold Audio.inv, Audio.well_timed, Audio.consecutive. cbn.
    repeat split; try constructor; try discriminate. }
  destruct (sections_inv (length (Audio.allText scriptData))
              (Audio.allText scriptData) st0 0%nat eq_refl Hinv0) as [_ Htight].
  split.
  - intros Hnil. destruct (Audio.allText scriptData) as [|s texts]; [reflexivity|].
    destruct (Htight ltac:(congruence)) as (l & t & Hl & _).
    rewrite Hl in Hnil. destruct l; discriminate.
  - intros ->. reflexivity.
Qed.

(** ** Counting the pieces of a caption text *)

Lemma split_go_length (s : string) : forall skipping cur cur',
  length (JS.split_go skipping cur s) = length (JS.split_go skipping cur' s).
Proof.
  induction s as [|c s IH]; intros skipping cur cur'; cbn [JS.split_go].
  - reflexivity.
  - destruct (JS.isSpace c); [destruct skipping|]; cbn [length]; auto.
Qed.

(** A word without white space is skipped over: it ends a run of white
    space unless it is empty. *)
Lemma split_go_word (w : string) : forall skipping cur rest,
  JS.any JS.isSpace w = false ->
  length (JS.split_go skipping cur (w ++ rest))
  = length (JS.split_go (skipping && match w with EmptyString => true | _ => false end)
                        cur rest).
Proof.
  induction w as [|c w IH]; intros skipping cur rest Hw.
  - rewrite andb_true_r. reflexivity.
  - cbn [JS.any] in Hw. apply orb_false_iff in Hw. destruct Hw as [Hc Hw].
    cbn [String.append JS.split_go]. rewrite Hc, andb_false_r.
    rewrite (IH false _ rest Hw). cbn [andb]. apply split_go_length.
Qed.

(** Joining words with single spaces and splitting at white space gives no
    more pieces than there were words. *)
Lemma split_concat_length (ws : list string) : forall skipping cur,
  ws <> [] ->
  Forall (fun w => JS.any JS.isSpace w = false) ws ->
  (length (JS.split_go skipping cur (String.concat " " ws)) <= length ws)%nat.
Proof.
  induction ws as [|w ws IH]; intros skipping cur Hne Hws; [congruence|].
  inversion Hws as [|? ? Hw Hws']; subst.
  destruct ws as [|w2 ws'].
  - cbn [String.concat length].
    rewrite <- (string_app_nil_r w), (split_go_word w skipping cur _ Hw).
    cbn [JS.split_go length]. lia.
  - change (String.concat " " (w :: w2 :: ws'))
      with (w ++ String " "%char (String.concat " " (w2 :: ws')))%string.
    rewrite (split_go_word w skipping cur _ Hw).
    cbn [JS.split_go]. change (JS.isSpace " "%char) with true. cbn iota.
    destruct (skipping && _).
    + specialize (IH true cur ltac:(discriminate) Hws').
      cbn [length] in IH |- *. lia.
    + specialize (IH true EmptyString ltac:(discriminate) Hws').
      cbn [length] in IH |- *. lia.
Qed.

Section AdjacentMore.

Context {A : Type} (R : A -> A -> Prop).

Lemma adjacent_app_r (l1 l2 : list A) :
  Shape.adjacent R (l1 ++ l2) -> Shape.adjacent R l2.
Proof.
  intros H i x y Hx Hy. apply (H (length l1 + i)%nat).
  - rewrite lookup_app_r by lia. replace (length l1 + i - length l1)%nat with i by lia.
    exact Hx.
  - rewrite lookup_app_r by lia.
    replace (S (length l1 + i) - length l1)%nat with (S i) by lia. exact Hy.
Qed.

Lemma adjacent_middle (l1 l2 : list A) (x y : A) :
  Shape.adjacent R (l1 ++ x :: y :: l2) -> R x y.
Proof.
  intros H. apply adjacent_app_r in H. apply (H 0%nat); reflexivity.
Qed.

(** Neighbouring groups of a partition meet at neighbours of the list. *)
Lemma adjacent_concat (groups : list (list A)) :
  Shape.adjacent R (concat groups) ->
  Forall (fun g => g <> []) groups ->
  Shape.adjacent
    (fun g h => forall a b, last g = Some a -> head h = Some b -> R a b) groups.
Proof.
  induction groups as [|g groups IH]; intros Hadj Hne; [apply adjacent_nil|].
  inversion Hne as [|? ? Hg Hne']; subst.
  destruct groups as [|h groups']; [apply adjacent_singleton|].
  apply adjacent_cons. split.
  - intros a b Ha Hb. apply last_Some in Ha. destruct Ha as [l ->].
    destruct h as [|b' h']; [discriminate|]. cbn in Hb. inversion Hb; subst b'.
    cbn [concat] in Hadj. rewrite <- !app_assoc in Hadj. cbn [app] in Hadj.
    eapply adjacent_middle. exact Hadj.
  - apply IH; [|exact Hne']. cbn [concat] in Hadj.
    eapply adjacent_app_r. exact Hadj.
Qed.

End AdjacentMore.

Lemma adjacent_Forall2 {A B} (P : A -> B -> Prop) (R : A -> A -> Prop)
    (R' : B -> B -> Prop) (l : list A) (k : list B) :
  Forall2 P l k -> Shape.adjacent R l ->
  (forall x y x' y', P x x' -> P y y' -> R x y -> R' x' y') ->
  Shape.adjacent R' k.
Proof.
  intros HP HR Himp i x' y' Hx Hy.
  destruct (Forall2_lookup_r _ _ _ _ _ HP Hx) as (x & Hlx & Hxx).
  destruct (Forall2_lookup_r _ _ _ _ _ HP Hy) as (y & Hly & Hyy).
  eapply Himp; eauto.
Qed.

Lemma adjacent_impl {A} (R R' : A -> A -> Prop) (l : list A) :
  Shape.adjacent R l -> (forall x y, R x y -> R' x y) -> Shape.adjacent R' l.
Proof. intros H Himp i x y Hx Hy. eauto. Qed.

(** ** The audio and caption gates *)

Lemma orderErrors_nil (rest : list Word.t) : forall i prev,
  Shape.adjacent (fun t u => Word.end_ms t <= Word.start_ms u) (prev :: rest) ->
  AudioValidator.orderErrors i prev rest = [].
Proof.
  induction rest as [|t rest IH]; intros i prev H;
    cbn [AudioValidator.orderErrors]; [reflexivity|].
  apply adjacent_cons in H. destruct H as [Htu H].
  destruct (Z.ltb_spec (Word.start_ms t) (Word.end_ms prev)); [lia|].
  apply IH. exact H.
Qed.

Lemma silenceErrors_nil (rest : list Word.t) : forall prev,
  Shape.adjacent (fun t u => Word.start_ms u - Word.end_ms t <= 600) (prev :: rest) ->
  AudioValidator.silenceErrors prev rest = [].
Proof.
  induction rest as [|t rest IH]; intros prev H;
    cbn [AudioValidator.silenceErrors]; [reflexivity|].
  apply adjacent_cons in H. destruct H as [Htu H]. cbn zeta.
  destruct (Z.ltb_spec 600 (Word.start_ms t - Word.end_ms prev)); [lia|].
  apply IH. exact H.
Qed.

Lemma orderErrors_found (rest : list Word.t) : forall n prev i t u,
  (prev :: rest) !! i = Some t -> (prev :: rest) !! S i = Some u ->
  Word.start_ms u < Word.end_ms t ->
  AudioValidator.orderErrors n prev rest <> [].
Proof.
  induction rest as [|x rest IH]; intros n prev i t u Ht Hu Hlt.
  - destruct i; discriminate.
  - cbn [AudioValidator.orderErrors].
    destruct (Z.ltb_spec (Word.start_ms x) (Word.end_ms prev)); [discriminate|].
    destruct i as [|i].
    + cbn in Ht, Hu. inversion Ht; inversion Hu; subst. lia.
    + apply (IH (S n) x i t u); assumption.
Qed.

Lemma silenceErrors_found (rest : list Word.t) : forall prev i t u,
  (prev :: rest) !! i = Some t -> (prev :: rest) !! S i = Some u ->
  600 < Word.start_ms u - Word.end_ms t ->
  AudioValidator.silenceErrors prev rest <> [].
Proof.
  induction rest as [|x rest IH]; intros prev i t u Ht Hu Hlt.
  - destruct i; discriminate.
  - cbn [AudioValidator.silenceErrors]. cbn zeta.
    destruct (Z.ltb_spec 600 (Word.start_ms x - Word.end_ms prev)); [discriminate|].
    destruct i as [|i].
    + cbn in Ht, Hu. inversion Ht; inversion Hu; subst. lia.
    + apply (IH x i t u); assumption.
Qed.

(** X2: the audio gate accepts the voice-over generated for a script that
    has some text exactly when its duration is within 110% of the target:
    the generated timestamps never fail the order check or the silence
    check. *)
Theorem audio_gate_accepts_iff (scriptData : Audio.ScriptData) (target_duration : Q) :
  Audio.allText scriptData <> [] ->
  AudioValidator.isValid
    (AudioValidator.validate (Audio.generateVoiceover scriptData) target_duration)
  = true
  <-> (inject_Z (Audio.duration_ms (Audio.generateVoiceover scriptData))
       <= target_duration * 1000 * 1.1)%Q.
Proof.
  intros Htext.
  pose proof (voiceover_paced scriptData) as [_ Hgaps].
  pose proof (voiceover_well_timed scriptData) as (_ & Horder & _).
  assert (Hne : Audio.timestamps (Audio.generateVoiceover scriptData) <> []).
  { intros H. apply voiceover_timestamps_nil in H. contradiction. }
  unfold AudioValidator.validate. cbn [AudioValidator.isValid].
  destruct (Audio.timestamps (Audio.generateVoiceover scriptData)) as [|t rest];
    [congruence|].
  rewrite orderErrors_nil by exact Horder.
  rewrite silenceErrors_nil
    by (eapply adjacent_impl; [exact Hgaps | cbn; intros; lia]).
  rewrite !app_nil_r.
  destruct (Qle_bool _ _) eqn:E.
  - split; [intros _; apply Qle_bool_iff; exact E | reflexivity].
  - split; [discriminate|]. intros H. apply Qle_bool_iff in H. congruence.
Qed.

Lemma audio_gate_accepts_iff_witness :
  Audio.allText (Audio.Text "stop scrolling now") <> []
  /\ (AudioValidator.isValid
        (AudioValidator.validate
           (Audio.generateVoiceover (Audio.Text "stop scrolling now")) 1)
      = true
      <-> (inject_Z (Audio.duration_ms
                       (Audio.generateVoiceover (Audio.Text "stop scrolling now")))
           <= 1 * 1000 * 1.1)%Q).
Proof.
  split; [discriminate|].
  apply (audio_gate_accepts_iff (Audio.Text "stop scrolling now") 1). discriminate.
Defined.

(** X3: the audio gate rejects every audio result in which some word
    starts before the previous word has ended, or more than 600 ms after
    it. *)
Theorem audio_gate_rejects_disorder (audio : Audio.Result) (target_duration : Q)
    (i : nat) (t u : Word.t) :
  Audio.timestamps audio !! i = Some t ->
  Audio.timestamps audio !! S i = Some u ->
  Word.start_ms u < Word.end_ms t \/ 600 < Word.start_ms u - Word.end_ms t ->
  AudioValidator.isValid (AudioValidator.validate audio target_duration) = false.
Proof.
  intros Ht Hu Hbad. unfold AudioValidator.validate. cbn [AudioValidator.isValid].
  destruct (Audio.timestamps audio) as [|prev rest]; [discriminate|].
  destruct Hbad as [Hlt | Hgap].
  - pose proof (orderErrors_found rest 1 prev i t u Ht Hu Hlt) as Hne.
    destruct (AudioValidator.orderErrors 1 prev rest); [congruence|].
    destruct (Qle_bool _ _); reflexivity.
  - pose proof (silenceErrors_found rest prev i t u Ht Hu Hgap) as Hne.
    destruct (AudioValidator.silenceErrors prev rest); [congruence|].
    destruct (Qle_bool _ _), (AudioValidator.orderErrors 1 prev rest); reflexivity.
Qed.

Lemma audio_gate_rejects_disorder_witness :
  AudioValidator.isValid
    (AudioValidator.validate
       {| Audio.timestamps := [Word.mk "a" 0 300 false; Word.mk "b" 1000 1300 false];
          Audio.duration_ms := 1300; Audio.word_count := 2 |} 30)
  = false.
Proof.
  apply (audio_gate_rejects_disorder _ 30 0 (Word.mk "a" 0 300 false)
           (Word.mk "b" 1000 1300 false)); [reflexivity | reflexivity |].
  right. cbn. lia.
Defined.

(** ** The caption gate on the captions of a voice-over *)

Lemma last_default_snoc {A} (l : list A) (d : A) :
  l <> [] -> last l = Some (List.last l d).
Proof.
  intros Hne. destruct (exists_last Hne) as (l' & a & ->).
  rewrite last_snoc, last_last. reflexivity.
Qed.

Lemma last_default_Forall {A} (P : A -> Prop) (l : list A) (d : A) :
  l <> [] -> Forall P l -> P (List.last l d).
Proof.
  intros Hne H. destruct (exists_last Hne) as (l' & a & ->).
  rewrite last_last. apply Forall_app in H. destruct H as [_ H].
  inversion H; assumption.
Qed.

Lemma Forall2_Forall_r {A B} (P : A -> B -> Prop) (Q : A -> Prop) (Q' : B -> Prop)
    (l : list A) (k : list B) :
  Forall2 P l k -> Forall Q l -> (forall x y, P x y -> Q x -> Q' y) -> Forall Q' k.
Proof.
  intros HP. induction HP as [|x y l k Hxy HP IH]; intros HQ Himp; constructor.
  - inversion HQ; subst. eauto.
  - inversion HQ; subst. apply IH; assumption.
Qed.

(** The caption of a group of well-formed words that all end by [bound]. *)
Lemma caption_of_fine (bound : Z) (g : list Word.t) (c : Caption.t) :
  Shape.caption_of g c ->
  Shape.group_ok g -> Forall Shape.word_ok g ->
  Forall (fun t => Word.end_ms t <= bound) g ->
  (length (JS.split_ws (Caption.text c)) <= 3)%nat
  /\ Caption.end_ms c - Caption.start_ms c <= 900
  /\ Caption.end_ms c <= bound.
Proof.
  intros Hc [Hlen Hspan] Hwords Hbound.
  destruct (caption_of_fields g c Hc) as (first & Hfirst & Htext & Hstart & Hend).
  destruct g as [|f g']; [discriminate|]. cbn in Hfirst. inversion Hfirst; subst f.
  split_and!.
  - rewrite Htext. unfold JS.split_ws.
    etransitivity; [apply split_concat_length|].
    + discriminate.
    + apply Forall_map. eapply Forall_impl; [exact Hwords|].
      intros t [_ Ht]. exact Ht.
    + rewrite length_map. lia.
  - rewrite Hstart, Hend. destruct g' as [|t g''].
    + cbn [List.last]. inversion Hwords as [|? ? [Hw _] _]; subst. lia.
    + specialize (Hspan ltac:(cbn [length]; lia)).
      unfold Shape.span in Hspan. lia.
  - rewrite Hend. apply last_default_Forall; [discriminate | exact Hbound].
Qed.

Lemma forEach_nil (caps : list Caption.t) : forall idx prev,
  Forall (fun c => (length (JS.split_ws (Caption.text c)) <= 3)%nat
                   /\ Caption.end_ms c - Caption.start_ms c <= 900) caps ->
  Shape.adjacent (fun c d => Caption.end_ms c <= Caption.start_ms d)
    (option_list prev ++ caps) ->
  CaptionValidator.forEach idx prev caps = [].
Proof.
  induction caps as [|cap caps IH]; intros idx prev Hfine Hadj;
    cbn [CaptionValidator.forEach]; [reflexivity|].
  inversion Hfine as [|? ? [Hcount Hdur] Hfine']; subst.
  rewrite (IH (S idx) (Some cap) Hfine').
  - rewrite app_nil_r. unfold CaptionValidator.captionErrors.
    destruct (Nat.ltb_spec 3 (length (JS.split_ws (Caption.text cap)))); [lia|].
    assert (E : (if 800 <? Caption.end_ms cap - Caption.start_ms cap
                 then if 900 <? Caption.end_ms cap - Caption.start_ms cap
                      then [CaptionValidator.TooLong idx
                              (Caption.end_ms cap - Caption.start_ms cap)]
                      else []
                 else []) = []).
    { destruct (800 <? _); [|reflexivity].
      destruct (Z.ltb_spec 900 (Caption.end_ms cap - Caption.start_ms cap));
        [lia | reflexivity]. }
    rewrite E. destruct prev as [p|]; [|reflexivity].
    cbn [option_list app] in Hadj. apply adjacent_cons in Hadj.
    destruct Hadj as [Hp _].
    destruct (Z.ltb_spec (Caption.start_ms cap) (Caption.end_ms p)); [lia|].
    reflexivity.
  - cbn [option_list app]. destruct prev as [p|]; cbn [option_list app] in Hadj.
    + apply adjacent_cons in Hadj. apply Hadj.
    + exact Hadj.
Qed.

(** X4: the captions grouped from the timestamps of any generated
    voice-over pass the caption gate against the duration of that
    voice-over: at most three words each, none longer than 900 ms, no
    overlap, and none ending after the audio. *)
Theorem captions_of_voiceover_pass_gate (scriptData : Audio.ScriptData) :
  Audio.allText scriptData <> [] ->
  exists caps,
    Caption.generateTimeline (Audio.timestamps (Audio.generateVoiceover scriptData))
    = Some caps
    /\ CaptionValidator.validate caps
         (Audio.duration_ms (Audio.generateVoiceover scriptData))
       = {| CaptionValidator.isValid := true; CaptionValidator.errors := [] |}.
Proof.
  intros Htext.
  pose proof (voiceover_paced scriptData) as [Hwords _].
  pose proof (voiceover_well_timed scriptData) as (_ & Horder & Hbound).
  assert (Hne : Audio.timestamps (Audio.generateVoiceover scriptData) <> []).
  { intros H. apply voiceover_timestamps_nil in H. contradiction. }
  set (D := Audio.duration_ms (Audio.generateVoiceover scriptData)) in *.
  set (ts := Audio.timestamps (Audio.generateVoiceover scriptData)) in *.
  destruct (caption_loop_spec ts (length ts) 0 [] [] []
              eq_refl Hne ltac:(constructor) ltac:(constructor)
              ltac:(cbn; lia) ltac:(cbn; lia) (adjacent_singleton _ _)
              ltac:(reflexivity))
    as (gs & caps & cur & E & Hcaps & Hgs & _ & Hcat).
  cbn [concat app] in Hcat.
  exists caps. unfold Caption.generateTimeline. fold ts. rewrite E.
  split; [reflexivity|].
  rewrite <- Hcat in Hwords, Hbound, Horder.
  apply Forall_concat in Hwords, Hbound.
  assert (Hfine : Forall (fun c =>
            (length (JS.split_ws (Caption.text c)) <= 3)%nat
            /\ Caption.end_ms c - Caption.start_ms c <= 900
            /\ Caption.end_ms c <= D) caps).
  { apply (Forall2_Forall_r _
             (fun g => Shape.group_ok g /\ Forall Shape.word_ok g
                       /\ Forall (fun t => Word.end_ms t <= D) g) _ _ _ Hcaps).
    - apply Forall_forall. intros g Hg.
      pose proof (proj1 (Forall_forall _ _) Hgs g Hg).
      pose proof (proj1 (Forall_forall _ _) Hwords g Hg).
      pose proof (proj1 (Forall_forall _ _) Hbound g Hg). auto.
    - intros g c Hc (Hok & Hw & Hb). eapply caption_of_fine; eauto. }
  assert (Hadj : Shape.adjacent
            (fun c d => Caption.end_ms c <= Caption.start_ms d) caps).
  { eapply (adjacent_Forall2 _ _ _ _ _ Hcaps).
    - apply (adjacent_concat _ gs Horder).
      eapply Forall_impl; [exact Hgs|]. intros g [Hlen _] ->. cbn in Hlen. lia.
    - intros g h c d Hc Hd Hgh.
      destruct (caption_of_fields g c Hc) as (fc & Hfc & _ & _ & Hend).
      destruct (caption_of_fields h d Hd) as (fd & Hfd & _ & Hstart & _).
      rewrite Hend, Hstart. apply Hgh; [|exact Hfd].
      apply last_default_snoc. intros ->. discriminate. }
  unfold CaptionValidator.validate. destruct caps as [|first caps'].
  - inversion Hcaps; subst. rewrite <- Hcat in Hne. cbn in Hne. congruence.
  - rewrite forEach_nil.
    + cbn [app].
      pose proof (last_default_Forall _ (first :: caps') first
                    ltac:(discriminate) Hfine) as (_ & _ & Hlast).
      destruct (Z.ltb_spec (D + 100)
                  (Caption.end_ms (List.last (first :: caps') first))); [lia|].
      reflexivity.
    + eapply Forall_impl; [exact Hfine|]. intros c (H1 & H2 & _). auto.
    + exact Hadj.
Qed.

Lemma captions_of_voiceover_pass_gate_witness :
  Audio.allText (Audio.Obj (Some "Stop scrolling now") (Some ["but never dogs"])
                   (Some "the end")) <> []
  /\ exists caps,
       Caption.generateTimeline
         (Audio.timestamps
            (Audio.generateVoiceover
               (Audio.Obj (Some "Stop scrolling now") (Some ["but never dogs"])
                  (Some "the end"))))
       = Some caps
       /\ CaptionValidator.validate caps
            (Audio.duration_ms
               (Audio.generateVoiceover
                  (Audio.Obj (Some "Stop scrolling now") (Some ["but never dogs"])
                     (Some "the end"))))
          = {| CaptionValidator.isValid := true; CaptionValidator.errors := [] |}.
Proof.
  split; [discriminate|].
  apply captions_of_voiceover_pass_gate. discriminate.
Defined.

(** ** The pacing gate and the final audit *)

Lemma words_pushed m words : forall st,
  length (Audio.pushed (fold_left (Audio.wordStep m) words st))
  = (length (Audio.pushed st) + length words)%nat.
Proof.
  induction words as [|w words IH]; intros st; cbn [fold_left length].
  - lia.
  - rewrite IH. unfold Audio.wordStep. cbn [Audio.pushed].
    rewrite length_app. cbn [length]. lia.
Qed.

(** A scene is voiced as one section: one timestamp per token. *)
Lemma scene_word_count (text : string) :
  length (Audio.timestamps (Audio.generateVoiceover (Audio.Text text)))
  = length (JS.split_ws text).
Proof.
  unfold Audio.generateVoiceover.
  cbn [Audio.timestamps Audio.allText length Audio.sections].
  unfold Audio.sectionStep. cbn [Nat.ltb Nat.leb Nat.eqb].
  rewrite words_pushed. reflexivity.
Qed.

Lemma filter_length_le {A} (p : A -> bool) (l : list A) :
  (length (List.filter p l) <= length l)%nat.
Proof.
  induction l as [|x l IH]; cbn [List.filter length]; [lia|].
  destruct (p x); cbn [length]; lia.
Qed.

(** X5: the pacing gate flags the voice-over of every text of fewer than
    twelve words that neither starts nor ends with white space, and of
    every text of fewer than ten words, whatever the words are: such a text
    is voiced with fewer than twelve time stamps, which cannot reach 2.8
    words per second over the first four seconds. *)
Theorem pacing_flags_short_scene (text : string) :
  (Words.count text < 10)%nat
  \/ ((Words.count text < 12)%nat
      /\ Words.leading text = false /\ Words.trailing text = false) ->
  QCS.isValid (QCS.validatePacing (Audio.generateVoiceover (Audio.Text text)))
  = false.
Proof.
  intros Hwords.
  assert (Hlen : (length (Audio.timestamps
                    (Audio.generateVoiceover (Audio.Text text))) < 12)%nat).
  { rewrite scene_word_count. fold (QC.pieces text). rewrite pieces_words.
    unfold Words.margins.
    destruct Hwords as [H | (H & Hl & Ht)].
    - destruct (Words.isEmpty text || Words.leading text);
        destruct (Words.trailing text); lia.
    - rewrite Hl, Ht, orb_false_r.
      destruct text; cbn [Words.isEmpty]; [cbn in *|]; lia. }
  unfold QCS.validatePacing.
  set (ts := Audio.timestamps (Audio.generateVoiceover (Audio.Text text))) in *.
  assert (Hcount : (QCS.hookWordsCount ts <= 11)%nat).
  { unfold QCS.hookWordsCount. pose proof (filter_length_le
      (fun t => Word.start_ms t <? 4000) ts). lia. }
  destruct (Qle_bool 2.8 _) eqn:E; [|reflexivity].
  apply Qle_bool_iff in E. exfalso.
  assert (Hq : (inject_Z (Z.of_nat (QCS.hookWordsCount ts)) <= 11)%Q).
  { change 11%Q with (inject_Z 11). rewrite <- Zle_Qle. lia. }
  set (n := inject_Z (Z.of_nat (QCS.hookWordsCount ts))) in *.
  assert (Hdiv : (n / (4000 / 1000) == n * (1 # 4))%Q) by (field; discriminate).
  rewrite Hdiv in E. lra.
Qed.

Lemma pacing_flags_short_scene_witness :
  Words.count "Most people think coffee wakes you, but it only blocks adenosine"
  = 11%nat
  /\ QCS.isValid
       (QCS.validatePacing
          (Audio.generateVoiceover
             (Audio.Text
                "Most people think coffee wakes you, but it only blocks adenosine")))
     = false.
Proof.
  split; [reflexivity|].
  apply pacing_flags_short_scene. right. vm_compute. split_and!; [lia | | ]; reflexivity.
Defined.

(** Eleven words and a space after them are voiced with twelve time stamps,
    and pass. *)
Example pacing_passes_padded_scene :
  let text := "Go to bed at ten or you pay for it all " in
  Words.count text = 11%nat
  /\ length (Audio.timestamps (Audio.generateVoiceover (Audio.Text text))) = 12%nat
  /\ QCS.validatePacing (Audio.generateVoiceover (Audio.Text text))
     = {| QCS.isValid := true; QCS.errors := [] |}.
Proof. cbn zeta. split_and!; vm_compute; reflexivity. Qed.

Lemma existsb_In {A} (f : A -> bool) (l : list A) (x : A) :
  In x l -> f x = true -> existsb f l = true.
Proof. intros Hx Hf. apply existsb_exists. exists x. auto. Qed.

(** X6: the script that [generateScript] falls back to never passes the
    final audit, whatever the topic, the duration and the timestamps: its
    ending always reads "follow for more", which the last check of the audit
    takes for a polite ending. *)
Theorem fallback_script_never_passes_audit (topic duration_seconds : string)
    (timestamps : list Word.t) :
  exists reason,
    QCS.auditFinalVideo (Scripts._generateScriptFallback topic duration_seconds)
      timestamps
    = Some (QCS.NO_GO reason).
Proof.
  unfold QCS.auditFinalVideo, Scripts._generateScriptFallback.
  cbn [QC.scene_text QC.scenes QC.first_scene head fmap option_fmap option_map
       QC.text QC.hook String.append QC.js_or QC.truthy].
  destruct (negb _ && negb _); [eauto|].
  destruct (QCS.uniformPacing _ _ _); [eauto|].
  destruct (negb _); [eauto|].
  cbn [last QC.text].
  rewrite (existsb_In _ QCS.completionWords "follow for more"); [eauto | |].
  - cbn. auto 10.
  - reflexivity.
Qed.

(** ** The edit plan: what a valid plan is made of *)

(** The stages behind a valid plan. *)
Lemma generateEditPlan_valid_inv inputs plan :
  Editing.generateEditPlan inputs = Editing.Returned (Editing.Valid plan) ->
  exists a c v segs segs' entries entries',
    Editing.audio inputs = Some a
    /\ Editing.captions inputs = Some c
    /\ Editing.visuals inputs = Some v
    /\ Editing._splitAtWordBoundaries (Editing.baseSegments 0 c) (Editing.timestamps a)
       = Editing.Returned segs
    /\ Editing._fillGapsDeterministically
         (Editing._isolateEmphasis segs (Editing.timestamps a)) v
         (Editing.duration_ms a)
       = Editing.Returned segs'
    /\ Editing.attachVisuals v segs' = Editing.Returned entries
    /\ Editing.patternLoop (Z.to_nat (Editing.duration_ms a)) (Editing.duration_ms a) 0
         (map Editing.applyEmphasis entries)
       = Editing.Returned (inr entries')
    /\ Editing._validate entries' (Editing.duration_ms a)
       = ([], Editing.sort_by Editing.e_start_ms entries')
    /\ plan = map Editing.finalize (Editing.sort_by Editing.e_start_ms entries').
Proof.
  unfold Editing.generateEditPlan.
  destruct (Editing.audio inputs) as [a|]; [|discriminate].
  destruct (Editing.captions inputs) as [c|]; [|discriminate].
  destruct (Editing.visuals inputs) as [v|]; [|discriminate].
  destruct (Editing._splitAtWordBoundaries _ _) as [segs | |] eqn:E1;
    cbn [Editing.bind]; try discriminate.
  destruct (Editing._fillGapsDeterministically _ _ _) as [segs' | |] eqn:E2;
    cbn [Editing.bind]; try discriminate.
  destruct (Editing.attachVisuals _ _) as [entries | |] eqn:E3;
    cbn [Editing.bind]; try discriminate.
  destruct (Editing.patternLoop _ _ _ _) as [[e | entries'] | |] eqn:E4;
    cbn [Editing.bind]; try discriminate.
  destruct (Editing._validate entries' _) as [[|e errs] sorted] eqn:E5;
    [|discriminate].
  intros [= <-]. pose proof (validate_nil _ _ _ E5) as (-> & _).
  exists a, c, v, segs, segs', entries, entries'. split_and!; auto.
Qed.

Lemma deterministicPan_moving (clipId : string) :
  In (Editing._deterministicPan clipId) PlanShape.moving.
Proof.
  unfold Editing._deterministicPan, Editing.PANS, PlanShape.moving.
  cbn [length Nat.sub].
  pose proof (Nat.mod_upper_bound (Editing.charCodeSum clipId) 4 ltac:(lia)) as H.
  destruct (Editing.charCodeSum clipId mod 4)%nat as [|[|[|[|n]]]];
    cbn; auto; lia.
Qed.

(** What [attachVisuals] makes of each segment. *)
Lemma attachVisuals_spec visuals segments : forall entries,
  Editing.attachVisuals visuals segments = Editing.Returned entries ->
  Forall2
    (fun s e =>
       Editing.e_start_ms e = Editing.start_ms s
       /\ Editing.e_end_ms e = Editing.end_ms s
       /\ Editing._words e = Editing.words s
       /\ Editing._caption e = Editing.caption s
       /\ Editing.zoom e = Editing.BASE_ZOOM
       /\ Editing.pan e = "none"
       /\ Editing.reason e = Editing.Cut
       /\ exists clip,
            Editing._findVisualForTime visuals (Editing.start_ms s) = Some clip
            /\ Editing.clip_id e = Visual.clip_id clip)
    segments entries.
Proof.
  induction segments as [|s rest IH]; intros entries H;
    cbn [Editing.attachVisuals] in H.
  - inversion H. constructor.
  - destruct (Editing._findVisualForTime visuals (Editing.start_ms s)) as [clip|] eqn:Ef;
      [|discriminate].
    destruct (Editing.attachVisuals visuals rest) as [entries' | |];
      cbn [Editing.bind] in H; try discriminate.
    inversion H; subst. constructor; [|apply IH; reflexivity].
    cbn. split_and!; auto. exists clip. auto.
Qed.

Lemma applyEmphasis_cases (e : Editing.Entry) :
  Editing.zoom e = Editing.BASE_ZOOM ->
  Editing.applyEmphasis e = e \/ Editing.applyEmphasis e = Editing.setEmphasis e.
Proof.
  intros Hz. unfold Editing.applyEmphasis.
  assert (Hset : forall e', e' = e \/ e' = Editing.setEmphasis e ->
    match Editing._caption e' with
    | Some c =>
        if (0 <? length (Caption.emphasis_indices c))%nat
        then if Qeq_bool (Editing.zoom e') Editing.BASE_ZOOM
             then Editing.setEmphasis e' else e'
        else e'
    | None => e'
    end = e
    \/ match Editing._caption e' with
       | Some c =>
           if (0 <? length (Caption.emphasis_indices c))%nat
           then if Qeq_bool (Editing.zoom e') Editing.BASE_ZOOM
                then Editing.setEmphasis e' else e'
           else e'
       | None => e'
       end = Editing.setEmphasis e).
  { intros e' [-> | ->].
    - destruct (Editing._caption e); auto.
      destruct (0 <? _)%nat; auto. destruct (Qeq_bool _ _); auto.
    - cbn [Editing.setEmphasis Editing._caption Editing.zoom].
      destruct (Editing._caption e); auto.
      destruct (0 <? _)%nat; auto. }
  destruct (Editing._words e) as [|w [|w' ws]]; auto.
  destruct (Word.emphasis w); auto.
Qed.

Lemma applyEmphasis_ok visuals (e : Editing.Entry) :
  Editing.zoom e = Editing.BASE_ZOOM -> Editing.pan e = "none" ->
  Editing.reason e = Editing.Cut ->
  PlanShape.shows visuals (Editing.finalize e) ->
  PlanShape.entry_ok visuals (Editing.applyEmphasis e).
Proof.
  intros Hz Hp Hr Hs.
  destruct (applyEmphasis_cases e Hz) as [-> | ->]; split; try exact Hs.
  - unfold PlanShape.transform_ok. cbn. rewrite Hr. auto.
  - unfold PlanShape.transform_ok. cbn. auto.
Qed.

Lemma setInterrupt_ok visuals (e : Editing.Entry) :
  PlanShape.entry_ok visuals e -> Editing.reason e <> Editing.Emphasis ->
  PlanShape.entry_ok visuals (Editing.setInterrupt e).
Proof.
  intros [Ht Hs] Hr. split; [|exact Hs].
  unfold PlanShape.transform_ok in *. cbn in *.
  split_and!; [|reflexivity | apply deterministicPan_moving].
  destruct (Editing.reason e); [apply Ht | congruence | apply Ht].
Qed.

(** The pattern-interrupt loop changes entries by [setInterrupt] only, and
    only entries whose reason is not the emphasis. *)
Lemma patternLoop_Forall (P : Editing.Entry -> Prop) total (fuel : nat) :
  (forall e, P e -> Editing.reason e <> Editing.Emphasis ->
             P (Editing.setInterrupt e)) ->
  forall windowStart entries result,
    Forall P entries ->
    Editing.patternLoop fuel total windowStart entries
    = Editing.Returned (inr result) ->
    Forall P result.
Proof.
  intros Hset. induction fuel as [|fuel IH]; intros windowStart entries result HP Hrun;
    cbn [Editing.patternLoop] in Hrun;
    destruct (windowStart <? total); try discriminate;
    try (inversion Hrun; subst; exact HP).
  destruct (Editing.updateFirst _ _ entries) as [entries'|] eqn:Eu; [|discriminate].
  apply updateFirst_spec in Eu as (l1 & p & l2 & -> & Hp & ->).
  eapply IH; [|exact Hrun].
  apply Forall_app in HP as [H1 H2]. inversion H2; subst.
  apply Forall_app. split; [exact H1|]. constructor; [|assumption].
  apply Hset; [assumption|].
  unfold Editing.isCandidate in Hp. apply andb_true_iff in Hp as [_ Hp].
  intros Hr. rewrite Hr in Hp. discriminate.
Qed.

Lemma valid_plan_entries_ok inputs plan :
  Editing.generateEditPlan inputs = Editing.Returned (Editing.Valid plan) ->
  exists v, Editing.visuals inputs = Some v
    /\ Forall (fun p => PlanShape.transform_ok p /\ PlanShape.shows v p) plan.
Proof.
  intros H.
  destruct (generateEditPlan_valid_inv inputs plan H)
    as (a & c & v & segs & segs' & entries & entries'
        & Ha & Hc & Hv & _ & _ & Hattach & Hloop & _ & ->).
  exists v. split; [exact Hv|].
  assert (H0 : Forall (PlanShape.entry_ok v) (map Editing.applyEmphasis entries)).
  { apply attachVisuals_spec in Hattach.
    apply Forall_map.
    eapply (Forall2_Forall_r _ (fun _ => True) _ _ _ Hattach).
    - apply Forall_forall. auto.
    - intros s e (Hs & _ & _ & _ & Hz & Hp & Hr & clip & Hf & Hid) _.
      apply applyEmphasis_ok; auto.
      exists clip. cbn. rewrite Hs. auto. }
  apply (patternLoop_Forall _ _ _ (setInterrupt_ok v)) in Hloop; [|exact H0].
  apply Forall_map.
  eapply Permutation_Forall; [symmetry; apply sort_by_perm | exact Hloop].
Qed.

(** X7: in every valid plan the transform of a segment goes with its
    reason: a cut has zoom 1.0 and no pan, an emphasis has zoom 1.05 and no
    pan, and a pattern interrupt has zoom 1.0 and the pan drawn from its
    clip id, which is one of left, right, up and down. *)
Theorem plan_transforms_follow_reasons (inputs : Editing.Inputs)
    (plan : list Editing.Planned) :
  Editing.generateEditPlan inputs = Editing.Returned (Editing.Valid plan) ->
  Forall PlanShape.transform_ok plan.
Proof.
  intros H. destruct (valid_plan_entries_ok inputs plan H) as (v & _ & Hall).
  eapply Forall_impl; [exact Hall|]. intros p [Hp _]. exact Hp.
Qed.

Lemma plan_transforms_follow_reasons_witness :
  exists plan,
    Editing.generateEditPlan Editing.demo_inputs
    = Editing.Returned (Editing.Valid plan)
    /\ Forall PlanShape.transform_ok plan.
Proof.
  eexists. split; [vm_compute; reflexivity|].
  apply (plan_transforms_follow_reasons Editing.demo_inputs). reflexivity.
Defined.

(** X8: every segment of a valid plan shows the first clip of the visual
    timeline that is on screen at the start of the segment. *)
Theorem plan_clips_on_screen (inputs : Editing.Inputs)
    (plan : list Editing.Planned) (visuals : list Visual.Clip) :
  Editing.generateEditPlan inputs = Editing.Returned (Editing.Valid plan) ->
  Editing.visuals inputs = Some visuals ->
  Forall (PlanShape.shows visuals) plan.
Proof.
  intros H Hv. destruct (valid_plan_entries_ok inputs plan H) as (v & Hv' & Hall).
  rewrite Hv in Hv'. inversion Hv'; subst v.
  eapply Forall_impl; [exact Hall|]. intros p [_ Hp]. exact Hp.
Qed.

Lemma plan_clips_on_screen_witness :
  exists plan visuals,
    Editing.generateEditPlan Editing.demo_inputs
    = Editing.Returned (Editing.Valid plan)
    /\ Editing.visuals Editing.demo_inputs = Some visuals
    /\ Forall (PlanShape.shows visuals) plan.
Proof.
  eexists. eexists. split; [vm_compute; reflexivity|]. split; [reflexivity|].
  apply (plan_clips_on_screen Editing.demo_inputs); reflexivity.
Defined.

Lemma planGaps_nil total (plan : list Editing.Planned) : forall idx lastEnd,
  Editing.covers lastEnd plan total -> QCS.planGaps idx lastEnd plan = [].
Proof.
  induction plan as [|p rest IH]; intros idx lastEnd H;
    cbn [QCS.planGaps Editing.covers] in *; [reflexivity|].
  destruct H as [Hgap Hrest].
  destruct (Z.ltb_spec 50 (Z.abs (Editing.p_start_ms p - lastEnd))); [lia|].
  cbn [app]. apply (IH _ _ Hrest).
Qed.

(** X9: the edit gate of the quality control accepts every valid plan made
    for an audio of positive duration: the plan is not empty and no segment
    starts more than 50 ms away from the end of the one before. *)
Theorem edit_gate_accepts_valid_plans (inputs : Editing.Inputs)
    (plan : list Editing.Planned) (a : Editing.AudioIn) :
  Editing.generateEditPlan inputs = Editing.Returned (Editing.Valid plan) ->
  Editing.audio inputs = Some a ->
  0 < Editing.duration_ms a ->
  QCS.validateEditPlan plan = {| QCS.isValid := true; QCS.errors := [] |}.
Proof.
  intros H Ha Hpos.
  destruct (generateEditPlan_valid_inv inputs plan H)
    as (a' & c & v & segs & segs' & entries & entries'
        & Ha' & _ & _ & _ & _ & _ & Hloop & Hval & ->).
  rewrite Ha in Ha'. inversion Ha'; subst a'.
  apply validate_nil in Hval as (_ & Hcov & _).
  pose proof (patternLoop_spec (Editing.duration_ms a) _ 0 _ _ ltac:(lia)
                ltac:(intros j Hj; lia) Hloop 0 ltac:(lia) ltac:(lia))
    as (q & Hq & _).
  unfold QCS.validateEditPlan.
  rewrite (planGaps_nil _ _ _ _ Hcov).
  destruct (Editing.sort_by Editing.e_start_ms entries') as [|e sorted] eqn:Es.
  - exfalso. pose proof (sort_by_perm Editing.e_start_ms entries') as Hperm.
    rewrite Es in Hperm. apply Permutation_nil in Hperm. subst entries'.
    destruct Hq.
  - reflexivity.
Qed.

Lemma edit_gate_accepts_valid_plans_witness :
  exists plan,
    Editing.generateEditPlan Editing.demo_inputs
    = Editing.Returned (Editing.Valid plan)
    /\ QCS.validateEditPlan plan = {| QCS.isValid := true; QCS.errors := [] |}.
Proof.
  eexists. split; [vm_compute; reflexivity|].
  apply (edit_gate_accepts_valid_plans Editing.demo_inputs _ Editing.demo_audio);
    [reflexivity | reflexivity | cbn; lia].
Defined.

(** ** Every emphasised word gets a segment of its own *)

Lemma baseSegments_In (c : Caption.t) (caps : list Caption.t) : forall i,
  In c caps ->
  exists s, In s (Editing.baseSegments i caps)
    /\ Editing.start_ms s = Caption.start_ms c
    /\ Editing.end_ms s = Caption.end_ms c.
Proof.
  induction caps as [|c' caps IH]; intros i Hc; [destruct Hc|].
  cbn [Editing.baseSegments]. destruct Hc as [-> | Hc].
  - eexists. split; [left; reflexivity|]. split; reflexivity.
  - destruct (IH (S i) Hc) as (s & Hs & H1 & H2).
    exists s. split; [right; exact Hs | auto].
Qed.

(** A segment of at most 3000 ms is not split: it is given the words that
    lie within it. *)
Lemma split_keeps_short (words : list Word.t) (segments : list Editing.Segment) :
  forall segs s,
    Editing._splitAtWordBoundaries segments words = Editing.Returned segs ->
    In s segments ->
    Editing.end_ms s - Editing.start_ms s <= 3000 ->
    exists s', In s' segs
      /\ Editing.start_ms s' = Editing.start_ms s
      /\ Editing.end_ms s' = Editing.end_ms s
      /\ Editing.words s'
         = Editing._wordsInRange words (Editing.start_ms s) (Editing.end_ms s).
Proof.
  induction segments as [|x rest IH]; intros segs s H Hs Hshort; [destruct Hs|].
  cbn [Editing._splitAtWordBoundaries] in H.
  destruct (if Editing.end_ms x - Editing.start_ms x <=? Editing.MAX_SEGMENT_MS
            then _ else _) as [pieces | |] eqn:Ep;
    cbn [Editing.bind] in H; try discriminate.
  destruct (Editing._splitAtWordBoundaries rest words) as [out | |] eqn:Er;
    cbn [Editing.bind] in H; try discriminate.
  inversion H; subst segs. destruct Hs as [-> | Hs].
  - unfold Editing.MAX_SEGMENT_MS in Ep.
    destruct (Z.leb_spec (Editing.end_ms s - Editing.start_ms s) 3000); [|lia].
    inversion Ep; subst pieces.
    eexists. split; [apply in_or_app; left; left; reflexivity|].
    cbn. auto.
  - destruct (IH out s eq_refl Hs Hshort) as (s' & Hin & Hrest).
    exists s'. split; [apply in_or_app; right; exact Hin | exact Hrest].
Qed.

Lemma isolateWords_emphasis (s : Editing.Segment) (words : list Word.t)
    (w : Word.t) (ws : list Word.t) : forall cursor,
  In w ws -> Word.emphasis w = true ->
  exists t, In t (fst (Editing.isolateWords s words cursor ws))
    /\ Editing.start_ms t = Word.start_ms w
    /\ Editing.end_ms t = Word.end_ms w
    /\ Editing.words t = [w].
Proof.
  induction ws as [|x ws IH]; intros cursor Hw He; [destruct Hw|].
  cbn [Editing.isolateWords]. destruct Hw as [-> | Hw].
  - rewrite He.
    destruct (Editing.isolateWords s words (Word.end_ms w) ws) as [rest final].
    eexists. split; [cbn [fst]; apply in_or_app; right; left; reflexivity|].
    cbn. auto.
  - destruct (Word.emphasis x).
    + destruct (IH (Word.end_ms x) Hw He) as (t & Ht & Hrest).
      destruct (Editing.isolateWords s words (Word.end_ms x) ws) as [rest final].
      exists t. split; [|exact Hrest].
      cbn [fst] in *. apply in_or_app. right. right. exact Ht.
    + apply IH; assumption.
Qed.

Lemma isolateOne_emphasis (s : Editing.Segment) (words : list Word.t) (w : Word.t) :
  In w (Editing.words s) -> Word.emphasis w = true ->
  exists t, In t (Editing.isolateOne s words)
    /\ Editing.start_ms t = Word.start_ms w
    /\ Editing.end_ms t = Word.end_ms w
    /\ Editing.words t = [w].
Proof.
  intros Hw He. unfold Editing.isolateOne.
  destruct (List.filter Word.emphasis (Editing.words s)) as [|e es] eqn:Ef.
  - exfalso. assert (Hin : In w (List.filter Word.emphasis (Editing.words s)))
      by (apply filter_In; auto).
    rewrite Ef in Hin. destruct Hin.
  - destruct (isolateWords_emphasis s words w (Editing.words s)
                (Editing.start_ms s) Hw He) as (t & Ht & Hrest).
    destruct (Editing.isolateWords s words (Editing.start_ms s) (Editing.words s))
      as [out cursor].
    exists t. split; [|exact Hrest]. cbn [fst] in Ht.
    destruct (cursor <? Editing.end_ms s); [apply in_or_app; left|]; exact Ht.
Qed.

Lemma fillLoop_keeps visuals (segments : list Editing.Segment) :
  forall expected idx out final t,
    Editing.fillLoop visuals segments expected idx = Editing.Returned (out, final) ->
    In t segments -> In t out.
Proof.
  induction segments as [|s rest IH]; intros expected idx out final t H Ht;
    [destruct Ht|].
  cbn [Editing.fillLoop] in H.
  destruct (if expected + 20 <? Editing.start_ms s then _ else _)
    as [fillers | |]; cbn [Editing.bind] in H; try discriminate.
  destruct (Editing.fillLoop visuals rest (Editing.end_ms s) (snd fillers))
    as [[out' final'] | |] eqn:Er; cbn [Editing.bind] in H; try discriminate.
  inversion H; subst. cbn [fst]. apply in_or_app. right.
  destruct Ht as [-> | Ht]; [left; reflexivity | right].
  eapply IH; eauto.
Qed.

Lemma fillGaps_keeps segments visuals total out t :
  Editing._fillGapsDeterministically segments visuals total = Editing.Returned out ->
  In t segments -> In t out.
Proof.
  unfold Editing._fillGapsDeterministically. intros H Ht.
  destruct (Editing.fillLoop visuals _ 0 0) as [[out' expected] | |] eqn:El;
    cbn [Editing.bind] in H; try discriminate.
  assert (Hin : In t out').
  { eapply fillLoop_keeps; [exact El|].
    eapply Permutation_in; [symmetry; apply sort_by_perm | exact Ht]. }
  destruct (expected <? total - 20).
  - destruct (Editing.fillGap _ _ _ _ _ _ _) as [tail | |];
      cbn [Editing.bind] in H; try discriminate.
    inversion H; subst. apply in_or_app. left. exact Hin.
  - inversion H; subst. exact Hin.
Qed.

Lemma Forall2_In_l {A B} (P : A -> B -> Prop) (l : list A) (k : list B) (x : A) :
  Forall2 P l k -> In x l -> exists y, In y k /\ P x y.
Proof.
  induction 1 as [|a b l k Hab _ IH]; intros Hx; [destruct Hx|].
  destruct Hx as [-> | Hx].
  - exists b. split; [left; reflexivity | exact Hab].
  - destruct (IH Hx) as (y & Hy & HP). exists y. split; [right; exact Hy | exact HP].
Qed.

Lemma applyEmphasis_word (e : Editing.Entry) (w : Word.t) :
  Editing._words e = [w] -> Word.emphasis w = true ->
  Editing.applyEmphasis e = Editing.setEmphasis e.
Proof.
  intros Hw He. unfold Editing.applyEmphasis. rewrite Hw, He.
  cbn [Editing.setEmphasis Editing._caption Editing.zoom].
  destruct (Editing._caption e); [|reflexivity].
  destruct (0 <? _)%nat; reflexivity.
Qed.

(** The pattern-interrupt loop leaves the emphasis entries as they are. *)
Lemma patternLoop_keeps_emphasis total (fuel : nat) (e : Editing.Entry) :
  Editing.reason e = Editing.Emphasis ->
  forall windowStart entries result,
    In e entries ->
    Editing.patternLoop fuel total windowStart entries
    = Editing.Returned (inr result) ->
    In e result.
Proof.
  intros He. induction fuel as [|fuel IH]; intros windowStart entries result Hin Hrun;
    cbn [Editing.patternLoop] in Hrun;
    destruct (windowStart <? total); try discriminate;
    try (inversion Hrun; subst; exact Hin).
  destruct (Editing.updateFirst _ _ entries) as [entries'|] eqn:Eu; [|discriminate].
  apply updateFirst_spec in Eu as (l1 & p & l2 & -> & Hp & ->).
  eapply IH; [|exact Hrun].
  apply in_app_or in Hin as [Hin | [<- | Hin]].
  - apply in_or_app. left. exact Hin.
  - unfold Editing.isCandidate in Hp. rewrite He in Hp.
    apply andb_true_iff in Hp as [_ Hp]. discriminate.
  - apply in_or_app. right. right. exact Hin.
Qed.

(** X10: in a valid plan every emphasised word that lies within a caption
    of at most 3000 ms has a segment of its own: the segment starts and
    ends with the word, zooms to 1.05 and has the reason emphasis. *)
Theorem emphasised_word_is_zoomed (inputs : Editing.Inputs)
    (plan : list Editing.Planned) (a : Editing.AudioIn) (caps : list Caption.t)
    (c : Caption.t) (w : Word.t) :
  Editing.generateEditPlan inputs = Editing.Returned (Editing.Valid plan) ->
  Editing.audio inputs = Some a ->
  Editing.captions inputs = Some caps ->
  In c caps ->
  Caption.end_ms c - Caption.start_ms c <= 3000 ->
  In w (Editing.timestamps a) ->
  Word.emphasis w = true ->
  Caption.start_ms c <= Word.start_ms w ->
  Word.end_ms w <= Caption.end_ms c ->
  exists p, In p plan
    /\ Editing.p_start_ms p = Word.start_ms w
    /\ Editing.p_end_ms p = Word.end_ms w
    /\ Editing.p_zoom p = Editing.EMPHASIS_ZOOM
    /\ Editing.p_reason p = Editing.Emphasis.
Proof.
  intros H Ha Hcaps Hc Hshort Hw He Hlo Hhi.
  destruct (generateEditPlan_valid_inv inputs plan H)
    as (a' & c' & v & segs & segs' & entries & entries'
        & Ha' & Hc' & _ & Hsplit & Hfill & Hattach & Hloop & _ & ->).
  rewrite Ha in Ha'. inversion Ha'; subst a'.
  rewrite Hcaps in Hc'. inversion Hc'; subst c'.
  destruct (baseSegments_In c caps 0 Hc) as (s & Hs & Hs1 & Hs2).
  destruct (split_keeps_short _ _ segs s Hsplit Hs ltac:(lia))
    as (s' & Hs' & Hs'1 & Hs'2 & Hwords).
  assert (Hin : In w (Editing.words s')).
  { rewrite Hwords. unfold Editing._wordsInRange. apply filter_In.
    split; [exact Hw|]. apply andb_true_iff. split; [apply Z.leb_le | apply Z.leb_le]; lia. }
  destruct (isolateOne_emphasis s' (Editing.timestamps a) w Hin He)
    as (t & Ht & Ht1 & Ht2 & Ht3).
  assert (Hiso : In t (Editing._isolateEmphasis segs (Editing.timestamps a))).
  { unfold Editing._isolateEmphasis. apply in_concat.
    exists (Editing.isolateOne s' (Editing.timestamps a)).
    split; [|exact Ht].
    exact (in_map (fun s => Editing.isolateOne s (Editing.timestamps a)) segs s' Hs'). }
  pose proof (fillGaps_keeps _ _ _ _ t Hfill Hiso) as Hfilled.
  apply attachVisuals_spec in Hattach.
  destruct (Forall2_In_l _ _ _ t Hattach Hfilled)
    as (e & Hein & He1 & He2 & He3 & _).
  rewrite Ht3 in He3.
  assert (Hemph : In (Editing.setEmphasis e) (map Editing.applyEmphasis entries)).
  { rewrite <- (applyEmphasis_word e w He3 He). apply in_map. exact Hein. }
  pose proof (patternLoop_keeps_emphasis _ _ (Editing.setEmphasis e) eq_refl
                _ _ _ Hemph Hloop) as Hkept.
  exists (Editing.finalize (Editing.setEmphasis e)). split.
  - apply in_map.
    eapply Permutation_in; [symmetry; apply sort_by_perm | exact Hkept].
  - cbn. rewrite He1, He2, Ht1, Ht2. auto.
Qed.

Lemma emphasised_word_is_zoomed_witness :
  exists plan p,
    Editing.generateEditPlan Editing.demo_inputs
    = Editing.Returned (Editing.Valid plan)
    /\ In p plan
    /\ Editing.p_start_ms p = 300 /\ Editing.p_end_ms p = 645
    /\ Editing.p_zoom p = Editing.EMPHASIS_ZOOM
    /\ Editing.p_reason p = Editing.Emphasis.
Proof.
  destruct (Editing.generateEditPlan Editing.demo_inputs) as [[errs | plan] | |] eqn:E;
    try (vm_compute in E; discriminate).
  destruct (emphasised_word_is_zoomed Editing.demo_inputs plan Editing.demo_audio
              [ Caption.mk "a 7" 0 645 [1%nat] Caption.default_style;
                Caption.mk "c" 645 945 [] Caption.default_style ]
              (Caption.mk "a 7" 0 645 [1%nat] Caption.default_style)
              (Word.mk "7" 300 645 true) E eq_refl eq_refl
              ltac:(left; reflexivity) ltac:(cbn; lia)
              ltac:(right; left; reflexivity) eq_refl
              ltac:(cbn; lia) ltac:(cbn; lia))
    as (p & Hp & H1 & H2 & H3 & H4).
  exists plan, p. split_and!; auto.
Defined.

(** ** The strict visual gate *)

Lemma snoc_not_nil {A} (l : list A) (x : A) : l ++ [x] <> [].
Proof. destruct l; discriminate. Qed.

Lemma clipStep_grows st idx clip :
  VisualValidator.found st <> [] ->
  VisualValidator.found (VisualValidator.clipStep st idx clip) <> [].
Proof.
  intros H. unfold VisualValidator.clipStep.
  repeat (case_match; cbn [VisualValidator.found]);
    first [apply snoc_not_nil | exact H].
Qed.

Lemma forEach_grows (timeline : list Visual.Clip) : forall st idx,
  VisualValidator.found st <> [] ->
  VisualValidator.found (VisualValidator.forEach st idx timeline) <> [].
Proof.
  induction timeline as [|clip rest IH]; intros st idx H;
    cbn [VisualValidator.forEach]; [exact H|].
  apply IH, clipStep_grows, H.
Qed.

Lemma nonEmpty_false (s : string) : VisualValidator.nonEmpty s = false <-> s = "".
Proof. destruct s; cbn; split; congruence. Qed.

Lemma clipStep_rejects st idx clip :
  Visual.end_ms clip - Visual.start_ms clip < 800
  \/ 3001 < Visual.end_ms clip - Visual.start_ms clip
  \/ Visual.clip_id clip = "" \/ Visual.file_path clip = "" ->
  VisualValidator.found (VisualValidator.clipStep st idx clip) <> [].
Proof.
  intros Hbad. unfold VisualValidator.clipStep.
  destruct (VisualValidator.nonEmpty (Visual.clip_id clip)) eqn:E1;
    destruct (VisualValidator.nonEmpty (Visual.file_path clip)) eqn:E2;
    cbn [negb orb VisualValidator.found]; try apply snoc_not_nil.
  assert (Hdur : Visual.end_ms clip - Visual.start_ms clip < 800
                 \/ 3001 < Visual.end_ms clip - Visual.start_ms clip).
  { destruct Hbad as [H | [H | [H | H]]]; auto;
      apply nonEmpty_false in H; congruence. }
  cbn zeta.
  destruct (Z.ltb_spec (Visual.end_ms clip - Visual.start_ms clip) 800);
    destruct (Z.ltb_spec 3000 (Visual.end_ms clip - Visual.start_ms clip));
    destruct (Z.ltb_spec 3001 (Visual.end_ms clip - Visual.start_ms clip));
    try lia;
    repeat (case_match; cbn [VisualValidator.found]); apply snoc_not_nil.
Qed.

Lemma forEach_rejects (timeline : list Visual.Clip) (clip : Visual.Clip) :
  forall st idx,
    In clip timeline ->
    Visual.end_ms clip - Visual.start_ms clip < 800
    \/ 3001 < Visual.end_ms clip - Visual.start_ms clip
    \/ Visual.clip_id clip = "" \/ Visual.file_path clip = "" ->
    VisualValidator.found (VisualValidator.forEach st idx timeline) <> [].
Proof.
  induction timeline as [|c rest IH]; intros st idx Hin Hbad; [destruct Hin|].
  cbn [VisualValidator.forEach]. destruct Hin as [-> | Hin].
  - apply forEach_grows, clipStep_rejects, Hbad.
  - apply IH; assumption.
Qed.

(** X11: the strict visual gate rejects every timeline that holds a clip
    shorter than 800 ms, a clip longer than 3001 ms, or a clip without an id
    or a file path. *)
Theorem visual_gate_rejects_bad_clip (timeline : list Visual.Clip)
    (totalDurationMs : Z) (clip : Visual.Clip) :
  In clip timeline ->
  Visual.end_ms clip - Visual.start_ms clip < 800
  \/ 3001 < Visual.end_ms clip - Visual.start_ms clip
  \/ Visual.clip_id clip = "" \/ Visual.file_path clip = "" ->
  VisualValidator.isValid (VisualValidator.validate timeline totalDurationMs) = false.
Proof.
  intros Hin Hbad. unfold VisualValidator.validate.
  destruct timeline as [|c rest]; [reflexivity|].
  pose proof (forEach_rejects (c :: rest) clip
                {| VisualValidator.found := []; VisualValidator.usedIds := ∅;
                   VisualValidator.expectedStart := 0 |} 0 Hin Hbad) as Hne.
  cbn zeta. cbn [VisualValidator.isValid].
  destruct (VisualValidator.found _) as [|e errs]; [congruence|].
  repeat case_match; try reflexivity; cbn in *; congruence.
Qed.

Lemma visual_gate_rejects_bad_clip_witness :
  VisualValidator.isValid (VisualValidator.validate [Visual.short_clip] 500) = false.
Proof.
  apply (visual_gate_rejects_bad_clip [Visual.short_clip] 500 Visual.short_clip);
    [left; reflexivity | left; cbn; lia].
Defined.

(** *** The gate accepts what the visual service generates *)

Lemma contiguous_length (tl : list Visual.Clip) : forall from to,
  Visual.contiguous from tl to -> Forall Visual.duration_drawn tl ->
  to - from <= 3001 * Z.of_nat (length tl).
Proof.
  induction tl as [|c tl IH]; intros from to Hc Hd; cbn [Visual.contiguous] in Hc.
  - subst. cbn. lia.
  - destruct Hc as [Hs Hc]. inversion Hd as [|? ? Hdc Hd']; subst.
    specialize (IH _ _ Hc Hd'). unfold Visual.duration_drawn, Visual.MAX_CLIP_MS in Hdc.
    cbn [length]. lia.
Qed.

Lemma forEach_accepts (tl : list Visual.Clip) : forall st idx to,
  VisualValidator.found st = [] ->
  Visual.contiguous (VisualValidator.expectedStart st) tl to ->
  Forall Visual.duration_drawn tl ->
  Forall (fun c => Visual.clip_id c <> "" /\ Visual.file_path c <> "") tl ->
  NoDup (map Visual.clip_id tl) ->
  (forall c, In c tl -> Visual.clip_id c ∉ VisualValidator.usedIds st) ->
  VisualValidator.found (VisualValidator.forEach st idx tl) = []
  /\ VisualValidator.expectedStart (VisualValidator.forEach st idx tl) = to.
Proof.
  induction tl as [|c tl IH]; intros st idx to Hnil Hcont Hdur Hwf Hnd Hfresh;
    cbn [VisualValidator.forEach Visual.contiguous] in *.
  - auto.
  - destruct Hcont as [Hstart Hcont].
    inversion Hdur as [|? ? Hdc Hdur']; subst.
    inversion Hwf as [|? ? [Hid Hpath] Hwf']; subst.
    cbn [map] in Hnd. apply NoDup_cons in Hnd as [Hnotin Hnd].
    assert (Estep : VisualValidator.clipStep st idx c
                    = {| VisualValidator.found := [];
                         VisualValidator.usedIds :=
                           {[ Visual.clip_id c ]} ∪ VisualValidator.usedIds st;
                         VisualValidator.expectedStart := Visual.end_ms c |}).
    { unfold VisualValidator.clipStep, Visual.duration_drawn, Visual.MAX_CLIP_MS in *.
      destruct (VisualValidator.nonEmpty (Visual.clip_id c)) eqn:E1;
        [|apply nonEmpty_false in E1; congruence].
      destruct (VisualValidator.nonEmpty (Visual.file_path c)) eqn:E2;
        [|apply nonEmpty_false in E2; congruence].
      cbn [negb orb]. cbn zeta. rewrite Hnil.
      destruct (Z.ltb_spec (Visual.end_ms c - Visual.start_ms c) 800); [lia|].
      assert (H3001 : (3001 <? Visual.end_ms c - Visual.start_ms c) = false)
        by (apply Z.ltb_ge; lia).
      rewrite H3001.
      destruct (Z.ltb_spec 3000 (Visual.end_ms c - Visual.start_ms c)).
      all: destruct (Z.ltb_spec 20
                  (Z.abs (Visual.start_ms c - VisualValidator.expectedStart st)));
        [lia|].
      all: rewrite bool_decide_eq_false_2 by (apply Hfresh; left; reflexivity).
      all: reflexivity. }
    rewrite Estep. apply IH; cbn [VisualValidator.found VisualValidator.usedIds
                                   VisualValidator.expectedStart]; auto.
    intros d Hd Hin. apply elem_of_union in Hin as [Hin | Hin].
    + apply elem_of_singleton in Hin. apply Hnotin.
      rewrite <- Hin. apply list_elem_of_In, in_map, Hd.
    + apply (Hfresh d); [right; exact Hd | exact Hin].
Qed.

(** A timeline that covers the duration without gaps, with clips of 800 to
    3001 ms, distinct ids and no empty id or path, passes the gate. *)
Lemma visual_gate_accepts (tl : list Visual.Clip) (total : Z) :
  tl <> [] ->
  Visual.contiguous 0 tl total ->
  Forall Visual.duration_drawn tl ->
  Forall (fun c => Visual.clip_id c <> "" /\ Visual.file_path c <> "") tl ->
  NoDup (map Visual.clip_id tl) ->
  VisualValidator.validate tl total
  = {| VisualValidator.isValid := true; VisualValidator.errors := [] |}.
Proof.
  intros Hne Hcont Hdur Hwf Hnd. unfold VisualValidator.validate.
  destruct tl as [|c tl']; [congruence|].
  set (tl := c :: tl') in *.
  destruct (forEach_accepts tl
              {| VisualValidator.found := []; VisualValidator.usedIds := ∅;
                 VisualValidator.expectedStart := 0 |} 0 total
              eq_refl Hcont Hdur Hwf Hnd ltac:(intros; set_solver)) as [Hf He].
  cbn zeta. rewrite Hf, He.
  destruct (Z.ltb_spec 200 (Z.abs (total - total))); [lia|].
  pose proof (contiguous_length tl 0 total Hcont Hdur) as Hlen.
  assert (Hpos : 0 < Z.of_nat (length tl)) by (subst tl; cbn [length]; lia).
  assert (Havg : (inject_Z total / inject_Z (Z.of_nat (length tl)) <= 4000)%Q).
  { apply Qle_shift_div_r.
    - change 0%Q with (inject_Z 0). rewrite <- Zlt_Qlt. exact Hpos.
    - change 4000%Q with (inject_Z 4000). rewrite <- inject_Z_mult, <- Zle_Qle. lia. }
  apply Qle_bool_iff in Havg. rewrite Havg. reflexivity.
Qed.

(** The shape of a generated timeline, as a postcondition. *)
Lemma generateTimeline_shape
    (random : nat -> Random.t)
    (remote : nat -> option string -> option (list Stock.Asset))
    (ensureLocal : nat -> Stock.Asset -> option string)
    (keywords : list string) (totalDurationMs : Z) :
  800 <= totalDurationMs ->
  Visual.safe
    (Visual.generateTimeline random remote ensureLocal keywords totalDurationMs)
    (fun tl => Visual.contiguous 0 tl totalDurationMs
               /\ Forall Visual.duration_drawn tl
               /\ (Visual.reuseEnabled totalDurationMs = false ->
                   NoDup (map Visual.clip_id tl))).
Proof.
  intros Htotal. unfold Visual.generateTimeline.
  eapply safe_bind; [apply safe_prefetch|]. intros _ _.
  destruct (Z.eqb_spec (Z.of_nat (length (Stock.getAllUnusedAssets ∅))) 0);
    [apply safe_throw|].
  apply safe_loop.
  - unfold Visual.MAX_CLIP_MS. lia.
  - unfold Visual.loop_inv. cbn. repeat split; try lia; try constructor;
      try (intros c []).
  - cbn [Visual.currentTimeMs]. lia.
Qed.

(** X12: a timeline that the visual service returns for a duration of at
    least 800 ms that the unique assets can cover, and whose clips all have
    an id and a file path, passes the strict visual gate for that
    duration. *)
Theorem visual_gate_accepts_generated
    (random : nat -> Random.t)
    (remote : nat -> option string -> option (list Stock.Asset))
    (ensureLocal : nat -> Stock.Asset -> option string)
    (keywords : list string) (totalDurationMs : Z) (w w' : Visual.World)
    (tl : list Visual.Clip) :
  800 <= totalDurationMs ->
  Visual.reuseEnabled totalDurationMs = false ->
  Visual.generateTimeline random remote ensureLocal keywords totalDurationMs w
  = Visual.Returned (tl, w') ->
  Forall (fun c => Visual.clip_id c <> "" /\ Visual.file_path c <> "") tl ->
  VisualValidator.validate tl totalDurationMs
  = {| VisualValidator.isValid := true; VisualValidator.errors := [] |}.
Proof.
  intros Htotal Hreuse Hrun Hwf.
  pose proof (generateTimeline_shape random remote ensureLocal keywords
                totalDurationMs Htotal w) as Hshape.
  rewrite Hrun in Hshape. destruct Hshape as (Hcont & Hdur & Hnd).
  apply visual_gate_accepts; auto.
  intros ->. cbn in Hcont. lia.
Qed.

Lemma visual_gate_accepts_generated_witness :
  exists tl w',
    Visual.generateTimeline Visual.demo_random Visual.demo_remote
      Visual.demo_ensureLocal ["money"; "robot"] 5000 Visual.demo_world
    = Visual.Returned (tl, w')
    /\ VisualValidator.validate tl 5000
       = {| VisualValidator.isValid := true; VisualValidator.errors := [] |}.
Proof.
  destruct (Visual.generateTimeline Visual.demo_random Visual.demo_remote
              Visual.demo_ensureLocal ["money"; "robot"] 5000 Visual.demo_world)
    as [[tl w'] | |] eqn:E; try (vm_compute in E; discriminate).
  exists tl, w'. split; [reflexivity|].
  apply (visual_gate_accepts_generated Visual.demo_random Visual.demo_remote
           Visual.demo_ensureLocal ["money"; "robot"] 5000 Visual.demo_world w' tl);
    [lia | reflexivity | exact E |].
  vm_compute in E. inversion E; subst.
  repeat constructor; discriminate.
Defined.

(** ** The visual service never runs short of assets *)

Lemma steady_ret {A} (a : A) (P : A -> Prop) : P a -> Supply.steady (Visual.ret a) P.
Proof. intros H w. exact H. Qed.

Lemma steady_bind {A B} (c : Visual.M A) (k : A -> Visual.M B)
    (P : A -> Prop) (Q : B -> Prop) :
  Supply.steady c P -> (forall a, P a -> Supply.steady (k a) Q) ->
  Supply.steady (Visual.bind c k) Q.
Proof.
  intros Hc Hk w. unfold Visual.bind. specialize (Hc w).
  destruct (c w) as [[a w'] | e |]; [apply Hk; exact Hc | exact Hc | exact Hc].
Qed.

Lemma mock_ids_NoDup : NoDup Supply.mock_ids.
Proof. apply (bool_decide_unpack _). vm_compute. exact I. Qed.

Lemma getAllUnusedAssets_empty : Stock.getAllUnusedAssets ∅ = Stock.MOCK_DB.
Proof.
  unfold Stock.getAllUnusedAssets.
  induction Stock.MOCK_DB as [|a l IH]; cbn [List.filter]; [reflexivity|].
  rewrite bool_decide_eq_false_2 by apply not_elem_of_empty.
  cbn [negb]. rewrite IH. reflexivity.
Qed.

(** With fewer ids in use than there are mock assets, one of them is
    unused. *)
Lemma find_unused_mock (usedIds : gset string) :
  (size usedIds < length Stock.MOCK_DB)%nat ->
  exists a, List.find (Visual.unused usedIds) Stock.MOCK_DB = Some a.
Proof.
  intros Hsize.
  destruct (List.find (Visual.unused usedIds) Stock.MOCK_DB) as [a|] eqn:E;
    [eauto|]. exfalso.
  assert (Hsub : list_to_set Supply.mock_ids ⊆ usedIds).
  { intros x Hx. apply elem_of_list_to_set, list_elem_of_In in Hx.
    unfold Supply.mock_ids in Hx. apply in_map_iff in Hx as (a & <- & Ha).
    pose proof (find_none _ _ E a Ha) as Hu. unfold Visual.unused in Hu.
    apply negb_false_iff, bool_decide_eq_true in Hu. exact Hu. }
  apply subseteq_size in Hsub.
  rewrite size_list_to_set in Hsub by apply mock_ids_NoDup.
  unfold Supply.mock_ids in Hsub. rewrite length_map in Hsub. lia.
Qed.

Section SupplyEnvironment.

Variable random : nat -> Random.t.
Variable remote : nat -> option string -> option (list Stock.Asset).
Variable ensureLocal : nat -> Stock.Asset -> option string.

Lemma steady_Math_random : Supply.steady (Visual.Math_random random) (fun _ => True).
Proof. intros w. exact I. Qed.

Lemma steady_stock_search query :
  Supply.steady (Visual.stock_search remote query) (fun _ => True).
Proof. intros w. exact I. Qed.

Lemma steady_cache_get keyword : Supply.steady (Visual.cache_get keyword) (fun _ => True).
Proof. intros w. exact I. Qed.

Lemma steady_cache_set keyword assets :
  Supply.steady (Visual.cache_set keyword assets) (fun _ => True).
Proof. intros w. exact I. Qed.

Lemma steady_ensureLocalAsset asset :
  Supply.steady (Visual._ensureLocalAsset ensureLocal asset) (fun _ => True).
Proof.
  intros w. unfold Visual._ensureLocalAsset.
  destruct (ensureLocal _ _); [exact I | eauto].
Qed.

Lemma steady_generateTransform :
  Supply.steady (Visual._generateTransform random) (fun _ => True).
Proof.
  unfold Visual._generateTransform.
  eapply steady_bind; [apply steady_Math_random|]. intros r1 _.
  eapply steady_bind with (P := fun _ => True).
  { destruct (Qle_bool _ _); [apply steady_ret; exact I|].
    eapply steady_bind; [apply steady_Math_random|].
    intros; apply steady_ret; exact I. }
  intros z _.
  eapply steady_bind; [apply steady_Math_random|]. intros r3 _.
  eapply steady_bind with (P := fun _ => True).
  { destruct (Qle_bool _ _); [apply steady_ret; exact I|].
    eapply steady_bind; [apply steady_Math_random|].
    intros; apply steady_ret; exact I. }
  intros p _. apply steady_ret. exact I.
Qed.

Lemma steady_prefetchMissing missing :
  Supply.steady (Visual.prefetchMissing remote missing) (fun _ => True).
Proof.
  induction missing as [|kw rest IH]; cbn [Visual.prefetchMissing].
  - apply steady_ret; exact I.
  - eapply steady_bind; [apply steady_stock_search|]. intros l _.
    eapply steady_bind; [apply steady_cache_set|]. intros _ _. exact IH.
Qed.

Lemma steady_prefetch uniqueKeywords :
  Supply.steady (Visual.prefetch remote uniqueKeywords) (fun _ => True).
Proof. intros w. unfold Visual.prefetch. apply steady_prefetchMissing. Qed.

(** While an asset is available, the selection finds one. *)
Lemma steady_selectUniqueAsset keyword usedIds allowReuse lastId :
  Supply.available usedIds allowReuse ->
  Supply.steady
    (Visual._selectUniqueAsset random remote keyword usedIds allowReuse lastId)
    is_Some.
Proof.
  intros Havail. unfold Visual._selectUniqueAsset.
  eapply steady_bind; [apply steady_cache_get|]. intros cached _.
  eapply steady_bind with (P := fun _ => True).
  { destruct cached; [apply steady_ret; exact I|].
    eapply steady_bind; [apply steady_stock_search|]. intros found _.
    eapply steady_bind; [apply steady_cache_set|]. intros _ _.
    apply steady_ret; exact I. }
  intros assets _.
  destruct (List.find (Visual.unused usedIds) assets) as [c|] eqn:E1.
  { apply steady_ret. eauto. }
  unfold Stock.getFallbacks.
  destruct (List.find (Visual.unused usedIds) Stock.MOCK_DB) as [c|] eqn:E2.
  { apply steady_ret. eauto. }
  destruct (Nat.ltb_spec 0 (length (Stock.getAllUnusedAssets usedIds))) as [Hlen | Hlen].
  - eapply steady_bind; [apply steady_Math_random|]. intros r _.
    apply steady_ret. apply lookup_lt_is_Some.
    assert (Hle : (length (Stock.getAllUnusedAssets usedIds) <= 18)%nat)
      by apply (filter_length_le _ Stock.MOCK_DB).
    pose proof (random_index_bounds r
                  (Z.of_nat (length (Stock.getAllUnusedAssets usedIds)))
                  ltac:(lia)). lia.
  - destruct Havail as [-> | Hsize].
    + rewrite getAllUnusedAssets_empty.
      destruct (List.find (fun a => negb _) Stock.MOCK_DB);
        apply steady_ret; [eauto | cbn; eauto].
    + destruct (find_unused_mock usedIds Hsize) as [a Ha]. congruence.
Qed.

End SupplyEnvironment.

Lemma chooseDuration_cases (r : Random.t) (minClipMs remainingTime : Z) :
  800 <= minClipMs <= 3000 -> 0 < remainingTime ->
  let d := Visual.chooseDuration r minClipMs remainingTime in
  d = remainingTime
  \/ (minClipMs <= d /\ 800 <= remainingTime - d)
  \/ (d = remainingTime - 800 /\ 3000 < remainingTime).
Proof.
  intros Hmin Hrem. cbn zeta. unfold Visual.chooseDuration, Visual.MAX_CLIP_MS.
  pose proof (random_scaled_bounds r (3000 - minClipMs + 1) minClipMs
                ltac:(lia) ltac:(lia) ltac:(lia)) as Hs.
  set (c := Random.scaled r (3000 - minClipMs + 1) minClipMs) in *.
  destruct (Z.ltb_spec remainingTime c);
    repeat match goal with
           | |- context [?a <? ?b] => destruct (Z.ltb_spec a b)
           | |- context [?a <=? ?b] => destruct (Z.leb_spec a b)
           end; cbn [andb]; lia.
Qed.

Lemma keywords_cycle_snoc keywords tl c :
  Supply.keywords_cycle keywords tl ->
  Visual.keyword c = Visual.keywordAt keywords (length tl) ->
  Supply.keywords_cycle keywords (tl ++ [c]).
Proof.
  intros H Hc i d Hd.
  destruct (decide (i < length tl)%nat) as [Hlt | Hge].
  - rewrite lookup_app_l in Hd by exact Hlt. apply H, Hd.
  - assert (Hi : (i < length (tl ++ [c]))%nat) by (eapply lookup_lt_Some; eauto).
    rewrite length_app in Hi. cbn [length] in Hi.
    rewrite lookup_app_r in Hd by lia.
    replace (i - length tl)%nat with 0%nat in Hd by lia.
    cbn in Hd. inversion Hd; subst d.
    replace i with (length tl) by lia. exact Hc.
Qed.

Section SupplyLoop.

Variable random : nat -> Random.t.
Variable remote : nat -> option string -> option (list Stock.Asset).
Variable ensureLocal : nat -> Stock.Asset -> option string.
Variables keywords uniqueKeywords : list string.
Variables totalDurationMs minClipMs : Z.
Variable allowReuse : bool.
Hypothesis minClip_bounds : 800 <= minClipMs <= 3000.
Hypothesis enough :
  allowReuse = false ->
  totalDurationMs <= Z.of_nat (length Stock.MOCK_DB) * minClipMs.

Lemma steady_iteration (st : Visual.Loop) :
  Supply.stocked totalDurationMs minClipMs allowReuse st ->
  Supply.tagged keywords st ->
  Visual.currentTimeMs st < totalDurationMs ->
  Supply.steady
    (Visual.iteration random remote ensureLocal keywords uniqueKeywords
       totalDurationMs minClipMs allowReuse st)
    (fun st' => Supply.stocked totalDurationMs minClipMs allowReuse st'
                /\ Supply.tagged keywords st'
                /\ Visual.currentTimeMs st + 1 <= Visual.currentTimeMs st').
Proof.
  intros (Hcur & Hsize & Hstock) [Hidx Hcycle] Hlt. unfold Visual.iteration.
  eapply steady_bind; [apply steady_Math_random|]. intros r _.
  pose proof (chooseDuration_cases r minClipMs
                (totalDurationMs - Visual.currentTimeMs st) minClip_bounds
                ltac:(lia)) as Hd.
  cbn zeta in Hd.
  set (d := Visual.chooseDuration r minClipMs
              (totalDurationMs - Visual.currentTimeMs st)) in *.
  assert (Havail : Supply.available (Visual.usedIds st) allowReuse).
  { unfold Supply.available. destruct allowReuse; [left; reflexivity | right].
    pose proof (enough eq_refl) as Henough.
    destruct Hstock as [Hr | [Hdone | [Hbulk | [_ Hlast]]]];
      [discriminate | lia | | lia].
    assert (Z.of_nat (length (Visual.timeline st)) < Z.of_nat (length Stock.MOCK_DB))
      by nia. lia. }
  eapply steady_bind; [apply steady_selectUniqueAsset; exact Havail|].
  intros o Ho.
  eapply steady_bind with (P := is_Some).
  { destruct o; [apply steady_ret; exact Ho | destruct Ho; discriminate]. }
  intros [asset|] Hsome; [|destruct Hsome; discriminate].
  eapply steady_bind; [apply steady_generateTransform|]. intros tr _.
  eapply steady_bind; [apply steady_ensureLocalAsset|]. intros localPath _.
  apply steady_ret. cbn [Visual.currentTimeMs].
  split; [|split].
  - unfold Supply.stocked.
    cbn [Visual.currentTimeMs Visual.timeline Visual.usedIds].
    rewrite length_app. cbn [length].
    split; [lia|]. split.
    + rewrite size_union_alt, size_singleton.
      assert (size (Visual.usedIds st ∖ {[Stock.id asset]})
              <= size (Visual.usedIds st))%nat
        by (apply subseteq_size, subseteq_difference_l; reflexivity).
      lia.
    + destruct allowReuse; [left; reflexivity | right].
      pose proof (enough eq_refl) as Henough.
      destruct Hd as [Hall | [[Hmin Hrest] | [Hshrink Hlong]]].
      * left. lia.
      * right. left.
        destruct Hstock as [Hr | [Hdone | [Hbulk | [Hlast _]]]];
          [discriminate | lia | nia | lia].
      * right. right. split; [lia|].
        destruct Hstock as [Hr | [Hdone | [Hbulk | [Hlast _]]]];
          [discriminate | lia | | lia].
        assert (Z.of_nat (length (Visual.timeline st) + 1)
                < Z.of_nat (length Stock.MOCK_DB)) by nia.
        lia.
  - split; cbn [Visual.keywordIdx Visual.timeline].
    + rewrite length_app. cbn [length]. lia.
    + apply keywords_cycle_snoc; [exact Hcycle|].
      cbn [Visual.keyword]. rewrite Hidx. reflexivity.
  - destruct Hd as [Hall | [[Hmin Hrest] | [Hshrink Hlong]]]; lia.
Qed.

Lemma steady_loop (fuel : nat) : forall st,
  Supply.stocked totalDurationMs minClipMs allowReuse st ->
  Supply.tagged keywords st ->
  totalDurationMs - Visual.currentTimeMs st <= Z.of_nat fuel ->
  Supply.steady
    (Visual.loop random remote ensureLocal fuel keywords uniqueKeywords
       totalDurationMs minClipMs allowReuse st)
    (Supply.keywords_cycle keywords).
Proof.
  induction fuel as [|fuel IH]; intros st Hstock Htag Hfuel; cbn [Visual.loop];
    destruct (Z.ltb_spec (Visual.currentTimeMs st) totalDurationMs) as [Hlt | Hge];
    try (apply steady_ret; apply Htag).
  - lia.
  - eapply steady_bind; [apply steady_iteration; assumption|].
    intros st' (Hstock' & Htag' & Hadv). apply IH; [assumption | assumption | lia].
Qed.

End SupplyLoop.

Lemma ceil_div_upper (a b : Z) : 0 < b -> a <= b * JS.ceil_div a b.
Proof.
  intros Hb. unfold JS.ceil_div.
  pose proof (Z.mul_div_le (- a) b Hb). lia.
Qed.

Lemma ceil_div_le (a b c : Z) : 0 < b -> a <= b * c -> JS.ceil_div a b <= c.
Proof.
  intros Hb Hle. unfold JS.ceil_div.
  assert (- c <= (- a) / b) by (apply Z.div_le_lower_bound; lia). lia.
Qed.

Lemma steady_generateTimeline
    (random : nat -> Random.t)
    (remote : nat -> option string -> option (list Stock.Asset))
    (ensureLocal : nat -> Stock.Asset -> option string)
    (keywords : list string) (totalDurationMs : Z) :
  Supply.steady
    (Visual.generateTimeline random remote ensureLocal keywords totalDurationMs)
    (Supply.keywords_cycle keywords).
Proof.
  unfold Visual.generateTimeline.
  eapply steady_bind; [apply steady_prefetch|]. intros _ _.
  unfold Visual.reuseEnabled. rewrite getAllUnusedAssets_empty.
  change (Z.of_nat (length Stock.MOCK_DB)) with 18.
  change (18 =? 0) with false. cbn iota. unfold Visual.MAX_CLIP_MS.
  change (Z.max 1 18) with 18.
  apply steady_loop.
  - lia.
  - intros Hreuse. apply Z.ltb_ge in Hreuse.
    change (Z.of_nat (length Stock.MOCK_DB)) with 18.
    pose proof (ceil_div_upper totalDurationMs 18 ltac:(lia)).
    pose proof (ceil_div_le totalDurationMs 18 3000 ltac:(lia) ltac:(lia)).
    lia.
  - unfold Supply.stocked. cbn [Visual.currentTimeMs Visual.usedIds Visual.timeline length].
    split; [lia|]. split; [rewrite size_empty; lia|].
    right. right. left. lia.
  - split; [reflexivity|]. intros i c Hc. discriminate.
  - cbn [Visual.currentTimeMs]. lia.
Qed.

(** X13: whatever the keywords, the duration, the random draws and the
    answers of the stock provider, [generateTimeline] stays within its
    iteration bound and never fails for lack of assets: it throws neither
    "no assets available" nor "ran out of unique visual assets", so the
    only way it can fail is a download that fails. *)
Theorem visual_service_never_short_of_assets
    (random : nat -> Random.t)
    (remote : nat -> option string -> option (list Stock.Asset))
    (ensureLocal : nat -> Stock.Asset -> option string)
    (keywords : list string) (totalDurationMs : Z) (w : Visual.World) :
  match Visual.generateTimeline random remote ensureLocal keywords totalDurationMs w with
  | Visual.Returned _ => True
  | Visual.Thrown e => exists assetId, e = Visual.DownloadFailed assetId
  | Visual.OutOfFuel => False
  end.
Proof.
  pose proof (steady_generateTimeline random remote ensureLocal keywords
                totalDurationMs w) as H.
  destruct (Visual.generateTimeline _ _ _ _ _ _) as [[tl w'] | e |]; auto.
Qed.

(** X14: the clips of a generated timeline carry the keywords in rotation:
    clip [i] has the keyword at position [i] modulo the number of keywords,
    and no keyword when the list of keywords is empty. *)
Theorem visual_timeline_keywords_cycle
    (random : nat -> Random.t)
    (remote : nat -> option string -> option (list Stock.Asset))
    (ensureLocal : nat -> Stock.Asset -> option string)
    (keywords : list string) (totalDurationMs : Z) (w w' : Visual.World)
    (tl : list Visual.Clip) (i : nat) (c : Visual.Clip) :
  Visual.generateTimeline random remote ensureLocal keywords totalDurationMs w
  = Visual.Returned (tl, w') ->
  tl !! i = Some c ->
  Visual.keyword c = Visual.keywordAt keywords i.
Proof.
  intros Hrun Hc.
  pose proof (steady_generateTimeline random remote ensureLocal keywords
                totalDurationMs w) as H.
  rewrite Hrun in H. apply (H i c Hc).
Qed.

Lemma visual_timeline_keywords_cycle_witness :
  exists tl w' c,
    Visual.generateTimeline Visual.demo_random Visual.demo_remote
      Visual.demo_ensureLocal ["money"; "robot"] 5000 Visual.demo_world
    = Visual.Returned (tl, w')
    /\ tl !! 2%nat = Some c
    /\ Visual.keyword c = Some "money".
Proof.
  destruct (Visual.generateTimeline Visual.demo_random Visual.demo_remote
              Visual.demo_ensureLocal ["money"; "robot"] 5000 Visual.demo_world)
    as [[tl w'] | |] eqn:E; try (vm_compute in E; discriminate).
  destruct (tl !! 2%nat) as [c|] eqn:Ec;
    [|vm_compute in E; inversion E; subst; discriminate].
  exists tl, w', c. split_and!; [reflexivity | exact Ec |].
  apply (visual_timeline_keywords_cycle Visual.demo_random Visual.demo_remote
           Visual.demo_ensureLocal ["money"; "robot"] 5000 Visual.demo_world w'
           tl 2 c E Ec).
Defined.

(** ** The queue: first in, first out *)

Lemma createJob_spec jobId now q data :
  Queue.createJob jobId now q data
  = (Jobs.newJob jobId now data,
     {| Queue.jobs := <[jobId := Jobs.newJob jobId now data]> (Queue.jobs q);
        Queue.queue := Queue.queue q ++ [jobId] |}).
Proof.
  unfold Jobs.newJob, Queue.createJob, Queue.enqueue.
  cbn [fst Queue.jobs Queue.queue]. rewrite !lookup_insert_eq.
  cbn. rewrite insert_insert_eq. reflexivity.
Qed.

Lemma createAll_queue reqs : forall q,
  Queue.queue (Jobs.createAll reqs q)
  = Queue.queue q ++ map (fun r => fst (fst r)) reqs.
Proof.
  induction reqs as [|[[jobId now] data] rest IH]; intros q; cbn [Jobs.createAll map].
  - rewrite app_nil_r. reflexivity.
  - rewrite IH, createJob_spec. cbn [snd Queue.queue fst].
    rewrite <- app_assoc. reflexivity.
Qed.

Lemma createAll_other reqs (jobId : string) : forall q,
  ~ In jobId (map (fun r => fst (fst r)) reqs) ->
  Queue.jobs (Jobs.createAll reqs q) !! jobId = Queue.jobs q !! jobId.
Proof.
  induction reqs as [|[[id' now] data] rest IH]; intros q Hnot;
    cbn [Jobs.createAll map fst In] in *; [reflexivity|].
  apply Decidable.not_or in Hnot as [Hne Hnot].
  rewrite IH by exact Hnot. rewrite createJob_spec. cbn [snd Queue.jobs].
  apply lookup_insert_ne. exact Hne.
Qed.

Lemma createAll_jobs reqs : forall q,
  NoDup (map (fun r => fst (fst r)) reqs) ->
  map (fun r => Queue.jobs (Jobs.createAll reqs q) !! fst (fst r)) reqs
  = map (fun r => Some (Jobs.newJob (fst (fst r)) (snd (fst r)) (snd r))) reqs.
Proof.
  induction reqs as [|[[jobId now] data] rest IH]; intros q Hnd;
    cbn [Jobs.createAll map fst snd] in *; [reflexivity|].
  apply NoDup_cons in Hnd as [Hnot Hnd].
  f_equal.
  - rewrite createAll_other by (rewrite <- list_elem_of_In; exact Hnot).
    rewrite createJob_spec. cbn [snd Queue.jobs]. apply lookup_insert_eq.
  - apply IH. exact Hnd.
Qed.

Lemma getNextJob_spec q jobId rest :
  Queue.queue q = jobId :: rest -> jobId <> "" ->
  Queue.getNextJob q
  = (Queue.jobs q !! jobId, {| Queue.jobs := Queue.jobs q; Queue.queue := rest |}).
Proof.
  intros Hq Hne. unfold Queue.getNextJob. rewrite Hq.
  destruct jobId; [congruence | reflexivity].
Qed.

Lemma drain_spec (ids : list string) : forall q rest,
  Queue.queue q = ids ++ rest ->
  Forall (fun i => i <> "") ids ->
  Jobs.drain (length ids) q
  = (map (fun i => Queue.jobs q !! i) ids,
     {| Queue.jobs := Queue.jobs q; Queue.queue := rest |}).
Proof.
  induction ids as [|i ids IH]; intros q rest Hq Hne; cbn [Jobs.drain length map].
  - cbn in Hq. destruct q; cbn in *; subst; reflexivity.
  - inversion Hne as [|? ? Hi Hne']; subst.
    rewrite (getNextJob_spec q i (ids ++ rest) Hq Hi).
    rewrite (IH {| Queue.jobs := Queue.jobs q; Queue.queue := ids ++ rest |} rest
               eq_refl Hne'). reflexivity.
Qed.

(** X15: the queue is first in, first out: after jobs are created with
    distinct, non-empty identifiers on a queue with nothing pending, as many
    calls of [getNextJob] return those jobs in the order of their creation,
    each as it was created (QUEUED, progress 0), and leave nothing
    pending. *)
Theorem queue_is_fifo (q : Queue.t) (reqs : list (string * Z * Queue.JobData)) :
  Queue.queue q = [] ->
  NoDup (map (fun r => fst (fst r)) reqs) ->
  Forall (fun r => fst (fst r) <> "") reqs ->
  fst (Jobs.drain (length reqs) (Jobs.createAll reqs q))
  = map (fun r => Some (Jobs.newJob (fst (fst r)) (snd (fst r)) (snd r))) reqs
  /\ Queue.queue (snd (Jobs.drain (length reqs) (Jobs.createAll reqs q))) = [].
Proof.
  intros Hq Hnd Hne.
  pose proof (createAll_queue reqs q) as Hqueue. rewrite Hq in Hqueue.
  cbn [app] in Hqueue.
  rewrite <- (length_map (fun r => fst (fst r)) reqs).
  rewrite (drain_spec _ (Jobs.createAll reqs q) []
             ltac:(rewrite app_nil_r; exact Hqueue)
             ltac:(apply Forall_map; exact Hne)).
  cbn [fst snd Queue.queue]. split; [|reflexivity].
  rewrite map_map. apply createAll_jobs. exact Hnd.
Qed.

Lemma queue_is_fifo_witness :
  fst (Jobs.drain (length Jobs.demo_requests)
         (Jobs.createAll Jobs.demo_requests Jobs.empty))
  = map (fun r => Some (Jobs.newJob (fst (fst r)) (snd (fst r)) (snd r)))
        Jobs.demo_requests
  /\ Queue.queue
       (snd (Jobs.drain (length Jobs.demo_requests)
               (Jobs.createAll Jobs.demo_requests Jobs.empty))) = [].
Proof.
  apply queue_is_fifo.
  - reflexivity.
  - apply (bool_decide_unpack _). vm_compute. exact I.
  - repeat constructor; discriminate.
Defined.

(** X16: what POST /generate does to the queue.  A request answered with
    400 leaves the queue as it was.  A request answered with 202 adds one
    job: GET /status with the returned id then answers 200 with the job,
    which is QUEUED at progress 0 and carries the topic, duration and tone
    of the request; the id is appended to the pending list, and the status
    of every other id is what it was before. *)
Theorem generate_then_status (stringToNumber : string -> option Q)
    (jobId : string) (now : Z) (q : Queue.t) (body : Routes.Body) :
  let resp := fst (Routes.generate stringToNumber jobId now q body) in
  let q' := snd (Routes.generate stringToNumber jobId now q body) in
  (Routes.code resp = 400%nat /\ q' = q)
  \/ (resp = {| Routes.code := 202;
                Routes.payload := Routes.Accepted jobId (JS.JStr "QUEUED") |}
      /\ (exists job,
            Jobs.status q' jobId = (200%nat, Jobs.Found job)
            /\ Queue.id job = jobId
            /\ Queue.status job = JS.JStr "QUEUED"
            /\ Queue.progress job = JS.JNum 0
            /\ Queue.topic job = Routes.topic body
            /\ Queue.duration_seconds job = Routes.duration_seconds body
            /\ Queue.tone job = Routes.tone body)
      /\ Queue.queue q' = Queue.queue q ++ [jobId]
      /\ forall other, other <> jobId -> Jobs.status q' other = Jobs.status q other).
Proof.
  cbn zeta. unfold Routes.generate.
  destruct (negb (JS.truthy (Routes.topic body)) || _ || _) eqn:Etopic;
    [left; split; reflexivity|].
  destruct (negb (JS.truthy (Routes.duration_seconds body)) || _ || _);
    [left; split; reflexivity|].
  destruct (negb (JS.truthy (Routes.tone body)) || _);
    [left; split; reflexivity|].
  right. rewrite createJob_spec. cbn [fst snd].
  split; [reflexivity|]. split; [|split; [reflexivity|]].
  - eexists. unfold Jobs.status, Queue.getJob. cbn [Queue.jobs].
    rewrite lookup_insert_eq. split; [reflexivity|].
    unfold Jobs.newJob. cbn. split_and!; try reflexivity.
    apply orb_false_iff in Etopic as [Etopic _].
    apply orb_false_iff in Etopic as [Etopic _].
    apply negb_false_iff in Etopic. unfold JS.or. rewrite Etopic. reflexivity.
  - intros other Hne. unfold Jobs.status, Queue.getJob. cbn [Queue.jobs].
    rewrite lookup_insert_ne by congruence. reflexivity.
Qed.

(** ** The retry loop with one key, and transient failures *)

Section RetryBudget.

Variable nkeys : nat.
Variable retries : Z.
Variable model : nat -> nat -> LLM.Answer.

Lemma turns_single_running (n : nat) : forall st st',
  (nkeys <= 1)%nat ->
  LLM.turns nkeys retries model n st = inl st' ->
  LLM.attempt st' = LLM.attempt st + Z.of_nat n
  /\ LLM.calls st' = (LLM.calls st + n)%nat
  /\ ((0 < n)%nat -> LLM.attempt st' <= retries).
Proof.
  induction n as [|n IH]; intros st st' Hkeys Hrun; cbn [LLM.turns] in Hrun.
  - inversion Hrun; subst. split_and!; lia.
  - pose proof (turn_single_key nkeys retries model st Hkeys) as Hturn.
    destruct (LLM.turn nkeys retries model st) as [st1 | out]; [|discriminate].
    destruct Hturn as (Ha & Hlt & Hc).
    destruct (IH st1 st' Hkeys Hrun) as (Ha' & Hc' & Hle).
    split_and!; [lia | lia |]. intros _.
    destruct n as [|n]; [|apply Hle; lia].
    cbn [LLM.turns] in Hrun. inversion Hrun; subst. lia.
Qed.

End RetryBudget.

(** X17: with one key at most and a bound [retries] that is not negative,
    [_callModel] calls the model at most [retries] times and ends: as long
    as the loop is running, the calls made are as many as the turns taken
    and no more than [retries], and after [retries] turns and the final
    test the call has returned or thrown. *)
Theorem single_key_call_budget (nkeys : nat) (retries : Z)
    (model : nat -> nat -> LLM.Answer) :
  (nkeys <= 1)%nat -> 0 <= retries ->
  (forall n st,
     LLM.turns nkeys retries model n LLM.start = inl st ->
     LLM.calls st = n /\ Z.of_nat n <= retries)
  /\ exists out,
       LLM.turns nkeys retries model (S (Z.to_nat retries)) LLM.start = inr out.
Proof.
  intros Hkeys Hretries. split.
  - intros n st Hrun.
    destruct (turns_single_running nkeys retries model n LLM.start st Hkeys Hrun)
      as (Ha & Hc & Hle).
    cbn [LLM.start LLM.attempt LLM.calls] in *. split; [lia|].
    destruct n as [|n]; [lia|]. specialize (Hle ltac:(lia)). lia.
  - apply turns_single_key; [exact Hkeys|]. cbn [LLM.start LLM.attempt]. lia.
Qed.

Lemma single_key_call_budget_witness :
  exists out, LLM.turns 1 3 LLM.always429 4 LLM.start = inr out.
Proof.
  exact (proj2 (single_key_call_budget 1 3 LLM.always429 ltac:(lia) ltac:(lia))).
Defined.

Lemma turns_transient (nkeys : nat) (retries : Z) (model : nat -> nat -> LLM.Answer)
    (k : nat) : forall st,
  (forall i key, (LLM.calls st <= i < LLM.calls st + k)%nat ->
     exists status, model i key = LLM.Failure status
       /\ LLM.nonRetryable status = false /\ LLM.retryable status = true
       /\ LLM.is429 status = false) ->
  LLM.attempt st + Z.of_nat k <= retries ->
  exists st',
    LLM.turns nkeys retries model k st = inl st'
    /\ LLM.attempt st' = LLM.attempt st + Z.of_nat k
    /\ LLM.calls st' = (LLM.calls st + k)%nat
    /\ LLM.backoffs st' = (LLM.backoffs st + k)%nat
    /\ LLM.currentKeyIdx st' = LLM.currentKeyIdx st.
Proof.
  induction k as [|k IH]; intros st Hfail Hle; cbn [LLM.turns].
  - exists st. split_and!; auto; lia.
  - destruct (Hfail (LLM.calls st) (LLM.currentKeyIdx st) ltac:(lia))
      as (status & Hm & H1 & H2 & H3).
    unfold LLM.turn at 1.
    destruct (Z.ltb_spec (LLM.attempt st) retries); [|lia].
    rewrite Hm, H1, H2, H3.
    match goal with |- context [LLM.turns _ _ _ k ?s] =>
      destruct (IH s) as (st' & Hrun & Ha & Hc & Hb & Hk) end.
    + cbn [LLM.calls]. intros i key Hi. apply Hfail. lia.
    + cbn [LLM.attempt]. lia.
    + exists st'. cbn [LLM.attempt LLM.calls LLM.backoffs LLM.currentKeyIdx] in *.
      split_and!; [exact Hrun | lia | lia | lia | exact Hk].
Qed.

(** X18: failures that are retryable and not a quota hit (a 503, a network
    error without status) are retried: when the first [k] calls fail in
    this way, [k] is below [retries] and call [k] answers with a text,
    [_callModel] returns that text, after [k] back-off delays. *)
Theorem transient_failures_are_retried (nkeys : nat) (retries : Z)
    (model : nat -> nat -> LLM.Answer) (k : nat) (text : string) :
  (forall i key, (i < k)%nat ->
     exists status, model i key = LLM.Failure status
       /\ LLM.nonRetryable status = false /\ LLM.retryable status = true
       /\ LLM.is429 status = false) ->
  (forall key, model k key = LLM.Text text) ->
  Z.of_nat k < retries ->
  (exists st, LLM.turns nkeys retries model k LLM.start = inl st
              /\ LLM.backoffs st = k)
  /\ LLM.turns nkeys retries model (S k) LLM.start = inr (LLM.Returns text).
Proof.
  intros Hfail Hok Hlt.
  destruct (turns_transient nkeys retries model k LLM.start
              ltac:(intros i key Hi; apply Hfail; cbn in Hi; lia)
              ltac:(cbn; lia))
    as (st & Hrun & Ha & Hc & Hb & _).
  cbn [LLM.start LLM.attempt LLM.calls LLM.backoffs] in *.
  split; [exists st; split; [exact Hrun | lia]|].
  replace (S k) with (k + 1)%nat by lia.
  assert (Happ : forall a b s,
            LLM.turns nkeys retries model (a + b) s
            = match LLM.turns nkeys retries model a s with
              | inl s' => LLM.turns nkeys retries model b s'
              | inr out => inr out
              end).
  { induction a as [|a IHa]; intros b s; cbn [LLM.turns Nat.add]; [reflexivity|].
    destruct (LLM.turn nkeys retries model s); [apply IHa | reflexivity]. }
  rewrite Happ, Hrun. cbn [LLM.turns]. unfold LLM.turn.
  destruct (Z.ltb_spec (LLM.attempt st) retries); [|lia].
  rewrite Hc. cbn [Nat.add]. rewrite Hok. reflexivity.
Qed.

Lemma transient_failures_are_retried_witness :
  LLM.turns 2 3
    (fun call key => if (call <? 2)%nat then LLM.Failure (LLM.Http 503)
                     else LLM.Text "{}")
    3 LLM.start
  = inr (LLM.Returns "{}").
Proof.
  apply (transient_failures_are_retried 2 3 _ 2 "{}").
  - intros i key Hi. exists (LLM.Http 503).
    destruct i as [|[|i]]; [| |lia]; cbn; auto.
  - reflexivity.
  - lia.
Defined.

(** ** The cleanup service: marks and retention *)

Lemma isJobMarked_In (markedJobs : list string) (jobId : string) :
  Cleanup.isJobMarked markedJobs jobId = true <-> In jobId markedJobs.
Proof.
  unfold Cleanup.isJobMarked. rewrite existsb_exists. split.
  - intros (x & Hx & E). apply String.eqb_eq in E. subst. exact Hx.
  - intros H. exists jobId. split; [exact H | apply String.eqb_refl].
Qed.

Lemma isJobMarked_congr (l l' : list string) (jobId : string) :
  (In jobId l <-> In jobId l') ->
  Cleanup.isJobMarked l jobId = Cleanup.isJobMarked l' jobId.
Proof.
  intros H. destruct (Cleanup.isJobMarked l jobId) eqn:E1;
    destruct (Cleanup.isJobMarked l' jobId) eqn:E2; try reflexivity.
  - apply isJobMarked_In, H, isJobMarked_In in E1. congruence.
  - apply isJobMarked_In, H, isJobMarked_In in E2. congruence.
Qed.

Lemma removeFirst_In (jobId other : string) (l : list string) :
  NoDup l ->
  (In other (Cleanup.removeFirst jobId l) <-> other <> jobId /\ In other l).
Proof.
  induction l as [|m l IH]; intros Hnd; cbn [Cleanup.removeFirst In].
  - tauto.
  - apply NoDup_cons in Hnd as [Hm Hnd]. rewrite list_elem_of_In in Hm.
    destruct (String.eqb_spec m jobId) as [-> | Hne].
    + split; [intros H; split; [intros ->; contradiction | auto]|].
      intros [Hne [Heq | H]]; [congruence | exact H].
    + cbn [In]. rewrite (IH Hnd). split.
      * intros [-> | [H1 H2]]; auto.
      * intros [H1 [-> | H2]]; auto.
Qed.

Lemma removeFirst_NoDup (jobId : string) (l : list string) :
  NoDup l -> NoDup (Cleanup.removeFirst jobId l).
Proof.
  induction l as [|m l IH]; intros Hnd; cbn [Cleanup.removeFirst]; [exact Hnd|].
  pose proof Hnd as Hnd'. apply NoDup_cons in Hnd as [Hm Hnd].
  destruct (String.eqb m jobId); [exact Hnd|].
  apply NoDup_cons. split; [|apply IH; exact Hnd].
  rewrite list_elem_of_In, (removeFirst_In _ _ _ Hnd).
  rewrite list_elem_of_In in Hm. tauto.
Qed.

Lemma removeFirst_snoc (jobId : string) (l : list string) :
  ~ In jobId l -> Cleanup.removeFirst jobId (l ++ [jobId]) = l.
Proof.
  induction l as [|m l IH]; intros Hnot; cbn [Cleanup.removeFirst app].
  - rewrite String.eqb_refl. reflexivity.
  - cbn [In] in Hnot. destruct (String.eqb_spec m jobId); [tauto|].
    rewrite IH by tauto. reflexivity.
Qed.

(** X19: the marks behave as a set.  Starting from a list of marks without
    duplicates, [markJob] and [unmarkJob] keep it free of duplicates; after
    [markJob] the job is marked and after [unmarkJob] it is not; neither
    changes whether another job is marked; each returns whether it changed
    anything; and unmarking a job right after marking it, when it was not
    marked before, restores the list. *)
Theorem marks_behave_as_a_set (markedJobs : list string) (jobId : string) :
  NoDup markedJobs ->
  let marked := Cleanup.markJob markedJobs jobId in
  let unmarked := Cleanup.unmarkJob markedJobs jobId in
  NoDup (snd marked) /\ NoDup (snd unmarked)
  /\ Cleanup.isJobMarked (snd marked) jobId = true
  /\ Cleanup.isJobMarked (snd unmarked) jobId = false
  /\ (forall other, other <> jobId ->
        Cleanup.isJobMarked (snd marked) other = Cleanup.isJobMarked markedJobs other
        /\ Cleanup.isJobMarked (snd unmarked) other
           = Cleanup.isJobMarked markedJobs other)
  /\ fst marked = negb (Cleanup.isJobMarked markedJobs jobId)
  /\ fst unmarked = Cleanup.isJobMarked markedJobs jobId
  /\ (Cleanup.isJobMarked markedJobs jobId = false ->
      Cleanup.unmarkJob (snd marked) jobId = (true, markedJobs)).
Proof.
  intros Hnd. cbn zeta. unfold Cleanup.markJob, Cleanup.unmarkJob.
  destruct (Cleanup.isJobMarked markedJobs jobId) eqn:E; cbn [negb fst snd].
  - apply isJobMarked_In in E as Hin.
    split_and!; auto.
    + apply removeFirst_NoDup, Hnd.
    + destruct (Cleanup.isJobMarked (Cleanup.removeFirst jobId markedJobs) jobId)
        eqn:E'; [|reflexivity].
      apply isJobMarked_In, removeFirst_In in E'; [tauto | exact Hnd].
    + intros other Hne. split; [reflexivity|].
      apply isJobMarked_congr. rewrite (removeFirst_In _ _ _ Hnd). tauto.
    + discriminate.
  - assert (Hnot : ~ In jobId markedJobs).
    { intros Hin. apply isJobMarked_In in Hin. congruence. }
    split_and!; auto.
    + apply NoDup_app. split_and!; [exact Hnd | | apply NoDup_singleton].
      intros x Hx Hx'. apply list_elem_of_singleton in Hx'. subst x.
      apply Hnot, list_elem_of_In, Hx.
    + apply isJobMarked_In, in_or_app. right. left. reflexivity.
    + intros other Hne. split; [|reflexivity].
      apply isJobMarked_congr. rewrite in_app_iff. cbn [In]. split; [|tauto].
      intros [H | [H | []]]; [exact H | congruence].
    + intros _.
      assert (Hm : Cleanup.isJobMarked (markedJobs ++ [jobId]) jobId = true).
      { apply isJobMarked_In, in_or_app. right. left. reflexivity. }
      rewrite Hm, removeFirst_snoc by exact Hnot. reflexivity.
Qed.

Lemma marks_behave_as_a_set_witness :
  Cleanup.isJobMarked (snd (Cleanup.markJob ["abc"] "xyz")) "xyz" = true
  /\ Cleanup.unmarkJob (snd (Cleanup.markJob ["abc"] "xyz")) "xyz" = (true, ["abc"]).
Proof.
  pose proof (marks_behave_as_a_set ["abc"] "xyz"
                ltac:(apply (bool_decide_unpack _); vm_compute; exact I))
    as (_ & _ & H1 & _ & _ & _ & _ & H2).
  split; [exact H1 | apply H2; reflexivity].
Defined.

Lemma isMarked_spec (markedJobs : list string) (filename : string) :
  Cleanup._isMarked markedJobs filename = true <->
  exists jobId pre post,
    In jobId markedJobs /\ filename = (pre ++ jobId ++ post)%string.
Proof.
  unfold Cleanup._isMarked. rewrite existsb_exists. split.
  - intros (jobId & Hin & Hinc). apply includes_spec in Hinc as (pre & post & H).
    exists jobId, pre, post. auto.
  - intros (jobId & pre & post & Hin & H). exists jobId. split; [exact Hin|].
    apply includes_spec. eauto.
Qed.

Lemma fileStep_spec now markedJobs remaining deletedCount file :
  exists keep : bool,
    (keep = true <-> Cleanup.kept now markedJobs file)
    /\ Cleanup.fileStep now markedJobs (remaining, deletedCount) file
       = if keep then (remaining ++ [file], deletedCount)
         else (remaining, S deletedCount).
Proof.
  unfold Cleanup.fileStep, Cleanup.kept, Cleanup.RETENTION_DAYS.
  destruct (Cleanup.isDirectory file) eqn:Ed.
  { exists true. split; [tauto | reflexivity]. }
  destruct (Z.ltb_spec (7 * 24 * 60 * 60 * 1000) (now - Cleanup.mtimeMs file)) as [Hold | Hnew].
  2: { exists true. split; [|reflexivity]. split; auto. }
  destruct (Cleanup._isMarked markedJobs (Cleanup.name file)) eqn:Em.
  { exists true. split; [|reflexivity]. split; [|reflexivity].
    intros _. right. right. left. apply isMarked_spec. exact Em. }
  destruct (Cleanup.unlinkable file) eqn:Eu.
  - exists false. split; [|reflexivity]. split; [discriminate|].
    intros [H | [H | [H | H]]]; try congruence; try lia.
    apply isMarked_spec in H. congruence.
  - exists true. split; [|reflexivity]. split; auto.
Qed.

Lemma files_spec now markedJobs (files : list Cleanup.File) :
  forall remaining deletedCount,
  exists rest deleted,
    fold_left (Cleanup.fileStep now markedJobs) files (remaining, deletedCount)
    = (remaining ++ rest, (deletedCount + deleted)%nat)
    /\ (forall f, In f rest <-> In f files /\ Cleanup.kept now markedJobs f)
    /\ (length rest + deleted = length files)%nat.
Proof.
  induction files as [|file files IH]; intros remaining deletedCount;
    cbn [fold_left].
  - exists [], 0%nat. rewrite app_nil_r, Nat.add_0_r.
    split; [reflexivity|]. split; [|reflexivity]. intros f. cbn. tauto.
  - destruct (fileStep_spec now markedJobs remaining deletedCount file)
      as (keep & Hkeep & ->).
    destruct keep.
    + destruct (IH (remaining ++ [file]) deletedCount) as (rest & deleted & -> & Hin & Hlen).
      exists (file :: rest), deleted. rewrite <- app_assoc. split; [reflexivity|].
      split; [|cbn [length]; lia].
      intros f. cbn [In]. rewrite Hin. split.
      * intros [<- | [H1 H2]]; [|tauto]. split; [auto | apply Hkeep; reflexivity].
      * intros [[<- | H1] H2]; auto.
    + destruct (IH remaining (S deletedCount)) as (rest & deleted & -> & Hin & Hlen).
      exists rest, (S deleted). split; [f_equal; lia|].
      split; [|cbn [length]; lia].
      intros f. rewrite Hin. cbn [In]. split; [tauto|].
      intros [[<- | H1] H2]; [|tauto].
      apply Hkeep in H2. discriminate.
Qed.

(** X20: a cleanup run deletes a file only when it is not a directory, was
    last modified more than seven days ago and has a name that contains no
    marked job id; and it deletes every such file that can be unlinked.  So
    what remains of each directory is what the retention policy keeps, and
    the count goes up by the number of entries that are gone. *)
Theorem cleanup_follows_retention_policy (now : Z) (markedJobs : list string)
    (directories : list (list Cleanup.File)) (deletedCount : nat) :
  let after := Cleanup.runCleanup now markedJobs directories deletedCount in
  Forall2
    (fun files remaining =>
       forall f, In f remaining <-> In f files /\ Cleanup.kept now markedJobs f)
    directories (fst after)
  /\ (snd after + length (concat (fst after))
      = deletedCount + length (concat directories))%nat.
Proof.
  cbn zeta. revert deletedCount.
  induction directories as [|files rest IH]; intros deletedCount;
    cbn [Cleanup.runCleanup].
  - split; [constructor | reflexivity].
  - destruct (files_spec now markedJobs files [] deletedCount)
      as (remaining & deleted & -> & Hin & Hlen).
    cbn [app].
    specialize (IH (deletedCount + deleted)%nat).
    destruct (Cleanup.runCleanup now markedJobs rest (deletedCount + deleted))
      as [others count].
    cbn [fst snd] in *. destruct IH as [Hall Hcount]. split.
    + constructor; [exact Hin | exact Hall].
    + cbn [concat]. rewrite !length_app. lia.
Qed.

(** ** The silent WAV file *)

Lemma le32_decode (v : Z) :
  0 <= v < 2 ^ 32 ->
  v mod 256 + 256 * ((v / 256) mod 256) + 65536 * ((v / 65536) mod 256)
  + 16777216 * ((v / 16777216) mod 256) = v.
Proof.
  intros Hv.
  pose proof (Z.div_mod v 256 ltac:(lia)) as H0.
  pose proof (Z.div_mod (v / 256) 256 ltac:(lia)) as H1.
  pose proof (Z.div_mod (v / 65536) 256 ltac:(lia)) as H2.
  rewrite Z.div_div in H1 by lia. rewrite Z.div_div in H2 by lia.
  change (256 * 256) with 65536 in H1. change (65536 * 256) with 16777216 in H2.
  assert (H3 : (v / 16777216) mod 256 = v / 16777216).
  { apply Z.mod_small. split; [apply Z.div_pos; lia|].
    apply Z.div_lt_upper_bound; lia. }
  lia.
Qed.

Lemma write_at_app (bytes : list Z) (offset : nat) (h t : Wav.Buffer) :
  (offset + length bytes <= length h)%nat ->
  Wav.write_at bytes offset (h ++ t)
  = (fun h' => h' ++ t) <$> Wav.write_at bytes offset h.
Proof.
  intros Hfit. unfold Wav.write_at.
  rewrite length_app.
  destruct (Nat.leb_spec (offset + length bytes) (length h + length t)); [|lia].
  destruct (Nat.leb_spec (offset + length bytes) (length h)); [|lia].
  cbn [fmap option_fmap option_map].
  rewrite take_app_le by lia. rewrite drop_app_le by lia.
  rewrite <- !app_assoc. reflexivity.
Qed.

Lemma numSamples_pos (durationMs sampleRate : Z) :
  1 <= Wav.numSamples durationMs sampleRate.
Proof. unfold Wav.numSamples. lia. Qed.

(** The file is the header followed by the zero samples. *)
Lemma writeSilentWav_bytes (durationMs sampleRate : Z) :
  0 <= sampleRate -> sampleRate * 2 < 2 ^ 32 ->
  36 + Wav.numSamples durationMs sampleRate * 2 < 2 ^ 32 ->
  Wav._writeSilentWav durationMs sampleRate
  = Some (Wav.header sampleRate (Wav.numSamples durationMs sampleRate * 2)
          ++ repeat 0 (Z.to_nat (Wav.numSamples durationMs sampleRate * 2))).
Proof.
  intros Hsr Hrate Hsize. unfold Wav._writeSilentWav.
  pose proof (numSamples_pos durationMs sampleRate) as Hn.
  set (n := Wav.numSamples durationMs sampleRate) in *.
  cbn zeta. change (1 * 2) with 2. change (2 * 8) with 16.
  unfold Wav.alloc. rewrite Z2Nat.inj_add by lia.
  change (Z.to_nat 44) with 44%nat. rewrite repeat_app.
  set (zeros := repeat 0 (Z.to_nat (n * 2))).
  unfold Wav.write, Wav.writeUInt32LE, Wav.writeUInt16LE.
  assert (G1 : (0 <=? 36 + n * 2) && (36 + n * 2 <? 2 ^ 32) = true)
    by (apply andb_true_iff; split; [apply Z.leb_le | apply Z.ltb_lt]; lia).
  assert (G2 : (0 <=? sampleRate) && (sampleRate <? 2 ^ 32) = true)
    by (apply andb_true_iff; split; [apply Z.leb_le | apply Z.ltb_lt]; lia).
  assert (G3 : (0 <=? sampleRate * 2) && (sampleRate * 2 <? 2 ^ 32) = true)
    by (apply andb_true_iff; split; [apply Z.leb_le | apply Z.ltb_lt]; lia).
  assert (G4 : (0 <=? n * 2) && (n * 2 <? 2 ^ 32) = true)
    by (apply andb_true_iff; split; [apply Z.leb_le | apply Z.ltb_lt]; lia).
  rewrite G1, G2, G3, G4.
  change ((0 <=? 16) && (16 <? 2 ^ 32)) with true.
  change ((0 <=? 1) && (1 <? 2 ^ 16)) with true.
  change ((0 <=? 2) && (2 <? 2 ^ 16)) with true.
  change ((0 <=? 16) && (16 <? 2 ^ 16)) with true.
  cbn iota.
  repeat (rewrite write_at_app by (cbn; lia);
          cbn [Wav.write_at length Nat.add Nat.leb take drop app repeat
               list_ascii_of_string map fmap option_fmap option_map
               mbind option_bind Wav.le32 Wav.le16]).
  reflexivity.
Qed.

(** X21: the silent WAV file is well formed.  For a sample rate whose byte
    rate fits 32 bits and a duration whose data fits a RIFF chunk, the
    bytes written are the 44-byte header followed by zero samples only: the
    file starts with RIFF, the chunk size read back from offset 4 is the
    length of the file minus 8, the sample rate read back from offset 24 is
    the one given, the data size read back from offset 40 is the length of
    the file minus 44, and there is at least one sample.  When the chunk
    size does not fit 32 bits the call throws. *)
Theorem silent_wav_is_well_formed (durationMs sampleRate : Z) :
  0 <= sampleRate -> sampleRate * 2 < 2 ^ 32 ->
  let dataSize := Wav.numSamples durationMs sampleRate * 2 in
  (36 + dataSize < 2 ^ 32 ->
   exists buffer,
     Wav._writeSilentWav durationMs sampleRate = Some buffer
     /\ Z.of_nat (length buffer) = 44 + dataSize
     /\ 2 <= dataSize
     /\ take 4 buffer = [82; 73; 70; 70]
     /\ Wav.readUInt32LE buffer 4 = Some (Z.of_nat (length buffer) - 8)
     /\ Wav.readUInt32LE buffer 24 = Some sampleRate
     /\ Wav.readUInt32LE buffer 40 = Some (Z.of_nat (length buffer) - 44)
     /\ drop 44 buffer = repeat 0 (Z.to_nat dataSize))
  /\ (2 ^ 32 <= 36 + dataSize -> Wav._writeSilentWav durationMs sampleRate = None).
Proof.
  intros Hsr Hrate. cbn zeta.
  pose proof (numSamples_pos durationMs sampleRate) as Hn.
  set (n := Wav.numSamples durationMs sampleRate) in *.
  split.
  - intros Hsize. eexists. split; [apply writeSilentWav_bytes; assumption|].
    fold n. set (zeros := repeat 0 (Z.to_nat (n * 2))).
    assert (Hlen : Z.of_nat (length (Wav.header sampleRate (n * 2) ++ zeros))
                   = 44 + n * 2).
    { rewrite length_app. subst zeros. rewrite repeat_length.
      cbn [Wav.header Wav.le32 Wav.le16 app length]. lia. }
    rewrite Hlen.
    split; [reflexivity|]. split; [lia|]. split; [reflexivity|].
    unfold Wav.readUInt32LE.
    cbn [Wav.header Wav.le32 Wav.le16 app take drop].
    rewrite (le32_decode (36 + n * 2)) by lia.
    rewrite (le32_decode sampleRate) by lia.
    rewrite (le32_decode (n * 2)) by lia.
    split_and!; f_equal; lia.
  - intros Hbig. unfold Wav._writeSilentWav. cbn zeta.
    change (1 * 2) with 2. fold n.
    destruct (Wav.write "RIFF" 0 _) as [buffer|]; cbn [mbind option_bind];
      [|reflexivity].
    assert (E : Wav.writeUInt32LE (36 + n * 2) 4 buffer = None).
    { unfold Wav.writeUInt32LE.
      destruct (Z.ltb_spec (36 + n * 2) (2 ^ 32)); [lia|].
      rewrite andb_false_r. reflexivity. }
    rewrite E. reflexivity.
Qed.

Lemma silent_wav_is_well_formed_witness :
  exists buffer,
    Wav._writeSilentWav 4068 16000 = Some buffer
    /\ Wav.numSamples 4068 16000 = 65087
    /\ Z.of_nat (length buffer) = 130218
    /\ Wav.readUInt32LE buffer 4 = Some 130210
    /\ Wav.readUInt32LE buffer 40 = Some 130174.
Proof.
  assert (Hn : Wav.numSamples 4068 16000 = 65087) by (vm_compute; reflexivity).
  destruct (proj1 (silent_wav_is_well_formed 4068 16000 ltac:(lia) ltac:(lia))
              ltac:(rewrite Hn; lia))
    as (buffer & Hw & Hlen & _ & _ & H4 & _ & H40 & _).
  exists buffer. split; [exact Hw|]. split; [exact Hn|].
  rewrite Hn in Hlen.
  split; [lia|]. rewrite H4, H40. split; f_equal; lia.
Defined.

(** ** The stock provider is searched once per keyword *)

Lemma quiet_ret {A} keywords (a : A) : Lookups.quiet keywords (Visual.ret a).
Proof. intros w _. split; reflexivity. Qed.

Lemma quiet_throw {A} keywords e : Lookups.quiet keywords (@Visual.throw A e).
Proof. intros w _. exact I. Qed.

Lemma quiet_bind {A B} keywords (c : Visual.M A) (k : A -> Visual.M B) :
  Lookups.quiet keywords c -> (forall a, Lookups.quiet keywords (k a)) ->
  Lookups.quiet keywords (Visual.bind c k).
Proof.
  intros Hc Hk w Hw. unfold Visual.bind. specialize (Hc w Hw).
  destruct (c w) as [[a w1] | e |]; [|exact I|exact I].
  destruct Hc as [Hcache Hsearch].
  assert (Hw1 : Lookups.warm keywords w1).
  { intros kw Hin. rewrite Hcache. apply Hw, Hin. }
  specialize (Hk a w1 Hw1).
  destruct (k a w1) as [[b w2] | e |]; [|exact I|exact I].
  destruct Hk as [-> ->]. auto.
Qed.

Lemma get_set_mono cache kw results k :
  is_Some (AssetCache.get cache (Some k)) ->
  is_Some (AssetCache.get (AssetCache.set cache (Some kw) results) (Some k)).
Proof.
  destruct kw as [|a s]; [auto|].
  destruct k as [|b t]; [auto|]. cbn [AssetCache.get AssetCache.set].
  intros H. apply lookup_insert_is_Some.
  destruct (decide (JS.toLowerCase (String a s) = JS.toLowerCase (String b t)));
    [left; auto | right; auto].
Qed.

Lemma get_set_same cache kw results :
  kw <> EmptyString ->
  is_Some (AssetCache.get (AssetCache.set cache (Some kw) results) (Some kw)).
Proof.
  destruct kw as [|a s]; [congruence|]. intros _.
  cbn [AssetCache.get AssetCache.set]. rewrite lookup_insert_eq. eauto.
Qed.

Lemma unique_keeps seen keywords kw :
  In kw keywords ->
  existsb (String.eqb kw) seen = true \/ In kw (Visual.unique seen keywords).
Proof.
  revert seen. induction keywords as [|k rest IH]; intros seen Hin; [destruct Hin|].
  cbn [Visual.unique].
  destruct Hin as [-> | Hin].
  - destruct (existsb (String.eqb kw) seen) eqn:E; [left; reflexivity|].
    right. left. reflexivity.
  - destruct (existsb (String.eqb k) seen) eqn:E; [apply IH, Hin|].
    destruct (IH (k :: seen) Hin) as [H | H]; [|right; right; exact H].
    cbn [existsb] in H. apply orb_true_iff in H as [H | H]; [|left; exact H].
    apply String.eqb_eq in H. subst k. right. left. reflexivity.
Qed.

Lemma unique_In keywords kw :
  In kw keywords -> In kw (Visual.unique [] keywords).
Proof.
  intros Hin. destruct (unique_keeps [] keywords kw Hin) as [H | H];
    [discriminate | exact H].
Qed.

Lemma unique_sub seen keywords kw :
  In kw (Visual.unique seen keywords) -> In kw keywords.
Proof.
  revert seen. induction keywords as [|k rest IH]; intros seen; cbn [Visual.unique];
    [auto|].
  destruct (existsb _ seen).
  - intros H. right. eapply IH, H.
  - intros [-> | H]; [left; reflexivity | right; eapply IH, H].
Qed.

Lemma keywordAt_In keywords idx :
  keywords <> [] -> exists kw, Visual.keywordAt keywords idx = Some kw /\ In kw keywords.
Proof.
  intros Hne. unfold Visual.keywordAt.
  destruct keywords as [|k rest] eqn:E; [congruence|]. rewrite <- E.
  assert (Hlt : (idx mod length keywords < length keywords)%nat).
  { apply Nat.mod_upper_bound. subst keywords. cbn [length]. lia. }
  destruct (lookup_lt_is_Some_2 _ _ Hlt) as [kw Hkw].
  exists kw. split; [exact Hkw|].
  apply list_elem_of_In. eapply list_elem_of_lookup_2, Hkw.
Qed.

Section LookupsEnvironment.

Variable random : nat -> Random.t.
Variable remote : nat -> option string -> option (list Stock.Asset).
Variable ensureLocal : nat -> Stock.Asset -> option string.

Lemma quiet_Math_random keywords : Lookups.quiet keywords (Visual.Math_random random).
Proof. intros w _. split; reflexivity. Qed.

Lemma quiet_ensureLocalAsset keywords asset :
  Lookups.quiet keywords (Visual._ensureLocalAsset ensureLocal asset).
Proof.
  intros w _. unfold Visual._ensureLocalAsset.
  destruct (ensureLocal _ _); [split; reflexivity | exact I].
Qed.

Lemma quiet_generateTransform keywords :
  Lookups.quiet keywords (Visual._generateTransform random).
Proof.
  unfold Visual._generateTransform.
  apply quiet_bind; [apply quiet_Math_random|]. intros r1.
  apply quiet_bind.
  { destruct (Qle_bool _ _); [apply quiet_ret|].
    apply quiet_bind; [apply quiet_Math_random|]. intros r2. apply quiet_ret. }
  intros z. apply quiet_bind; [apply quiet_Math_random|]. intros r3.
  apply quiet_bind.
  { destruct (Qle_bool _ _); [apply quiet_ret|].
    apply quiet_bind; [apply quiet_Math_random|]. intros r4. apply quiet_ret. }
  intros p. apply quiet_ret.
Qed.

(** A keyword that the cache knows is selected for without a search. *)
Lemma quiet_selectUniqueAsset keywords kw usedIds allowReuse lastId :
  In kw keywords ->
  Lookups.quiet keywords
    (Visual._selectUniqueAsset random remote (Some kw) usedIds allowReuse lastId).
Proof.
  intros Hin w Hw. unfold Visual._selectUniqueAsset.
  unfold Visual.bind at 1. unfold Visual.cache_get at 1.
  destruct (Hw kw Hin) as [assets Hassets]. rewrite Hassets.
  unfold Visual.bind at 1. unfold Visual.ret at 1.
  assert (Hrest : forall c : Visual.M (option Stock.Asset),
             Lookups.quiet keywords c -> 
             match c w with
             | Visual.Returned (_, w') =>
                 Visual.cache w' = Visual.cache w
                 /\ Visual.searches w' = Visual.searches w
             | _ => True
             end) by (intros c Hc; apply Hc, Hw).
  apply Hrest.
  destruct (List.find _ assets); [apply quiet_ret|].
  destruct (List.find _ Stock.getFallbacks); [apply quiet_ret|].
  destruct (0 <? _)%nat.
  { apply quiet_bind; [apply quiet_Math_random|]. intros r. apply quiet_ret. }
  destruct allowReuse; [|apply quiet_ret].
  destruct (List.find _ _); apply quiet_ret.
Qed.

Lemma quiet_recover keywords uniqueKeywords usedIds allowReuse lastId :
  (forall kw, In kw uniqueKeywords -> In kw keywords) ->
  Lookups.quiet keywords
    (Visual.recover random remote uniqueKeywords usedIds allowReuse lastId).
Proof.
  induction uniqueKeywords as [|kw rest IH]; intros Hsub; cbn [Visual.recover].
  - apply quiet_ret.
  - apply quiet_bind.
    + apply quiet_selectUniqueAsset, Hsub. left. reflexivity.
    + intros [a|]; [apply quiet_ret|]. apply IH. intros k Hk. apply Hsub. right. exact Hk.
Qed.

Lemma quiet_iteration keywords totalDurationMs minClipMs allowReuse st :
  keywords <> [] ->
  Lookups.quiet keywords
    (Visual.iteration random remote ensureLocal keywords
       (Visual.unique [] keywords) totalDurationMs minClipMs allowReuse st).
Proof.
  intros Hne. unfold Visual.iteration.
  apply quiet_bind; [apply quiet_Math_random|]. intros r.
  destruct (keywordAt_In keywords (Visual.keywordIdx st) Hne) as (kw & -> & Hin).
  apply quiet_bind; [apply quiet_selectUniqueAsset, Hin|]. intros asset.
  apply quiet_bind.
  { destruct asset; [apply quiet_ret|]. apply quiet_recover.
    intros k. apply unique_sub. }
  intros [a|]; [|apply quiet_throw].
  apply quiet_bind; [apply quiet_generateTransform|]. intros t.
  apply quiet_bind; [apply quiet_ensureLocalAsset|]. intros p.
  apply quiet_ret.
Qed.

Lemma quiet_loop keywords totalDurationMs minClipMs allowReuse (fuel : nat) :
  keywords <> [] ->
  forall st,
    Lookups.quiet keywords
      (Visual.loop random remote ensureLocal fuel keywords
         (Visual.unique [] keywords) totalDurationMs minClipMs allowReuse st).
Proof.
  intros Hne. induction fuel as [|fuel IH]; intros st; cbn [Visual.loop];
    destruct (_ <? _); try apply quiet_ret.
  - intros w _. exact I.
  - apply quiet_bind; [apply quiet_iteration, Hne|]. exact IH.
Qed.

(** The pre-fetch searches once for each keyword it is given, and the
    cache then answers for each of them that is not the empty string, and
    for every keyword it answered for before. *)
Lemma prefetchMissing_spec (missing : list string) : forall w,
  exists w',
    Visual.prefetchMissing remote missing w = Visual.Returned (tt, w')
    /\ Visual.searches w' = (Visual.searches w + length missing)%nat
    /\ (forall k, is_Some (AssetCache.get (Visual.cache w) (Some k)) ->
                  is_Some (AssetCache.get (Visual.cache w') (Some k)))
    /\ (forall k, In k missing -> k <> EmptyString ->
                  is_Some (AssetCache.get (Visual.cache w') (Some k))).
Proof.
  induction missing as [|kw rest IH]; intros w; cbn [Visual.prefetchMissing].
  - exists w. split_and!; [reflexivity | cbn; lia | auto | intros k []].
  - unfold Visual.bind at 1. unfold Visual.stock_search at 1.
    unfold Visual.bind at 1. unfold Visual.cache_set at 1.
    cbn [Visual.cache Visual.randoms Visual.searches Visual.downloads].
    match goal with |- context [Visual.prefetchMissing remote rest ?w1] =>
      destruct (IH w1) as (w' & Hrun & Hs & Hkeep & Hnew) end.
    cbn [Visual.cache Visual.searches] in Hs, Hkeep.
    exists w'. split_and!.
    + exact Hrun.
    + rewrite Hs. cbn [length]. lia.
    + intros k Hk. apply Hkeep, get_set_mono, Hk.
    + intros k [<- | Hin] Hk; [|apply Hnew; assumption].
      apply Hkeep, get_set_same, Hk.
Qed.

Lemma prefetch_spec (uniqueKeywords : list string) (w : Visual.World) :
  Forall (fun kw => kw <> EmptyString) uniqueKeywords ->
  exists w',
    Visual.prefetch remote uniqueKeywords w = Visual.Returned (tt, w')
    /\ Visual.searches w'
       = (Visual.searches w + length (Lookups.missing w uniqueKeywords))%nat
    /\ Lookups.warm uniqueKeywords w'.
Proof.
  intros Hne. unfold Visual.prefetch.
  destruct (prefetchMissing_spec (Lookups.missing w uniqueKeywords) w)
    as (w' & Hrun & Hs & Hkeep & Hnew).
  exists w'. split_and!; [exact Hrun | exact Hs |].
  intros kw Hin.
  destruct (AssetCache.get (Visual.cache w) (Some kw)) as [assets|] eqn:E.
  - apply Hkeep. rewrite E. eauto.
  - apply Hnew.
    + unfold Lookups.missing. apply filter_In. split; [exact Hin|]. rewrite E. reflexivity.
    + exact (proj1 (Forall_forall _ _) Hne kw ltac:(apply list_elem_of_In; exact Hin)).
Qed.

End LookupsEnvironment.

(** X23: a run of [generateTimeline] on keywords none of which is empty
    searches the stock provider once for each distinct keyword that the
    cache does not know when the run starts, and not again, however many
    clips it makes. *)
Theorem provider_searched_once_per_keyword
    (random : nat -> Random.t)
    (remote : nat -> option string -> option (list Stock.Asset))
    (ensureLocal : nat -> Stock.Asset -> option string)
    (keywords : list string) (totalDurationMs : Z) (w w' : Visual.World)
    (tl : list Visual.Clip) :
  keywords <> [] ->
  Forall (fun kw => kw <> EmptyString) keywords ->
  Visual.generateTimeline random remote ensureLocal keywords totalDurationMs w
  = Visual.Returned (tl, w') ->
  Visual.searches w'
  = (Visual.searches w
     + length (Lookups.missing w (Visual.unique [] keywords)))%nat.
Proof.
  intros Hne Hall Hrun.
  assert (Hu : Forall (fun kw => kw <> EmptyString) (Visual.unique [] keywords)).
  { apply Forall_forall. intros kw Hin.
    apply (proj1 (Forall_forall _ _) Hall), list_elem_of_In.
    eapply unique_sub, list_elem_of_In, Hin. }
  destruct (prefetch_spec remote (Visual.unique [] keywords) w Hu)
    as (w1 & Hpre & Hs & Hwarm).
  unfold Visual.generateTimeline in Hrun. unfold Visual.bind at 1 in Hrun.
  rewrite Hpre in Hrun.
  destruct (_ =? 0); [discriminate|].
  assert (Hw : Lookups.warm keywords w1).
  { intros kw Hin. apply Hwarm, unique_In, Hin. }
  pose proof (quiet_loop random remote ensureLocal keywords totalDurationMs
                (Z.max 800
                   (Z.min (JS.ceil_div totalDurationMs
                             (Z.max 1 (Z.of_nat (length (Stock.getAllUnusedAssets ∅)))))
                      Visual.MAX_CLIP_MS))
                (Visual.reuseEnabled totalDurationMs)
                (Z.to_nat totalDurationMs) Hne
                {| Visual.timeline := []; Visual.currentTimeMs := 0;
                   Visual.usedIds := ∅; Visual.keywordIdx := 0 |} w1 Hw) as Hq.
  cbv zeta in Hrun. rewrite Hrun in Hq. destruct Hq as [_ Hq]. rewrite Hq. exact Hs.
Qed.

Lemma provider_searched_once_per_keyword_witness :
  exists tl w',
    Visual.generateTimeline Visual.demo_random Visual.demo_remote
      Visual.demo_ensureLocal ["money"; "robot"; "money"] 9000 Visual.demo_world
    = Visual.Returned (tl, w')
    /\ length tl = 5%nat
    /\ Visual.searches w' = 2%nat.
Proof.
  destruct (Visual.generateTimeline Visual.demo_random Visual.demo_remote
              Visual.demo_ensureLocal ["money"; "robot"; "money"] 9000
              Visual.demo_world)
    as [[tl w'] | |] eqn:E; try (vm_compute in E; discriminate).
  exists tl, w'. split_and!; [reflexivity | |].
  - vm_compute in E. inversion E. reflexivity.
  - rewrite (provider_searched_once_per_keyword Visual.demo_random Visual.demo_remote
               Visual.demo_ensureLocal ["money"; "robot"; "money"] 9000
               Visual.demo_world w' tl ltac:(discriminate)
               ltac:(repeat constructor; discriminate) E).
    reflexivity.
Defined.

(** ** The job worker *)

Lemma getNextJob_jobs (q q' : Queue.t) (job : option Queue.Job) :
  Queue.getNextJob q = (job, q') -> Queue.jobs q' = Queue.jobs q.
Proof.
  unfold Queue.getNextJob. destruct (Queue.queue q) as [|jobId rest].
  - intros H. inversion H. reflexivity.
  - destruct jobId; intros H; inversion H; reflexivity.
Qed.

Lemma updateJobStatus_is_Some (q : Queue.t) jobId status result progress eta message k :
  is_Some (Queue.jobs q !! k) ->
  is_Some (Queue.jobs (Queue.updateJobStatus q jobId status result progress eta message)
             !! k).
Proof.
  intros Hk. unfold Queue.updateJobStatus.
  destruct (Queue.jobs q !! jobId) as [job|] eqn:E; [|exact Hk].
  cbn [Queue.jobs]. apply lookup_insert_is_Some.
  destruct (decide (jobId = k)); [left; auto | right; auto].
Qed.

Lemma failed_status (q : Queue.t) (jobId : string) :
  is_Some (Queue.jobs q !! jobId) ->
  Queue.status <$> (Queue.jobs (Worker.failed q jobId) !! jobId)
  = Some (JS.JStr "FAILED").
Proof.
  intros [job Hjob]. unfold Worker.failed, Queue.updateJobStatus. rewrite Hjob.
  cbn [Queue.jobs]. rewrite lookup_insert_eq. reflexivity.
Qed.

(** An ending that reads "follow for more" is never given a GO. *)
Lemma polite_ending_not_go (script : QC.Script) (scenes : list QC.Scene)
    (ending : QC.Scene) (timestamps : list Word.t) :
  QC.scenes script = Some scenes ->
  last scenes = Some ending ->
  JS.includes (JS.toLowerCase (QC.text ending)) "follow for more" = true ->
  QCS.auditFinalVideo script timestamps <> Some QCS.GO.
Proof.
  intros Hscenes Hlast Hpolite. unfold QCS.auditFinalVideo.
  destruct (QC.js_or _ _) as [hook|]; [|discriminate].
  destruct (negb _ && negb _); [discriminate|].
  destruct (QCS.uniformPacing _ _ _); [discriminate|].
  rewrite Hscenes.
  destruct (negb _); [discriminate|].
  rewrite Hlast.
  rewrite (existsb_In _ QCS.completionWords "follow for more");
    [discriminate | cbn; auto 10 | exact Hpolite].
Qed.

Section WorkerPipeline.

Variable generateScript : nat -> JS.Json -> JS.Json -> JS.Json -> option QC.Script.
Variable storedScript : Queue.Job -> option QC.Script.
Variable _renderPhase7 : Queue.Job -> Queue.t -> Queue.t.
Variable processScenes : string -> list QC.Scene -> option (list Word.t).
Variable concatSegments : string -> bool.

(** The script loop hands on the first script, of three, that passes the
    gate, if no call before it fails. *)
Lemma scriptLoop_accepts (job : Queue.Job) (script : QC.Script) :
  Worker.scriptLoop generateScript job 3 = Worker.Accepted script
  <-> exists n, Worker.firstAccepted generateScript job n script.
Proof.
  unfold Worker.firstAccepted. cbn [Worker.scriptLoop Nat.sub Nat.eqb].
  split.
  - destruct (generateScript 1%nat _ _ _) as [s1|] eqn:G1; [|discriminate].
    destruct (QC.isValid (QC.validateScript s1)) eqn:V1.
    { intros H. inversion H; subst. exists 1%nat.
      split_and!; [lia | lia | exact G1 | exact V1 | intros m Hm; lia]. }
    destruct (generateScript 2%nat _ _ _) as [s2|] eqn:G2; [|discriminate].
    destruct (QC.isValid (QC.validateScript s2)) eqn:V2.
    { intros H. inversion H; subst. exists 2%nat.
      split_and!; [lia | lia | exact G2 | exact V2 |].
      intros m Hm. assert (m = 1%nat) as -> by lia. eauto. }
    destruct (generateScript 3%nat _ _ _) as [s3|] eqn:G3; [|discriminate].
    destruct (QC.isValid (QC.validateScript s3)) eqn:V3; [|discriminate].
    intros H. inversion H; subst. exists 3%nat.
    split_and!; [lia | lia | exact G3 | exact V3 |].
    intros m Hm. assert (m = 1%nat \/ m = 2%nat) as [-> | ->] by lia; eauto.
  - intros (n & Hn & Hgen & Hvalid & Hbefore).
    assert (n = 1%nat \/ n = 2%nat \/ n = 3%nat) as [-> | [-> | ->]] by lia.
    + rewrite Hgen, Hvalid. reflexivity.
    + destruct (Hbefore 1%nat ltac:(lia)) as (s1 & -> & ->).
      rewrite Hgen, Hvalid. reflexivity.
    + destruct (Hbefore 1%nat ltac:(lia)) as (s1 & -> & ->).
      destruct (Hbefore 2%nat ltac:(lia)) as (s2 & -> & ->).
      rewrite Hgen, Hvalid. reflexivity.
Qed.

(** A script that the loop hands on is one that the generator made. *)
Lemma scriptLoop_generated (job : Queue.Job) (script : QC.Script) :
  Worker.scriptLoop generateScript job 3 = Worker.Accepted script ->
  exists n topic duration_seconds tone,
    generateScript n topic duration_seconds tone = Some script.
Proof.
  intros H. apply scriptLoop_accepts in H as (n & _ & Hgen & _). eauto 6.
Qed.

(** Without a GO of the audit the block ends in the [catch]. *)
Lemma assemble_fails (job : Queue.Job) (script : QC.Script) (q : Queue.t) :
  is_Some (Queue.jobs q !! Queue.id job) ->
  (forall timestamps, QCS.auditFinalVideo script timestamps <> Some QCS.GO) ->
  Queue.status
    <$> (Queue.jobs (Worker.assemble processScenes concatSegments job script q)
           !! Queue.id job)
  = Some (JS.JStr "FAILED").
Proof.
  intros Hjob Haudit. unfold Worker.assemble.
  destruct (QC.scenes script) as [scenes|]; [|apply failed_status, Hjob].
  destruct (processScenes _ scenes) as [timestamps|]; [|apply failed_status, Hjob].
  destruct (concatSegments _).
  - specialize (Haudit timestamps).
    destruct (QCS.auditFinalVideo script timestamps) as [[|reason]|];
      [congruence | |];
      apply failed_status; repeat apply updateJobStatus_is_Some; exact Hjob.
  - apply failed_status, updateJobStatus_is_Some, Hjob.
Qed.

End WorkerPipeline.

(** X24: a call of [processNext] leaves the count of active jobs as it
    found it, except when it serves a dry run: the branch of the dry run
    decrements the count and returns, and the [finally] block decrements it
    again, so that the count ends one below where it started. *)
Theorem dry_run_lowers_active_jobs
    (generateScript : nat -> JS.Json -> JS.Json -> JS.Json -> option QC.Script)
    (storedScript : Queue.Job -> option QC.Script)
    (_renderPhase7 : Queue.Job -> Queue.t -> Queue.t)
    (processScenes : string -> list QC.Scene -> option (list Word.t))
    (concatSegments : string -> bool) (st : Worker.t) :
  let st' :=
    Worker.processNext generateScript storedScript _renderPhase7 processScenes
      concatSegments st in
  (Worker.brainstorms generateScript storedScript st ->
   Worker.activeJobs st' = Worker.activeJobs st - 1)
  /\ (~ Worker.brainstorms generateScript storedScript st ->
      Worker.activeJobs st' = Worker.activeJobs st).
Proof.
  cbn zeta. unfold Worker.brainstorms, Worker.processNext. split.
  - intros (Hcap & job & q & n & script & Hnext & Hready & Hstored & Hdry & Hfirst).
    destruct (Z.leb_spec Worker.MAX_CONCURRENT_JOBS (Worker.activeJobs st)); [lia|].
    rewrite Hnext, Hready, Hstored.
    rewrite (proj2 (scriptLoop_accepts generateScript job script)) by eauto.
    rewrite Hdry. cbn [Worker.activeJobs]. lia.
  - intros Hnot.
    destruct (Z.leb_spec Worker.MAX_CONCURRENT_JOBS (Worker.activeJobs st)) as [|Hcap];
      [reflexivity|].
    destruct (Queue.getNextJob (Worker.jobs st)) as [[job|] q] eqn:Hnext;
      [|reflexivity].
    destruct (Worker.editReady job) eqn:Hready; [cbn [Worker.activeJobs]; lia|].
    destruct (Worker.resultScript storedScript job) as [stored|] eqn:Hstored;
      [cbn [Worker.activeJobs]; lia|].
    destruct (Worker.scriptLoop generateScript job 3) as [script|] eqn:Hloop;
      [|cbn [Worker.activeJobs]; lia].
    destruct (Queue.dry_run job) eqn:Hdry; [|cbn [Worker.activeJobs]; lia].
    exfalso. apply Hnot. split; [exact Hcap|].
    apply scriptLoop_accepts in Hloop as [n Hfirst].
    exists job, q, n, script. auto.
Qed.

Lemma dry_run_lowers_active_jobs_witness :
  let st :=
    Worker.processNext Worker.demo_generateScript Worker.demo_storedScript
      Worker.demo_renderPhase7 Worker.demo_processScenes Worker.demo_concatSegments
      Worker.demo in
  Worker.brainstorms Worker.demo_generateScript Worker.demo_storedScript st
  /\ Worker.activeJobs
       (Worker.processNext Worker.demo_generateScript Worker.demo_storedScript
          Worker.demo_renderPhase7 Worker.demo_processScenes
          Worker.demo_concatSegments st)
     = -1.
Proof.
  cbn zeta.
  set (st := Worker.processNext _ _ _ _ _ Worker.demo).
  assert (Hb : Worker.brainstorms Worker.demo_generateScript
                 Worker.demo_storedScript st).
  { split; [vm_compute; reflexivity|].
    destruct (Queue.getNextJob (Worker.jobs st)) as [[job|] q] eqn:Hnext;
      [|vm_compute in Hnext; discriminate].
    exists job, q, 2%nat, Worker.demo_script.
    assert (Hjob : job = Jobs.newJob "job-b" 1700000000500
                           (Queue.mkJobData (JS.JStr "Coffee") JS.JUndefined
                              (JS.JNum 40) (JS.JStr "dramatic") (JS.JBool true))).
    { vm_compute in Hnext. inversion Hnext. reflexivity. }
    split_and!; [reflexivity | subst job; reflexivity | subst job; reflexivity
                 | subst job; reflexivity |].
    unfold Worker.firstAccepted.
    split_and!; [lia | lia | reflexivity | vm_compute; reflexivity |].
    intros m Hm. assert (m = 1%nat) as -> by lia.
    eexists. split; [reflexivity | vm_compute; reflexivity]. }
  split; [exact Hb|].
  rewrite (proj1 (dry_run_lowers_active_jobs Worker.demo_generateScript
                    Worker.demo_storedScript Worker.demo_renderPhase7
                    Worker.demo_processScenes Worker.demo_concatSegments st) Hb).
  vm_compute. reflexivity.
Defined.

(** X25: while the script generator falls back, the worker produces no
    video: a job that is not a dry run, taken from the queue with no script
    stored, always ends FAILED, for its script is stopped by the gate or,
    at the latest, by the final audit. *)
Theorem fallback_jobs_end_failed
    (generateScript : nat -> JS.Json -> JS.Json -> JS.Json -> option QC.Script)
    (storedScript : Queue.Job -> option QC.Script)
    (_renderPhase7 : Queue.Job -> Queue.t -> Queue.t)
    (processScenes : string -> list QC.Scene -> option (list Word.t))
    (concatSegments : string -> bool)
    (st : Worker.t) (job : Queue.Job) (q : Queue.t) :
  Worker.falls_back generateScript ->
  Worker.activeJobs st < Worker.MAX_CONCURRENT_JOBS ->
  Queue.getNextJob (Worker.jobs st) = (Some job, q) ->
  Queue.jobs q !! Queue.id job = Some job ->
  Worker.editReady job = false ->
  Worker.resultScript storedScript job = None ->
  Queue.dry_run job = false ->
  Queue.status
    <$> (Queue.jobs
           (Worker.jobs
              (Worker.processNext generateScript storedScript _renderPhase7
                 processScenes concatSegments st))
           !! Queue.id job)
  = Some (JS.JStr "FAILED").
Proof.
  intros Hfall Hcap Hnext Hstored Hready Hresult Hdry.
  unfold Worker.processNext.
  destruct (Z.leb_spec Worker.MAX_CONCURRENT_JOBS (Worker.activeJobs st)); [lia|].
  rewrite Hnext, Hready, Hresult.
  assert (Hq : forall s1 r1 p1 e1 m1 s2 r2 p2 e2 m2,
             is_Some (Queue.jobs
                        (Queue.updateJobStatus
                           (Queue.updateJobStatus q (Queue.id job) s1 r1 p1 e1 m1)
                           (Queue.id job) s2 r2 p2 e2 m2)
                        !! Queue.id job)).
  { intros. repeat apply updateJobStatus_is_Some. rewrite Hstored. eauto. }
  destruct (Worker.scriptLoop generateScript job 3) as [script|] eqn:Hloop.
  - rewrite Hdry. cbn [Worker.jobs].
    apply assemble_fails; [apply Hq|].
    intros timestamps.
    apply scriptLoop_generated in Hloop as (n & topic & d & tone & Hgen).
    destruct (Hfall n topic d tone) as (t & d' & Hfb). rewrite Hfb in Hgen.
    inversion Hgen; subst script.
    eapply polite_ending_not_go; [reflexivity | reflexivity | reflexivity].
  - cbn [Worker.jobs]. apply failed_status, Hq.
Qed.

Lemma fallback_jobs_end_failed_witness :
  Queue.status
    <$> (Queue.jobs
           (Worker.jobs
              (Worker.processNext Worker.demo_fallback Worker.demo_storedScript
                 Worker.demo_renderPhase7 Worker.demo_processScenes
                 Worker.demo_concatSegments Worker.demo))
           !! "job-a")
  = Some (JS.JStr "FAILED").
Proof.
  destruct (Queue.getNextJob (Worker.jobs Worker.demo)) as [[job|] q] eqn:Hnext;
    [|vm_compute in Hnext; discriminate].
  assert (Hjob : job = Jobs.newJob "job-a" 1700000000000
                         (Queue.mkJobData (JS.JStr "Sleep") JS.JUndefined
                            (JS.JNum 30) (JS.JStr "neutral") JS.JUndefined)
                 /\ Queue.jobs q !! "job-a" = Some job).
  { vm_compute in Hnext. inversion Hnext. split; reflexivity. }
  destruct Hjob as [Hjob Hq].
  assert (Hid : Queue.id job = "job-a") by (subst job; reflexivity).
  rewrite <- Hid.
  apply (fallback_jobs_end_failed Worker.demo_fallback Worker.demo_storedScript
           Worker.demo_renderPhase7 Worker.demo_processScenes
           Worker.demo_concatSegments Worker.demo job q).
  - intros n topic d tone. exists "Coffee", "30". reflexivity.
  - vm_compute. reflexivity.
  - exact Hnext.
  - rewrite Hid. exact Hq.
  - subst job. reflexivity.
  - subst job. reflexivity.
  - subst job. reflexivity.
Defined.

(** ** The temporary storage *)

Lemma sorted_head_least {A} (key : A -> Z) (x : A) (l : list A) :
  Sorted (fun a b => key a <= key b) (x :: l) ->
  forall y, In y (x :: l) -> key x <= key y.
Proof.
  intros Hs. apply Sorted_StronglySorted in Hs; [|intros a b c; lia].
  inversion Hs as [|? ? _ Hall]; subst.
  intros y [<- | Hy]; [lia|].
  exact (proj1 (List.Forall_forall _ _) Hall y Hy).
Qed.

(** X27: a call of [manageTempStorage] removes one entry at most: none
    while the directory holds no more than the limit, and otherwise the
    oldest of the entries named render_..., and no other, for the update
    of the constant total throws once the first is removed. *)
Theorem temp_storage_drops_oldest_only (files : list Storage.Entry) (removed : string) :
  In removed (Storage.manageTempStorage (Some files)) ->
  Storage.manageTempStorage (Some files) = [removed]
  /\ 2000 * 1024 * 1024 < Storage.totalSize files
  /\ exists folder,
       In folder files
       /\ Storage.name folder = removed
       /\ Storage.isRender folder = true
       /\ forall other, In other files -> Storage.isRender other = true ->
            Storage.mtime folder <= Storage.mtime other.
Proof.
  unfold Storage.manageTempStorage.
  destruct (Qle_bool _ _) eqn:Hsize; cbn [negb]; [intros []|].
  pose proof (sort_by_sorted Storage.mtime (List.filter Storage.isRender files)) as Hs.
  pose proof (sort_by_perm Storage.mtime (List.filter Storage.isRender files)) as Hp.
  destruct (Editing.sort_by Storage.mtime (List.filter Storage.isRender files))
    as [|folder rest]; [intros []|].
  destruct (Storage.removable folder); [|intros []].
  intros [<- | []]. split_and!; [reflexivity | |].
  - assert (H : ~ (inject_Z (Storage.totalSize files) / (1024 * 1024)
                   <= Storage.MAX_TEMP_SIZE_MB)%Q).
    { intros H. apply Qle_bool_iff in H. congruence. }
    apply Z.nle_gt. intros Hle. apply H. unfold Storage.MAX_TEMP_SIZE_MB.
    apply Qle_shift_div_r; [reflexivity|].
    change (2000 * (1024 * 1024))%Q with (inject_Z (2000 * 1024 * 1024)).
    rewrite <- Zle_Qle. exact Hle.
  - assert (Hin : forall f, In f (folder :: rest)
                            <-> In f files /\ Storage.isRender f = true).
    { intros f. rewrite <- filter_In. split; intros Hf.
      - apply list_elem_of_In. rewrite <- Hp. apply list_elem_of_In, Hf.
      - apply list_elem_of_In. rewrite Hp. apply list_elem_of_In, Hf. }
    destruct (proj1 (Hin folder) ltac:(left; reflexivity)) as [Hfiles Hrender].
    exists folder. split_and!; [exact Hfiles | reflexivity | exact Hrender |].
    intros other Hother Hr.
    apply (sorted_head_least Storage.mtime folder rest Hs other).
    apply Hin. auto.
Qed.

Lemma temp_storage_drops_oldest_only_witness :
  Storage.manageTempStorage (Some Storage.demo_dir) = ["render_a"]
  /\ 2000 * 1024 * 1024 < Storage.totalSize Storage.demo_dir - 500000000.
Proof.
  split; [|vm_compute; reflexivity].
  apply (temp_storage_drops_oldest_only Storage.demo_dir "render_a").
  vm_compute. auto.
Defined.

(** ** The caption layer of the renderer *)

Lemma spans_mono captions id from to from' to' :
  CaptionLayer.spans captions id from to -> from <= from' -> to' <= to ->
  CaptionLayer.spans captions id from' to'.
Proof.
  destruct id as [i | k | k]; cbn; auto.
  intros (c & Hc & H1 & H2) Hf Ht. exists c. split_and!; [exact Hc | lia | lia].
Qed.

(** A segment keeps to the span of its caption, and its words to the
    segment. *)
Lemma wordsInRange_inside (words : list Word.t) (from to : Z) :
  Forall (fun w => Word.start_ms w <= Word.end_ms w) words ->
  Forall (fun w => from <= Word.start_ms w /\ Word.end_ms w <= to
                   /\ Word.start_ms w <= Word.end_ms w)
    (Editing._wordsInRange words from to).
Proof.
  intros Hw. unfold Editing._wordsInRange. apply List.Forall_forall.
  intros w Hin. apply filter_In in Hin as [Hin Hr].
  apply andb_true_iff in Hr as [H1 H2].
  apply Z.leb_le in H1, H2.
  pose proof (proj1 (List.Forall_forall _ _) Hw w Hin). cbn beta in *. lia.
Qed.

Lemma baseSegments_spans (captions : list Caption.t) :
  forall rest i,
    (forall j c, rest !! j = Some c -> captions !! (i + j)%nat = Some c) ->
    Forall (fun s => CaptionLayer.spans captions (Editing.caption_id s)
                       (Editing.start_ms s) (Editing.end_ms s))
      (Editing.baseSegments i rest).
Proof.
  induction rest as [|c rest IH]; intros i Hrest; cbn [Editing.baseSegments];
    constructor.
  - cbn. exists c. split_and!; [|lia|lia].
    rewrite <- (Nat.add_0_r i). apply Hrest. reflexivity.
  - apply IH. intros j c' Hj. replace (S i + j)%nat with (i + S j)%nat by lia.
    apply Hrest. exact Hj.
Qed.

Lemma splitLoop_spans captions (s : Editing.Segment) (words : list Word.t)
    (fuel : nat) : forall cursor pieces,
  Forall (fun w => Word.start_ms w <= Word.end_ms w) words ->
  CaptionLayer.spans captions (Editing.caption_id s)
    (Editing.start_ms s) (Editing.end_ms s) ->
  Editing.start_ms s <= cursor ->
  Editing.splitLoop fuel s words cursor = Editing.Returned pieces ->
  Forall (fun t =>
            CaptionLayer.spans captions (Editing.caption_id t)
              (Editing.start_ms t) (Editing.end_ms t)
            /\ Forall (fun w => Editing.start_ms t <= Word.start_ms w
                                /\ Word.end_ms w <= Editing.end_ms t
                                /\ Word.start_ms w <= Word.end_ms w)
                 (Editing.words t))
    pieces.
Proof.
  induction fuel as [|fuel IH]; intros cursor pieces Hw Hs Hc H;
    cbn [Editing.splitLoop] in H;
    destruct (cursor <? Editing.end_ms s) eqn:Elt; try discriminate;
    try (inversion H; constructor).
  cbv zeta in H.
  set (target := Z.min (cursor + Editing.MAX_SEGMENT_MS) (Editing.end_ms s)) in *.
  set (sliceEnd := match last (Editing._wordsInRange words cursor (target + 1)) with
                   | Some w => Z.min (Word.end_ms w) (Editing.end_ms s)
                   | None => target
                   end) in *.
  destruct (Z.leb_spec sliceEnd cursor) as [|Hgt]; [discriminate|].
  destruct (Editing.splitLoop fuel s words sliceEnd) as [rest | |] eqn:Er;
    cbn [Editing.bind] in H; try discriminate.
  inversion H; subst pieces.
  assert (Hend : sliceEnd <= Editing.end_ms s).
  { subst sliceEnd target. destruct (last _); lia. }
  constructor.
  - cbn. split; [eapply spans_mono; [exact Hs | lia | lia]|].
    apply wordsInRange_inside, Hw.
  - apply (IH sliceEnd rest Hw Hs ltac:(lia) Er).
Qed.

Lemma split_spans captions (words : list Word.t) (segments : list Editing.Segment) :
  forall out,
    Forall (fun w => Word.start_ms w <= Word.end_ms w) words ->
    Forall (fun s => CaptionLayer.spans captions (Editing.caption_id s)
                       (Editing.start_ms s) (Editing.end_ms s)) segments ->
    Editing._splitAtWordBoundaries segments words = Editing.Returned out ->
    Forall (fun t =>
              CaptionLayer.spans captions (Editing.caption_id t)
                (Editing.start_ms t) (Editing.end_ms t)
              /\ Forall (fun w => Editing.start_ms t <= Word.start_ms w
                                  /\ Word.end_ms w <= Editing.end_ms t
                                  /\ Word.start_ms w <= Word.end_ms w)
                   (Editing.words t))
      out.
Proof.
  induction segments as [|s rest IH]; intros out Hw Hall H;
    cbn [Editing._splitAtWordBoundaries] in H.
  - inversion H. constructor.
  - inversion Hall as [|? ? Hs Hrest]; subst.
    destruct (if Editing.end_ms s - Editing.start_ms s <=? Editing.MAX_SEGMENT_MS
              then _ else _) as [pieces | |] eqn:Ep;
      cbn [Editing.bind] in H; try discriminate.
    destruct (Editing._splitAtWordBoundaries rest words) as [out' | |] eqn:Er;
      cbn [Editing.bind] in H; try discriminate.
    inversion H; subst out. apply Forall_app. split; [|apply IH; auto].
    destruct (_ <=? _).
    + inversion Ep; subst pieces. constructor; [|constructor].
      cbn. split; [exact Hs | apply wordsInRange_inside, Hw].
    + eapply splitLoop_spans; [exact Hw | exact Hs | | exact Ep]. lia.
Qed.

Lemma isolateWords_spans captions (s : Editing.Segment) (words : list Word.t)
    (ws : list Word.t) : forall cursor,
  CaptionLayer.spans captions (Editing.caption_id s)
    (Editing.start_ms s) (Editing.end_ms s) ->
  Forall (fun w => Editing.start_ms s <= Word.start_ms w
                   /\ Word.end_ms w <= Editing.end_ms s
                   /\ Word.start_ms w <= Word.end_ms w) ws ->
  Editing.start_ms s <= cursor ->
  Forall (fun t => CaptionLayer.spans captions (Editing.caption_id t)
                     (Editing.start_ms t) (Editing.end_ms t))
    (fst (Editing.isolateWords s words cursor ws))
  /\ Editing.start_ms s <= snd (Editing.isolateWords s words cursor ws).
Proof.
  induction ws as [|w ws IH]; intros cursor Hs Hws Hc; cbn [Editing.isolateWords].
  - split; [constructor | exact Hc].
  - inversion Hws as [|? ? (H1 & H2 & H3) Hrest]; subst.
    destruct (Word.emphasis w); [|apply IH; auto].
    destruct (IH (Word.end_ms w) Hs Hrest ltac:(lia)) as [Hout Hfinal].
    destruct (Editing.isolateWords s words (Word.end_ms w) ws) as [rest final].
    cbn [fst snd] in *. split; [|exact Hfinal].
    apply Forall_app. split.
    + destruct (cursor <? Word.start_ms w); constructor; [|constructor].
      cbn. eapply spans_mono; [exact Hs | lia | lia].
    + constructor; [|exact Hout].
      cbn. eapply spans_mono; [exact Hs | lia | lia].
Qed.

Lemma isolate_spans captions (words : list Word.t) (segments : list Editing.Segment) :
  Forall (fun t =>
            CaptionLayer.spans captions (Editing.caption_id t)
              (Editing.start_ms t) (Editing.end_ms t)
            /\ Forall (fun w => Editing.start_ms t <= Word.start_ms w
                                /\ Word.end_ms w <= Editing.end_ms t
                                /\ Word.start_ms w <= Word.end_ms w)
                 (Editing.words t))
    segments ->
  Forall (fun t => CaptionLayer.spans captions (Editing.caption_id t)
                     (Editing.start_ms t) (Editing.end_ms t))
    (Editing._isolateEmphasis segments words).
Proof.
  unfold Editing._isolateEmphasis. induction 1 as [|s rest [Hs Hws] _ IH];
    cbn [map concat]; [constructor|].
  apply Forall_app. split; [|exact IH].
  unfold Editing.isolateOne.
  destruct (List.filter Word.emphasis (Editing.words s)); [constructor; auto|].
  destruct (isolateWords_spans captions s words (Editing.words s)
              (Editing.start_ms s) Hs Hws ltac:(lia)) as [Hout Hfinal].
  destruct (Editing.isolateWords s words (Editing.start_ms s) (Editing.words s))
    as [out cursor].
  cbn [fst snd] in *.
  destruct (cursor <? Editing.end_ms s); [|exact Hout].
  apply Forall_app. split; [exact Hout|]. constructor; [|constructor].
  cbn. eapply spans_mono; [exact Hs | lia | lia].
Qed.

Lemma fillGap_spans captions visuals (mkId : nat -> Editing.CaptionId) missing
    gapEnd (fuel : nat) : forall gapStart idx out,
  (forall k i, mkId k <> Editing.Cap i) ->
  Editing.fillGap fuel visuals mkId missing gapStart gapEnd idx
  = Editing.Returned out ->
  Forall (fun t => CaptionLayer.spans captions (Editing.caption_id t)
                     (Editing.start_ms t) (Editing.end_ms t))
    (fst out).
Proof.
  induction fuel as [|fuel IH]; intros gapStart idx out Hid H;
    cbn [Editing.fillGap] in H;
    destruct (gapStart <? gapEnd); try discriminate;
    try (inversion H; constructor).
  destruct (Editing._findVisualForTime visuals gapStart); [|discriminate].
  destruct (Editing.fillGap fuel visuals mkId missing _ gapEnd (S idx))
    as [r | |] eqn:Er; cbn [Editing.bind] in H; try discriminate.
  inversion H; subst out. cbn [fst]. constructor; [|eapply IH; eauto].
  cbn. specialize (Hid idx). destruct (mkId idx); cbn; auto. congruence.
Qed.

Lemma fillLoop_spans captions visuals (segments : list Editing.Segment) :
  forall expected idx out,
    Forall (fun t => CaptionLayer.spans captions (Editing.caption_id t)
                       (Editing.start_ms t) (Editing.end_ms t)) segments ->
    Editing.fillLoop visuals segments expected idx = Editing.Returned out ->
    Forall (fun t => CaptionLayer.spans captions (Editing.caption_id t)
                       (Editing.start_ms t) (Editing.end_ms t))
      (fst out).
Proof.
  induction segments as [|s rest IH]; intros expected idx out Hall H;
    cbn [Editing.fillLoop] in H.
  - inversion H. constructor.
  - inversion Hall as [|? ? Hs Hrest]; subst.
    destruct (if expected + 20 <? Editing.start_ms s then _ else _)
      as [fillers | |] eqn:Ef; cbn [Editing.bind] in H; try discriminate.
    destruct (Editing.fillLoop visuals rest (Editing.end_ms s) (snd fillers))
      as [r | |] eqn:Er; cbn [Editing.bind] in H; try discriminate.
    inversion H; subst out. cbn [fst]. apply Forall_app. split.
    + destruct (expected + 20 <? Editing.start_ms s).
      * eapply fillGap_spans; [|exact Ef]. intros; discriminate.
      * destruct (Editing.start_ms s <? expected - 20); [discriminate|].
        inversion Ef. constructor.
    + constructor; [exact Hs | eapply IH; eauto].
Qed.

Lemma fillGaps_spans captions segments visuals total out :
  Forall (fun t => CaptionLayer.spans captions (Editing.caption_id t)
                     (Editing.start_ms t) (Editing.end_ms t)) segments ->
  Editing._fillGapsDeterministically segments visuals total = Editing.Returned out ->
  Forall (fun t => CaptionLayer.spans captions (Editing.caption_id t)
                     (Editing.start_ms t) (Editing.end_ms t)) out.
Proof.
  unfold Editing._fillGapsDeterministically. intros Hall H.
  destruct (Editing.fillLoop visuals _ 0 0) as [[out' expected] | |] eqn:El;
    cbn [Editing.bind] in H; try discriminate.
  assert (Hout : Forall (fun t => CaptionLayer.spans captions (Editing.caption_id t)
                                    (Editing.start_ms t) (Editing.end_ms t)) out').
  { apply (fillLoop_spans captions visuals
             (Editing.sort_by Editing.start_ms segments) 0 0%nat (out', expected));
      [|exact El].
    eapply Permutation_Forall; [symmetry; apply sort_by_perm | exact Hall]. }
  destruct (expected <? total - 20).
  - destruct (Editing.fillGap _ _ _ _ _ _ _) as [tail | |] eqn:Et;
      cbn [Editing.bind] in H; try discriminate.
    inversion H; subst. apply Forall_app. split; [exact Hout|].
    eapply fillGap_spans; [|exact Et]. intros; discriminate.
  - inversion H; subst. exact Hout.
Qed.

Lemma attachVisuals_spans captions visuals segments : forall entries,
  Forall (fun t => CaptionLayer.spans captions (Editing.caption_id t)
                     (Editing.start_ms t) (Editing.end_ms t)) segments ->
  Editing.attachVisuals visuals segments = Editing.Returned entries ->
  Forall (fun e => CaptionLayer.spans captions (Editing.e_caption_id e)
                     (Editing.e_start_ms e) (Editing.e_end_ms e)) entries.
Proof.
  induction segments as [|s rest IH]; intros entries Hall H;
    cbn [Editing.attachVisuals] in H.
  - inversion H. constructor.
  - inversion Hall as [|? ? Hs Hrest]; subst.
    destruct (Editing._findVisualForTime visuals (Editing.start_ms s)); [|discriminate].
    destruct (Editing.attachVisuals visuals rest) as [entries' | |];
      cbn [Editing.bind] in H; try discriminate.
    inversion H; subst. constructor; [exact Hs | apply IH; auto].
Qed.

Lemma applyEmphasis_frame (e : Editing.Entry) :
  Editing.e_caption_id (Editing.applyEmphasis e) = Editing.e_caption_id e
  /\ Editing.e_start_ms (Editing.applyEmphasis e) = Editing.e_start_ms e
  /\ Editing.e_end_ms (Editing.applyEmphasis e) = Editing.e_end_ms e.
Proof.
  unfold Editing.applyEmphasis.
  destruct (Editing._words e) as [|w [|w' ws]]; try destruct (Word.emphasis w);
    match goal with
    | |- context [Editing._caption ?x] =>
        destruct (Editing._caption x); [|auto];
        destruct (0 <? _)%nat; [|auto]; destruct (Qeq_bool _ _); auto
    end.
Qed.

(** The segments of a valid plan that carry the id of a caption lie within
    the span of that caption. *)
Lemma valid_plan_spans inputs plan a captions :
  Editing.generateEditPlan inputs = Editing.Returned (Editing.Valid plan) ->
  Editing.audio inputs = Some a ->
  Editing.captions inputs = Some captions ->
  Forall (fun w => Word.start_ms w <= Word.end_ms w) (Editing.timestamps a) ->
  Forall (fun p => CaptionLayer.spans captions (Editing.p_caption_id p)
                     (Editing.p_start_ms p) (Editing.p_end_ms p)) plan.
Proof.
  intros H Ha Hc Hw.
  destruct (generateEditPlan_valid_inv inputs plan H)
    as (a' & c' & v & segs & segs' & entries & entries'
        & Ha' & Hc' & Hv & Hsplit & Hfill & Hattach & Hloop & _ & ->).
  rewrite Ha in Ha'. inversion Ha'; subst a'.
  rewrite Hc in Hc'. inversion Hc'; subst c'.
  pose proof (baseSegments_spans captions captions 0 ltac:(auto)) as H0.
  pose proof (split_spans captions _ _ _ Hw H0 Hsplit) as H1.
  pose proof (isolate_spans captions (Editing.timestamps a) _ H1) as H2.
  pose proof (fillGaps_spans captions _ _ _ _ H2 Hfill) as H3.
  pose proof (attachVisuals_spans captions _ _ _ H3 Hattach) as H4.
  assert (H5 : Forall (fun e => CaptionLayer.spans captions (Editing.e_caption_id e)
                                  (Editing.e_start_ms e) (Editing.e_end_ms e))
                 (map Editing.applyEmphasis entries)).
  { apply Forall_map. eapply List.Forall_impl; [|exact H4].
    intros e He. cbn. destruct (applyEmphasis_frame e) as (-> & -> & ->). exact He. }
  eapply patternLoop_Forall in Hloop; [| |exact H5]; [|intros e He _; exact He].
  apply Forall_map.
  eapply Permutation_Forall; [symmetry; apply sort_by_perm | exact Hloop].
Qed.

Lemma captionTimings_drawn captions (plan : list Editing.Planned) :
  Forall (fun p => CaptionLayer.spans captions (Editing.p_caption_id p)
                     (Editing.p_start_ms p) (Editing.p_end_ms p)) plan ->
  Forall2 (CaptionLayer.drawn captions)
    (List.filter CaptionLayer.isCaption plan)
    (CaptionLayer.captionTimings captions plan).
Proof.
  unfold CaptionLayer.captionTimings.
  induction 1 as [|p plan Hp _ IH]; cbn [List.filter omap list_omap]; [constructor|].
  unfold CaptionLayer.isCaption, CaptionLayer.timingOf.
  destruct (Editing.p_caption_id p) as [i | k | k] eqn:Eid; try exact IH.
  destruct Hp as (c & Hc & H1 & H2). rewrite Hc.
  constructor; [|exact IH].
  exists i, c. cbn. split_and!; auto.
Qed.

(** X26: the caption layer drawn for a valid edit plan, made from words
    that do not end before they start, has one text for each segment that
    carries the id of a caption, none being dropped: the text of that
    caption, from the start of the segment to its end, which both lie
    within the time span of the caption. *)
Theorem captions_drawn_within_their_span (inputs : Editing.Inputs)
    (plan : list Editing.Planned) (a : Editing.AudioIn)
    (captions : list Caption.t) :
  Editing.generateEditPlan inputs = Editing.Returned (Editing.Valid plan) ->
  Editing.audio inputs = Some a ->
  Editing.captions inputs = Some captions ->
  Forall (fun w => Word.start_ms w <= Word.end_ms w) (Editing.timestamps a) ->
  Forall2 (CaptionLayer.drawn captions)
    (List.filter CaptionLayer.isCaption plan)
    (CaptionLayer.captionTimings captions plan).
Proof.
  intros H Ha Hc Hw. apply captionTimings_drawn.
  exact (valid_plan_spans inputs plan a captions H Ha Hc Hw).
Qed.

Lemma captions_drawn_within_their_span_witness :
  exists plan captions,
    Editing.generateEditPlan Editing.demo_inputs
    = Editing.Returned (Editing.Valid plan)
    /\ CaptionLayer.captionTimings captions plan <> []
    /\ Forall2 (CaptionLayer.drawn captions)
         (List.filter CaptionLayer.isCaption plan)
         (CaptionLayer.captionTimings captions plan).
Proof.
  destruct (Editing.generateEditPlan Editing.demo_inputs) as [[errs | plan] | |] eqn:E;
    try (vm_compute in E; discriminate).
  destruct (Editing.captions Editing.demo_inputs) as [captions|] eqn:Ec;
    [|vm_compute in Ec; discriminate].
  exists plan, captions. split_and!; [reflexivity | |].
  - vm_compute in E, Ec. inversion E; inversion Ec; subst. discriminate.
  - apply (captions_drawn_within_their_span Editing.demo_inputs plan
             Editing.demo_audio captions E eq_refl Ec).
    repeat constructor; vm_compute; discriminate.
Defined.

(** ** The video layer of the renderer *)

Lemma Qfloor_half_bounds (k : Z) :
  0 <= k -> 0 <= Qfloor (inject_Z k / 2) <= k.
Proof.
  intros Hk.
  assert (H0 : (0 <= inject_Z k)%Q) by (change 0%Q with (inject_Z 0); rewrite <- Zle_Qle; lia).
  split.
  - change 0 with (Qfloor 0). apply Qfloor_resp_le.
    apply Qle_shift_div_l; lra.
  - rewrite <- (Qfloor_Z k) at 2. apply Qfloor_resp_le.
    apply Qle_shift_div_r; lra.
Qed.

(** A frame scaled by a zoom of at least 1 is no smaller than the
    target. *)
Lemma scaled_covers (target : Z) (zoom : Q) :
  0 <= target < 2 ^ 53 -> (1 <= zoom)%Q ->
  target <= Qfloor (Double.round (inject_Z target * Double.round zoom)).
Proof.
  intros Ht Hz.
  assert (Hz' : (1 <= Double.round zoom)%Q).
  { change 1%Q with (inject_Z 1). apply round_ge; [lia | exact Hz]. }
  assert (Ht' : (0 <= inject_Z target)%Q).
  { change 0%Q with (inject_Z 0). rewrite <- Zle_Qle. lia. }
  rewrite <- (Qfloor_Z target) at 1. apply Qfloor_resp_le.
  apply round_ge; [lia|].
  nra.
Qed.

(** For a zoom of at least 1 the crop stays within the scaled frame,
    whatever the pan. *)
Lemma crop_within_frame (inputIdx : option nat) (zoom : Q) (pan : string) :
  (1 <= zoom)%Q ->
  let chain := Render._buildNormalizationChain inputIdx zoom pan in
  0 <= Render.cropX chain
  /\ Render.cropX chain + Render.TARGET_WIDTH <= Render.scaledW chain
  /\ 0 <= Render.cropY chain
  /\ Render.cropY chain + Render.TARGET_HEIGHT <= Render.scaledH chain.
Proof.
  intros Hz. cbn zeta. unfold Render._buildNormalizationChain.
  destruct (Qeq_bool zoom 0) eqn:E0; [apply Qeq_bool_iff in E0; lra|].
  unfold Render.TARGET_WIDTH, Render.TARGET_HEIGHT.
  cbn [Render.cropX Render.cropY Render.scaledW Render.scaledH].
  pose proof (scaled_covers 1080 zoom ltac:(lia) Hz) as HW.
  pose proof (scaled_covers 1920 zoom ltac:(lia) Hz) as HH.
  set (W := Qfloor (Double.round (inject_Z 1080 * Double.round zoom))) in *.
  set (H := Qfloor (Double.round (inject_Z 1920 * Double.round zoom))) in *.
  pose proof (Qfloor_half_bounds (W - 1080) ltac:(lia)) as HX.
  pose proof (Qfloor_half_bounds (H - 1920) ltac:(lia)) as HY.
  unfold Render._getPanOffset. cbn zeta.
  repeat (case_match; cbn [Render.x Render.y]);
    rewrite ?Qfloor_Z; change (Qfloor 0) with 0; lia.
Qed.

(** The first loop of [_buildVideoLayer] gives every clip id of the plan
    that the visual timeline knows, [__proto__] apart, an index, and the
    indices count clips of the timeline with distinct ids. *)
Lemma collect_inputs_step visuals (st : Render.Inputs) (entry : Editing.Planned) :
  Render.inputIndex st = length (Render.clipInputs st) ->
  (forall id, id ∈ Render.seenClips st -> id <> "__proto__" ->
              is_Some (Render.inputMap st !! id)) ->
  (forall id i, Render.inputMap st !! id = Some i -> (i < Render.inputIndex st)%nat) ->
  (forall clip, In clip (Render.clipInputs st) ->
                In clip visuals /\ Visual.clip_id clip ∈ Render.seenClips st) ->
  NoDup (map Visual.clip_id (Render.clipInputs st)) ->
  let st' := Render.inputStep visuals st entry in
  Render.inputIndex st' = length (Render.clipInputs st')
  /\ (forall id, id ∈ Render.seenClips st' -> id <> "__proto__" ->
                 is_Some (Render.inputMap st' !! id))
  /\ (forall id i, Render.inputMap st' !! id = Some i ->
                   (i < Render.inputIndex st')%nat)
  /\ (forall clip, In clip (Render.clipInputs st') ->
                   In clip visuals /\ Visual.clip_id clip ∈ Render.seenClips st')
  /\ NoDup (map Visual.clip_id (Render.clipInputs st'))
  /\ (forall id, is_Some (Render.inputMap st !! id) ->
                 is_Some (Render.inputMap st' !! id))
  /\ ((exists clip, In clip visuals
                    /\ Visual.clip_id clip = Editing.p_clip_id entry) ->
      Editing.p_clip_id entry <> "__proto__" ->
      is_Some (Render.inputMap st' !! Editing.p_clip_id entry)).
Proof.
  intros Hidx Hseen Hlt Hclips Hnd. cbn zeta. unfold Render.inputStep.
  destruct (bool_decide (Editing.p_clip_id entry ∈ Render.seenClips st)) eqn:Ed.
  { apply bool_decide_eq_true in Ed. split_and!; auto. }
  apply bool_decide_eq_false in Ed.
  destruct (List.find _ visuals) as [clip|] eqn:Ef.
  - apply find_some in Ef as [Hin Heq]. apply String.eqb_eq in Heq.
    cbn [Render.inputIndex Render.inputMap Render.clipInputs Render.seenClips].
    assert (Hclips' : forall c, In c (Render.clipInputs st ++ [clip]) ->
              In c visuals
              /\ Visual.clip_id c ∈ {[Editing.p_clip_id entry]} ∪ Render.seenClips st).
    { intros c Hc. apply in_app_or in Hc as [Hc | [<- | []]].
      - destruct (Hclips c Hc) as [H1 H2]. split; [exact H1|].
        apply elem_of_union. right. exact H2.
      - split; [exact Hin|]. apply elem_of_union. left.
        apply elem_of_singleton. exact Heq. }
    assert (Hnd' : NoDup (map Visual.clip_id (Render.clipInputs st ++ [clip]))).
    { rewrite map_app. cbn [map]. apply NoDup_app. split; [exact Hnd|].
      split; [|apply NoDup_singleton].
      intros x Hx Hx'. apply list_elem_of_singleton in Hx'. subst x.
      apply list_elem_of_In, in_map_iff in Hx as (c & Hc & Hcin).
      apply Ed. rewrite <- Heq, <- Hc. apply Hclips, Hcin. }
    assert (Hlen : S (Render.inputIndex st)
                   = length (Render.clipInputs st ++ [clip])).
    { rewrite length_app. cbn [length]. lia. }
    destruct (String.eqb_spec (Editing.p_clip_id entry) "__proto__") as [Hp | Hp].
    + split_and!; auto.
      * intros id H Hne. apply elem_of_union in H as [H | H]; [|apply Hseen; auto].
        apply elem_of_singleton in H. congruence.
      * intros id i Hl. specialize (Hlt id i Hl). lia.
      * intros _ Hne. congruence.
    + split_and!; auto.
      * intros id H Hne. apply lookup_insert_is_Some.
        destruct (decide (Editing.p_clip_id entry = id)); [left; auto | right].
        split; [auto|]. apply elem_of_union in H as [H | H]; [|apply Hseen; auto].
        apply elem_of_singleton in H. congruence.
      * intros id i Hl. apply lookup_insert_Some in Hl as [[_ <-] | [_ Hl]];
          [lia | specialize (Hlt id i Hl); lia].
      * intros id H. apply lookup_insert_is_Some.
        destruct (decide (Editing.p_clip_id entry = id)); [left; auto | right; auto].
      * intros _ _. rewrite lookup_insert_eq. eauto.
  - split_and!; auto.
    intros (clip & Hin & Hid) _.
    pose proof (find_none _ _ Ef clip Hin) as Hnone. cbn in Hnone.
    rewrite Hid, String.eqb_refl in Hnone. discriminate.
Qed.

Lemma collect_inputs_fold visuals (plan : list Editing.Planned) : forall st,
  Render.inputIndex st = length (Render.clipInputs st) ->
  (forall id, id ∈ Render.seenClips st -> id <> "__proto__" ->
              is_Some (Render.inputMap st !! id)) ->
  (forall id i, Render.inputMap st !! id = Some i -> (i < Render.inputIndex st)%nat) ->
  (forall clip, In clip (Render.clipInputs st) ->
                In clip visuals /\ Visual.clip_id clip ∈ Render.seenClips st) ->
  NoDup (map Visual.clip_id (Render.clipInputs st)) ->
  let final := fold_left (Render.inputStep visuals) plan st in
  (forall id i, Render.inputMap final !! id = Some i ->
                (i < length (Render.clipInputs final))%nat)
  /\ (forall clip, In clip (Render.clipInputs final) -> In clip visuals)
  /\ NoDup (map Visual.clip_id (Render.clipInputs final))
  /\ (forall id, is_Some (Render.inputMap st !! id) ->
                 is_Some (Render.inputMap final !! id))
  /\ (forall entry, In entry plan ->
        (exists clip, In clip visuals
                      /\ Visual.clip_id clip = Editing.p_clip_id entry) ->
        Editing.p_clip_id entry <> "__proto__" ->
        is_Some (Render.inputMap final !! Editing.p_clip_id entry)).
Proof.
  induction plan as [|e plan IH]; intros st Hidx Hseen Hlt Hclips Hnd;
    cbn [fold_left].
  - split_and!; auto.
    + intros id i Hl. rewrite <- Hidx. eapply Hlt, Hl.
    + intros clip Hc. apply Hclips, Hc.
    + intros entry [].
  - destruct (collect_inputs_step visuals st e Hidx Hseen Hlt Hclips Hnd)
      as (Hidx' & Hseen' & Hlt' & Hclips' & Hnd' & Hkeep & Hnew).
    destruct (IH _ Hidx' Hseen' Hlt' Hclips' Hnd') as (H1 & H2 & H3 & Hk & Hall).
    split_and!; auto.
    intros entry [<- | Hin] Hfind Hne;
      [apply Hk, Hnew; assumption | apply Hall; assumption].
Qed.

(** Clips with distinct ids whose files differ with their ids are no more
    than the visual inputs of the command. *)
Lemma inputs_suffice (resolve : string -> string) (visuals clips : list Visual.Clip) :
  (forall c d, In c visuals -> In d visuals ->
     resolve (Visual.file_path c) = resolve (Visual.file_path d) ->
     Visual.clip_id c = Visual.clip_id d) ->
  (forall c, In c clips -> In c visuals) ->
  NoDup (map Visual.clip_id clips) ->
  (length clips <= length (Render.uniqueAssetPaths resolve visuals))%nat.
Proof.
  intros Hinj Hsub Hnd.
  rewrite <- (length_map (fun a => resolve (Visual.file_path a)) clips).
  apply NoDup_incl_length.
  - apply NoDup_ListNoDup.
    revert Hsub Hnd. induction clips as [|c clips IH]; intros Hsub Hnd;
      cbn [map]; [constructor|].
    cbn [map] in Hnd. apply NoDup_cons in Hnd as [Hc Hnd].
    apply NoDup_cons. split; [|apply IH; [intros; apply Hsub; right|]; assumption].
    intros Hin. apply Hc.
    apply list_elem_of_In, in_map_iff in Hin as (d & Hd & Hdin).
    apply list_elem_of_In, in_map_iff. exists d. split; [|exact Hdin].
    apply Hinj; [apply Hsub; right; exact Hdin | apply Hsub; left; reflexivity | exact Hd].
  - intros p Hp. apply in_map_iff in Hp as (c & <- & Hc).
    unfold Render.uniqueAssetPaths. apply unique_In.
    apply in_map_iff. exists c. split; [reflexivity | apply Hsub, Hc].
Qed.

(** X22: the video layer built for a valid edit plan and the visual
    timeline it was made from, in which no clip has the id [__proto__] and
    clips of different ids have different files: the chain of every segment
    names, by its position, one of the visual inputs that the command
    lists, and its crop of 1080 by 1920 lies within the frame scaled by the
    zoom of the segment. *)
Theorem video_layer_of_valid_plan (resolve : string -> string)
    (inputs : Editing.Inputs) (plan : list Editing.Planned)
    (visuals : list Visual.Clip) :
  Editing.generateEditPlan inputs = Editing.Returned (Editing.Valid plan) ->
  Editing.visuals inputs = Some visuals ->
  Forall (fun clip => Visual.clip_id clip <> "__proto__") visuals ->
  (forall c d, In c visuals -> In d visuals ->
     resolve (Visual.file_path c) = resolve (Visual.file_path d) ->
     Visual.clip_id c = Visual.clip_id d) ->
  length (Render._buildVideoLayer plan visuals) = length plan
  /\ Forall (Render.chain_ok (length (Render.uniqueAssetPaths resolve visuals)))
       (Render._buildVideoLayer plan visuals).
Proof.
  intros Hplan Hv Hids Hinj.
  destruct (valid_plan_entries_ok inputs plan Hplan) as (v & Hv' & Hall).
  rewrite Hv in Hv'. inversion Hv'; subst v.
  unfold Render._buildVideoLayer, Render.collectInputs.
  split; [apply length_map|].
  destruct (collect_inputs_fold visuals plan
              {| Render.inputIndex := 0; Render.inputMap := ∅;
                 Render.clipInputs := []; Render.seenClips := ∅ |}
              eq_refl)
    as (Hlt & Hsub & Hnd & _ & Hmapped).
  { intros id Hid. cbn in Hid. set_solver. }
  { intros id i Hl. cbn in Hl. rewrite lookup_empty in Hl. discriminate. }
  { intros clip []. }
  { constructor. }
  set (final := fold_left (Render.inputStep visuals) plan _) in *.
  pose proof (inputs_suffice resolve visuals (Render.clipInputs final) Hinj Hsub Hnd)
    as Hlen.
  apply Forall_map, List.Forall_forall. intros p Hin.
  pose proof (proj1 (List.Forall_forall _ _) Hall p Hin)
    as [Htr (clip & Hfind & Hid)].
  unfold Editing._findVisualForTime in Hfind. apply find_some in Hfind as [Hclip _].
  split.
  - destruct (Hmapped p Hin) as [idx Hidx].
    { exists clip. auto. }
    { rewrite Hid. exact (proj1 (List.Forall_forall _ _) Hids clip Hclip). }
    exists idx. cbn [Render._buildNormalizationChain Render.input].
    split; [exact Hidx|]. specialize (Hlt _ _ Hidx). lia.
  - apply crop_within_frame.
    unfold PlanShape.transform_ok in Htr.
    destruct (Editing.p_reason p); destruct Htr as [-> _];
      unfold Editing.BASE_ZOOM, Editing.EMPHASIS_ZOOM; lra.
Qed.

Lemma video_layer_of_valid_plan_witness :
  exists plan visuals,
    Editing.generateEditPlan Editing.demo_inputs
    = Editing.Returned (Editing.Valid plan)
    /\ Editing.visuals Editing.demo_inputs = Some visuals
    /\ plan <> []
    /\ length (Render._buildVideoLayer plan visuals) = length plan
    /\ Forall (Render.chain_ok
                 (length (Render.uniqueAssetPaths (fun p => p) visuals)))
         (Render._buildVideoLayer plan visuals).
Proof.
  eexists. eexists. split; [vm_compute; reflexivity|]. split; [reflexivity|].
  split; [discriminate|].
  apply (video_layer_of_valid_plan (fun p => p) Editing.demo_inputs);
    [reflexivity | reflexivity | repeat constructor; discriminate |].
  intros c d [<- | []] [<- | []] _. reflexivity.
Defined.
